(** * gotree: phylogenetic trees and transfer-bootstrap (Booster) support.

    A shallow embedding of the [tree] package (nodes, oriented edges, tip
    index, bitsets, tip removal, multifurcation resolution) and of the
    [support] package (the Booster supporter and its two post-order passes),
    followed by the properties established about them.

    Go pointers are indices into the two arenas owned by a tree; [nil] is
    [None].  A Go run-time panic (nil dereference, index out of range) is the
    outcome [Panic]; recursion is bounded by an explicit budget and [NoFuel]
    is the outcome of exhausting it. *)

From Stdlib Require Import ZArith NArith List String Ascii Bool Lia Floats Sorted.
From stdpp Require Import base list gmap strings.

Set Warnings "-register-all".
Open Scope string_scope.
Open Scope list_scope.

(* ===================================================================== *)
(** ** Outcomes and the two small monads used by the model                *)
(* ===================================================================== *)

Inductive outcome (A : Type) : Type :=
| Ret (a : A)
| Panic (why : string)
| NoFuel.
Arguments Ret {A} a.
Arguments Panic {A} why.
Arguments NoFuel {A}.

Definition obind {A B} (c : outcome A) (k : A -> outcome B) : outcome B :=
  match c with
  | Ret a => k a
  | Panic w => Panic w
  | NoFuel => NoFuel
  end.

Notation "'let!' x ':=' c 'in' k" := (obind c (fun x => k))
  (at level 10, x pattern, c at level 100, k at level 200).

(** Left-to-right loop over a slice, threading an accumulator. *)
Fixpoint ofold {A B} (f : B -> A -> outcome B) (l : list A) (b : B) : outcome B :=
  match l with
  | [] => Ret b
  | x :: l => let! b := f b x in ofold f l b
  end.

(** Loop over a slice with the range index, as [for i, x := range l]. *)
Fixpoint ofoldi {A B} (f : B -> nat -> A -> outcome B) (i : nat) (l : list A) (b : B)
  : outcome B :=
  match l with
  | [] => Ret b
  | x :: l => let! b := f b i x in ofoldi f (S i) l b
  end.

Definition nil_deref : string := "invalid memory address or nil pointer dereference".
Definition out_of_range : string := "index out of range".

Definition of_option {A} (why : string) (o : option A) : outcome A :=
  match o with Some a => Ret a | None => Panic why end.

(** Go's [error] values: [errors.New] of a fixed message, or of a message
    built by [fmt.Sprintf] from a format and its integer arguments. *)
Inductive error : Type :=
| errorsNew (msg : string)
| errorf (format : string) (args : list Z).

(* ===================================================================== *)
(** ** Package tree: data model                                           *)
(* ===================================================================== *)

Module tree.

Definition ptr := nat.

(** Sentinels of the package (edge.go and node.go). *)
Definition NIL_SUPPORT : float := (-1)%float.
Definition NIL_LENGTH : float := (-1)%float.
Definition NIL_PVALUE : float := (-1)%float.
Definition NIL_ID : Z := (-1)%Z.
Definition NIL_DEPTH : Z := (-1)%Z.

Record Node : Type := mkNode {
  n_name : string;
  n_comment : list string;
  n_neigh : list ptr;   (* neighbors *)
  n_br : list ptr;      (* incident edges, br[i] connects to neigh[i] *)
  n_depth : Z;
  n_id : Z
}.

Record Edge : Type := mkEdge {
  e_left : option ptr;
  e_right : option ptr;
  e_length : float;
  e_support : float;
  e_pvalue : float;
  e_id : Z;
  e_bitset : option (list bool)
}.

(** A tree owns its nodes and edges; [root] and [tipIndex] are the two
    fields of the Go struct. *)
Record Tree : Type := mkTree {
  nodes : list Node;
  edges : list Edge;
  root : option ptr;
  tipIndex : gmap string nat
}.

Definition set_nodes (t : Tree) (ns : list Node) : Tree :=
  mkTree ns (edges t) (root t) (tipIndex t).
Definition set_edges (t : Tree) (es : list Edge) : Tree :=
  mkTree (nodes t) es (root t) (tipIndex t).
Definition set_root (t : Tree) (r : option ptr) : Tree :=
  mkTree (nodes t) (edges t) r (tipIndex t).
Definition set_tipIndex (t : Tree) (m : gmap string nat) : Tree :=
  mkTree (nodes t) (edges t) (root t) m.

Definition with_neigh (n : Node) (ns es : list ptr) : Node :=
  mkNode (n_name n) (n_comment n) ns es (n_depth n) (n_id n).
Definition with_depth (n : Node) (d : Z) : Node :=
  mkNode (n_name n) (n_comment n) (n_neigh n) (n_br n) d (n_id n).
Definition with_name (n : Node) (s : string) : Node :=
  mkNode s (n_comment n) (n_neigh n) (n_br n) (n_depth n) (n_id n).

Definition with_ends (e : Edge) (l r : option ptr) : Edge :=
  mkEdge l r (e_length e) (e_support e) (e_pvalue e) (e_id e) (e_bitset e).
Definition with_length (e : Edge) (x : float) : Edge :=
  mkEdge (e_left e) (e_right e) x (e_support e) (e_pvalue e) (e_id e) (e_bitset e).
Definition with_support (e : Edge) (x : float) : Edge :=
  mkEdge (e_left e) (e_right e) (e_length e) x (e_pvalue e) (e_id e) (e_bitset e).
Definition with_pvalue (e : Edge) (x : float) : Edge :=
  mkEdge (e_left e) (e_right e) (e_length e) (e_support e) x (e_id e) (e_bitset e).
Definition with_id (e : Edge) (i : Z) : Edge :=
  mkEdge (e_left e) (e_right e) (e_length e) (e_support e) (e_pvalue e) i (e_bitset e).
Definition with_bitset (e : Edge) (b : option (list bool)) : Edge :=
  mkEdge (e_left e) (e_right e) (e_length e) (e_support e) (e_pvalue e) (e_id e) b.

(** Dereferences. *)
Definition node_at (t : Tree) (p : ptr) : outcome Node :=
  of_option nil_deref (nodes t !! p).
Definition edge_at (t : Tree) (p : ptr) : outcome Edge :=
  of_option nil_deref (edges t !! p).
Definition node_of (t : Tree) (p : option ptr) : outcome Node :=
  match p with Some p => node_at t p | None => Panic nil_deref end.

Definition put_node (t : Tree) (p : ptr) (n : Node) : Tree :=
  set_nodes t (<[p := n]> (nodes t)).
Definition put_edge (t : Tree) (p : ptr) (e : Edge) : Tree :=
  set_edges t (<[p := e]> (edges t)).

Definition ptr_eqb (a b : option ptr) : bool :=
  match a, b with
  | Some x, Some y => Nat.eqb x y
  | None, None => true
  | _, _ => false
  end.

(** [Initialize a new empty Tree] *)
Definition NewTree : Tree := mkTree [] [] None ∅.

(** [Initialize a new empty Node]: allocated at the end of the arena. *)
Definition NewNode (t : Tree) : ptr * Tree :=
  (length (nodes t),
   set_nodes t (nodes t ++ [mkNode "" [] [] [] NIL_DEPTH NIL_ID])).

(** [Initialize a new empty Edge] *)
Definition NewEdge (t : Tree) : ptr * Tree :=
  (length (edges t),
   set_edges t (edges t ++
     [mkEdge None None NIL_LENGTH NIL_SUPPORT NIL_PVALUE NIL_ID None])).

Definition SetRoot (t : Tree) (r : option ptr) : Tree := set_root t r.
Definition Root (t : Tree) : option ptr := root t.

(** Modelled from the spec: the methods of Node (node.go is not part of the
    sources): a node holds an ordered list of neighbors and a parallel list
    of incident edges; a node with exactly one incident edge is a tip. *)
Definition Node_Tip (n : Node) : bool := Nat.eqb (length (n_neigh n)) 1.
Definition Node_Nneigh (n : Node) : nat := length (n_neigh n).

(** [Rooted]: [t.root.Nneigh() == 2]. *)
Definition Rooted (t : Tree) : outcome bool :=
  let! r := node_of t (root t) in
  Ret (Nat.eqb (Node_Nneigh r) 2).

(** [edgesRecur] and [Edges]. *)
Fixpoint edgesRecur (fuel : nat) (t : Tree) (edge : ptr) (acc : list ptr)
  : outcome (list ptr) :=
  match fuel with
  | O => NoFuel
  | S fuel =>
    let! e := edge_at t edge in
    let! r := node_of t (e_right e) in
    if Nat.ltb 1 (length (n_neigh r)) then
      ofold (fun acc child =>
               let! c := edge_at t child in
               if ptr_eqb (e_left c) (e_right e)
               then edgesRecur fuel t child (acc ++ [child])
               else Ret acc)
            (n_br r) acc
    else Ret acc
  end.

Definition Edges_fuel (fuel : nat) (t : Tree) : outcome (list ptr) :=
  let! r := node_of t (Root t) in
  ofold (fun acc e => edgesRecur fuel t e (acc ++ [e])) (n_br r) [].

(** Every recursion of the package descends along the tree, so the number
    of nodes bounds its depth on an acyclic graph. *)
Definition budget (t : Tree) : nat := S (length (nodes t)).

Definition Edges (t : Tree) : outcome (list ptr) := Edges_fuel (budget t) t.

(** [internalEdgesRecur] and [InternalEdges]. *)
Definition Edge_Right_Tip (t : Tree) (e : Edge) : outcome bool :=
  let! r := node_of t (e_right e) in Ret (Node_Tip r).

Definition internalEdgesRecur (fuel : nat) (t : Tree) (edge : ptr) (acc : list ptr)
  : outcome (list ptr) :=
  let! e := edge_at t edge in
  let! r := node_of t (e_right e) in
  if Nat.ltb 1 (length (n_neigh r)) then
    ofold (fun acc child =>
             let! c := edge_at t child in
             if ptr_eqb (e_left c) (e_right e) then
               let! tip := Edge_Right_Tip t c in
               if negb tip then edgesRecur fuel t child (acc ++ [child])
               else Ret acc
             else Ret acc)
          (n_br r) acc
  else Ret acc.

Definition InternalEdges (t : Tree) : outcome (list ptr) :=
  let! r := node_of t (Root t) in
  ofold (fun acc e =>
           let! ed := edge_at t e in
           let! tip := Edge_Right_Tip t ed in
           if negb tip then internalEdgesRecur (budget t) t e (acc ++ [e])
           else Ret acc)
        (n_br r) [].

(** [tipEdgesRecur] and [TipEdges]. *)
Fixpoint tipEdgesRecur (fuel : nat) (t : Tree) (edge : ptr) (acc : list ptr)
  : outcome (list ptr) :=
  match fuel with
  | O => NoFuel
  | S fuel =>
    let! e := edge_at t edge in
    let! r := node_of t (e_right e) in
    if Nat.ltb 1 (length (n_neigh r)) then
      ofold (fun acc child =>
               let! c := edge_at t child in
               if ptr_eqb (e_left c) (e_right e) then
                 let! tip := Edge_Right_Tip t c in
                 tipEdgesRecur fuel t child (if tip then acc ++ [child] else acc)
               else Ret acc)
            (n_br r) acc
    else Ret acc
  end.

Definition TipEdges (t : Tree) : outcome (list ptr) :=
  let! r := node_of t (Root t) in
  ofold (fun acc e =>
           let! ed := edge_at t e in
           let! tip := Edge_Right_Tip t ed in
           tipEdgesRecur (budget t) t e (if tip then acc ++ [e] else acc))
        (n_br r) [].

(** [nodesRecur] and [Nodes]: a nil [cur] stands for the root. *)
Fixpoint nodesRecur (fuel : nat) (t : Tree) (acc : list ptr) (cur prev : option ptr)
  : outcome (list ptr) :=
  match fuel with
  | O => NoFuel
  | S fuel =>
    let cur := match cur with None => Root t | Some _ => cur end in
    let! c := of_option nil_deref cur in
    let! n := node_at t c in
    ofold (fun acc nb =>
             if negb (ptr_eqb (Some nb) prev)
             then nodesRecur fuel t acc (Some nb) (Some c)
             else Ret acc)
          (n_neigh n) (acc ++ [c])
  end.

Definition Nodes (t : Tree) : outcome (list ptr) :=
  nodesRecur (budget t) t [] None None.

(** [tipsRecur] and [Tips]. *)
Fixpoint tipsRecur (fuel : nat) (t : Tree) (acc : list ptr) (cur prev : option ptr)
  : outcome (list ptr) :=
  match fuel with
  | O => NoFuel
  | S fuel =>
    let cur := match cur with None => Root t | Some _ => cur end in
    let! n := node_of t cur in
    let! c := of_option nil_deref cur in
    ofold (fun acc nb =>
             if negb (ptr_eqb (Some nb) prev)
             then tipsRecur fuel t acc (Some nb) (Some c)
             else Ret acc)
          (n_neigh n) (if Node_Tip n then acc ++ [c] else acc)
  end.

Definition Tips (t : Tree) : outcome (list ptr) :=
  tipsRecur (budget t) t [] None None.

(** [allTipNamesRecur] and [AllTipNames]. *)
Fixpoint allTipNamesRecur (fuel : nat) (t : Tree) (names : list string)
  (n parent : option ptr) : outcome (list string) :=
  match fuel with
  | O => NoFuel
  | S fuel =>
    let n := match n with None => Root t | Some _ => n end in
    let! nd := node_of t n in
    if Nat.eqb (length (n_neigh nd)) 1 then Ret (names ++ [n_name nd])
    else
      ofold (fun names child =>
               if negb (ptr_eqb (Some child) parent)
               then allTipNamesRecur fuel t names (Some child) n
               else Ret names)
            (n_neigh nd) names
  end.

Definition AllTipNames (t : Tree) : outcome (list string) :=
  allTipNamesRecur (budget t) t [] None None.

(* --------------------------------------------------------------------- *)
(** *** Functions that edit the tree: a state monad over [Tree]           *)
(* --------------------------------------------------------------------- *)

Definition M (A : Type) : Type := Tree -> outcome (A * Tree).

Definition mret {A} (a : A) : M A := fun t => Ret (a, t).
Definition mbind {A B} (c : M A) (k : A -> M B) : M B :=
  fun t => match c t with
           | Ret (a, t') => k a t'
           | Panic w => Panic w
           | NoFuel => NoFuel
           end.
Definition mpanic {A} (why : string) : M A := fun _ => Panic why.
Definition mnofuel {A} : M A := fun _ => NoFuel.
Definition mread {A} (f : Tree -> outcome A) : M A :=
  fun t => let! a := f t in Ret (a, t).
Definition mwrite (f : Tree -> Tree) : M unit := fun t => Ret (tt, f t).

Notation "'let*' x ':=' c 'in' k" := (mbind c (fun x => k))
  (at level 10, x pattern, c at level 100, k at level 200).
Notation "c ';;' k" := (mbind c (fun _ => k))
  (at level 100, k at level 200, right associativity).
(** [if err := c; err != nil { return err }] *)
Notation "'try*' c 'in' k" :=
  (mbind c (fun err => match err with Some e => mret (Some e) | None => k end))
  (at level 10, c at level 100, k at level 200).

Fixpoint mfold {A B} (f : B -> A -> M B) (l : list A) (b : B) : M B :=
  match l with
  | [] => mret b
  | x :: l => let* b := f b x in mfold f l b
  end.

Fixpoint mfoldi {A B} (f : B -> nat -> A -> M B) (i : nat) (l : list A) (b : B) : M B :=
  match l with
  | [] => mret b
  | x :: l => let* b := f b i x in mfoldi f (S i) l b
  end.

Definition get_node (p : ptr) : M Node := mread (fun t => node_at t p).
Definition get_edge (p : ptr) : M Edge := mread (fun t => edge_at t p).
Definition get_node_of (p : option ptr) : M Node := mread (fun t => node_of t p).
Definition upd_node (p : ptr) (f : Node -> Node) : M unit :=
  let* n := get_node p in mwrite (fun t => put_node t p (f n)).
Definition upd_edge (p : ptr) (f : Edge -> Edge) : M unit :=
  let* e := get_edge p in mwrite (fun t => put_edge t p (f e)).

(** Modelled from the spec: [NodeIndex], [delNeighbor] and [addChild] of
    node.go, which is not part of the sources.  [edges[i]] connects to
    [neighbors[i]]: a neighbor is looked up by position, removed together
    with the edge at the same position, and added at the end of both lists. *)
Fixpoint index_of (x : ptr) (l : list ptr) : option nat :=
  match l with
  | [] => None
  | y :: l => if Nat.eqb y x then Some 0 else S <$> index_of x l
  end.

Definition NodeIndex (n : Node) (next : ptr) : nat + error :=
  match index_of next (n_neigh n) with
  | Some i => inl i
  | None => inr (errorsNew "The Node is not in the neighbors of node")
  end.

Definition delNeighbor (n : option ptr) (n2 : ptr) : M (option error) :=
  let* p := mread (fun _ => of_option nil_deref n) in
  let* nd := get_node p in
  match NodeIndex nd n2 with
  | inr e => mret (Some e)
  | inl i =>
    if Nat.ltb i (length (n_br nd)) then
      upd_node p (fun nd => with_neigh nd (delete i (n_neigh nd)) (delete i (n_br nd)));;
      mret None
    else mpanic out_of_range
  end.

Definition addChild (p n e : ptr) : M unit :=
  upd_node p (fun nd => with_neigh nd (n_neigh nd ++ [n]) (n_br nd ++ [e])).

(** [delNode]: set to nil the node and all its branches. *)
Definition delNode (n : ptr) : M unit :=
  let* nd := get_node n in
  upd_node n (fun nd => with_neigh nd [] (n_br nd));;
  mfold (fun _ e => upd_edge e (fun ed => with_ends ed None None)) (n_br nd) tt;;
  upd_node n (fun nd => with_neigh nd [] []).

(** [ConnectNodes]: connects the two nodes by a new edge that is returned. *)
Definition ConnectNodes (parent child : ptr) : M ptr :=
  let* newedge := (fun t => Ret (NewEdge t)) in
  upd_edge newedge (fun e => with_ends e (Some parent) (e_right e));;
  upd_edge newedge (fun e => with_ends e (e_left e) (Some child));;
  addChild parent child newedge;;
  addChild child parent newedge;;
  mret newedge.

(** Go's [math.Max] on float64. *)
Definition math_Max (x y : float) : float :=
  if (PrimFloat.eqb x infinity || PrimFloat.eqb y infinity)%bool then infinity
  else if (is_nan x || is_nan y)%bool then nan
  else if (PrimFloat.eqb x 0 && PrimFloat.eqb x y)%bool then
         (if get_sign x then y else x)
  else if PrimFloat.ltb y x then x else y.

Definition float_neqb (x y : float) : bool := negb (PrimFloat.eqb x y).

Definition err (msg : string) : M (option error) := mret (Some (errorsNew msg)).

(** The end of the splice of [removeTip]: the length and the support of the
    new edge [e] between [n1] and [n2], and the deletion of the internal
    node. *)
Definition splice_finish (internal n1 n2 : ptr) (length1 length2 sup1 sup2 : float)
  (e : ptr) : M (option error) :=
  (if (float_neqb length1 NIL_LENGTH || float_neqb length2 NIL_LENGTH)%bool
   then upd_edge e (fun ed =>
          with_length ed (math_Max 0 length1 + math_Max 0 length2)%float)
   else mret tt);;
  (* We attribute a support to the new branch only if it is not a tip branch *)
  let* nd1 := get_node n1 in
  let* nd2 := get_node n2 in
  (if ((float_neqb sup1 NIL_SUPPORT || float_neqb sup2 NIL_SUPPORT)
       && Nat.ltb 1 (length (n_neigh nd1))
       && Nat.ltb 1 (length (n_neigh nd2)))%bool
   then upd_edge e (fun ed => with_support ed (math_Max sup1 sup2))
   else mret tt);;
  delNode internal;;
  mret None.

(** The splice of [removeTip] (case 2): the internal node is left with two
    neighbors and is replaced by one edge between them. *)
Definition removeTip_splice (internal : ptr) : M (option error) :=
  let* nd := get_node internal in
  let* n1 := mread (fun _ => of_option out_of_range (n_neigh nd !! 0)) in
  let* n2 := mread (fun _ => of_option out_of_range (n_neigh nd !! 1)) in
  let* b1 := mread (fun _ => of_option out_of_range (n_br nd !! 0)) in
  let* b2 := mread (fun _ => of_option out_of_range (n_br nd !! 1)) in
  let* eb1 := get_edge b1 in
  let* eb2 := get_edge b2 in
  let length1 := e_length eb1 in
  let length2 := e_length eb2 in
  let sup1 := e_support eb1 in
  let sup2 := e_support eb2 in
  (* Direction : true if n1-->internal *)
  let dir1 := ptr_eqb (e_left eb1) (Some n1) in
  (* Direction : true if internal-->n2 *)
  let dir2 := ptr_eqb (e_right eb2) (Some n2) in
  try* delNeighbor (Some n1) internal in
  try* delNeighbor (Some n2) internal in
  let finish := splice_finish internal n1 n2 length1 length2 sup1 sup2 in
  if (dir1 && dir2)%bool then
    let* e := ConnectNodes n1 n2 in finish e
  else if (negb dir1 && negb dir2)%bool then
    let* e := ConnectNodes n2 n1 in finish e
  else if (negb dir1 && dir2)%bool then
    let* r := mread (fun t => Ret (Root t)) in
    if negb (ptr_eqb r (Some internal)) then
      err "The tree root is not the internal node, but it should be"
    else
      let* nd1 := get_node n1 in
      let* nd2 := get_node n2 in
      if Nat.ltb 1 (length (n_neigh nd1)) then
        let* e := ConnectNodes n1 n2 in
        mwrite (fun t => SetRoot t (Some n1));;
        finish e
      else if Nat.eqb (length (n_neigh nd1)) 1 then
        err "The neighbor n1 should not have only one neighbor"
      else if Nat.ltb 1 (length (n_neigh nd2)) then
        let* e := ConnectNodes n2 n1 in
        mwrite (fun t => SetRoot t (Some n2));;
        finish e
      else if Nat.eqb (length (n_neigh nd2)) 1 then
        err "The neighbor n2 should not have only one neighbor"
      else err "The tree after tip removal is only made of two tips"
  else err "Branches of internal node are not oriented as they should be".

(** [removeTip]: removes one tip from the tree. *)
Definition removeTip (tip : ptr) : M (option error) :=
  let* tp := get_node tip in
  if negb (Nat.eqb (length (n_neigh tp)) 1) then
    err "Cannot remove node, it is not a tip"
  else
    upd_node tip (fun nd => with_neigh nd [] (n_br nd));;
    let* b0 := mread (fun _ => of_option out_of_range (n_br tp !! 0)) in
    let* eb0 := get_edge b0 in
    let internal := e_left eb0 in
    try* delNeighbor internal tip in
    upd_edge b0 (fun ed => with_ends ed None None);;
    upd_node tip (fun nd => with_neigh nd [] []);;
    let* ip := mread (fun _ => of_option nil_deref internal) in
    let* ind := get_node ip in
    (* Case 1 *)
    if Nat.eqb (length (n_neigh ind)) 1 then
      let* r := mread (fun t => Ret (Root t)) in
      if negb (ptr_eqb r internal) then
        err "After tip removal, this node should not have degre 1 without being the root"
      else
        mwrite (fun t => set_root t (n_neigh ind !! 0));;
        let* r := mread (fun t => Ret (Root t)) in
        try* delNeighbor r ip in
        delNode ip;;
        mret None
    (* Case 2 *)
    else if Nat.eqb (length (n_neigh ind)) 2 then removeTip_splice ip
    (* Case 3 *)
    else mret None.

(** [RemoveTips]: removes the tips with the given names, or keeps only
    them when [revert] is true. *)
Definition RemoveTips (revert : bool) (names : list string) : M (option error) :=
  let* tips := mread Tips in
  mfold (fun (r : option error) tip =>
           match r with
           | Some e => mret (Some e)
           | None =>
             let* tp := get_node tip in
             if negb (Nat.eqb (length (n_neigh tp)) 1) then
               err ("The node named " ++ n_name tp ++ " is not a tip")%string
             else
               let ok := bool_decide (n_name tp ∈ names) in
               if ((negb revert && ok) || (revert && negb ok))%bool
               then removeTip tip
               else mret None
           end)
        tips None.

(* --------------------------------------------------------------------- *)
(** *** Tip index and bitsets                                             *)
(* --------------------------------------------------------------------- *)

(** [sort.Strings]: byte-wise lexicographic order. *)
Fixpoint insert_sorted (s : string) (l : list string) : list string :=
  match l with
  | [] => [s]
  | x :: l' => if String.leb s x then s :: l else x :: insert_sorted s l'
  end.
Definition sort_Strings (l : list string) : list string :=
  fold_right insert_sorted [] l.

Definition SortedTips (t : Tree) : outcome (list string) :=
  let! names := AllTipNames t in Ret (sort_Strings names).

(** [UpdateTipIndex]: the index of a name is its position in the sorted
    list of tip names. *)
Definition index_names (names : list string) : gmap string nat :=
  fold_left (fun m '(i, n) => <[n := i]> m) (imap (fun i n => (i, n)) names) ∅.

Definition UpdateTipIndex : M unit :=
  let* names := mread SortedTips in
  mwrite (fun t => set_tipIndex t (index_names names)).

Definition TipIndex (t : Tree) (name : string) : nat + error :=
  if Nat.eqb (size (tipIndex t)) 0 then
    inr (errorsNew "No tips in the index, tip name index is not initialized")
  else match tipIndex t !! name with
       | Some v => inl v
       | None => inr (errorsNew ("No tip named " ++ name ++ " in the index")%string)
       end.

Definition tipIndexNode (t : Tree) (n : Node) : nat + error :=
  if negb (Nat.eqb (length (n_neigh n)) 1) then
    inr (errorsNew "Cannot get bitset index of a non tip node")
  else TipIndex t (n_name n).

(** Modelled from the spec: the BitVector primitive, a fixed-size bit vector
    indexed by tip ordinal with set, test, clear and cardinality (the bitset
    library is external to the sources). *)
Definition bitset_New (n : nat) : list bool := replicate n false.
Definition bitset_ClearAll (b : list bool) : list bool := replicate (length b) false.
Definition bitset_Set (i : nat) (b : list bool) : list bool := <[i := true]> b.
Definition bitset_Test (i : nat) (b : list bool) : bool := default false (b !! i).
Definition bitset_Count (b : list bool) : nat := length (filter (fun x => x = true) b).

(** [clearBitSetsRecur] and [ClearBitSets]. *)
Fixpoint clearBitSetsRecur (fuel : nat) (n parent : option ptr) (ntip : nat) : M unit :=
  match fuel with
  | O => mnofuel
  | S fuel =>
    let* r := mread (fun t => Ret (Root t)) in
    let n := match n with None => r | Some _ => n end in
    let* nd := get_node_of n in
    mfoldi (fun _ i child =>
              if negb (ptr_eqb (Some child) parent) then
                let* e := mread (fun _ => of_option out_of_range (n_br nd !! i)) in
                upd_edge e (fun ed => with_bitset ed (Some (bitset_New ntip)));;
                clearBitSetsRecur fuel (Some child) n ntip
              else mret tt)
           0 (n_neigh nd) tt
  end.

Definition ClearBitSets : M (option error) :=
  let* t := mread Ret in
  let len := size (tipIndex t) in
  if Nat.eqb len 0 then
    err "No tips in the index, tip name index is not initialized"
  else clearBitSetsRecur (budget t) None None len;; mret None.

(** [fillRightBitSet]: recursively clears and sets the bitsets of the
    descending edges; [rightEdges] is the stack of the open ancestor edges. *)
Definition set_bit (i : nat) (e : ptr) : M unit :=
  let* ed := get_edge e in
  let* b := mread (fun _ => of_option nil_deref (e_bitset ed)) in
  mwrite (fun t => put_edge t e (with_bitset ed (Some (bitset_Set i b)))).

Fixpoint fillRightBitSet (fuel : nat) (currentEdge : ptr) (rightEdges : list ptr)
  : M (option error) :=
  match fuel with
  | O => mnofuel
  | S fuel =>
    let* ce := get_edge currentEdge in
    match e_bitset ce with
    | None => err "BitSets has not been initialized with tree.clearBitSetsRecur(nil, nil, uint(len(tree.tipIndex)))"
    | Some b =>
      upd_edge currentEdge (fun ed => with_bitset ed (Some (bitset_ClearAll b)));;
      let* r := get_node_of (e_right ce) in
      if Nat.eqb (length (n_neigh r)) 1 then
        let* t := mread Ret in
        match tipIndexNode t r with
        | inr e => mret (Some e)
        | inl i => mfold (fun _ e => set_bit i e) rightEdges tt;; mret None
        end
      else
        mfold (fun (res : option error) e2 =>
                 match res with
                 | Some e => mret (Some e)
                 | None =>
                   let* ed2 := get_edge e2 in
                   if ptr_eqb (e_left ed2) (e_right ce)
                   then fillRightBitSet fuel e2 (rightEdges ++ [e2])
                   else mret None
                 end)
              (n_br r) None
    end
  end.

Definition UpdateBitSet_fuel (fuel : nat) : M (option error) :=
  let* r := mread (fun t => node_of t (Root t)) in
  mfold (fun (res : option error) e =>
           match res with
           | Some er => mret (Some er)
           | None => fillRightBitSet fuel e [e]
           end)
        (n_br r) None.

Definition UpdateBitSet : M (option error) :=
  let* t := mread Ret in UpdateBitSet_fuel (budget t).

(** [CompareTipIndexes]: nil when both indexes are non-empty and hold the
    same set of names. *)
Definition has_key (m : gmap string nat) (k : string) : bool :=
  match m !! k with Some _ => true | None => false end.

Definition CompareTipIndexes (t t2 : Tree) : option error :=
  if (Nat.eqb (size (tipIndex t)) 0 || Nat.eqb (size (tipIndex t2)) 0
      || negb (Nat.eqb (size (tipIndex t)) (size (tipIndex t2))))%bool
  then Some (errorsNew "Tip name index is not initialized or trees do not have the same number of tips")
  else if negb (forallb (has_key (tipIndex t2)) (map fst (map_to_list (tipIndex t))))
  then Some (errorsNew "Trees do not have the same tip names")
  else if negb (forallb (has_key (tipIndex t)) (map fst (map_to_list (tipIndex t2))))
  then Some (errorsNew "Trees do not have the same tip names")
  else None.

(* --------------------------------------------------------------------- *)
(** *** Node depths                                                       *)
(* --------------------------------------------------------------------- *)

Fixpoint computeDepthRecurRooted (fuel : nat) (n : ptr) (prev : option ptr) : M Z :=
  match fuel with
  | O => mnofuel
  | S fuel =>
    let* nd := get_node n in
    if Node_Tip nd then
      upd_node n (fun nd => with_depth nd 0);; mret 0%Z
    else
      let* mindepth :=
        mfold (fun mindepth next =>
                 if negb (ptr_eqb (Some next) prev) then
                   let* depth := computeDepthRecurRooted fuel next (Some n) in
                   if (Z.eqb mindepth NIL_DEPTH || Z.ltb depth mindepth)%bool
                   then mret depth else mret mindepth
                 else mret mindepth)
              (n_neigh nd) NIL_DEPTH in
      upd_node n (fun nd => with_depth nd (mindepth + 1));;
      mret (mindepth + 1)%Z
  end.

Fixpoint computeDepthUnRooted_loop (fuel : nat) (nodes : list ptr) (currentlevel : Z)
  : M unit :=
  match fuel with
  | O => mnofuel
  | S fuel =>
    let* nbchanged :=
      mfold (fun nb n =>
               let* nd := get_node n in
               if Z.eqb (n_depth nd) NIL_DEPTH
               then upd_node n (fun nd => with_depth nd currentlevel);; mret (S nb)
               else mret nb)
            nodes 0 in
    let* nextnodes :=
      mfold (fun acc n =>
               let* nd := get_node n in
               mfold (fun acc next =>
                        let* nx := get_node next in
                        if Z.eqb (n_depth nx) NIL_DEPTH
                        then mret (acc ++ [next]) else mret acc)
                     (n_neigh nd) acc)
            nodes [] in
    if Nat.eqb nbchanged 0 then mret tt
    else computeDepthUnRooted_loop fuel nextnodes (currentlevel + 1)
  end.

Definition computeDepthUnRooted : M unit :=
  let* tips := mread Tips in
  let* t := mread Ret in
  computeDepthUnRooted_loop (S (budget t)) tips 0.

Definition ComputeDepths : M unit :=
  let* rooted := mread Rooted in
  if rooted then
    let* t := mread Ret in
    let* r := mread (fun t => of_option nil_deref (Root t)) in
    computeDepthRecurRooted (budget t) r None;; mret tt
  else computeDepthUnRooted.

(** [ReinitIndexes]: tip index, bitsets and node depths; the errors of the
    two bitset steps are dropped, as in the source. *)
Definition ReinitIndexes : M unit :=
  UpdateTipIndex;;
  ClearBitSets;;
  UpdateBitSet;;
  ComputeDepths.

(* --------------------------------------------------------------------- *)
(** *** Resolution of multifurcations                                     *)
(* --------------------------------------------------------------------- *)

Section Resolve.

(** The process-wide generator: [rand_Perm k n] is the permutation returned
    by the [k]-th call of [rand.Perm], asked for [n] elements. *)
Variable rand_Perm : nat -> nat -> list nat.

(** One regrouping step of the inner loop: the last edge of [togroup] is
    detached from [current] and reattached under [n2]. *)
Definition regroup_one (current n2 : ptr) (togroup : list (option ptr))
  : M (list (option ptr)) :=
  let* oe := mread (fun _ => of_option out_of_range (last togroup)) in
  let togroup := removelast togroup in
  let* e := mread (fun _ => of_option nil_deref oe) in
  let* ed := get_edge e in
  let boot := e_support ed in
  let len := e_length ed in
  let pv := e_pvalue ed in
  let other := e_right ed in
  let* o := mread (fun _ => of_option nil_deref other) in
  delNeighbor other current;;
  delNeighbor (Some current) o;;
  let* etmp := ConnectNodes n2 o in
  upd_edge etmp (fun x => with_length x len);;
  upd_edge etmp (fun x => with_support x boot);;
  upd_edge etmp (fun x => with_pvalue x pv);;
  mret togroup.

(** [for len(current.Neigh()) > 3 { ... }] *)
Fixpoint regroup_loop (fuel : nat) (current : ptr) (togroup : list (option ptr))
  : M unit :=
  match fuel with
  | O => mnofuel
  | S fuel =>
    let* cur := get_node current in
    if Nat.ltb 3 (length (n_neigh cur)) then
      let* n2 := (fun t => Ret (NewNode t)) in
      let* togroup := regroup_one current n2 togroup in
      let* togroup := regroup_one current n2 togroup in
      let* e := ConnectNodes current n2 in
      upd_edge e (fun x => with_length x 0%float);;
      upd_edge e (fun x => with_support x NIL_SUPPORT);;
      upd_edge e (fun x => with_pvalue x NIL_PVALUE);;
      regroup_loop fuel current (togroup ++ [Some e])
    else mret tt
  end.

(** [resolveRecur]: post order, the neighbors first and then the current
    node; the result is the number of calls made to the generator. *)
Fixpoint resolveRecur (fuel : nat) (current : ptr) (previous : option ptr) (k : nat)
  : M nat :=
  match fuel with
  | O => mnofuel
  | S fuel =>
    let* cur := get_node current in
    let* k :=
      mfold (fun k n =>
               if negb (ptr_eqb (Some n) previous)
               then resolveRecur fuel n (Some current) k
               else mret k)
            (n_neigh cur) k in
    let* cur := get_node current in
    if Nat.ltb 3 (length (n_neigh cur)) then
      let l := length (n_neigh cur) in
      let l := match previous with Some _ => l - 1 | None => l end in
      let perm := rand_Perm k l in
      let* filled :=
        mfoldi (fun (acc : list (option ptr) * nat) i n =>
                  let togroup := fst acc in
                  let nb := snd acc in
                  if negb (ptr_eqb (Some n) previous) then
                    let* e := mread (fun _ => of_option out_of_range (n_br cur !! i)) in
                    let* p := mread (fun _ => of_option out_of_range (perm !! nb)) in
                    if Nat.ltb p (length togroup)
                    then mret (<[p := Some e]> togroup, S nb)
                    else mpanic out_of_range
                  else mret acc)
               0 (n_neigh cur) (replicate l None, 0) in
      let togroup := fst filled in
      regroup_loop (length (n_neigh cur)) current togroup;;
      mret (S k)
    else mret k
  end.

Definition Resolve : M nat :=
  let* t := mread Ret in
  let* r := mread (fun t => of_option nil_deref (Root t)) in
  resolveRecur (budget t) r None 0.

End Resolve.

(* --------------------------------------------------------------------- *)
(** *** Methods of Edge used by the support package                       *)
(* --------------------------------------------------------------------- *)

(** Modelled from the spec: [NumTipsRight] and [TopoDepth] of edge.go, which
    is not part of the sources.  The bitset of an edge has one bit per tip,
    set when the tip lies in the subtree rooted at its right node; the
    topological depth is [min(popcount, tipcount - popcount)].  Both report
    an error on an edge whose bitset is nil. *)
Definition NumTipsRight (e : Edge) : Z * option error :=
  match e_bitset e with
  | None => (0%Z, Some (errorsNew "Cannot count right tips, Bitset is nil"))
  | Some b => (Z.of_nat (bitset_Count b), None)
  end.

Definition TopoDepth (e : Edge) : Z * option error :=
  match e_bitset e with
  | None => ((-1)%Z, Some (errorsNew "Cannot compute topodepth, Bitset is nil"))
  | Some b =>
    let count := Z.of_nat (bitset_Count b) in
    let total := Z.of_nat (length b) in
    (Z.min count (total - count), None)
  end.

Definition SetId (e : ptr) (i : Z) : M unit := upd_edge e (fun x => with_id x i).

End tree.

(* ===================================================================== *)
(** ** Package support: the Booster supporter                             *)
(* ===================================================================== *)

Module support.

Record BoosterSupporter : Type := mkBoosterSupporter {
  currentTree : Z;
  stop : bool;
  silent : bool;
  computeMovedSpecies : bool;
  computeTransferPerBranches : bool;
  computeHighTransferPerBranches : bool;
  movedSpeciesCutoff : float;
  normalizeByExpected : bool
}.

Definition NewBoosterSupporter
  (silent computeMovedSpecies computeTransferPerBranches
     computeHighTransferPerBranches : bool)
  (movedSpeciesCutoff : float) (normalizeByExpected : bool) : BoosterSupporter :=
  let movedSpeciesCutoff :=
    if PrimFloat.ltb movedSpeciesCutoff 0 then 1%float else movedSpeciesCutoff in
  let movedSpeciesCutoff :=
    if PrimFloat.ltb 1 movedSpeciesCutoff then 1%float else movedSpeciesCutoff in
  mkBoosterSupporter 0 false silent computeMovedSpecies
    computeTransferPerBranches computeHighTransferPerBranches
    movedSpeciesCutoff normalizeByExpected.

(* --------------------------------------------------------------------- *)
(** *** The scratch matrices of a worker: uint16 cells                    *)
(* --------------------------------------------------------------------- *)

(** A uint16 is a natural number below 2^16; arithmetic wraps around. *)
Definition u16 (z : Z) : N := Z.to_N (z mod 65536).
Definition u16_add (a b : N) : N := u16 (Z.of_N a + Z.of_N b).
Definition u16_sub (a b : N) : N := u16 (Z.of_N a - Z.of_N b).

Abbreviation matrix := (list (list N)).

Record Mats : Type := mkMats {
  i_matrix : matrix;
  c_matrix : matrix;
  hamming : matrix;
  min_dist : list N;
  min_dist_edge : list Z
}.

(** Go indexing: a negative or too large index panics. *)
Definition at_index {A} (l : list A) (i : Z) : outcome A :=
  if (i <? 0)%Z then Panic out_of_range
  else of_option out_of_range (l !! Z.to_nat i).

Definition set_index {A} (l : list A) (i : Z) (x : A) : outcome (list A) :=
  if (i <? 0)%Z then Panic out_of_range
  else if Nat.ltb (Z.to_nat i) (length l) then Ret (<[Z.to_nat i := x]> l)
  else Panic out_of_range.

Definition mat_get (m : matrix) (i j : Z) : outcome N :=
  let! row := at_index m i in at_index row j.

Definition mat_set (m : matrix) (i j : Z) (v : N) : outcome matrix :=
  let! row := at_index m i in
  let! row := set_index row j v in
  set_index m i row.

Definition set_i (m : Mats) (x : matrix) : Mats :=
  mkMats x (c_matrix m) (hamming m) (min_dist m) (min_dist_edge m).
Definition set_c (m : Mats) (x : matrix) : Mats :=
  mkMats (i_matrix m) x (hamming m) (min_dist m) (min_dist_edge m).
Definition set_h (m : Mats) (x : matrix) : Mats :=
  mkMats (i_matrix m) (c_matrix m) x (min_dist m) (min_dist_edge m).
Definition set_md (m : Mats) (x : list N) : Mats :=
  mkMats (i_matrix m) (c_matrix m) (hamming m) x (min_dist_edge m).
Definition set_mde (m : Mats) (x : list Z) : Mats :=
  mkMats (i_matrix m) (c_matrix m) (hamming m) (min_dist m) x.

(** [I[i][j] = vi; C[i][j] = vc] *)
Definition put_ic (m : Mats) (i j : Z) (vi vc : N) : outcome Mats :=
  let! im := mat_set (i_matrix m) i j vi in
  let! cm := mat_set (c_matrix m) i j vc in
  Ret (set_c (set_i m im) cm).

Import tree.

Definition edge_id_at (t : Tree) (n : ptr) (idx : nat) : outcome Z :=
  let! nd := node_at t n in
  let! e := of_option out_of_range (n_br nd !! idx) in
  let! ed := edge_at t e in
  Ret (e_id ed).

Definition right_node (t : Tree) (e : ptr) : outcome Node :=
  let! ed := edge_at t e in node_of t (e_right ed).

(* --------------------------------------------------------------------- *)
(** *** First pass: post-order traversal of the reference tree            *)
(* --------------------------------------------------------------------- *)

Fixpoint update_i_c_post_order_ref_tree (fuel : nat) (refTree : Tree)
  (bootTree : Tree) (bootEdges : list ptr)
  (current : ptr) (curidx : nat) (prev : ptr) (m : Mats) : outcome Mats :=
  match fuel with
  | O => NoFuel
  | S fuel =>
    let! edge_id := edge_id_at refTree prev curidx in
    let! cur := node_at refTree current in
    if Node_Tip cur then
      ofoldi (fun m be_id be =>
                let! r := right_node bootTree be in
                if negb (Node_Tip r) then Ret m
                else if negb (String.eqb (n_name cur) (n_name r))
                then put_ic m edge_id (Z.of_nat be_id) 0 1
                else put_ic m edge_id (Z.of_nat be_id) 1 0)
             0 bootEdges m
    else
      let! m :=
        ofoldi (fun m be_id be =>
                  let! r := right_node bootTree be in
                  if Node_Tip r then put_ic m edge_id (Z.of_nat be_id) 0 1
                  else Ret m)
               0 bootEdges m in
      ofoldi (fun m k child =>
                if negb (Nat.eqb child prev) then
                  let! edge_id2 := edge_id_at refTree current k in
                  let! m := update_i_c_post_order_ref_tree fuel refTree bootTree
                              bootEdges child k current m in
                  ofoldi (fun m be_id be =>
                            let! r := right_node bootTree be in
                            if negb (Node_Tip r) then Ret m
                            else
                              let j := Z.of_nat be_id in
                              (* OR between two integers, result is 0 or 1 *)
                              let! a := mat_get (i_matrix m) edge_id j in
                              let! b := mat_get (i_matrix m) edge_id2 j in
                              let! im := mat_set (i_matrix m) edge_id j
                                (if (negb (N.eqb a 0) || negb (N.eqb b 0))%bool
                                 then 1%N else 0%N) in
                              let m := set_i m im in
                              (* AND between two integers, result is 0 or 1 *)
                              let! a := mat_get (c_matrix m) edge_id j in
                              let! b := mat_get (c_matrix m) edge_id2 j in
                              let! cm := mat_set (c_matrix m) edge_id j
                                (if (negb (N.eqb a 0) && negb (N.eqb b 0))%bool
                                 then 1%N else 0%N) in
                              Ret (set_c m cm))
                         0 bootEdges m
                else Ret m)
             0 (n_neigh cur) m
  end.

Definition Update_all_i_c_post_order_ref_tree (fuel : nat) (refTree : Tree)
  (bootTree : Tree) (bootEdges : list ptr) (m : Mats) : outcome Mats :=
  let! r := of_option nil_deref (Root refTree) in
  let! rn := node_at refTree r in
  ofoldi (fun m i child =>
            update_i_c_post_order_ref_tree fuel refTree bootTree bootEdges child i r m)
         0 (n_neigh rn) m.

(* --------------------------------------------------------------------- *)
(** *** Second pass: post-order traversal of the bootstrap tree           *)
(* --------------------------------------------------------------------- *)

(** The loop of [edge_id3] from 0 up to the number of reference edges. *)
Definition for_edges (n : nat) (body : Mats -> Z -> outcome Mats) (m : Mats)
  : outcome Mats :=
  ofold (fun m i => body m (Z.of_nat i)) (seq 0 n) m.

(** The Hamming (transfer) distance of every reference edge to the
    bootstrap edge [edge_id], folded, and the running minimum. *)
Definition hamming_step (refTree : Tree) (ntips : N) (edge_id : Z)
  (m : Mats) (edge_id3 : nat) (e3 : ptr) : outcome Mats :=
  let row := Z.of_nat edge_id3 in
  let! ed3 := edge_at refTree e3 in
  let e3numtips := fst (NumTipsRight ed3) in
  let! c := mat_get (c_matrix m) row edge_id in
  let! i := mat_get (i_matrix m) row edge_id in
  let h := u16_sub (u16_add (u16 e3numtips) c) i in
  let! hm := mat_set (hamming m) row edge_id h in
  let m := set_h m hm in
  let! h := mat_get (hamming m) row edge_id in
  let! m :=
    if N.ltb (u16 (Z.of_N ntips) / 2) h then
      let! hm := mat_set (hamming m) row edge_id (u16_sub (u16 (Z.of_N ntips)) h) in
      Ret (set_h m hm)
    else Ret m in
  let! h := mat_get (hamming m) row edge_id in
  let! md := at_index (min_dist m) row in
  if N.ltb h md then
    let! mds := set_index (min_dist m) row h in
    let! mde := set_index (min_dist_edge m) row edge_id in
    Ret (set_mde (set_md m mds) mde)
  else Ret m.

Fixpoint update_i_c_post_order_boot_tree (fuel : nat) (refTree : Tree) (ntips : N)
  (edges : list ptr) (bootTree : Tree)
  (current : ptr) (curindex : nat) (prev : ptr) (m : Mats) : outcome Mats :=
  match fuel with
  | O => NoFuel
  | S fuel =>
    let! edge_id := edge_id_at bootTree prev curindex in
    let! cur := node_at bootTree current in
    let! m :=
      if negb (Node_Tip cur) then
        let! m := for_edges (length edges)
                    (fun m edge_id3 => put_ic m edge_id3 edge_id 0 0) m in
        ofoldi (fun m j child =>
                  if negb (Nat.eqb child prev) then
                    let! edge_id2 := edge_id_at bootTree current j in
                    let! m := update_i_c_post_order_boot_tree fuel refTree ntips
                                edges bootTree child j current m in
                    for_edges (length edges)
                      (fun m edge_id3 =>
                         let! a := mat_get (i_matrix m) edge_id3 edge_id in
                         let! b := mat_get (i_matrix m) edge_id3 edge_id2 in
                         let! im := mat_set (i_matrix m) edge_id3 edge_id (u16_add a b) in
                         let m := set_i m im in
                         let! a := mat_get (c_matrix m) edge_id3 edge_id in
                         let! b := mat_get (c_matrix m) edge_id3 edge_id2 in
                         let! cm := mat_set (c_matrix m) edge_id3 edge_id (u16_add a b) in
                         Ret (set_c m cm))
                      m
                  else Ret m)
               0 (n_neigh cur) m
      else Ret m in
    ofoldi (hamming_step refTree ntips edge_id) 0 edges m
  end.

(** The checks made after the pass, over the reference edges. *)
Definition check_min_dist (refTree : Tree) (m : Mats) (res : option error) (e : ptr)
  : outcome (option error) :=
  match res with
  | Some er => Ret (Some er)
  | None =>
    let! ed := edge_at refTree e in
    let! d := at_index (min_dist m) (e_id ed) in
    if N.ltb d 0 then Ret (Some (errorsNew "Min dist should be >= 0"))
    else
      let! r := node_of refTree (e_right ed) in
      let! d := at_index (min_dist m) (e_id ed) in
      if (Node_Tip r && negb (N.eqb d 0))%bool then
        Ret (Some (errorf
          "any terminal edge should have an exact match in any bootstrap tree (%d)"
          [Z.of_N d]))
      else Ret None
  end.

Definition Update_all_i_c_post_order_boot_tree (fuel : nat) (refTree : Tree)
  (ntips : N) (edges : list ptr) (bootTree : Tree) (m : Mats)
  : outcome (option error * Mats) :=
  let! r := of_option nil_deref (Root bootTree) in
  let! rn := node_at bootTree r in
  let! m := ofoldi (fun m i child =>
                      update_i_c_post_order_boot_tree fuel refTree ntips edges
                        bootTree child i r m)
                   0 (n_neigh rn) m in
  let! res := ofold (check_min_dist refTree m) edges None in
  Ret (res, m).

(* --------------------------------------------------------------------- *)
(** *** The worker: [ComputeValue]                                        *)
(* --------------------------------------------------------------------- *)

(** Items of the bootstrap stream: [tree.Trees]. *)
Record Trees : Type := mkTrees {
  tv_Tree : option Tree;
  tv_Id : Z;
  tv_Err : option error
}.

(** Messages sent on the result channels. *)
Record bootval : Type := mkBootval {
  bv_value : Z;
  bv_edgeid : nat;
  bv_randtree : bool
}.

Record speciesmoved : Type := mkSpeciesmoved {
  sm_taxid : nat;
  sm_nbtimes : float
}.

(** The buffers of [ComputeValue] that live across the loop, the messages
    sent so far on each channel, and the counter of the supporter. *)
Record Worker : Type := mkWorker {
  w_mats : Mats;
  w_movedSpecies : list Z;
  w_vals : list Z;
  w_nb_branches_close : Z;
  w_valChan : list bootval;
  w_speciesChannel : list speciesmoved;
  w_taxPerBranchChannel : list (list (option (list nat)));
  w_currentTree : Z
}.

Definition w_set_mats (w : Worker) (m : Mats) : Worker :=
  mkWorker m (w_movedSpecies w) (w_vals w) (w_nb_branches_close w)
    (w_valChan w) (w_speciesChannel w) (w_taxPerBranchChannel w) (w_currentTree w).
Definition w_set_moved (w : Worker) (ms : list Z) (nb : Z) : Worker :=
  mkWorker (w_mats w) ms (w_vals w) nb
    (w_valChan w) (w_speciesChannel w) (w_taxPerBranchChannel w) (w_currentTree w).
Definition w_set_vals (w : Worker) (vs : list Z) : Worker :=
  mkWorker (w_mats w) (w_movedSpecies w) vs (w_nb_branches_close w)
    (w_valChan w) (w_speciesChannel w) (w_taxPerBranchChannel w) (w_currentTree w).
Definition w_send_val (w : Worker) (v : bootval) : Worker :=
  mkWorker (w_mats w) (w_movedSpecies w) (w_vals w) (w_nb_branches_close w)
    (w_valChan w ++ [v]) (w_speciesChannel w) (w_taxPerBranchChannel w)
    (w_currentTree w).
Definition w_send_species (w : Worker) (v : speciesmoved) : Worker :=
  mkWorker (w_mats w) (w_movedSpecies w) (w_vals w) (w_nb_branches_close w)
    (w_valChan w) (w_speciesChannel w ++ [v]) (w_taxPerBranchChannel w)
    (w_currentTree w).
Definition w_send_tax (w : Worker) (v : list (option (list nat))) : Worker :=
  mkWorker (w_mats w) (w_movedSpecies w) (w_vals w) (w_nb_branches_close w)
    (w_valChan w) (w_speciesChannel w) (w_taxPerBranchChannel w ++ [v])
    (w_currentTree w).
(** [NewBootTreeComputed] *)
Definition NewBootTreeComputed (w : Worker) : Worker :=
  mkWorker (w_mats w) (w_movedSpecies w) (w_vals w) (w_nb_branches_close w)
    (w_valChan w) (w_speciesChannel w) (w_taxPerBranchChannel w)
    (w_currentTree w + 1).

(** [speciesToMove]: the taxa on which the two bitsets differ, or those on
    which they agree, whichever list is shorter; its length must be [dist]. *)
Definition speciesToMove (e be : Edge) (dist : Z) : outcome (list nat + error) :=
  let! eb := of_option nil_deref (e_bitset e) in
  let! bb := of_option nil_deref (e_bitset be) in
  let idx := seq 0 (length eb) in
  let differs i := negb (Bool.eqb (bitset_Test i eb) (bitset_Test i bb)) in
  let diff := List.filter differs idx in
  let equ := List.filter (fun i => negb (differs i)) idx in
  let mismatch n :=
    errorf "Length of moved species array (%d) is not equal to the minimum distance found (%d)"
      [Z.of_nat n; dist] in
  if Nat.ltb (length diff) (length equ) then
    if negb (Z.eqb (Z.of_nat (length diff)) dist)
    then Ret (inr (mismatch (length diff)))
    else Ret (inl diff)
  else if negb (Z.eqb (Z.of_nat (length equ)) dist)
  then Ret (inr (mismatch (length equ)))
  else Ret (inl equ).

(** float64 conversions: [float64(n)] of an int, and [int(math.Ceil(x))];
    a value that does not fit is converted as on amd64. *)
Definition float_of_int (z : Z) : float :=
  if (z <? 0)%Z then (- PrimFloat.of_uint63 (Uint63.of_Z (- z)))%float
  else PrimFloat.of_uint63 (Uint63.of_Z z).

Definition min_int64 : Z := (- 2 ^ 63)%Z.

Definition int_of_Ceil (x : float) : Z :=
  match Prim2SF x with
  | S754_zero _ => 0%Z
  | S754_finite s m e =>
    let v := if s then Z.neg m else Z.pos m in
    let c := if (0 <=? e)%Z then (v * 2 ^ e)%Z else (- ((- v) / 2 ^ (- e)))%Z in
    if ((min_int64 <=? c) && (c <? 2 ^ 63))%Z then c else min_int64
  | _ => min_int64
  end.

(** How the processing of one bootstrap tree ends. *)
Inductive flow : Type :=
| Next (w : Worker)                 (* on to the next item *)
| Break (w : Worker)                (* [break] *)
| Return (e : error) (w : Worker).  (* [io.LogError(err); return err] *)

Definition incr_at (l : list Z) (i : nat) : outcome (list Z) :=
  let! x := of_option out_of_range (l !! i) in Ret (<[i := (x + 1)%Z]> l).

(** The body of the loop over the reference edges, for the edge [e] at
    position [i]; an error ends the loop and the function. *)
Definition edge_value (supporter : BoosterSupporter) (refTree : Tree)
  (bootTree : Tree) (bootEdges : list ptr)
  (st : (Worker * list (option (list nat))) + (error * Worker)) (i : nat) (e : ptr)
  : outcome ((Worker * list (option (list nat))) + (error * Worker)) :=
  match st with
  | inr r => Ret (inr r)
  | inl (w, taxa) =>
    let! ed := edge_at refTree e in
    let! r := node_of refTree (e_right ed) in
    if Node_Tip r then Ret (inl (w, <[i := Some []]> taxa))
    else
      let! d := of_option out_of_range (min_dist (w_mats w) !! i) in
      let v := Z.of_N d in
      let w := w_set_vals w (<[i := v]> (w_vals w)) in
      let send w := w_send_val w (mkBootval v i false) in
      if (computeMovedSpecies supporter || computeTransferPerBranches supporter
          || computeHighTransferPerBranches supporter)%bool then
        match TopoDepth ed with
        | (_, Some er) => Ret (inr (er, w))
        | (td, None) =>
          let! j := of_option out_of_range (min_dist_edge (w_mats w) !! i) in
          let! be := at_index bootEdges j in
          let! bed := edge_at bootTree be in
          let norm := (float_of_int v / (float_of_int td - 1))%float in
          let mindepth :=
            int_of_Ceil (1 / movedSpeciesCutoff supporter + 1)%float in
          let! sm := speciesToMove ed bed v in
          match sm with
          | inr er => Ret (inr (er, w))
          | inl sm =>
            let! w :=
              if (computeMovedSpecies supporter
                  && PrimFloat.leb norm (movedSpeciesCutoff supporter)
                  && (mindepth <=? td)%Z)%bool
              then
                let! ms := ofold incr_at sm (w_movedSpecies w) in
                Ret (w_set_moved w ms (w_nb_branches_close w + 1))
              else Ret w in
            let taxa :=
              if (computeTransferPerBranches supporter
                  || computeHighTransferPerBranches supporter)%bool
              then <[i := Some sm]> taxa else taxa in
            Ret (inl (send w, taxa))
          end
        end
      else Ret (inl (send w, taxa))
  end.

(** What a worker does with a bootstrap tree whose tip names are those of
    the reference tree (the progress line written when the supporter is not
    silent is left out). *)
Definition process_tree (supporter : BoosterSupporter) (canceled : Z -> bool)
  (refTree : Tree) (edges : list ptr) (ntips : nat) (bt : Tree) (w : Worker)
  : outcome flow :=
  let w := w_set_moved w (w_movedSpecies w) 0 in
  let! bootEdges := Edges bt in
  let taxa : list (option (list nat)) := replicate (length edges) None in
  let m := w_mats w in
  (* a row of the three matrices is reallocated when the row of i_matrix
     is shorter than the list of bootstrap edges *)
  let grow (rows : matrix) :=
    zip_with (fun irow row => if Nat.ltb (length irow) (length bootEdges)
                              then replicate (length bootEdges) 0%N else row)
             (i_matrix m) rows in
  let m := mkMats (grow (i_matrix m)) (grow (c_matrix m)) (grow (hamming m))
             (replicate (length edges) (u16 (Z.of_nat ntips)))
             (replicate (length edges) (-1)%Z) in
  let! ids := mfoldi (fun _ i e => SetId e (Z.of_nat i)) 0 bootEdges tt bt in
  let bt := snd ids in
  let! m := Update_all_i_c_post_order_ref_tree (budget refTree) refTree bt bootEdges m in
  let! rm := Update_all_i_c_post_order_boot_tree (budget bt) refTree (N.of_nat ntips)
               edges bt m in
  let w := w_set_mats w (snd rm) in
  let! st := ofoldi (edge_value supporter refTree bt bootEdges) 0 edges (inl (w, taxa)) in
  match st with
  | inr (er, w) => Ret (Return er w)
  | inl (w, taxa) =>
    let w :=
      if computeMovedSpecies supporter then
        fst (fold_left
               (fun (acc : Worker * nat) nb =>
                  let w := fst acc in
                  let sp := snd acc in
                  (w_set_moved
                     (w_send_species w
                        (mkSpeciesmoved sp
                           (float_of_int nb / float_of_int (w_nb_branches_close w))%float))
                     (<[sp := 0%Z]> (w_movedSpecies w)) (w_nb_branches_close w),
                   S sp))
               (w_movedSpecies w) (w, 0))
      else w in
    let w :=
      if (computeTransferPerBranches supporter
          || computeHighTransferPerBranches supporter)%bool
      then w_send_tax w taxa else w in
    let w := NewBootTreeComputed w in
    if canceled (w_currentTree w) then Ret (Break w) else Ret (Next w)
  end.

(** The state of the loop over the stream: the worker, the variable [err]
    and the errors given to [io.LogError] so far. *)
Record Loop : Type := mkLoop {
  l_worker : Worker;
  l_err : option error;
  l_logged : list error
}.

(** How the body of [for treeV := range bootTreeChannel] ends. *)
Inductive step : Type :=
| Continue (s : Loop)
| Stop (s : Loop)
| Fatal (e : error) (s : Loop).

(** The body of the loop.  [canceled n] is the value of the [stop] flag of
    the supporter read once [n] trees have been computed ([Cancel] may be
    called from another task at any time).  The final [Delete] releases the
    tree of the item, which is not used again. *)
Definition receive (supporter : BoosterSupporter) (canceled : Z -> bool)
  (refTree : Tree) (edges : list ptr) (ntips : nat) (treeV : Trees) (s : Loop)
  : outcome step :=
  match tv_Err treeV with
  | Some e => Ret (Continue (mkLoop (l_worker s) (Some e) (l_logged s ++ [e])))
  | None =>
    let! bt := of_option nil_deref (tv_Tree treeV) in
    let! rt := ReinitIndexes bt in
    let bt := snd rt in
    let err := CompareTipIndexes refTree bt in
    match err with
    | None =>
      let! f := process_tree supporter canceled refTree edges ntips bt (l_worker s) in
      match f with
      | Next w => Ret (Continue (mkLoop w None (l_logged s)))
      | Break w => Ret (Stop (mkLoop w None (l_logged s)))
      | Return e w => Ret (Fatal e (mkLoop w None (l_logged s ++ [e])))
      end
    | Some _ => Ret (Continue (mkLoop (l_worker s) err (l_logged s)))
    end
  end.

Fixpoint drain (supporter : BoosterSupporter) (canceled : Z -> bool)
  (refTree : Tree) (edges : list ptr) (ntips : nat)
  (bootTreeChannel : list Trees) (s : Loop) : outcome (option error * Loop) :=
  match bootTreeChannel with
  | [] => Ret (l_err s, s)
  | treeV :: rest =>
    let! f := receive supporter canceled refTree edges ntips treeV s in
    match f with
    | Continue s => drain supporter canceled refTree edges ntips rest s
    | Stop s => Ret (l_err s, s)
    | Fatal e s => Ret (Some e, s)
    end
  end.

(** The worker starts with fresh buffers. *)
Definition fresh (supporter : BoosterSupporter) (nedges ntips : nat) : Loop :=
  mkLoop
    (mkWorker
       (mkMats (replicate nedges []) (replicate nedges []) (replicate nedges [])
          (replicate nedges 0%N) (replicate nedges 0%Z))
       (replicate ntips 0%Z) (replicate nedges 0%Z) 0 [] [] []
       (currentTree supporter))
    None [].

(** [ComputeValue]: takes the bootstrap trees from the channel, computes the
    transfer distance of each edge of the reference tree and sends it to the
    result channel. *)
Definition ComputeValue (supporter : BoosterSupporter) (canceled : Z -> bool)
  (refTree : Tree) (edges : list ptr) (bootTreeChannel : list Trees)
  : outcome (option error * Loop) :=
  let! tips := Tips refTree in
  drain supporter canceled refTree edges (length tips) bootTreeChannel
    (fresh supporter (length edges) (length tips)).

End support.

(* ===================================================================== *)
(** ** Concrete trees                                                     *)
(* ===================================================================== *)

(** Trees as a Newick reader builds them: one [NewNode] per node, one
    [ConnectNodes] per branch from the parent to the child, in the order of
    the text, and [SetRoot] on the outermost node. *)
Module examples.
Import tree.

Inductive newick : Type :=
| Nw (name : string) (len sup : float) (kids : list newick).

Fixpoint graft (parent : ptr) (x : newick) : M unit :=
  match x with
  | Nw name len sup kids =>
    let* n := (fun t => Ret (NewNode t)) in
    upd_node n (fun nd => with_name nd name);;
    let* e := ConnectNodes parent n in
    upd_edge e (fun ed => with_support (with_length ed len) sup);;
    (fix go (l : list newick) : M unit :=
       match l with
       | [] => mret tt
       | k :: l => graft n k;; go l
       end) kids
  end.

Definition read (kids : list newick) : outcome (unit * Tree) :=
  (let* r := (fun t => Ret (NewNode t)) in
   mwrite (fun t => SetRoot t (Some r));;
   mfold (fun _ k => graft r k) kids tt) NewTree.

Definition tree_of (kids : list newick) : Tree :=
  match read kids with
  | Ret (_, t) => t
  | _ => NewTree
  end.

Definition tip (name : string) : newick := Nw name NIL_LENGTH NIL_SUPPORT [].
Definition clade (kids : list newick) : newick := Nw "" NIL_LENGTH NIL_SUPPORT kids.

(** [(((a,b),t2)0.75:1.0,c,d);] *)
Definition caterpillar : Tree :=
  tree_of [Nw "" 1%float 0.75%float [clade [tip "a"; tip "b"]; tip "t2"];
           tip "c"; tip "d"].

(** [((A,B),(C,D));] and [((A,C),(B,D));] *)
Definition quartet_ab : Tree :=
  tree_of [clade [tip "A"; tip "B"]; clade [tip "C"; tip "D"]].
Definition quartet_ac : Tree :=
  tree_of [clade [tip "A"; tip "C"]; clade [tip "B"; tip "D"]].
(** [((A,B),(C,E));]: another set of tip names. *)
Definition quartet_abce : Tree :=
  tree_of [clade [tip "A"; tip "B"]; clade [tip "C"; tip "E"]].

(** [(A,B,C,D,E);]: a root of degree 5. *)
Definition star5 : Tree :=
  tree_of [tip "A"; tip "B"; tip "C"; tip "D"; tip "E"].

(** A tree with its indexes built and its edges numbered by position, as
    the support engine hands the reference tree to the workers. *)
Definition indexed (t : Tree) : Tree :=
  match (ReinitIndexes;;
         let* es := mread Edges in
         mfoldi (fun _ i e => SetId e (Z.of_nat i)) 0 es tt) t with
  | Ret (_, t) => t
  | _ => t
  end.

Definition edges_of (t : Tree) : list ptr :=
  match Edges t with Ret l => l | _ => [] end.

End examples.

(* ===================================================================== *)
(** ** Properties                                                         *)
(* ===================================================================== *)

Module tree_facts.
Import tree.

(** C10. A tree created by [NewTree] has a nil root, and [Rooted], [Edges],
    [Nodes], [Tips] and the other traversals ([InternalEdges], [TipEdges],
    [AllTipNames]) dereference that root with no error branch: on the fresh
    tree each of them ends in a nil-dereference panic, none returns. *)
Theorem NewTree_traversals_panic :
  root NewTree = None /\
  Rooted NewTree = Panic nil_deref /\
  Edges NewTree = Panic nil_deref /\
  Nodes NewTree = Panic nil_deref /\
  Tips NewTree = Panic nil_deref /\
  InternalEdges NewTree = Panic nil_deref /\
  TipEdges NewTree = Panic nil_deref /\
  AllTipNames NewTree = Panic nil_deref.
Proof. repeat split; reflexivity. Qed.

(* --------------------------------------------------------------------- *)
(** *** Inversion of the operations that edit a tree                      *)
(* --------------------------------------------------------------------- *)

Lemma mbind_inv {A B} (c : M A) (k : A -> M B) (t : Tree) (r : B) (t' : Tree) :
  mbind c k t = Ret (r, t') ->
  exists a t1, c t = Ret (a, t1) /\ k a t1 = Ret (r, t').
Proof. unfold mbind. destruct (c t) as [[a t1]| |]; try discriminate. eauto. Qed.

Lemma mret_inv {A} (a b : A) (t t' : Tree) : mret a t = Ret (b, t') -> b = a /\ t' = t.
Proof. unfold mret. intros H. inversion H. auto. Qed.

Lemma mwrite_inv (f : Tree -> Tree) (t t' : Tree) (u : unit) :
  mwrite f t = Ret (u, t') -> t' = f t.
Proof. unfold mwrite. intros H. inversion H. auto. Qed.

Lemma mread_inv {A} (f : Tree -> outcome A) (t t' : Tree) (a : A) :
  mread f t = Ret (a, t') -> t' = t /\ f t = Ret a.
Proof. unfold mread. destruct (f t); simpl; intros H; inversion H. auto. Qed.

Lemma of_option_inv {A} (why : string) (o : option A) (a : A) :
  of_option why o = Ret a -> o = Some a.
Proof. destruct o; simpl; intros H; inversion H. auto. Qed.

Lemma get_node_inv (p : ptr) (t t' : Tree) (n : Node) :
  get_node p t = Ret (n, t') -> t' = t /\ nodes t !! p = Some n.
Proof.
  intros H. unfold get_node, node_at in H. apply mread_inv in H as [-> H]. apply of_option_inv in H. auto.
Qed.

Lemma get_edge_inv (p : ptr) (t t' : Tree) (e : Edge) :
  get_edge p t = Ret (e, t') -> t' = t /\ edges t !! p = Some e.
Proof.
  intros H. unfold get_edge, edge_at in H. apply mread_inv in H as [-> H]. apply of_option_inv in H. auto.
Qed.

Lemma upd_node_inv (p : ptr) (f : Node -> Node) (t t' : Tree) (u : unit) :
  upd_node p f t = Ret (u, t') ->
  exists n, nodes t !! p = Some n /\ t' = put_node t p (f n).
Proof.
  intros H. apply mbind_inv in H as (n & t1 & H1 & H2).
  apply get_node_inv in H1 as [-> H1]. apply mwrite_inv in H2. eauto.
Qed.

Lemma upd_edge_inv (p : ptr) (f : Edge -> Edge) (t t' : Tree) (u : unit) :
  upd_edge p f t = Ret (u, t') ->
  exists e, edges t !! p = Some e /\ t' = put_edge t p (f e).
Proof.
  intros H. apply mbind_inv in H as (n & t1 & H1 & H2).
  apply get_edge_inv in H1 as [-> H1]. apply mwrite_inv in H2. eauto.
Qed.

(** Splits a hypothesis on a sequence of operations into one hypothesis per
    operation. *)
Ltac minv :=
  repeat match goal with
  | H : mbind _ _ _ = Ret _ |- _ =>
      let a := fresh "a" in let t := fresh "t" in let H1 := fresh "H" in
      apply mbind_inv in H as (a & t & H1 & H)
  | H : mret _ _ = Ret _ |- _ => apply mret_inv in H as [? ?]; subst
  | H : err _ _ = Ret _ |- _ => apply mret_inv in H as [? ?]; subst
  | H : mwrite _ _ = Ret _ |- _ => apply mwrite_inv in H; subst
  | H : get_node _ _ = Ret _ |- _ => apply get_node_inv in H as [? H]; subst
  | H : get_edge _ _ = Ret _ |- _ => apply get_edge_inv in H as [? H]; subst
  | H : mread _ _ = Ret _ |- _ => apply mread_inv in H as [? H]; subst
  | H : upd_node _ _ _ = Ret _ |- _ => apply upd_node_inv in H as (? & ? & ?); subst
  | H : upd_edge _ _ _ = Ret _ |- _ => apply upd_edge_inv in H as (? & ? & ?); subst
  | H : of_option _ _ = Ret _ |- _ => apply of_option_inv in H
  | H : Ret _ = Ret _ |- _ => inversion H; subst; clear H
  end.

(** What an operation leaves as it was. *)
Record same_but_nodes (t t' : Tree) : Prop := {
  sbn_edges : edges t' = edges t;
  sbn_root : root t' = root t;
  sbn_index : tipIndex t' = tipIndex t;
  sbn_length : length (nodes t') = length (nodes t)
}.

Lemma put_node_same (t : Tree) (p : ptr) (n : Node) : same_but_nodes t (put_node t p n).
Proof. split; try reflexivity. simpl. apply length_insert. Qed.

Lemma delNeighbor_inv (p x : ptr) (t t' : Tree) (r : option error) :
  delNeighbor (Some p) x t = Ret (r, t') ->
  same_but_nodes t t' /\
  (forall q, q <> p -> nodes t' !! q = nodes t !! q) /\
  exists nd, nodes t !! p = Some nd /\
    ((r <> None /\ t' = t) \/
     (exists i, r = None /\ index_of x (n_neigh nd) = Some i /\
        nodes t' !! p
          = Some (with_neigh nd (delete i (n_neigh nd)) (delete i (n_br nd))))).
Proof.
  unfold delNeighbor. intros H. apply mbind_inv in H as (p' & t1 & Hp & H).
  apply mbind_inv in H as (nd & t2 & Hnd & H). minv. simpl in Hp.
  simplify_eq. unfold NodeIndex in H.
  destruct (index_of x (n_neigh nd)) as [i|] eqn:Hi.
  - destruct (Nat.ltb i (length (n_br nd))); [|discriminate]. minv. simplify_eq.
    split; [apply put_node_same|]. split.
    + intros q Hq. simpl. now rewrite list_lookup_insert_ne.
    + eexists. split; [eassumption|]. right. exists i. repeat split; try assumption.
      simpl. apply list_lookup_insert_eq. eapply lookup_lt_Some; eassumption.
  - minv. split; [split; reflexivity|]. split; [reflexivity|].
    eexists. split; [eassumption|]. left. split; [discriminate|reflexivity].
Qed.

Definition fresh_edge (a b : ptr) : Edge :=
  mkEdge (Some a) (Some b) NIL_LENGTH NIL_SUPPORT NIL_PVALUE NIL_ID None.

Lemma ConnectNodes_inv (a b : ptr) (t t' : Tree) (e : ptr) :
  ConnectNodes a b t = Ret (e, t') ->
  e = length (edges t) /\
  edges t' = edges t ++ [fresh_edge a b] /\
  root t' = root t /\ tipIndex t' = tipIndex t /\
  length (nodes t') = length (nodes t) /\
  (forall q, q <> a -> q <> b -> nodes t' !! q = nodes t !! q) /\
  exists na nb, nodes t !! a = Some na /\
    nodes (put_node t a (with_neigh na (n_neigh na ++ [b]) (n_br na ++ [e]))) !! b
      = Some nb /\
    nodes t' = <[b := with_neigh nb (n_neigh nb ++ [a]) (n_br nb ++ [e])]>
                 (<[a := with_neigh na (n_neigh na ++ [b]) (n_br na ++ [e])]> (nodes t)).
Proof.
  unfold ConnectNodes, addChild. intros H.
  apply mbind_inv in H as (e0 & t0 & Hnew & H).
  unfold NewEdge in Hnew. inversion Hnew; subst e0 t0. clear Hnew.
  apply mbind_inv in H as (u1 & t1 & H1 & H).
  apply upd_edge_inv in H1 as (e1 & He1 & ->).
  apply mbind_inv in H as (u2 & t2 & H2 & H).
  apply upd_edge_inv in H2 as (e2 & He2 & ->).
  apply mbind_inv in H as (u3 & t3 & H3 & H).
  apply upd_node_inv in H3 as (na & Hna & ->).
  apply mbind_inv in H as (u4 & t4 & H4 & H).
  apply upd_node_inv in H4 as (nb & Hnb & ->).
  apply mret_inv in H as [-> ->].
  simpl in *.
  rewrite lookup_app_r in He1 by lia. rewrite Nat.sub_diag in He1. simpl in He1.
  inversion He1; subst e1. clear He1.
  rewrite list_lookup_insert_eq in He2 by (rewrite length_app; simpl; lia).
  inversion He2; subst e2. clear He2. simpl.
  split; [reflexivity|]. split.
  { rewrite list_insert_insert_eq.
    replace (length (edges t)) with (length (edges t) + 0) at 1 by lia.
    rewrite insert_app_r. reflexivity. }
  split; [reflexivity|]. split; [reflexivity|]. split.
  { now rewrite !length_insert. }
  split.
  { intros q Ha Hb. rewrite !list_lookup_insert_ne by congruence. reflexivity. }
  exists na, nb. repeat split; assumption.
Qed.

Lemma mfold_upd_edge_inv (f : Edge -> Edge) (l : list ptr) (t t' : Tree) (u : unit) :
  mfold (fun _ e => upd_edge e f) l tt t = Ret (u, t') ->
  nodes t' = nodes t /\ root t' = root t /\ tipIndex t' = tipIndex t /\
  length (edges t') = length (edges t) /\
  forall k, k ∉ l -> edges t' !! k = edges t !! k.
Proof.
  revert t. induction l as [|x l IH]; intros t H; simpl in H.
  - minv. auto.
  - apply mbind_inv in H as (u1 & t1 & H1 & H).
    apply upd_edge_inv in H1 as (e & He & ->). destruct u1.
    apply IH in H as (Hn & Hr & Hi & Hl & Hk). simpl in *.
    rewrite length_insert in Hl.
    repeat split; try assumption.
    intros k Hk'. rewrite Hk by (intros ?; apply Hk'; now right).
    apply list_lookup_insert_ne. intros ->. apply Hk'. now left.
Qed.

Lemma delNode_inv (n : ptr) (t t' : Tree) (u : unit) :
  delNode n t = Ret (u, t') ->
  exists nd, nodes t !! n = Some nd /\
    root t' = root t /\ tipIndex t' = tipIndex t /\
    length (edges t') = length (edges t) /\
    (forall q, q <> n -> nodes t' !! q = nodes t !! q) /\
    (forall k, k ∉ n_br nd -> edges t' !! k = edges t !! k).
Proof.
  unfold delNode. intros H.
  apply mbind_inv in H as (nd & t0 & H0 & H). apply get_node_inv in H0 as [-> H0].
  apply mbind_inv in H as (u1 & t1 & H1 & H).
  apply upd_node_inv in H1 as (n1 & Hn1 & ->).
  apply mbind_inv in H as (u2 & t2 & H2 & H).
  apply mfold_upd_edge_inv in H2 as (Hn & Hr & Hi & Hl & Hk).
  apply upd_node_inv in H as (n2 & Hn2 & ->). simpl in *.
  exists nd. repeat split; try assumption.
  intros q Hq. rewrite list_lookup_insert_ne by congruence. rewrite Hn.
  now rewrite list_lookup_insert_ne by congruence.
Qed.

(* --------------------------------------------------------------------- *)
(** *** Tip removal: the edge that replaces a node of degree 2            *)
(* --------------------------------------------------------------------- *)

(** The length and the support given to the merged edge, from those of the
    two edges it replaces; [inner] tells that both its ends have more than
    one neighbor. *)
Definition merged_length (l1 l2 : float) : float :=
  if (float_neqb l1 NIL_LENGTH || float_neqb l2 NIL_LENGTH)%bool
  then (math_Max 0 l1 + math_Max 0 l2)%float else NIL_LENGTH.

Definition merged_support (s1 s2 : float) (inner : bool) : float :=
  if ((float_neqb s1 NIL_SUPPORT || float_neqb s2 NIL_SUPPORT) && inner)%bool
  then math_Max s1 s2 else NIL_SUPPORT.

Definition inner_edge (nl nr : Node) : bool :=
  (Nat.ltb 1 (length (n_neigh nl)) && Nat.ltb 1 (length (n_neigh nr)))%bool.

Lemma splice_finish_inv (internal n1 n2 : ptr) (l1 l2 s1 s2 : float) (e : ptr)
  (t t' : Tree) (r : option error) (nd : Node) (a b : ptr) :
  nodes t !! internal = Some nd -> e ∉ n_br nd ->
  n1 <> internal -> n2 <> internal ->
  edges t !! e = Some (fresh_edge a b) ->
  splice_finish internal n1 n2 l1 l2 s1 s2 e t = Ret (r, t') ->
  r = None /\ root t' = root t /\
  exists nl nr ed,
    nodes t' !! n1 = Some nl /\ nodes t' !! n2 = Some nr /\
    edges t' !! e = Some ed /\
    e_left ed = Some a /\ e_right ed = Some b /\
    e_length ed = merged_length l1 l2 /\
    e_support ed = merged_support s1 s2 (inner_edge nl nr).
Proof.
  intros Hnd He Hn1 Hn2 Hed H. unfold splice_finish in H.
  apply mbind_inv in H as (u1 & t1 & H1 & H).
  assert (Ht1 : nodes t1 = nodes t /\ root t1 = root t /\
                exists ed, edges t1 !! e = Some ed /\
                  length (edges t1) = length (edges t) /\
                  (forall k, k <> e -> edges t1 !! k = edges t !! k) /\
                  e_left ed = Some a /\ e_right ed = Some b /\
                  e_length ed = merged_length l1 l2 /\ e_support ed = NIL_SUPPORT).
  { unfold merged_length.
    destruct (float_neqb l1 NIL_LENGTH || float_neqb l2 NIL_LENGTH)%bool.
    - apply upd_edge_inv in H1 as (ed0 & Hed0 & ->). simplify_eq. simpl.
      split; [reflexivity|]. split; [reflexivity|]. eexists. split.
      { apply list_lookup_insert_eq. eapply lookup_lt_Some; eassumption. }
      split; [apply length_insert|]. split.
      { intros k Hk. now apply list_lookup_insert_ne. }
      repeat split; reflexivity.
    - apply mret_inv in H1 as [_ ->]. split; [reflexivity|]. split; [reflexivity|].
      eexists. split; [eassumption|]. repeat split; reflexivity. }
  destruct Ht1 as (Hnodes1 & Hroot1 & ed1 & Hed1 & Hlen1 & Hoth1 & Hl1 & Hr1 & Hlen & Hsup).
  apply mbind_inv in H as (nl & t2 & H2 & H). apply get_node_inv in H2 as [-> Hnl].
  apply mbind_inv in H as (nr & t2 & H2 & H). apply get_node_inv in H2 as [-> Hnr].
  apply mbind_inv in H as (u3 & t3 & H3 & H).
  assert (Ht3 : nodes t3 = nodes t /\ root t3 = root t /\
                exists ed, edges t3 !! e = Some ed /\
                  (forall k, k <> e -> edges t3 !! k = edges t !! k) /\
                  e_left ed = Some a /\ e_right ed = Some b /\
                  e_length ed = merged_length l1 l2 /\
                  e_support ed = merged_support s1 s2 (inner_edge nl nr)).
  { unfold merged_support, inner_edge. rewrite andb_assoc.
    destruct ((float_neqb s1 NIL_SUPPORT || float_neqb s2 NIL_SUPPORT)
              && Nat.ltb 1 (length (n_neigh nl))
              && Nat.ltb 1 (length (n_neigh nr)))%bool.
    - apply upd_edge_inv in H3 as (ed0 & Hed0 & ->). simplify_eq. simpl.
      split; [assumption|]. split; [assumption|]. eexists. split.
      { apply list_lookup_insert_eq. eapply lookup_lt_Some; eassumption. }
      split.
      { intros k Hk. rewrite list_lookup_insert_ne by congruence. now apply Hoth1. }
      repeat split; assumption.
    - apply mret_inv in H3 as [_ ->]. split; [assumption|]. split; [assumption|].
      eexists. split; [eassumption|]. repeat split; assumption. }
  destruct Ht3 as (Hnodes3 & Hroot3 & ed3 & Hed3 & Hoth3 & Hl3 & Hr3 & Hlen3 & Hsup3).
  apply mbind_inv in H as (u4 & t4 & H4 & H). apply mret_inv in H as [-> ->].
  apply delNode_inv in H4 as (nd' & Hnd' & Hroot4 & _ & _ & Hnodes4 & Hedges4).
  rewrite Hnodes3 in Hnd'. simplify_eq.
  split; [reflexivity|]. split; [congruence|].
  exists nl, nr, ed3. rewrite !Hnodes4 by assumption. rewrite Hnodes3.
  rewrite Hnodes1 in Hnl, Hnr. rewrite Hedges4 by assumption.
  repeat split; assumption.
Qed.

(** C2 (amended). When [removeTip] leaves the former parent with degree 2,
    the two incident edges are replaced by one new edge between the two
    remaining neighbors.  Its length is [max(0,l1) + max(0,l2)] as soon as
    at least one of the two lengths is defined, and stays unset only when
    both are unset; its support is [max(s1,s2)] as soon as at least one of
    the two supports is defined and both ends of the new edge have more
    than one neighbor, and stays unset otherwise. *)
Theorem removeTip_splice_merged (internal : ptr) (t t' : Tree) (nd : Node)
  (n1 n2 b1 b2 : ptr) (eb1 eb2 : Edge) :
  nodes t !! internal = Some nd ->
  n_neigh nd = [n1; n2] -> n_br nd = [b1; b2] ->
  edges t !! b1 = Some eb1 -> edges t !! b2 = Some eb2 ->
  n1 <> internal -> n2 <> internal ->
  removeTip_splice internal t = Ret (None, t') ->
  exists pl pr nl nr ed,
    (pl = n1 /\ pr = n2 \/ pl = n2 /\ pr = n1) /\
    nodes t' !! pl = Some nl /\ nodes t' !! pr = Some nr /\
    edges t' !! length (edges t) = Some ed /\
    e_left ed = Some pl /\ e_right ed = Some pr /\
    e_length ed = merged_length (e_length eb1) (e_length eb2) /\
    e_support ed
      = merged_support (e_support eb1) (e_support eb2) (inner_edge nl nr).
Proof.
  intros Hnd Hneigh Hbr Hb1 Hb2 Hn1 Hn2 H. unfold removeTip_splice in H.
  apply mbind_inv in H as (nd0 & t0 & H0 & H). apply get_node_inv in H0 as [-> H0].
  rewrite Hnd in H0. injection H0 as <-. rewrite Hneigh, Hbr in H.
  do 4 (apply mbind_inv in H as (? & ? & H0 & H);
        apply mread_inv in H0 as [-> H0]; simpl in H0; injection H0 as <-).
  apply mbind_inv in H as (? & ? & H0 & H). apply get_edge_inv in H0 as [-> H0].
  rewrite Hb1 in H0. injection H0 as <-.
  apply mbind_inv in H as (? & ? & H0 & H). apply get_edge_inv in H0 as [-> H0].
  rewrite Hb2 in H0. injection H0 as <-.
  apply mbind_inv in H as (r1 & t1 & Hd1 & H).
  destruct r1 as [?|]; [apply mret_inv in H as [? _]; discriminate|].
  apply delNeighbor_inv in Hd1 as (Hs1 & Ho1 & _).
  apply mbind_inv in H as (r2 & t2 & Hd2 & H).
  destruct r2 as [?|]; [apply mret_inv in H as [? _]; discriminate|].
  apply delNeighbor_inv in Hd2 as (Hs2 & Ho2 & _).
  assert (Hint : nodes t2 !! internal = Some nd).
  { rewrite Ho2, Ho1 by congruence. assumption. }
  assert (Hedges : edges t2 = edges t).
  { destruct Hs1, Hs2. congruence. }
  assert (Hfresh : length (edges t) ∉ n_br nd).
  { rewrite Hbr. intros Hin.
    apply lookup_lt_Some in Hb1, Hb2.
    apply elem_of_cons in Hin as [Hin|Hin]; [lia|].
    apply elem_of_cons in Hin as [Hin|Hin]; [lia|]. inversion Hin. }
  (* what follows the connection of [a] to [b], with or without a new root *)
  match goal with |- ?G => set (Post := G) end.
  assert (Hgo : forall a b (f : Tree -> Tree) r,
            (forall x, nodes (f x) = nodes x /\ edges (f x) = edges x) ->
            (a = n1 /\ b = n2 \/ a = n2 /\ b = n1) ->
            mbind (ConnectNodes a b)
              (fun e => mbind (mwrite f) (fun _ =>
                 splice_finish internal n1 n2 (e_length eb1) (e_length eb2)
                   (e_support eb1) (e_support eb2) e)) t2 = Ret (r, t') ->
            Post).
  { intros a b f r Hf Hab Hrun. subst Post.
    apply mbind_inv in Hrun as (e & t3 & Hc & Hrun).
    apply ConnectNodes_inv in Hc as (-> & Hed3 & _ & _ & _ & Hoth3 & _).
    apply mbind_inv in Hrun as (u & t4 & Hw & Hrun). apply mwrite_inv in Hw. subst t4.
    destruct (Hf t3) as [Hfn Hfe].
    eapply splice_finish_inv with (nd := nd) (a := a) (b := b) in Hrun;
      try assumption.
    - destruct Hrun as (_ & _ & nl & nr & ed & Hnl & Hnr & Hed & Hl & Hr & Hlen & Hsup).
      rewrite Hedges in Hed.
      destruct Hab as [[-> ->]|[-> ->]].
      + exists n1, n2, nl, nr, ed. repeat split; auto.
      + exists n2, n1, nr, nl, ed. repeat split; auto.
        rewrite Hsup. unfold inner_edge. now rewrite andb_comm.
    - rewrite Hfn, Hoth3; [assumption| |]; destruct Hab as [[-> ->]|[-> ->]]; congruence.
    - now rewrite Hedges.
    - rewrite Hfe, Hed3, Hedges. rewrite lookup_app_r by lia.
      now rewrite Nat.sub_diag. }
  assert (Hplain : forall a b r,
            (a = n1 /\ b = n2 \/ a = n2 /\ b = n1) ->
            mbind (ConnectNodes a b)
              (splice_finish internal n1 n2 (e_length eb1) (e_length eb2)
                 (e_support eb1) (e_support eb2)) t2 = Ret (r, t') -> Post).
  { intros a b r Hab Hrun. apply (Hgo a b (fun x => x) r); auto. }
  destruct (ptr_eqb (e_left eb1) (Some n1) && ptr_eqb (e_right eb2) (Some n2))%bool.
  { eapply Hplain; [|exact H]. auto. }
  destruct (negb (ptr_eqb (e_left eb1) (Some n1))
            && negb (ptr_eqb (e_right eb2) (Some n2)))%bool.
  { eapply Hplain; [|exact H]. auto. }
  destruct (negb (ptr_eqb (e_left eb1) (Some n1))
            && ptr_eqb (e_right eb2) (Some n2))%bool;
    [|apply mret_inv in H as [? _]; discriminate].
  apply mbind_inv in H as (rt & ? & H0 & H). apply mread_inv in H0 as [-> _].
  destruct (negb (ptr_eqb rt (Some internal)));
    [apply mret_inv in H as [? _]; discriminate|].
  apply mbind_inv in H as (nd1 & ? & H0 & H). apply get_node_inv in H0 as [-> _].
  apply mbind_inv in H as (nd2 & ? & H0 & H). apply get_node_inv in H0 as [-> _].
  destruct (Nat.ltb 1 (length (n_neigh nd1))).
  { eapply (Hgo n1 n2 (fun x => SetRoot x (Some n1))); [auto|auto|exact H]. }
  destruct (Nat.eqb (length (n_neigh nd1)) 1);
    [apply mret_inv in H as [? _]; discriminate|].
  destruct (Nat.ltb 1 (length (n_neigh nd2))).
  { eapply (Hgo n2 n1 (fun x => SetRoot x (Some n2))); [auto|auto|exact H]. }
  destruct (Nat.eqb (length (n_neigh nd2)) 1);
    apply mret_inv in H as [? _]; discriminate.
Qed.

Import examples.

Lemma removeTip_splice_merged_witness :
  exists t',
    removeTip_splice 0 quartet_ab = Ret (None, t') /\
    exists pl pr nl nr ed,
      (pl = 1 /\ pr = 4 \/ pl = 4 /\ pr = 1) /\
      nodes t' !! pl = Some nl /\ nodes t' !! pr = Some nr /\
      edges t' !! length (edges quartet_ab) = Some ed /\
      e_left ed = Some pl /\ e_right ed = Some pr /\
      e_length ed = merged_length NIL_LENGTH NIL_LENGTH /\
      e_support ed = merged_support NIL_SUPPORT NIL_SUPPORT (inner_edge nl nr).
Proof.
  eexists. split; [vm_compute; reflexivity|].
  eapply (removeTip_splice_merged 0 quartet_ab _ _ 1 4 0 3
            (fresh_edge 0 1) (fresh_edge 0 4));
    try (vm_compute; reflexivity); lia.
Defined.

(** C2, as stated, fails.  In [(((a,b),t2)0.75:1.0,c,d);] the removal of the
    tip [t2] leaves its parent with degree 2, between an edge of length 1.0
    and support 0.75 and an edge with neither length nor support; the edge
    that replaces them gets the length 1.0 and the support 0.75, where the
    claim leaves both unset. *)
Lemma one_defined_value_is_kept :
  n_name <$> nodes caterpillar !! 5 = Some "t2" /\
  edges caterpillar !! 0 = Some (mkEdge (Some 0) (Some 1) 1 0.75 NIL_PVALUE NIL_ID None) /\
  edges caterpillar !! 1 = Some (fresh_edge 1 2) /\
  exists t',
    removeTip 5 caterpillar = Ret (None, t') /\
    n_neigh <$> nodes t' !! 1 = Some [] /\
    edges t' !! 7 = Some (mkEdge (Some 0) (Some 2) 1 0.75 NIL_PVALUE NIL_ID None) /\
    float_neqb 1 NIL_LENGTH = true /\ float_neqb 0.75 NIL_SUPPORT = true.
Proof.
  split; [reflexivity|]. split; [reflexivity|]. split; [reflexivity|].
  eexists. split; [vm_compute; reflexivity|]. repeat split; reflexivity.
Qed.

End tree_facts.

Module support_facts.
Import tree support examples.

(* --------------------------------------------------------------------- *)
(** *** The loop of [ComputeValue] over the stream                        *)
(* --------------------------------------------------------------------- *)

(** What an observer of the channels and of the counter sees of a run. *)
Definition work (r : outcome (option error * Loop)) : outcome Worker :=
  let! x := r in Ret (l_worker (snd x)).

Definition step_view (f : step) : nat * option error * Worker :=
  match f with
  | Continue s => (0, None, l_worker s)
  | Stop s => (1, None, l_worker s)
  | Fatal e s => (2, Some e, l_worker s)
  end.

Definition omap {A B} (f : A -> B) (c : outcome A) : outcome B :=
  let! a := c in Ret (f a).

Section Stream.

Variables (supporter : BoosterSupporter) (canceled : Z -> bool).
Variables (refTree : Tree) (edges : list ptr) (ntips : nat).

Local Abbreviation receive := (receive supporter canceled refTree edges ntips).
Local Abbreviation drain := (drain supporter canceled refTree edges ntips).

(** The body of the loop reads the state of the loop only through the
    worker: [err] is assigned before it is read. *)
Lemma receive_worker (treeV : Trees) (s1 s2 : Loop) :
  l_worker s1 = l_worker s2 ->
  omap step_view (receive treeV s1) = omap step_view (receive treeV s2).
Proof.
  intros Hw. unfold support.receive. rewrite Hw.
  destruct (tv_Err treeV); [reflexivity|].
  destruct (tv_Tree treeV) as [bt|]; [|reflexivity]. simpl.
  destruct (ReinitIndexes bt) as [[u bt']| |]; [|reflexivity..]. simpl.
  destruct (CompareTipIndexes refTree bt'); [reflexivity|].
  destruct (process_tree _ _ _ _ _ _ _) as [[w|w|e w]| |]; reflexivity.
Qed.

Lemma drain_worker (l : list Trees) (s1 s2 : Loop) :
  l_worker s1 = l_worker s2 -> work (drain l s1) = work (drain l s2).
Proof.
  revert s1 s2. induction l as [|x l IH]; intros s1 s2 Hw; simpl.
  - unfold work; simpl. now rewrite Hw.
  - pose proof (receive_worker x s1 s2 Hw) as Hr.
    destruct (receive x s1) as [f1| |], (receive x s2) as [f2| |];
      simpl in Hr; try discriminate; try reflexivity.
    + destruct f1 as [a|a|e a], f2 as [b|b|e' b]; simpl in Hr;
        try discriminate; inversion Hr; subst; simpl.
      * now apply IH.
      * unfold work; simpl. congruence.
      * unfold work; simpl. congruence.
    + inversion Hr; subst. reflexivity.
Qed.

(** An item on which the body only assigns [err] and logs leaves, once
    taken out of the stream, the same work done. *)
Lemma drain_skip (pre post : list Trees) (x : Trees) (s : Loop) :
  (forall s, exists s', receive x s = Ret (Continue s') /\ l_worker s' = l_worker s) ->
  work (drain (pre ++ x :: post) s) = work (drain (pre ++ post) s).
Proof.
  intros Hx. revert s. induction pre as [|y pre IH]; intros s; simpl.
  - destruct (Hx s) as (s' & -> & Hw). simpl. now apply drain_worker.
  - destruct (receive y s) as [[a|a|e a]| |]; simpl; try reflexivity. apply IH.
Qed.


(** C1 (amended). A bootstrap tree whose tip names are not those of the
    reference tree is skipped: nothing is emitted for it and it is not
    counted (the worker is left as it was, the comparison error being
    assigned to [err]), and the draining goes on: the other items are
    received and processed exactly as if the tree were not in the stream. *)
Theorem mismatched_tree_skipped (pre post : list Trees) (treeV : Trees)
  (bt bt' : Tree) (er : error) (s : Loop) :
  tv_Err treeV = None ->
  tv_Tree treeV = Some bt ->
  ReinitIndexes bt = Ret (tt, bt') ->
  CompareTipIndexes refTree bt' = Some er ->
  receive treeV s = Ret (Continue (mkLoop (l_worker s) (Some er) (l_logged s))) /\
  drain (treeV :: post) s = drain post (mkLoop (l_worker s) (Some er) (l_logged s)) /\
  work (drain (pre ++ treeV :: post) s) = work (drain (pre ++ post) s).
Proof.
  intros He Ht Hi Hc.
  assert (Hr : forall s, receive treeV s
            = Ret (Continue (mkLoop (l_worker s) (Some er) (l_logged s)))).
  { intros s0. unfold support.receive. rewrite He, Ht. simpl. rewrite Hi. simpl.
    now rewrite Hc. }
  split; [apply Hr|]. split.
  - simpl. now rewrite Hr.
  - apply drain_skip. intros s0. eexists. split; [apply Hr|reflexivity].
Qed.

End Stream.

(** A run on the reference tree [((A,B),(C,D));]. *)
Definition quiet : BoosterSupporter :=
  NewBoosterSupporter true false false false 1%float true.
Definition never (_ : Z) : bool := false.
Definition reference : Tree := indexed quartet_ab.
Definition item (id : Z) (t : Tree) : Trees := mkTrees (Some t) id None.

Definition reinit (t : Tree) : Tree :=
  match ReinitIndexes t with Ret (_, t') => t' | _ => t end.


Lemma mismatched_tree_skipped_witness :
  work (drain quiet never reference (edges_of reference) 4
          ([item 0 quartet_ab] ++ item 1 quartet_abce :: [item 2 quartet_ac])
          (fresh quiet 6 4))
  = work (drain quiet never reference (edges_of reference) 4
          ([item 0 quartet_ab] ++ [item 2 quartet_ac]) (fresh quiet 6 4)).
Proof.
  apply (mismatched_tree_skipped quiet never reference (edges_of reference) 4
           [item 0 quartet_ab] [item 2 quartet_ac] (item 1 quartet_abce)
           quartet_abce (reinit quartet_abce)
           (errorsNew "Trees do not have the same tip names") (fresh quiet 6 4));
    vm_compute; reflexivity.
Defined.

(** C1, as stated, fails: the tree [((A,B),(C,E));] does not have the tip
    names of the reference tree, yet [ComputeValue] goes on to the next tree
    of the stream, emits its two values, counts it, and returns nil. *)
Lemma mismatch_is_not_fatal :
  CompareTipIndexes reference (reinit quartet_abce)
    = Some (errorsNew "Trees do not have the same tip names") /\
  exists s,
    ComputeValue quiet never reference (edges_of reference)
      [item 0 quartet_abce; item 1 quartet_ab] = Ret (None, s) /\
    w_currentTree (l_worker s) = 1%Z /\
    w_valChan (l_worker s) = [mkBootval 0 0 false; mkBootval 0 3 false].
Proof.
  split; [vm_compute; reflexivity|].
  eexists. split; [vm_compute; reflexivity|]. split; reflexivity.
Qed.

(* --------------------------------------------------------------------- *)
(** *** The checks after the second pass                                  *)
(* --------------------------------------------------------------------- *)

Definition no_exact_match (d : N) : error :=
  errorf "any terminal edge should have an exact match in any bootstrap tree (%d)"
    [Z.of_N d].

Lemma check_min_dist_step (refTree : Tree) (m : Mats) (x : ptr)
  (res res' : option error) :
  check_min_dist refTree m res x = Ret res' ->
  res' = res \/ res = None /\ exists d, d <> 0%N /\ res' = Some (no_exact_match d).
Proof.
  unfold check_min_dist. destruct res as [e0|]; [left; congruence|].
  destruct (edge_at refTree x) as [ed| |]; simpl; try discriminate.
  destruct (at_index (min_dist m) (e_id ed)) as [d| |] eqn:Hd;
    simpl; try discriminate.
  replace (N.ltb d 0) with false by (symmetry; apply N.ltb_ge; lia).
  destruct (node_of refTree (e_right ed)) as [r| |]; simpl; try discriminate.
  destruct (Node_Tip r && negb (N.eqb d 0))%bool eqn:Hc; intros H.
  - right. split; [reflexivity|]. exists d.
    apply andb_prop in Hc as [_ Hc]. apply negb_true_iff, N.eqb_neq in Hc.
    split; [exact Hc|]. inversion H. reflexivity.
  - left. congruence.
Qed.

Lemma check_min_dist_error (refTree : Tree) (m : Mats) (edges : list ptr)
  (res : option error) (e : error) :
  ofold (check_min_dist refTree m) edges res = Ret (Some e) ->
  res = Some e \/ exists d, d <> 0%N /\ e = no_exact_match d.
Proof.
  revert res. induction edges as [|x l IH]; intros res H; cbn [ofold] in H.
  - left. congruence.
  - destruct (check_min_dist refTree m res x) as [res'| |] eqn:Hs;
      cbn [obind] in H; try discriminate.
    apply IH in H. apply check_min_dist_step in Hs.
    destruct H as [H|H]; [|right; exact H]. subst res'.
    destruct Hs as [Hs|(_ & d & Hd & Hs)]; [left; congruence|].
    right. exists d. split; [exact Hd|congruence].
Qed.

(** C9. The branch of [Update_all_i_c_post_order_boot_tree] guarded by
    [min_dist < 0] is never taken, the entries being unsigned: whatever the
    input, an error returned by the function is the one of a terminal edge
    with a non-zero minimum distance. *)
Theorem min_dist_negative_unreachable (fuel : nat) (refTree : Tree) (ntips : N)
  (edges : list ptr) (bootTree : Tree) (m m' : Mats) (e : error) :
  Update_all_i_c_post_order_boot_tree fuel refTree ntips edges bootTree m
    = Ret (Some e, m') ->
  e <> errorsNew "Min dist should be >= 0" /\
  exists d, d <> 0%N /\ e = no_exact_match d.
Proof.
  unfold Update_all_i_c_post_order_boot_tree. intros H.
  destruct (of_option nil_deref (Root bootTree)) as [r| |]; simpl in H;
    try discriminate.
  destruct (node_at bootTree r) as [rn| |]; simpl in H; try discriminate.
  destruct (ofoldi _ 0 (n_neigh rn) m) as [m1| |]; simpl in H; try discriminate.
  destruct (ofold (check_min_dist refTree m1) edges None) as [res| |] eqn:Hc;
    simpl in H; try discriminate.
  inversion H; subst. apply check_min_dist_error in Hc.
  destruct Hc as [Hc|(d & Hd & ->)]; [discriminate|].
  split; [discriminate|]. exists d. split; [exact Hd|reflexivity].
Qed.

(** The matrices of a worker for 6 reference and 6 bootstrap edges, after
    the first pass against the bootstrap tree [((A,B),(C,E));]. *)
Definition zeros (rows cols : nat) : matrix := replicate rows (replicate cols 0%N).
Definition seeded (boot : Tree) : Mats :=
  match Update_all_i_c_post_order_ref_tree 8 reference boot (edges_of boot)
          (mkMats (zeros 6 6) (zeros 6 6) (zeros 6 6) (replicate 6 4%N)
             (replicate 6 (-1)%Z)) with
  | Ret m => m
  | _ => mkMats [] [] [] [] []
  end.

Lemma min_dist_negative_unreachable_witness :
  exists e m',
    Update_all_i_c_post_order_boot_tree 8 reference 4 (edges_of reference)
      (indexed quartet_abce) (seeded (indexed quartet_abce)) = Ret (Some e, m') /\
    e <> errorsNew "Min dist should be >= 0" /\
    exists d, d <> 0%N /\ e = no_exact_match d.
Proof.
  eexists. eexists. split; [vm_compute; reflexivity|].
  eapply (min_dist_negative_unreachable 8 reference 4 (edges_of reference)
            (indexed quartet_abce) (seeded (indexed quartet_abce))).
  vm_compute. reflexivity.
Defined.

Lemma SFcompare_antisym (x y : spec_float) :
  SFcompare y x = option_map CompOpp (SFcompare x y).
Proof.
  destruct x as [[]|[]| |[] m1 e1], y as [[]|[]| |[] m2 e2];
    simpl; try reflexivity;
    rewrite (Z.compare_antisym e1 e2); destruct (e1 ?= e2)%Z; simpl;
      try reflexivity;
    change (Pos.compare_cont Eq m2 m1) with (Pos.compare m2 m1);
    change (Pos.compare_cont Eq m1 m2) with (Pos.compare m1 m2);
    rewrite (Pos.compare_antisym m1 m2); destruct (m1 ?= m2)%positive;
    reflexivity.
Qed.

Lemma float_lt_not_ge (x y : float) :
  PrimFloat.leb y x = true -> PrimFloat.ltb x y = false.
Proof.
  rewrite leb_spec, ltb_spec. unfold SFleb, SFltb.
  rewrite (SFcompare_antisym (Prim2SF x) (Prim2SF y)).
  destruct (SFcompare (Prim2SF x) (Prim2SF y)) as [[ | | ]|]; simpl; congruence.
Qed.

(** NaN compares neither below nor above any value, and is not within
    [0,1]. *)
Lemma nan_Prim2SF (x : float) : is_nan x = true -> Prim2SF x = S754_nan.
Proof.
  unfold is_nan. rewrite FloatAxioms.eqb_spec. unfold SFeqb.
  destruct (Prim2SF x) as [[]|[]| |[] m e]; simpl; try discriminate; try reflexivity;
    rewrite Z.compare_refl, Pos.compare_cont_refl; simpl; discriminate.
Qed.

Lemma nan_not_below (x y : float) : is_nan x = true -> PrimFloat.ltb x y = false.
Proof. intros H. rewrite ltb_spec, (nan_Prim2SF x H). reflexivity. Qed.

Lemma nan_not_above (x y : float) : is_nan x = true -> PrimFloat.ltb y x = false.
Proof.
  intros H. rewrite ltb_spec, (nan_Prim2SF x H). unfold SFltb.
  now destruct (Prim2SF y) as [[]|[]| |[] m e].
Qed.

Lemma nan_not_within (x : float) :
  is_nan x = true -> (PrimFloat.leb 0 x && PrimFloat.leb x 1)%bool = false.
Proof. intros H. rewrite !leb_spec, (nan_Prim2SF x H). reflexivity. Qed.

(** C8, as the claim reads: every argument outside [0,1] gives the cutoff
    1.0.  NaN is a float64 outside [0,1]; neither comparison of the
    constructor holds for it, and the supporter keeps NaN, not 1.0. *)
Lemma nan_cutoff_is_kept :
  (PrimFloat.leb 0 nan && PrimFloat.leb nan 1)%bool = false /\
  is_nan (movedSpeciesCutoff (NewBoosterSupporter false false false false nan true)) = true /\
  movedSpeciesCutoff (NewBoosterSupporter false false false false nan true) <> 1%float.
Proof.
  split; [reflexivity|]. split; [reflexivity|].
  intros H. apply (f_equal is_nan) in H. vm_compute in H. discriminate.
Qed.

(** C8. For every cutoff argument that compares below 0 or above 1 the
    constructed supporter has cutoff exactly 1.0 (a negative cutoff becomes
    1.0, not 0); every argument within [0,1] is stored unchanged; and NaN,
    which is not within [0,1] either, is stored unchanged too. *)
Theorem NewBoosterSupporter_cutoff (s m tb hb nz : bool) (x : float) :
  (PrimFloat.ltb x 0 = true \/ PrimFloat.ltb 1 x = true ->
   movedSpeciesCutoff (NewBoosterSupporter s m tb hb x nz) = 1%float) /\
  (PrimFloat.leb 0 x = true /\ PrimFloat.leb x 1 = true ->
   movedSpeciesCutoff (NewBoosterSupporter s m tb hb x nz) = x) /\
  (is_nan x = true ->
   (PrimFloat.leb 0 x && PrimFloat.leb x 1)%bool = false /\
   movedSpeciesCutoff (NewBoosterSupporter s m tb hb x nz) = x).
Proof.
  unfold NewBoosterSupporter; simpl. split; [|split].
  - intros [H | H].
    + rewrite H. reflexivity.
    + destruct (PrimFloat.ltb x 0); [reflexivity | rewrite H; reflexivity].
  - intros [H0 H1].
    rewrite (float_lt_not_ge _ _ H0), (float_lt_not_ge _ _ H1). reflexivity.
  - intros H. split; [now apply nan_not_within|].
    rewrite (nan_not_below x 0 H), (nan_not_above x 1 H). reflexivity.
Qed.

Lemma NewBoosterSupporter_cutoff_witness :
  movedSpeciesCutoff (NewBoosterSupporter false false false false (-0.5)%float true)
    = 1%float /\
  movedSpeciesCutoff (NewBoosterSupporter false false false false 7%float true)
    = 1%float /\
  movedSpeciesCutoff (NewBoosterSupporter false false false false 0.25%float true)
    = 0.25%float /\
  movedSpeciesCutoff (NewBoosterSupporter false false false false nan true) = nan.
Proof.
  split; [|split; [|split]].
  - apply (NewBoosterSupporter_cutoff false false false false true (-0.5)%float).
    left. reflexivity.
  - apply (NewBoosterSupporter_cutoff false false false false true 7%float).
    right. reflexivity.
  - apply (proj1 (proj2 (NewBoosterSupporter_cutoff false false false false true
                           0.25%float))).
    split; reflexivity.
  - apply (proj2 (proj2 (NewBoosterSupporter_cutoff false false false false true nan))).
    reflexivity.
Defined.

End support_facts.

(* ===================================================================== *)
(** ** Well-formed trees                                                  *)
(* ===================================================================== *)

(** The tree that hangs at a node once a parent has been chosen: for each
    child, the position of the child among the neighbors of the node, the
    edge to the child and the subtree of the child. *)
Module shapes.
Import tree.

Inductive shape : Type :=
| Sh (n : ptr) (kids : list (nat * ptr * shape)).

Definition shape_root (s : shape) : ptr := match s with Sh n _ => n end.
Definition shape_kids (s : shape) : list (nat * ptr * shape) :=
  match s with Sh _ kids => kids end.

Definition kid_pos (k : nat * ptr * shape) : nat := fst (fst k).
Definition kid_edge (k : nat * ptr * shape) : ptr := snd (fst k).
Definition kid_sub (k : nat * ptr * shape) : shape := snd k.

Fixpoint shape_nodes (s : shape) : list ptr :=
  match s with
  | Sh n kids => n :: flat_map (fun k => shape_nodes (snd k)) kids
  end.

Fixpoint shape_edges (s : shape) : list ptr :=
  match s with
  | Sh n kids => flat_map (fun k => snd (fst k) :: shape_edges (snd k)) kids
  end.

(** The edges of a shape, each with the subtree below it. *)
Fixpoint shape_subs (s : shape) : list (ptr * shape) :=
  match s with
  | Sh n kids => flat_map (fun k => (snd (fst k), snd k) :: shape_subs (snd k)) kids
  end.

(** The positions and the nodes of the neighbors other than [prev]: what
    the loops [for i, n := range neigh { if n != prev ... }] go through. *)
Definition kid_positions (neigh : list ptr) (prev : option ptr) : list (nat * ptr) :=
  List.filter (fun x => negb (ptr_eqb (Some (snd x)) prev)) (imap (fun i c => (i, c)) neigh).

(** [rep t prev s]: in the tree [t], the node at the root of [s], entered
    from [prev] (nil at the root of the tree), has the children recorded in
    [s], each behind an edge oriented from the node to the child, and the
    same holds below. *)
Inductive rep (t : Tree) : option ptr -> shape -> Prop :=
| rep_intro (prev : option ptr) (n : ptr) (kids : list (nat * ptr * shape)) (nd : Node) :
    nodes t !! n = Some nd ->
    length (n_br nd) = length (n_neigh nd) ->
    kid_positions (n_neigh nd) prev = map (fun k => (kid_pos k, shape_root (kid_sub k))) kids ->
    length (n_neigh nd) = length kids + (match prev with Some _ => 1 | None => 0 end) ->
    (forall k c e, n_neigh nd !! k = Some c -> n_br nd !! k = Some e -> Some c = prev ->
       exists ed, edges t !! e = Some ed /\ e_left ed = prev /\ e_right ed = Some n) ->
    Forall (fun k =>
              n_br nd !! kid_pos k = Some (kid_edge k) /\
              (exists ed, edges t !! kid_edge k = Some ed /\
                          e_left ed = Some n /\
                          e_right ed = Some (shape_root (kid_sub k))) /\
              rep t (Some n) (kid_sub k)) kids ->
    rep t prev (Sh n kids).

(** A tree is well formed when its graph is the one of a shape hanging at
    its root, no node and no edge occurring twice. *)
Record wf (t : Tree) (s : shape) : Prop := {
  wf_root : root t = Some (shape_root s);
  wf_rep : rep t None s;
  wf_nodes : NoDup (shape_nodes s);
  wf_edges : NoDup (shape_edges s)
}.

(** The shape read off a tree, and a check of [rep] and of the absence of
    repetition, both computable. *)
Fixpoint shape_of (fuel : nat) (t : Tree) (n : ptr) (prev : option ptr) : option shape :=
  match fuel with
  | O => None
  | S fuel =>
    nd ← nodes t !! n;
    kids ← mapM (fun x : nat * ptr =>
                   e ← n_br nd !! fst x;
                   s ← shape_of fuel t (snd x) (Some n);
                   Some (fst x, e, s))
                (kid_positions (n_neigh nd) prev);
    Some (Sh n kids)
  end.

Definition edge_joins (t : Tree) (e : ptr) (l r : option ptr) : bool :=
  match edges t !! e with
  | Some ed => (ptr_eqb (e_left ed) l && ptr_eqb (e_right ed) r)%bool
  | None => false
  end.

Fixpoint repb (t : Tree) (prev : option ptr) (s : shape) : bool :=
  match s with
  | Sh n kids =>
    match nodes t !! n with
    | None => false
    | Some nd =>
      (Nat.eqb (length (n_br nd)) (length (n_neigh nd))
       && bool_decide (kid_positions (n_neigh nd) prev
                       = map (fun k => (kid_pos k, shape_root (kid_sub k))) kids)
       && Nat.eqb (length (n_neigh nd))
            (length kids + match prev with Some _ => 1 | None => 0 end)
       && forallb (fun x => implb (ptr_eqb (Some (snd x)) prev)
                               match n_br nd !! fst x with
                               | Some e => edge_joins t e prev (Some n)
                               | None => false
                               end)
            (imap (fun i c => (i, c)) (n_neigh nd))
       && forallb (fun k =>
                     (bool_decide (n_br nd !! kid_pos k = Some (kid_edge k))
                      && edge_joins t (kid_edge k) (Some n) (Some (shape_root (kid_sub k)))
                      && repb t (Some n) (snd k))%bool)
            kids)%bool
    end
  end.

Definition wfb (t : Tree) (s : shape) : bool :=
  (ptr_eqb (root t) (Some (shape_root s)) && repb t None s
   && bool_decide (NoDup (shape_nodes s)) && bool_decide (NoDup (shape_edges s)))%bool.

(** The shape of a tree, read from its root. *)
Definition shape_at_root (t : Tree) : shape :=
  match root t with
  | Some r => default (Sh r []) (shape_of (budget t) t r None)
  | None => Sh 0 []
  end.

End shapes.

(* ===================================================================== *)
(** ** Loops and matrices                                                 *)
(* ===================================================================== *)

Module loops.

(** A loop over a slice that keeps an invariant returns, and the invariant
    holds at its end; [P k b] is the invariant once [k] elements are done. *)
Lemma ofoldi_ind {A B} (f : B -> nat -> A -> outcome B) (P : nat -> B -> Prop)
  (l : list A) (i0 : nat) (b : B) :
  P 0 b ->
  (forall k x b, l !! k = Some x -> P k b ->
     exists b', f b (i0 + k) x = Ret b' /\ P (S k) b') ->
  exists b', ofoldi f i0 l b = Ret b' /\ P (length l) b'.
Proof.
  revert P i0 b. induction l as [|x l IH]; intros P i0 b H0 Hstep; simpl.
  - eauto.
  - destruct (Hstep 0 x b eq_refl H0) as (b1 & Hb1 & HP1).
    rewrite Nat.add_0_r in Hb1. rewrite Hb1. simpl.
    apply (IH (fun k => P (S k)) (S i0) b1 HP1).
    intros k y b2 Hk HP. destruct (Hstep (S k) y b2 Hk HP) as (b3 & Hb3 & HP3).
    exists b3. split; [|exact HP3].
    replace (S i0 + k) with (i0 + S k) by lia. exact Hb3.
Qed.

Lemma ofold_ind {A B} (f : B -> A -> outcome B) (P : nat -> B -> Prop)
  (l : list A) (b : B) :
  P 0 b ->
  (forall k x b, l !! k = Some x -> P k b -> exists b', f b x = Ret b' /\ P (S k) b') ->
  exists b', ofold f l b = Ret b' /\ P (length l) b'.
Proof.
  revert P b. induction l as [|x l IH]; intros P b H0 Hstep; simpl.
  - eauto.
  - destruct (Hstep 0 x b eq_refl H0) as (b1 & Hb1 & HP1). rewrite Hb1. simpl.
    apply (IH (fun k => P (S k)) b1 HP1).
    intros k y b2 Hk HP. exact (Hstep (S k) y b2 Hk HP).
Qed.

(** The loops that skip the neighbor [prev] are loops over the positions of
    the other neighbors. *)
Lemma ofoldi_skip {B} (F : B -> nat -> tree.ptr -> outcome B) (keep : tree.ptr -> bool)
  (l : list tree.ptr) (i0 : nat) (b : B) :
  ofoldi (fun b k c => if keep c then F b k c else Ret b) i0 l b
  = ofold (fun b x => F b (fst x) (snd x))
      (List.filter (fun x => keep (snd x)) (imap (fun i c => (i0 + i, c)) l)) b.
Proof.
  revert i0 b. induction l as [|c l IH]; intros i0 b; simpl; [reflexivity|].
  rewrite Nat.add_0_r.
  assert (Himap : imap ((fun i c0 => (i0 + i, c0)) ∘ S) l
                  = imap (fun i c0 => (S i0 + i, c0)) l).
  { apply imap_ext. intros i x _. simpl. f_equal. lia. }
  rewrite Himap. destruct (keep c); simpl.
  - destruct (F b i0 c); simpl; [apply IH|reflexivity..].
  - apply IH.
Qed.

Import support.

(** The cell of a matrix, 0 outside of it. *)
Definition cell (mx : matrix) (i j : nat) : N :=
  default 0%N (row ← mx !! i; row !! j).

(** A matrix with [r] rows of at least [c] cells. *)
Definition wide (r c : nat) (mx : matrix) : Prop :=
  length mx = r /\ Forall (fun row => c <= length row) mx.

Definition mat_put (mx : matrix) (i j : nat) (v : N) : matrix :=
  match mx !! i with
  | Some row => <[i := <[j := v]> row]> mx
  | None => mx
  end.

Lemma at_index_nat {A} (l : list A) (i : nat) :
  at_index l (Z.of_nat i) = of_option out_of_range (l !! i).
Proof.
  unfold at_index. replace (Z.of_nat i <? 0)%Z with false by (symmetry; apply Z.ltb_ge; lia).
  now rewrite Nat2Z.id.
Qed.

Lemma set_index_nat {A} (l : list A) (i : nat) (x : A) :
  i < length l -> set_index l (Z.of_nat i) x = Ret (<[i := x]> l).
Proof.
  intros Hi. unfold set_index.
  replace (Z.of_nat i <? 0)%Z with false by (symmetry; apply Z.ltb_ge; lia).
  rewrite Nat2Z.id. apply Nat.ltb_lt in Hi. now rewrite Hi.
Qed.

Lemma wide_row (r c : nat) (mx : matrix) (i : nat) :
  wide r c mx -> i < r -> exists row, mx !! i = Some row /\ c <= length row.
Proof.
  intros [Hl Hw] Hi. destruct (lookup_lt_is_Some_2 mx i) as [row Hrow]; [lia|].
  exists row. split; [assumption|]. rewrite Forall_lookup in Hw. eauto.
Qed.

Lemma mat_get_ok (r c : nat) (mx : matrix) (i j : nat) :
  wide r c mx -> i < r -> j < c ->
  mat_get mx (Z.of_nat i) (Z.of_nat j) = Ret (cell mx i j).
Proof.
  intros Hw Hi Hj. destruct (wide_row r c mx i Hw Hi) as (row & Hrow & Hlen).
  unfold mat_get, cell. rewrite at_index_nat, Hrow. cbn [of_option obind].
  rewrite at_index_nat. simpl.
  destruct (lookup_lt_is_Some_2 row j) as [v Hv]; [lia|]. now rewrite Hv.
Qed.

Lemma mat_set_ok (r c : nat) (mx : matrix) (i j : nat) (v : N) :
  wide r c mx -> i < r -> j < c ->
  mat_set mx (Z.of_nat i) (Z.of_nat j) v = Ret (mat_put mx i j v).
Proof.
  intros Hw Hi Hj. destruct (wide_row r c mx i Hw Hi) as (row & Hrow & Hlen).
  unfold mat_set, mat_put. rewrite at_index_nat, Hrow. cbn [of_option obind].
  rewrite set_index_nat by lia. cbn [obind]. apply set_index_nat. destruct Hw. lia.
Qed.

Lemma wide_put (r c : nat) (mx : matrix) (i j : nat) (v : N) :
  wide r c mx -> wide r c (mat_put mx i j v).
Proof.
  intros [Hl Hw]. unfold mat_put. destruct (mx !! i) as [row|] eqn:Hrow; [|now split].
  split; [now rewrite length_insert|].
  apply Forall_insert; [assumption|]. rewrite length_insert.
  rewrite Forall_lookup in Hw. eauto.
Qed.

Lemma cell_put (mx : matrix) (i j : nat) (v : N) (i' j' : nat) :
  i < length mx -> (forall row, mx !! i = Some row -> j < length row) ->
  cell (mat_put mx i j v) i' j'
  = if decide (i' = i /\ j' = j) then v else cell mx i' j'.
Proof.
  intros Hi Hj. unfold mat_put, cell.
  destruct (mx !! i) as [row|] eqn:Hrow.
  2:{ apply lookup_ge_None in Hrow. lia. }
  specialize (Hj row eq_refl).
  destruct (decide (i' = i)) as [->|Hne].
  - rewrite list_lookup_insert_eq by assumption. simpl.
    destruct (decide (j' = j)) as [->|Hnj].
    + rewrite list_lookup_insert_eq by assumption. simpl.
      now rewrite decide_True by auto.
    + rewrite list_lookup_insert_ne by congruence. rewrite Hrow. simpl.
      rewrite decide_False by (intros [_ ?]; congruence). reflexivity.
  - rewrite list_lookup_insert_ne by congruence.
    rewrite decide_False by (intros [? _]; congruence). reflexivity.
Qed.

Lemma cell_put_wide (r c : nat) (mx : matrix) (i j : nat) (v : N) (i' j' : nat) :
  wide r c mx -> i < r -> j < c ->
  cell (mat_put mx i j v) i' j'
  = if decide (i' = i /\ j' = j) then v else cell mx i' j'.
Proof.
  intros Hw Hi Hj. apply cell_put.
  - destruct Hw. lia.
  - intros row Hrow. destruct (wide_row r c mx i Hw Hi) as (row' & Hrow' & Hlen).
    simplify_eq. lia.
Qed.

End loops.

(* ===================================================================== *)
(** ** What the two passes of Booster compute                             *)
(* ===================================================================== *)

Module booster.
Import tree support shapes loops.

(** The id of an edge, as a column or a row of the matrices. *)
Definition bid (t : Tree) (e : ptr) : nat :=
  match edges t !! e with Some ed => Z.to_nat (e_id ed) | None => 0 end.

Definition id_ok (t : Tree) (bound : nat) (e : ptr) : Prop :=
  exists ed, edges t !! e = Some ed /\ e_id ed = Z.of_nat (bid t e) /\ bid t e < bound.

(** The buffers of a worker sized for [E1] reference edges and [E2]
    bootstrap edges. *)
Record dims (E1 E2 : nat) (m : Mats) : Prop := {
  dims_i : wide E1 E2 (i_matrix m);
  dims_c : wide E1 E2 (c_matrix m);
  dims_h : wide E1 E2 (hamming m);
  dims_md : length (min_dist m) = E1;
  dims_mde : length (min_dist_edge m) = E1
}.

Definition md (m : Mats) (i : nat) : N := default 0%N (min_dist m !! i).
Definition mde (m : Mats) (i : nat) : Z := default 0%Z (min_dist_edge m !! i).

(** [uint16(e3numtips)] for the reference edge at position [i]. *)
Definition numtips (refTree : Tree) (edges : list ptr) (i : nat) : N :=
  match edges !! i with
  | Some e => match tree.edges refTree !! e with
              | Some ed => u16 (fst (NumTipsRight ed))
              | None => 0%N
              end
  | None => 0%N
  end.

(** The folded distance as the code computes it, on uint16. *)
Definition ham16 (ntips a c i : N) : N :=
  let h := u16_sub (u16_add a c) i in
  if N.ltb (u16 (Z.of_N ntips) / 2) h then u16_sub (u16 (Z.of_N ntips)) h else h.

(** The running minimum and the edge that reaches it, over the distances
    met in the order of the traversal. *)
Definition better (acc x : N * Z) : N * Z :=
  if N.ltb (fst x) (fst acc) then x else acc.
Definition best (hs : list (N * Z)) (start : N * Z) : N * Z :=
  fold_left better hs start.

(** The depth of a shape bounds the recursion on it. *)
Fixpoint depth (s : shape) : nat :=
  match s with
  | Sh n kids => S (fold_right (fun k d => Nat.max (depth (snd k)) d) 0 kids)
  end.

(** The bootstrap edges in the order in which the second pass computes
    their distances: the subtree first, then the edge. *)
Fixpoint visit (e : ptr) (s : shape) : list ptr :=
  match s with
  | Sh n kids => flat_map (fun k => visit (snd (fst k)) (snd k)) kids ++ [e]
  end.

(** The column of a bootstrap edge after the second pass: the one seeded by
    the first pass at a terminal edge, the sum of the columns of the
    children at an internal edge. *)
Fixpoint col_sum (t : Tree) (seed : nat -> N) (e : ptr) (s : shape) : N :=
  match s with
  | Sh n kids =>
    match kids with
    | [] => seed (bid t e)
    | _ => fold_left (fun acc k => u16_add acc (col_sum t seed (snd (fst k)) (snd k)))
             kids 0%N
    end
  end.

(** The edges of a subtree entered by the edge [e], each with the subtree
    below it, and their ids. *)
Definition subs_of (e : ptr) (s : shape) : list (ptr * shape) := (e, s) :: shape_subs s.
Definition ids_of (t : Tree) (e : ptr) (s : shape) : list nat :=
  map (bid t) (e :: shape_edges s).
Definition kids_ids (t : Tree) (kids : list (nat * ptr * shape)) : list nat :=
  flat_map (fun k => ids_of t (snd (fst k)) (snd k)) kids.

(** The names of the leaves of a shape, from left to right. *)
Definition node_name (t : Tree) (n : ptr) : string :=
  match nodes t !! n with Some nd => n_name nd | None => "" end.

Fixpoint tip_names (t : Tree) (s : shape) : list string :=
  match s with
  | Sh n kids =>
    match kids with
    | [] => [node_name t n]
    | _ => flat_map (fun k => tip_names t (snd k)) kids
    end
  end.

(** The name of the tip below the bootstrap edge of the column [j], when
    that edge is terminal. *)
Definition tipcol (bootTree : Tree) (bootEdges : list ptr) (j : nat) : option string :=
  match bootEdges !! j with
  | Some be =>
    match right_node bootTree be with
    | Ret nd => if Node_Tip nd then Some (n_name nd) else None
    | _ => None
    end
  | None => None
  end.

Definition b2n (b : bool) : N := if b then 1%N else 0%N.

Definition has_name (y : string) (names : list string) : bool :=
  bool_decide (y ∈ names).

(** The edge at position [idx] of the node [prev]. *)
Definition enters (t : Tree) (prev : ptr) (idx : nat) (e : ptr) : Prop :=
  exists nd, nodes t !! prev = Some nd /\ n_br nd !! idx = Some e.

(** The edge [b] of the tree leads to the subtree [sb]. *)
Definition below (t : Tree) (b : ptr) (sb : shape) : Prop :=
  (exists ed, edges t !! b = Some ed /\ e_right ed = Some (shape_root sb)) /\
  exists p, rep t (Some p) sb.

(** The list [es] holds the edges of the tree, each at the position given
    by its id: what [Edges] returns once [SetId] has numbered the edges in
    that order. *)
Record indexed_by (t : Tree) (s : shape) (es : list ptr) : Prop := {
  ib_ids : forall x, x ∈ shape_edges s -> id_ok t (length es) x /\ es !! bid t x = Some x;
  ib_all : forall j x, es !! j = Some x -> x ∈ shape_edges s
}.

Definition indexedb (t : Tree) (s : shape) (es : list ptr) : bool :=
  (forallb (fun x =>
              match edges t !! x with
              | Some ed => Z.eqb (e_id ed) (Z.of_nat (bid t x))
                           && Nat.ltb (bid t x) (length es)
                           && bool_decide (es !! bid t x = Some x)
              | None => false
              end) (shape_edges s)
   && forallb (fun x => bool_decide (x ∈ shape_edges s)) es)%bool.

(** The bitset of every edge counts the tips below the edge. *)
Definition tips_counted (t : Tree) (s : shape) : Prop :=
  forall e' s', (e', s') ∈ shape_subs s ->
    exists ed, edges t !! e' = Some ed /\
      fst (NumTipsRight ed) = Z.of_nat (length (tip_names t s')).

Definition tips_countedb (t : Tree) (s : shape) : bool :=
  forallb (fun x =>
             match edges t !! fst x with
             | Some ed => Z.eqb (fst (NumTipsRight ed))
                            (Z.of_nat (length (tip_names t (snd x))))
             | None => false
             end) (shape_subs s).

(** The tips of [names] that are in [R], and those that are not. *)
Definition inside (R names : list string) : list string :=
  List.filter (fun y => has_name y R) names.
Definition outside (R names : list string) : list string :=
  List.filter (fun y => negb (has_name y R)) names.

(** The trees on which the two passes are run: both are well formed and
    their edges are numbered by position in [edges] and [bootEdges]. *)
Record numbered (refTree bootTree : Tree) (sR sB : shape)
  (edges bootEdges : list ptr) : Prop := {
  nb_ref : wf refTree sR;
  nb_boot : wf bootTree sB;
  nb_edges : indexed_by refTree sR edges;
  nb_bootEdges : indexed_by bootTree sB bootEdges
}.

(** A reference tree and a bootstrap tree that can be compared: the bitsets
    of the reference tree are up to date, the two trees have the same
    [ntips] distinct tip names, and the bootstrap tree is more than a lone
    node. *)
Record comparable (refTree bootTree : Tree) (sR sB : shape)
  (edges bootEdges : list ptr) (ntips : N) : Prop := {
  cmp_numbered : numbered refTree bootTree sR sB edges bootEdges;
  cmp_bits : tips_counted refTree sR;
  cmp_ref_names : NoDup (tip_names refTree sR);
  cmp_boot_names : NoDup (tip_names bootTree sB);
  cmp_same : forall y, y ∈ tip_names bootTree sB <-> y ∈ tip_names refTree sR;
  cmp_ntips : ntips = N.of_nat (length (tip_names refTree sR));
  cmp_small : (ntips < 65536)%N;
  cmp_boot_kids : shape_kids sB <> []
}.

Definition numberedb (refTree bootTree : Tree) (sR sB : shape)
  (edges bootEdges : list ptr) : bool :=
  (wfb refTree sR && wfb bootTree sB
   && indexedb refTree sR edges && indexedb bootTree sB bootEdges)%bool.

Definition comparableb (refTree bootTree : Tree) (sR sB : shape)
  (edges bootEdges : list ptr) (ntips : N) : bool :=
  (numberedb refTree bootTree sR sB edges bootEdges
   && tips_countedb refTree sR
   && bool_decide (NoDup (tip_names refTree sR))
   && bool_decide (NoDup (tip_names bootTree sB))
   && forallb (fun y => has_name y (tip_names refTree sR)) (tip_names bootTree sB)
   && forallb (fun y => has_name y (tip_names bootTree sB)) (tip_names refTree sR)
   && N.eqb ntips (N.of_nat (length (tip_names refTree sR)))
   && N.ltb ntips 65536
   && negb (Nat.eqb (length (shape_kids sB)) 0))%bool.

(** The number of tips on the right of an edge, as its bitset gives it, and
    whether the edge is terminal. *)
Definition tipsRight (t : Tree) (e : ptr) : Z :=
  match edges t !! e with Some ed => fst (NumTipsRight ed) | None => 0%Z end.

Definition right_tip (t : Tree) (e : ptr) : bool :=
  match right_node t e with Ret nd => Node_Tip nd | _ => false end.

End booster.

Module booster_facts.
Import tree support shapes loops booster.

Lemma lookup_seq_Some (n k x : nat) : seq 0 n !! k = Some x -> x = k /\ k < n.
Proof. intros H. apply lookup_seq in H. lia. Qed.

Lemma md_insert (l : list N) (i k : nat) (v : N) :
  i < length l -> default 0%N (<[i := v]> l !! k) = if decide (k = i) then v else default 0%N (l !! k).
Proof.
  intros Hi. destruct (decide (k = i)) as [->|Hne].
  - now rewrite list_lookup_insert_eq.
  - now rewrite list_lookup_insert_ne by congruence.
Qed.

Lemma mde_insert (l : list Z) (i k : nat) (v : Z) :
  i < length l -> default 0%Z (<[i := v]> l !! k) = if decide (k = i) then v else default 0%Z (l !! k).
Proof.
  intros Hi. destruct (decide (k = i)) as [->|Hne].
  - now rewrite list_lookup_insert_eq.
  - now rewrite list_lookup_insert_ne by congruence.
Qed.

(* --------------------------------------------------------------------- *)
(** *** Shapes                                                            *)
(* --------------------------------------------------------------------- *)

Lemma shape_ind' (P : shape -> Prop) :
  (forall n kids, Forall (fun k => P (snd k)) kids -> P (Sh n kids)) ->
  forall s, P s.
Proof.
  intros H. fix IH 1. intros [n kids]. apply H.
  induction kids as [|[[k e] s] kids IHk]; constructor; [apply IH|apply IHk].
Qed.

Lemma ofold_map {A B C} (g : B -> C -> outcome B) (f : A -> C) (l : list A) (b : B) :
  ofold g (map f l) b = ofold (fun b x => g b (f x)) l b.
Proof.
  revert b. induction l as [|x l IH]; intros b; simpl; [reflexivity|].
  destruct (g b (f x)); simpl; [apply IH|reflexivity..].
Qed.

Lemma ofold_app {A B} (f : B -> A -> outcome B) (l1 l2 : list A) (b : B) :
  ofold f (l1 ++ l2) b = let! b1 := ofold f l1 b in ofold f l2 b1.
Proof.
  revert b. induction l1 as [|x l1 IH]; intros b; simpl; [reflexivity|].
  destruct (f b x); simpl; [apply IH|reflexivity..].
Qed.

Lemma flat_map_app' {A B} (f : A -> list B) (l1 l2 : list A) :
  flat_map f (l1 ++ l2) = flat_map f l1 ++ flat_map f l2.
Proof. induction l1 as [|x l1 IH]; simpl; [reflexivity|]. now rewrite IH, app_assoc. Qed.

Lemma elem_of_flat_map {A B} (f : A -> list B) (l : list A) (y : B) :
  y ∈ flat_map f l <-> exists x, x ∈ l /\ y ∈ f x.
Proof.
  rewrite !list_elem_of_In, in_flat_map. split; intros (x & Hx & Hy); exists x.
  - now rewrite !list_elem_of_In.
  - now rewrite <- !list_elem_of_In.
Qed.

Lemma map_flat_map {A B C} (g : B -> C) (f : A -> list B) (l : list A) :
  map g (flat_map f l) = flat_map (fun x => map g (f x)) l.
Proof. induction l as [|x l IH]; simpl; [reflexivity|]. now rewrite map_app, IH. Qed.

Lemma shape_edges_ids (t : Tree) (n : ptr) (kids : list (nat * ptr * shape)) :
  map (bid t) (shape_edges (Sh n kids)) = kids_ids t kids.
Proof. simpl. unfold kids_ids, ids_of. now rewrite map_flat_map. Qed.

Lemma elem_of_subs_kids (n : ptr) (kids : list (nat * ptr * shape)) (x : ptr * shape) :
  x ∈ shape_subs (Sh n kids) <->
  exists kd, kd ∈ kids /\ x ∈ subs_of (kid_edge kd) (kid_sub kd).
Proof. simpl. apply elem_of_flat_map. Qed.

Lemma subs_edges (s : shape) : map fst (shape_subs s) = shape_edges s.
Proof.
  induction s as [n kids IH] using shape_ind'. simpl.
  induction kids as [|kd kids IHk]; simpl; [reflexivity|].
  inversion IH; subst. rewrite map_app. simpl. f_equal. rewrite IHk by assumption.
  f_equal. assumption.
Qed.

Lemma subs_ids (t : Tree) (e : ptr) (s : shape) (e' : ptr) (s' : shape) :
  (e', s') ∈ subs_of e s -> forall j, j ∈ ids_of t e' s' -> j ∈ ids_of t e s.
Proof.
  revert e e' s'. induction s as [n kids IH] using shape_ind'.
  intros e e' s' Hin j Hj. unfold subs_of in Hin.
  apply elem_of_cons in Hin as [Heq|Hin]; [now inversion Heq; subst|].
  apply elem_of_subs_kids in Hin as (kd & Hkd & Hin).
  rewrite Forall_forall in IH. specialize (IH kd Hkd _ _ _ Hin j Hj).
  unfold ids_of. rewrite map_cons. apply elem_of_cons. right.
  rewrite shape_edges_ids. apply elem_of_flat_map. exists kd. split; assumption.
Qed.

Lemma subs_self_id (t : Tree) (e : ptr) (s : shape) : bid t e ∈ ids_of t e s.
Proof. unfold ids_of. simpl. apply elem_of_cons. now left. Qed.

Lemma visit_edges (e : ptr) (s : shape) (x : ptr) :
  x ∈ visit e s -> x ∈ e :: shape_edges s.
Proof.
  revert e. induction s as [n kids IH] using shape_ind'. intros e Hx. simpl in Hx.
  apply elem_of_app in Hx as [Hx|Hx].
  - apply elem_of_cons. right. simpl.
    apply elem_of_flat_map in Hx as (kd & Hkd & Hx).
    apply elem_of_flat_map. exists kd. split; [assumption|].
    rewrite Forall_forall in IH. apply (IH kd Hkd). exact Hx.
  - apply elem_of_cons. left. now apply list_elem_of_singleton in Hx.
Qed.

Lemma col_sum_ext (t : Tree) (seed1 seed2 : nat -> N) (e : ptr) (s : shape) :
  (forall j, j ∈ ids_of t e s -> seed1 j = seed2 j) ->
  col_sum t seed1 e s = col_sum t seed2 e s.
Proof.
  revert e. induction s as [n kids IH] using shape_ind'. intros e Hs.
  destruct kids as [|kd kids]; [apply Hs, subs_self_id|].
  cbn [col_sum].
  assert (Hk : forall k, k ∈ kd :: kids ->
            col_sum t seed1 (snd (fst k)) (snd k) = col_sum t seed2 (snd (fst k)) (snd k)).
  { intros k Hk. rewrite Forall_forall in IH. apply (IH k Hk). intros j Hj.
    apply Hs. unfold ids_of. rewrite map_cons. apply elem_of_cons. right.
    rewrite shape_edges_ids. apply elem_of_flat_map. exists k. split; assumption. }
  clear IH Hs. generalize 0%N. revert Hk. generalize (kd :: kids).
  intros l. induction l as [|k l IHl]; intros Hk acc; simpl; [reflexivity|].
  rewrite (Hk k) by (apply elem_of_cons; now left).
  apply IHl. intros k' Hk'. apply Hk. apply elem_of_cons. now right.
Qed.

Lemma best_app (l1 l2 : list (N * Z)) (start : N * Z) :
  best (l1 ++ l2) start = best l2 (best l1 start).
Proof. unfold best. apply fold_left_app. Qed.

Lemma depth_kid (n : ptr) (kids : list (nat * ptr * shape)) (kd : nat * ptr * shape) :
  kd ∈ kids -> depth (snd kd) < depth (Sh n kids).
Proof.
  intros Hin. simpl. induction kids as [|k kids IH]; [inversion Hin|].
  apply elem_of_cons in Hin as [->|Hin]; simpl; [lia|].
  specialize (IH Hin). lia.
Qed.

(** A node entered from its parent is a tip exactly when it has no child. *)
Lemma rep_tip (t : Tree) (p : ptr) (n : ptr) (kids : list (nat * ptr * shape)) (nd : Node) :
  rep t (Some p) (Sh n kids) -> nodes t !! n = Some nd ->
  Node_Tip nd = match kids with [] => true | _ => false end.
Proof.
  intros Hrep Hnd. inversion Hrep; subst. simplify_eq. unfold Node_Tip.
  match goal with H : length (n_neigh _) = _ |- _ => rewrite H end.
  destruct kids; simpl; [reflexivity|]. apply Nat.eqb_neq. lia.
Qed.

(** The loop over the neighbors of a node that skips the parent is the loop
    over the children of its shape. *)
Lemma loop_over_kids {B} (F : B -> nat -> ptr -> outcome B) (t : Tree) (p n : ptr)
  (kids : list (nat * ptr * shape)) (nd : Node) (b : B) :
  rep t (Some p) (Sh n kids) -> nodes t !! n = Some nd ->
  ofoldi (fun b k c => if negb (Nat.eqb c p) then F b k c else Ret b) 0 (n_neigh nd) b
  = ofold (fun b kd => F b (kid_pos kd) (shape_root (kid_sub kd))) kids b.
Proof.
  intros Hrep Hnd. inversion Hrep; subst. simplify_eq.
  rewrite (ofoldi_skip F (fun c => negb (Nat.eqb c p))).
  match goal with H : kid_positions _ _ = _ |- _ => unfold kid_positions in H; simpl in H end.
  simpl.
  match goal with H : List.filter _ _ = _ |- _ => rewrite H end.
  now rewrite ofold_map.
Qed.

Lemma rep_kid (t : Tree) (prev : option ptr) (n : ptr)
  (kids : list (nat * ptr * shape)) (kd : nat * ptr * shape) :
  rep t prev (Sh n kids) -> kd ∈ kids ->
  enters t n (kid_pos kd) (kid_edge kd) /\ rep t (Some n) (kid_sub kd).
Proof.
  intros Hrep Hin. inversion Hrep; subst.
  match goal with H : Forall _ kids |- _ => rewrite Forall_forall in H;
    destruct (H kd Hin) as (Hbr & _ & Hsub) end.
  split; [|assumption]. eexists. split; eassumption.
Qed.

Ltac decide_cells :=
  repeat case_decide;
  repeat match goal with H : _ /\ _ |- _ => destruct H end;
  subst; try reflexivity; try lia; try tauto.

Section Rows.

Variables (refTree : Tree) (edges : list ptr) (ntips : N) (E1 E2 : nat).
Hypothesis Hedges : length edges = E1.
Hypothesis Hreal : forall i e, edges !! i = Some e -> is_Some (tree.edges refTree !! e).

(** [I[i][j] = 0; C[i][j] = 0] for every reference edge [i]. *)
Lemma zero_column (j : nat) (m : Mats) :
  dims E1 E2 m -> j < E2 ->
  exists m',
    for_edges (length edges) (fun m i => put_ic m i (Z.of_nat j) 0 0) m = Ret m' /\
    dims E1 E2 m' /\
    hamming m' = hamming m /\ min_dist m' = min_dist m /\
    min_dist_edge m' = min_dist_edge m /\
    (forall i j', cell (i_matrix m') i j'
       = if decide (i < E1 /\ j' = j) then 0%N else cell (i_matrix m) i j') /\
    (forall i j', cell (c_matrix m') i j'
       = if decide (i < E1 /\ j' = j) then 0%N else cell (c_matrix m) i j').
Proof.
  intros Hd Hj. unfold for_edges. rewrite Hedges.
  destruct (ofold_ind (fun m i => put_ic m (Z.of_nat i) (Z.of_nat j) 0 0)
    (fun k m' =>
       dims E1 E2 m' /\ hamming m' = hamming m /\ min_dist m' = min_dist m /\
       min_dist_edge m' = min_dist_edge m /\
       (forall i j', cell (i_matrix m') i j'
          = if decide (i < k /\ j' = j) then 0%N else cell (i_matrix m) i j') /\
       (forall i j', cell (c_matrix m') i j'
          = if decide (i < k /\ j' = j) then 0%N else cell (c_matrix m) i j'))
    (seq 0 E1) m) as (m' & Hrun & HP).
  - repeat split; try assumption; try apply Hd;
      intros i j'; rewrite decide_False by lia; reflexivity.
  - intros k x m1 Hk (Hd1 & Hh & Hmd & Hmde & HI & HC).
    apply lookup_seq_Some in Hk as [-> Hk]. destruct Hd1.
    unfold put_ic. rewrite (mat_set_ok E1 E2) by assumption. cbn [obind].
    rewrite (mat_set_ok E1 E2) by assumption. cbn [obind].
    eexists. split; [reflexivity|]. simpl.
    split; [split; simpl; auto using wide_put|].
    repeat split; try assumption.
    + intros i j'. rewrite (cell_put_wide E1 E2) by assumption. rewrite HI.
      decide_cells.
    + intros i j'. rewrite (cell_put_wide E1 E2) by assumption. rewrite HC.
      decide_cells.
  - rewrite length_seq in HP. exists m'. split; [exact Hrun|]. tauto.
Qed.

(** [I[i][j] += I[i][j2]; C[i][j] += C[i][j2]] for every reference edge. *)
Lemma add_column (j j2 : nat) (m : Mats) :
  dims E1 E2 m -> j < E2 -> j2 < E2 ->
  exists m',
    for_edges (length edges)
      (fun m edge_id3 =>
         let! a := mat_get (i_matrix m) edge_id3 (Z.of_nat j) in
         let! b := mat_get (i_matrix m) edge_id3 (Z.of_nat j2) in
         let! im := mat_set (i_matrix m) edge_id3 (Z.of_nat j) (u16_add a b) in
         let m := set_i m im in
         let! a := mat_get (c_matrix m) edge_id3 (Z.of_nat j) in
         let! b := mat_get (c_matrix m) edge_id3 (Z.of_nat j2) in
         let! cm := mat_set (c_matrix m) edge_id3 (Z.of_nat j) (u16_add a b) in
         Ret (set_c m cm)) m = Ret m' /\
    dims E1 E2 m' /\
    hamming m' = hamming m /\ min_dist m' = min_dist m /\
    min_dist_edge m' = min_dist_edge m /\
    (forall i j', cell (i_matrix m') i j'
       = if decide (i < E1 /\ j' = j)
         then u16_add (cell (i_matrix m) i j) (cell (i_matrix m) i j2)
         else cell (i_matrix m) i j') /\
    (forall i j', cell (c_matrix m') i j'
       = if decide (i < E1 /\ j' = j)
         then u16_add (cell (c_matrix m) i j) (cell (c_matrix m) i j2)
         else cell (c_matrix m) i j').
Proof.
  intros Hd Hj Hj2. unfold for_edges. rewrite Hedges.
  match goal with |- exists m', ofold ?f _ _ = _ /\ _ =>
    destruct (ofold_ind f
      (fun k m' =>
         dims E1 E2 m' /\ hamming m' = hamming m /\ min_dist m' = min_dist m /\
         min_dist_edge m' = min_dist_edge m /\
         (forall i j', cell (i_matrix m') i j'
            = if decide (i < k /\ j' = j)
              then u16_add (cell (i_matrix m) i j) (cell (i_matrix m) i j2)
              else cell (i_matrix m) i j') /\
         (forall i j', cell (c_matrix m') i j'
            = if decide (i < k /\ j' = j)
              then u16_add (cell (c_matrix m) i j) (cell (c_matrix m) i j2)
              else cell (c_matrix m) i j'))
      (seq 0 E1) m) as (m' & Hrun & HP)
  end.
  - repeat split; try assumption; try apply Hd;
      intros i j'; rewrite decide_False by lia; reflexivity.
  - intros k x m1 Hk (Hd1 & Hh & Hmd & Hmde & HI & HC).
    apply lookup_seq_Some in Hk as [-> Hk]. destruct Hd1.
    rewrite !(mat_get_ok E1 E2) by assumption. cbn [obind].
    rewrite (mat_set_ok E1 E2) by assumption. cbn [obind]. simpl.
    rewrite !(mat_get_ok E1 E2) by assumption. cbn [obind].
    rewrite (mat_set_ok E1 E2) by assumption. cbn [obind].
    eexists. split; [reflexivity|]. simpl.
    split; [split; simpl; auto using wide_put|].
    repeat split; try assumption.
    + intros i j'. rewrite (cell_put_wide E1 E2) by assumption. rewrite !HI.
      decide_cells.
    + intros i j'. rewrite (cell_put_wide E1 E2) by assumption. rewrite !HC.
      decide_cells.
  - rewrite length_seq in HP. exists m'. split; [exact Hrun|]. tauto.
Qed.

Lemma md_lookup (m : Mats) (i : nat) :
  i < length (min_dist m) -> at_index (min_dist m) (Z.of_nat i) = Ret (md m i).
Proof.
  intros Hi. rewrite at_index_nat. unfold md.
  destruct (lookup_lt_is_Some_2 (min_dist m) i Hi) as [v Hv]. now rewrite Hv.
Qed.

(** The distance of the reference edge [i] to the bootstrap edge [j], and
    the update of the minimum of the reference edge. *)
Lemma hamming_step_ok (j : nat) (m : Mats) (i : nat) (e3 : ptr) :
  dims E1 E2 m -> j < E2 -> edges !! i = Some e3 ->
  exists m',
    hamming_step refTree ntips (Z.of_nat j) m i e3 = Ret m' /\
    dims E1 E2 m' /\
    i_matrix m' = i_matrix m /\ c_matrix m' = c_matrix m /\
    let h := ham16 ntips (numtips refTree edges i)
               (cell (c_matrix m) i j) (cell (i_matrix m) i j) in
    (forall i' j', cell (hamming m') i' j'
       = if decide (i' = i /\ j' = j) then h else cell (hamming m) i' j') /\
    (forall k, md m' k = if decide (k = i)
                         then (if N.ltb h (md m i) then h else md m i) else md m k) /\
    (forall k, mde m' k = if decide (k = i)
                          then (if N.ltb h (md m i) then Z.of_nat j else mde m i)
                          else mde m k).
Proof.
  intros Hd Hj He3.
  assert (Hi : i < E1) by (rewrite <- Hedges; eapply lookup_lt_Some; eassumption).
  destruct (Hreal i e3 He3) as [ed Hed]. destruct Hd.
  unfold hamming_step, edge_at. rewrite Hed. cbn [of_option obind].
  rewrite !(mat_get_ok E1 E2) by assumption. cbn [obind].
  rewrite (mat_set_ok E1 E2) by assumption. cbn [obind]. simpl hamming.
  set (h0 := u16_sub (u16_add (u16 (NumTipsRight ed).1) (cell (c_matrix m) i j))
               (cell (i_matrix m) i j)).
  assert (Hw0 : wide E1 E2 (mat_put (hamming m) i j h0)) by now apply wide_put.
  rewrite (mat_get_ok E1 E2) by assumption. cbn [obind].
  rewrite (cell_put_wide E1 E2) by assumption. rewrite decide_True by auto.
  assert (Hnum : numtips refTree edges i = u16 (NumTipsRight ed).1).
  { unfold numtips. now rewrite He3, Hed. }
  unfold ham16. rewrite Hnum. fold h0.
  destruct (N.ltb (u16 (Z.of_N ntips) / 2) h0) eqn:Hfold.
  - rewrite (mat_set_ok E1 E2) by assumption. cbn [obind]. simpl hamming.
    set (h1 := u16_sub (u16 (Z.of_N ntips)) h0).
    assert (Hw1 : wide E1 E2 (mat_put (mat_put (hamming m) i j h0) i j h1))
      by now apply wide_put.
    rewrite (mat_get_ok E1 E2) by assumption. cbn [obind].
    rewrite (cell_put_wide E1 E2) by assumption. rewrite decide_True by auto.
    simpl min_dist. rewrite md_lookup by lia. cbn [obind].
    destruct (N.ltb h1 (md m i)) eqn:Hlt.
    + simpl. rewrite !set_index_nat by lia. cbn [obind].
      eexists. split; [reflexivity|]. simpl.
      split; [split; simpl; auto; now rewrite length_insert|].
      split; [reflexivity|]. split; [reflexivity|]. split; [|split].
      * intros i' j'. rewrite !(cell_put_wide E1 E2) by assumption. decide_cells.
      * intros k. unfold md. simpl. apply md_insert. lia.
      * intros k. unfold mde. simpl. apply mde_insert. lia.
    + eexists. split; [reflexivity|]. simpl.
      split; [split; simpl; auto|].
      split; [reflexivity|]. split; [reflexivity|]. split; [|split].
      * intros i' j'. rewrite !(cell_put_wide E1 E2) by assumption. decide_cells.
      * intros k. unfold md. simpl. decide_cells.
      * intros k. unfold mde. simpl. decide_cells.
  - cbn [obind]. simpl hamming.
    rewrite (mat_get_ok E1 E2) by assumption. cbn [obind].
    rewrite (cell_put_wide E1 E2) by assumption. rewrite decide_True by auto.
    simpl min_dist. rewrite md_lookup by lia. cbn [obind].
    destruct (N.ltb h0 (md m i)) eqn:Hlt.
    + simpl. rewrite !set_index_nat by lia. cbn [obind].
      eexists. split; [reflexivity|]. simpl.
      split; [split; simpl; auto; now rewrite length_insert|].
      split; [reflexivity|]. split; [reflexivity|]. split; [|split].
      * intros i' j'. rewrite !(cell_put_wide E1 E2) by assumption. decide_cells.
      * intros k. unfold md. simpl. apply md_insert. lia.
      * intros k. unfold mde. simpl. apply mde_insert. lia.
    + eexists. split; [reflexivity|]. simpl.
      split; [split; simpl; auto|].
      split; [reflexivity|]. split; [reflexivity|]. split; [|split].
      * intros i' j'. rewrite !(cell_put_wide E1 E2) by assumption. decide_cells.
      * intros k. unfold md. simpl. decide_cells.
      * intros k. unfold mde. simpl. decide_cells.
Qed.

(** The loop of the distances of all the reference edges to the bootstrap
    edge [j]. *)
Lemma hamming_column (j : nat) (m : Mats) :
  dims E1 E2 m -> j < E2 ->
  exists m',
    ofoldi (hamming_step refTree ntips (Z.of_nat j)) 0 edges m = Ret m' /\
    dims E1 E2 m' /\
    i_matrix m' = i_matrix m /\ c_matrix m' = c_matrix m /\
    let h i := ham16 ntips (numtips refTree edges i)
                 (cell (c_matrix m) i j) (cell (i_matrix m) i j) in
    (forall i j', cell (hamming m') i j'
       = if decide (i < E1 /\ j' = j) then h i else cell (hamming m) i j') /\
    (forall i, i < E1 ->
       (md m' i, mde m' i) = better (md m i, mde m i) (h i, Z.of_nat j)).
Proof.
  intros Hd Hj. simpl.
  destruct (ofoldi_ind (hamming_step refTree ntips (Z.of_nat j))
    (fun k m' =>
       dims E1 E2 m' /\ i_matrix m' = i_matrix m /\ c_matrix m' = c_matrix m /\
       (forall i j', cell (hamming m') i j'
          = if decide (i < k /\ j' = j)
            then ham16 ntips (numtips refTree edges i)
                   (cell (c_matrix m) i j) (cell (i_matrix m) i j)
            else cell (hamming m) i j') /\
       (forall i, (md m' i, mde m' i)
          = if decide (i < k)
            then better (md m i, mde m i)
                   (ham16 ntips (numtips refTree edges i)
                      (cell (c_matrix m) i j) (cell (i_matrix m) i j), Z.of_nat j)
            else (md m i, mde m i)))
    edges 0 m) as (m' & Hrun & HP).
  - split; [assumption|]. split; [reflexivity|]. split; [reflexivity|].
    split; intros; rewrite decide_False by lia; reflexivity.
  - intros k e3 m1 Hk (Hd1 & HI & HC & HH & HM). simpl.
    destruct (hamming_step_ok j m1 k e3 Hd1 Hj Hk)
      as (m2 & Hstep & Hd2 & HI2 & HC2 & HH2 & Hmd2 & Hmde2).
    exists m2. split; [exact Hstep|]. split; [assumption|].
    split; [congruence|]. split; [congruence|].
    rewrite HI, HC in HH2, Hmd2, Hmde2. split.
    + intros i j'. rewrite HH2, HH. decide_cells.
    + intros i. rewrite Hmd2, Hmde2.
      pose proof (HM k) as HMk.
      rewrite decide_False in HMk by lia. injection HMk as Hk1 Hk2.
      destruct (decide (i = k)) as [Heq|Hne].
      * subst i. rewrite decide_True by lia. rewrite Hk1, Hk2.
        unfold better. cbn [fst snd].
        match goal with |- context [N.ltb ?a ?b] => destruct (N.ltb a b) end;
          reflexivity.
      * rewrite HM. decide_cells.
  - rewrite Hedges in HP. destruct HP as (Hd' & HI & HC & HH & HM).
    exists m'. split; [exact Hrun|]. do 4 (split; [assumption|]).
    intros i Hi. rewrite HM. now rewrite decide_True by assumption.
Qed.

End Rows.

(* --------------------------------------------------------------------- *)
(** *** The second pass, on a well-formed bootstrap tree                  *)
(* --------------------------------------------------------------------- *)

Section BootPass.

Variables (refTree bootTree : Tree) (edges : list ptr) (ntips : N) (E1 E2 : nat).
Hypothesis Hedges : length edges = E1.
Hypothesis Hreal : forall i e, edges !! i = Some e -> is_Some (tree.edges refTree !! e).

Local Abbreviation bid := (bid bootTree).
Local Abbreviation ids_of := (ids_of bootTree).

(** What the pass leaves once it has gone through the edge [e] and the
    subtree [s] below it, from the buffers [m] to the buffers [m']. *)
Record boot_post (e : ptr) (s : shape) (m m' : Mats) : Prop := {
  bp_dims : dims E1 E2 m';
  bp_frame : forall i j, j ∉ ids_of e s ->
    cell (i_matrix m') i j = cell (i_matrix m) i j /\
    cell (c_matrix m') i j = cell (c_matrix m) i j /\
    cell (hamming m') i j = cell (hamming m) i j;
  bp_cols : forall e' s', (e', s') ∈ subs_of e s -> forall i, i < E1 ->
    cell (i_matrix m') i (bid e') = col_sum bootTree (cell (i_matrix m) i) e' s' /\
    cell (c_matrix m') i (bid e') = col_sum bootTree (cell (c_matrix m) i) e' s' /\
    cell (hamming m') i (bid e')
      = ham16 ntips (numtips refTree edges i)
          (cell (c_matrix m') i (bid e')) (cell (i_matrix m') i (bid e'));
  bp_min : forall i, i < E1 ->
    (md m' i, mde m' i)
    = best (map (fun x => (cell (hamming m') i (bid x), Z.of_nat (bid x))) (visit e s))
        (md m i, mde m i)
}.

Lemma edge_id_at_enters (prev : ptr) (idx : nat) (e : ptr) :
  enters bootTree prev idx e -> id_ok bootTree E2 e ->
  edge_id_at bootTree prev idx = Ret (Z.of_nat (bid e)).
Proof.
  intros (nd & Hnd & Hbr) (ed & Hed & Hid & _).
  unfold edge_id_at, node_at, edge_at. rewrite Hnd. cbn [of_option obind].
  rewrite Hbr. cbn [of_option obind]. rewrite Hed. cbn [of_option obind].
  now rewrite Hid.
Qed.

(** The invariant of the loop over the children of an internal node, once
    the children [done] have been gone through; [j] is the column of the
    edge that enters the node. *)
Record kids_inv (j : nat) (done : list (nat * ptr * shape)) (m mk : Mats) : Prop := {
  ki_dims : dims E1 E2 mk;
  ki_frame : forall i jj, jj ∉ j :: kids_ids bootTree done ->
    cell (i_matrix mk) i jj = cell (i_matrix m) i jj /\
    cell (c_matrix mk) i jj = cell (c_matrix m) i jj;
  ki_frame_h : forall i jj, jj ∉ kids_ids bootTree done ->
    cell (hamming mk) i jj = cell (hamming m) i jj;
  ki_col : forall i, i < E1 ->
    cell (i_matrix mk) i j
      = fold_left (fun acc k => u16_add acc
                     (col_sum bootTree (cell (i_matrix m) i) (snd (fst k)) (snd k)))
          done 0%N /\
    cell (c_matrix mk) i j
      = fold_left (fun acc k => u16_add acc
                     (col_sum bootTree (cell (c_matrix m) i) (snd (fst k)) (snd k)))
          done 0%N;
  ki_cols : forall kd e' s', kd ∈ done -> (e', s') ∈ subs_of (kid_edge kd) (kid_sub kd) ->
    forall i, i < E1 ->
    cell (i_matrix mk) i (bid e') = col_sum bootTree (cell (i_matrix m) i) e' s' /\
    cell (c_matrix mk) i (bid e') = col_sum bootTree (cell (c_matrix m) i) e' s' /\
    cell (hamming mk) i (bid e')
      = ham16 ntips (numtips refTree edges i)
          (cell (c_matrix mk) i (bid e')) (cell (i_matrix mk) i (bid e'));
  ki_min : forall i, i < E1 ->
    (md mk i, mde mk i)
    = best (map (fun x => (cell (hamming mk) i (bid x), Z.of_nat (bid x)))
              (flat_map (fun k => visit (snd (fst k)) (snd k)) done))
        (md m i, mde m i)
}.

Lemma kids_ids_app (l1 l2 : list (nat * ptr * shape)) :
  kids_ids bootTree (l1 ++ l2) = kids_ids bootTree l1 ++ kids_ids bootTree l2.
Proof. apply flat_map_app'. Qed.

Lemma visit_ids (e : ptr) (s : shape) (x : ptr) :
  x ∈ visit e s -> bid x ∈ ids_of e s.
Proof.
  intros Hx. apply visit_edges in Hx. unfold booster.ids_of.
  apply list_elem_of_fmap. exists x. split; [reflexivity|assumption].
Qed.

Lemma sub_edge_id (e : ptr) (s : shape) (e' : ptr) (s' : shape) :
  (e', s') ∈ subs_of e s -> bid e' ∈ ids_of e s.
Proof. intros Hin. eapply subs_ids; [exact Hin|]. apply subs_self_id. Qed.

Lemma kids_step (n : ptr) (j : nat) (done : list (nat * ptr * shape))
  (kd : nat * ptr * shape) (m mk : Mats) (fuel : nat) :
  (forall m0, dims E1 E2 m0 ->
     exists m', update_i_c_post_order_boot_tree fuel refTree ntips edges bootTree
                  (shape_root (kid_sub kd)) (kid_pos kd) n m0 = Ret m' /\
                boot_post (kid_edge kd) (kid_sub kd) m0 m') ->
  enters bootTree n (kid_pos kd) (kid_edge kd) ->
  id_ok bootTree E2 (kid_edge kd) ->
  j < E2 ->
  NoDup (j :: kids_ids bootTree (done ++ [kd])) ->
  kids_inv j done m mk ->
  exists mk',
    (let! edge_id2 := edge_id_at bootTree n (kid_pos kd) in
     let! m := update_i_c_post_order_boot_tree fuel refTree ntips edges bootTree
                 (shape_root (kid_sub kd)) (kid_pos kd) n mk in
     for_edges (length edges)
       (fun m edge_id3 =>
          let! a := mat_get (i_matrix m) edge_id3 (Z.of_nat j) in
          let! b := mat_get (i_matrix m) edge_id3 edge_id2 in
          let! im := mat_set (i_matrix m) edge_id3 (Z.of_nat j) (u16_add a b) in
          let m := set_i m im in
          let! a := mat_get (c_matrix m) edge_id3 (Z.of_nat j) in
          let! b := mat_get (c_matrix m) edge_id3 edge_id2 in
          let! cm := mat_set (c_matrix m) edge_id3 (Z.of_nat j) (u16_add a b) in
          Ret (set_c m cm))
       m) = Ret mk' /\
    kids_inv j (done ++ [kd]) m mk'.
Proof.
  intros IH Hent Hid Hj Hnd Hinv.
  set (e2 := kid_edge kd) in *. set (s2 := kid_sub kd) in *. set (j2 := bid e2).
  rewrite (edge_id_at_enters n (kid_pos kd) e2 Hent Hid). cbn [obind].
  destruct (IH mk (ki_dims _ _ _ _ Hinv)) as (ma & Hrun & Hpost).
  rewrite Hrun. cbn [obind].
  assert (Hj2 : j2 < E2) by (destruct Hid as (? & ? & ? & ?); assumption).
  destruct (add_column edges E1 E2 Hedges j j2 ma (bp_dims _ _ _ _ Hpost) Hj Hj2)
    as (mb & Hadd & Hdb & Hhb & Hmdb & Hmdeb & HIb & HCb).
  exists mb. split; [exact Hadd|].
  (* the ids of the new child are apart from the column and from the others *)
  rewrite kids_ids_app in Hnd. simpl in Hnd. rewrite app_nil_r in Hnd.
  fold (ids_of e2 s2) in Hnd.
  apply NoDup_cons in Hnd as [Hjn Hnd]. apply NoDup_app in Hnd as (_ & Hdisj & _).
  assert (Hj_done : j ∉ kids_ids bootTree done).
  { intros H. apply Hjn, elem_of_app. now left. }
  assert (Hj_kd : j ∉ ids_of e2 s2).
  { intros H. apply Hjn, elem_of_app. now right. }
  assert (Hseed : forall i,
            (forall jj, jj ∈ ids_of e2 s2 ->
               cell (i_matrix mk) i jj = cell (i_matrix m) i jj) /\
            (forall jj, jj ∈ ids_of e2 s2 ->
               cell (c_matrix mk) i jj = cell (c_matrix m) i jj)).
  { intros i. split; intros jj Hjj; apply (ki_frame _ _ _ _ Hinv i jj);
      intros Hin; apply elem_of_cons in Hin as [->|Hin]; try tauto;
      apply (Hdisj jj Hin Hjj). }
  assert (Hnew : forall e' s', (e', s') ∈ subs_of e2 s2 -> forall i, i < E1 ->
            cell (i_matrix mb) i (bid e') = col_sum bootTree (cell (i_matrix m) i) e' s' /\
            cell (c_matrix mb) i (bid e') = col_sum bootTree (cell (c_matrix m) i) e' s' /\
            cell (hamming mb) i (bid e')
              = ham16 ntips (numtips refTree edges i)
                  (cell (c_matrix mb) i (bid e')) (cell (i_matrix mb) i (bid e'))).
  { intros e' s' Hin i Hi.
    pose proof (sub_edge_id _ _ _ _ Hin) as Hide.
    assert (Hne : bid e' <> j).
    { intros Heq. apply Hj_kd. rewrite <- Heq. exact Hide. }
    destruct (bp_cols _ _ _ _ Hpost e' s' Hin i Hi) as (HI & HC & HH).
    rewrite HIb, HCb, Hhb. rewrite !decide_False by tauto.
    rewrite HH. split; [|split; [|reflexivity]].
    - rewrite HI. apply col_sum_ext. intros jj Hjj. apply (Hseed i).
      eapply subs_ids; eassumption.
    - rewrite HC. apply col_sum_ext. intros jj Hjj. apply (Hseed i).
      eapply subs_ids; eassumption. }
  assert (Hold : forall i jj, jj ∈ kids_ids bootTree done ->
            cell (i_matrix mb) i jj = cell (i_matrix mk) i jj /\
            cell (c_matrix mb) i jj = cell (c_matrix mk) i jj /\
            cell (hamming mb) i jj = cell (hamming mk) i jj).
  { intros i jj Hjj.
    assert (Hne : jj <> j) by (intros ->; tauto).
    assert (Hout : jj ∉ ids_of e2 s2) by (intros H; apply (Hdisj jj Hjj H)).
    destruct (bp_frame _ _ _ _ Hpost i jj Hout) as (HI & HC & HH).
    rewrite HIb, HCb, Hhb. rewrite !decide_False by tauto. auto. }
  split.
  - exact Hdb.
  - intros i jj Hout. rewrite kids_ids_app in Hout. simpl in Hout.
    rewrite app_nil_r in Hout. fold (ids_of e2 s2) in Hout.
    assert (Hne : jj <> j) by (intros ->; apply Hout, elem_of_cons; now left).
    assert (H1 : jj ∉ ids_of e2 s2).
    { intros H. apply Hout, elem_of_cons. right. apply elem_of_app. now right. }
    assert (H2 : jj ∉ j :: kids_ids bootTree done).
    { intros H. apply elem_of_cons in H as [H|H]; [tauto|].
      apply Hout, elem_of_cons. right. apply elem_of_app. now left. }
    destruct (bp_frame _ _ _ _ Hpost i jj H1) as (HI & HC & _).
    destruct (ki_frame _ _ _ _ Hinv i jj H2) as (HI' & HC').
    rewrite HIb, HCb. rewrite !decide_False by tauto. split; congruence.
  - intros i jj Hout. rewrite kids_ids_app in Hout. simpl in Hout.
    rewrite app_nil_r in Hout. fold (ids_of e2 s2) in Hout.
    assert (H1 : jj ∉ ids_of e2 s2).
    { intros H. apply Hout, elem_of_app. now right. }
    assert (H2 : jj ∉ kids_ids bootTree done).
    { intros H. apply Hout, elem_of_app. now left. }
    destruct (bp_frame _ _ _ _ Hpost i jj H1) as (_ & _ & HH).
    rewrite Hhb, HH. apply (ki_frame_h _ _ _ _ Hinv i jj H2).
  - intros i Hi. rewrite HIb, HCb. rewrite !decide_True by auto.
    destruct (bp_frame _ _ _ _ Hpost i j Hj_kd) as (HI & HC & _).
    destruct (ki_col _ _ _ _ Hinv i Hi) as (HcI & HcC).
    destruct (bp_cols _ _ _ _ Hpost e2 s2 (list_elem_of_here _ _) i Hi) as (HI2 & HC2 & _).
    fold j2 in HI2, HC2. rewrite HI, HC, HcI, HcC, HI2, HC2.
    rewrite !fold_left_app. simpl.
    rewrite (col_sum_ext bootTree (cell (i_matrix mk) i) (cell (i_matrix m) i))
      by apply (Hseed i).
    rewrite (col_sum_ext bootTree (cell (c_matrix mk) i) (cell (c_matrix m) i))
      by apply (Hseed i).
    split; reflexivity.
  - intros kd' e' s' Hkd' Hin i Hi. apply elem_of_app in Hkd' as [Hkd'|Hkd'].
    + assert (Hide : bid e' ∈ kids_ids bootTree done).
      { apply elem_of_flat_map. exists kd'. split; [assumption|].
        eapply sub_edge_id; eassumption. }
      destruct (Hold i (bid e') Hide) as (HI & HC & HH).
      rewrite HI, HC, HH. apply (ki_cols _ _ _ _ Hinv kd' e' s' Hkd' Hin i Hi).
    + apply list_elem_of_singleton in Hkd'. subst kd'. apply Hnew; assumption.
  - intros i Hi. rewrite flat_map_app', map_app, best_app. simpl.
    rewrite app_nil_r.
    assert (Hmdi : (md mb i, mde mb i) = (md ma i, mde ma i)).
    { unfold md, mde. now rewrite Hmdb, Hmdeb. }
    rewrite Hmdi, (bp_min _ _ _ _ Hpost i Hi), (ki_min _ _ _ _ Hinv i Hi).
    f_equal.
    + apply map_ext_in. intros x Hx. apply list_elem_of_In in Hx. f_equal.
      rewrite Hhb. reflexivity.
    + f_equal. apply map_ext_in. intros x Hx. apply list_elem_of_In in Hx. f_equal.
      symmetry. apply Hold.
      apply elem_of_flat_map in Hx as (kd' & Hkd' & Hx).
      apply elem_of_flat_map. exists kd'. split; [assumption|].
      now apply visit_ids.
Qed.

Lemma kids_loop (n : ptr) (j : nat) (fuel : nat) (m : Mats)
  (kids : list (nat * ptr * shape)) :
  (forall kd, kd ∈ kids ->
     (forall m0, dims E1 E2 m0 ->
        exists m', update_i_c_post_order_boot_tree fuel refTree ntips edges bootTree
                     (shape_root (kid_sub kd)) (kid_pos kd) n m0 = Ret m' /\
                   boot_post (kid_edge kd) (kid_sub kd) m0 m') /\
     enters bootTree n (kid_pos kd) (kid_edge kd) /\
     id_ok bootTree E2 (kid_edge kd)) ->
  j < E2 -> NoDup (j :: kids_ids bootTree kids) ->
  forall todo done mk, kids = done ++ todo -> kids_inv j done m mk ->
  exists mk',
    ofold (fun m kd =>
             let! edge_id2 := edge_id_at bootTree n (kid_pos kd) in
             let! m := update_i_c_post_order_boot_tree fuel refTree ntips edges bootTree
                         (shape_root (kid_sub kd)) (kid_pos kd) n m in
             for_edges (length edges)
               (fun m edge_id3 =>
                  let! a := mat_get (i_matrix m) edge_id3 (Z.of_nat j) in
                  let! b := mat_get (i_matrix m) edge_id3 edge_id2 in
                  let! im := mat_set (i_matrix m) edge_id3 (Z.of_nat j) (u16_add a b) in
                  let m := set_i m im in
                  let! a := mat_get (c_matrix m) edge_id3 (Z.of_nat j) in
                  let! b := mat_get (c_matrix m) edge_id3 edge_id2 in
                  let! cm := mat_set (c_matrix m) edge_id3 (Z.of_nat j) (u16_add a b) in
                  Ret (set_c m cm))
               m)
          todo mk = Ret mk' /\
    kids_inv j kids m mk'.
Proof.
  intros Hkids Hj Hnd todo. induction todo as [|kd todo IH]; intros done mk Heq Hinv.
  - rewrite app_nil_r in Heq. subst done. exists mk. split; [reflexivity|assumption].
  - assert (Hin : kd ∈ kids).
    { rewrite Heq. apply elem_of_app. right. apply elem_of_cons. now left. }
    destruct (Hkids kd Hin) as (IHkd & Hent & Hid).
    assert (Hnd' : NoDup (j :: kids_ids bootTree (done ++ [kd]))).
    { rewrite Heq in Hnd. replace (done ++ kd :: todo) with ((done ++ [kd]) ++ todo) in Hnd
        by now rewrite <- app_assoc.
      rewrite kids_ids_app in Hnd. apply NoDup_cons in Hnd as [Hjn Hnd].
      apply NoDup_app in Hnd as (Hnd & _ & _). apply NoDup_cons. split; [|assumption].
      intros H. apply Hjn, elem_of_app. now left. }
    destruct (kids_step n j done kd m mk fuel IHkd Hent Hid Hj Hnd' Hinv)
      as (mk1 & Hrun & Hinv1).
    match goal with |- exists mk', ofold ?G _ _ = _ /\ _ => set (G' := G) end.
    change (G' mk kd = Ret mk1) in Hrun.
    cbn [ofold]. rewrite Hrun. cbn [obind].
    apply (IH (done ++ [kd]) mk1); [|assumption].
    now rewrite <- app_assoc.
Qed.

(** The second pass on the subtree below an edge: it returns, and leaves in
    each column of the subtree the sums of the columns of the terminal edges
    below, the distances computed from them, and the running minimum of
    every reference edge over the edges met. *)
Lemma boot_pass_ok (s : shape) :
  forall (e prev : ptr) (curindex fuel : nat) (m : Mats),
  rep bootTree (Some prev) s -> enters bootTree prev curindex e ->
  (forall x, x ∈ e :: shape_edges s -> id_ok bootTree E2 x) ->
  NoDup (ids_of e s) -> depth s <= fuel -> dims E1 E2 m ->
  exists m',
    update_i_c_post_order_boot_tree fuel refTree ntips edges bootTree
      (shape_root s) curindex prev m = Ret m' /\
    boot_post e s m m'.
Proof.
  induction s as [n kids IH] using shape_ind'.
  intros e prev curindex fuel m Hrep Hent Hids Hnd Hfuel Hdims.
  destruct fuel as [|fuel]; [simpl in Hfuel; lia|].
  assert (He : id_ok bootTree E2 e) by (apply Hids, elem_of_cons; now left).
  assert (Hj : bid e < E2) by (destruct He as (? & ? & ? & ?); assumption).
  set (j := bid e) in *.
  inversion Hrep as [? ? ? nd Hnode Hbr Hpos Hlen Hpar Hkids]; subst.
  cbn [update_i_c_post_order_boot_tree shape_root].
  rewrite (edge_id_at_enters prev curindex e Hent He). cbn [obind]. fold j.
  unfold node_at. rewrite Hnode. cbn [of_option obind].
  rewrite (rep_tip bootTree prev n kids nd Hrep Hnode).
  destruct kids as [|kd0 kids0].
  - (* a terminal edge *)
    cbn [negb obind].
    destruct (hamming_column refTree edges ntips E1 E2 Hedges Hreal j m Hdims Hj)
      as (m' & Hrun & Hd' & HI & HC & HH & HM).
    exists m'. split; [exact Hrun|]. split.
    + assumption.
    + intros i jj Hout. rewrite HI, HC, HH. rewrite decide_False; [auto|].
      intros [_ ->]. apply Hout, subs_self_id.
    + intros e' s' Hin i Hi. apply list_elem_of_singleton in Hin.
      inversion Hin; subst e' s'. rewrite HI, HC, HH. rewrite decide_True by auto.
      repeat split; reflexivity.
    + intros i Hi. rewrite (HM i Hi). simpl. rewrite HH.
      rewrite decide_True by auto. reflexivity.
  - (* an internal edge *)
    cbn [negb]. remember (kd0 :: kids0) as kids eqn:Hk.
    destruct (zero_column edges E1 E2 Hedges j m Hdims Hj)
      as (m0 & Hzero & Hd0 & Hh0 & Hmd0 & Hmde0 & HI0 & HC0).
    rewrite Hzero. cbn [obind].
    rewrite (loop_over_kids _ bootTree prev n kids nd _ Hrep Hnode).
    assert (Hnd2 : NoDup (j :: kids_ids bootTree kids)).
    { unfold booster.ids_of in Hnd. rewrite map_cons, shape_edges_ids in Hnd. exact Hnd. }
    assert (Hinv0 : kids_inv j [] m m0).
    { split.
      - assumption.
      - intros i jj Hout. rewrite HI0, HC0. rewrite !decide_False; [auto|..];
          intros [_ ->]; apply Hout, elem_of_cons; now left.
      - intros i jj _. now rewrite Hh0.
      - intros i Hi. rewrite HI0, HC0. rewrite !decide_True by auto. auto.
      - intros kd e' s' Hin. inversion Hin.
      - intros i Hi. unfold md, mde. now rewrite Hmd0, Hmde0. }
    destruct (kids_loop n j fuel m kids) with (todo := kids) (done := @nil (nat * ptr * shape))
      (mk := m0) as (mk & Hloop & Hinv); try assumption; try reflexivity.
    { intros kd Hkd. destruct (rep_kid bootTree (Some prev) n kids kd Hrep Hkd) as [Hent' Hrep'].
      assert (Hsub : forall x, x ∈ kid_edge kd :: shape_edges (kid_sub kd) ->
                x ∈ shape_edges (Sh n kids)).
      { intros x Hx.
        change (x ∈ flat_map (fun k => snd (fst k) :: shape_edges (snd k)) kids).
        apply elem_of_flat_map. exists kd. split; assumption. }
      split; [|split; [assumption|]].
      - intros m1 Hd1. rewrite Forall_forall in IH.
        apply (IH kd Hkd (kid_edge kd) n (kid_pos kd) fuel m1); try assumption.
        + intros x Hx. apply Hids, elem_of_cons. right. now apply Hsub.
        + apply NoDup_cons in Hnd2 as [_ Hnd2]. unfold kids_ids in Hnd2.
          apply list_elem_of_split in Hkd as (l1 & l2 & ->).
          rewrite flat_map_app' in Hnd2. cbn [flat_map] in Hnd2.
          apply NoDup_app in Hnd2 as (_ & _ & Hnd2).
          apply NoDup_app in Hnd2 as (Hnd2 & _ & _). exact Hnd2.
        + pose proof (depth_kid n kids kd Hkd). lia.
      - apply Hids, elem_of_cons. right. apply Hsub, elem_of_cons. now left. }
    match goal with |- context [ofold ?G kids m0] =>
      replace (ofold G kids m0) with (Ret mk) by (symmetry; exact Hloop) end.
    cbn [obind].
    destruct (hamming_column refTree edges ntips E1 E2 Hedges Hreal j mk
                (ki_dims _ _ _ _ Hinv) Hj)
      as (m' & Hrun & Hd' & HI & HC & HH & HM).
    exists m'. split; [exact Hrun|].
    assert (Hjn : j ∉ kids_ids bootTree kids) by now apply NoDup_cons in Hnd2.
    assert (Hids_eq : ids_of e (Sh n kids) = j :: kids_ids bootTree kids).
    { unfold booster.ids_of. now rewrite map_cons, shape_edges_ids. }
    split.
    + assumption.
    + intros i jj Hout. rewrite Hids_eq in Hout.
      assert (Hne : jj <> j) by (intros ->; apply Hout, elem_of_cons; now left).
      assert (Hout2 : jj ∉ kids_ids bootTree kids).
      { intros H. apply Hout, elem_of_cons. now right. }
      rewrite HI, HC, HH. rewrite decide_False by tauto.
      destruct (ki_frame _ _ _ _ Hinv i jj Hout) as [H1 H2].
      split; [assumption|]. split; [assumption|].
      apply (ki_frame_h _ _ _ _ Hinv i jj Hout2).
    + intros e' s' Hin i Hi. unfold subs_of in Hin.
      apply elem_of_cons in Hin as [Heq|Hin].
      * inversion Heq; subst e' s'. fold j. rewrite HI, HC, HH.
        rewrite decide_True by auto.
        destruct (ki_col _ _ _ _ Hinv i Hi) as [H1 H2].
        rewrite H1, H2. subst kids. repeat split; reflexivity.
      * apply elem_of_subs_kids in Hin as (kd & Hkd & Hin).
        assert (Hne : bid e' <> j).
        { intros Heq. apply Hjn. rewrite <- Heq. apply elem_of_flat_map.
          exists kd. split; [assumption|]. eapply sub_edge_id; eassumption. }
        rewrite HI, HC, HH. rewrite decide_False by tauto.
        apply (ki_cols _ _ _ _ Hinv kd e' s' Hkd Hin i Hi).
    + intros i Hi. cbn [visit]. rewrite map_app, best_app. cbn [map].
      rewrite (HM i Hi), (ki_min _ _ _ _ Hinv i Hi). fold j.
      rewrite (HH i j). rewrite decide_True by auto.
      match goal with |- _ = best [?x] ?acc =>
        change (best [x] acc) with (better acc x) end.
      f_equal. f_equal. apply map_ext_in. intros x Hx. apply list_elem_of_In in Hx.
      f_equal. rewrite HH. rewrite decide_False; [reflexivity|].
      intros [_ Heq]. apply Hjn. rewrite <- Heq.
      apply elem_of_flat_map in Hx as (kd & Hkd & Hx).
      apply elem_of_flat_map. exists kd. split; [assumption|]. now apply visit_ids.
Qed.

(** What the pass leaves once it has gone through the children [done] of
    the root. *)
Record root_inv (done : list (nat * ptr * shape)) (m mk : Mats) : Prop := {
  ri_dims : dims E1 E2 mk;
  ri_frame : forall i jj, jj ∉ kids_ids bootTree done ->
    cell (i_matrix mk) i jj = cell (i_matrix m) i jj /\
    cell (c_matrix mk) i jj = cell (c_matrix m) i jj /\
    cell (hamming mk) i jj = cell (hamming m) i jj;
  ri_cols : forall kd e' s', kd ∈ done -> (e', s') ∈ subs_of (kid_edge kd) (kid_sub kd) ->
    forall i, i < E1 ->
    cell (i_matrix mk) i (bid e') = col_sum bootTree (cell (i_matrix m) i) e' s' /\
    cell (c_matrix mk) i (bid e') = col_sum bootTree (cell (c_matrix m) i) e' s' /\
    cell (hamming mk) i (bid e')
      = ham16 ntips (numtips refTree edges i)
          (cell (c_matrix mk) i (bid e')) (cell (i_matrix mk) i (bid e'));
  ri_min : forall i, i < E1 ->
    (md mk i, mde mk i)
    = best (map (fun x => (cell (hamming mk) i (bid x), Z.of_nat (bid x)))
              (flat_map (fun k => visit (snd (fst k)) (snd k)) done))
        (md m i, mde m i)
}.

Lemma root_step (done : list (nat * ptr * shape)) (kd : nat * ptr * shape)
  (m mk ma : Mats) :
  NoDup (kids_ids bootTree (done ++ [kd])) ->
  root_inv done m mk ->
  boot_post (kid_edge kd) (kid_sub kd) mk ma ->
  root_inv (done ++ [kd]) m ma.
Proof.
  intros Hnd Hinv Hpost.
  set (e2 := kid_edge kd) in *. set (s2 := kid_sub kd) in *.
  rewrite kids_ids_app in Hnd. simpl in Hnd. rewrite app_nil_r in Hnd.
  fold (ids_of e2 s2) in Hnd. apply NoDup_app in Hnd as (_ & Hdisj & _).
  assert (Hseed : forall i jj, jj ∈ ids_of e2 s2 ->
            cell (i_matrix mk) i jj = cell (i_matrix m) i jj /\
            cell (c_matrix mk) i jj = cell (c_matrix m) i jj).
  { intros i jj Hjj.
    destruct (ri_frame _ _ _ Hinv i jj) as (H1 & H2 & _); [|auto].
    intros Hin. apply (Hdisj jj Hin Hjj). }
  assert (Hold : forall i jj, jj ∈ kids_ids bootTree done ->
            cell (i_matrix ma) i jj = cell (i_matrix mk) i jj /\
            cell (c_matrix ma) i jj = cell (c_matrix mk) i jj /\
            cell (hamming ma) i jj = cell (hamming mk) i jj).
  { intros i jj Hjj. apply (bp_frame _ _ _ _ Hpost i jj).
    intros H. apply (Hdisj jj Hjj H). }
  split.
  - apply (bp_dims _ _ _ _ Hpost).
  - intros i jj Hout. rewrite kids_ids_app in Hout. simpl in Hout.
    rewrite app_nil_r in Hout. fold (ids_of e2 s2) in Hout.
    destruct (bp_frame _ _ _ _ Hpost i jj) as (H1 & H2 & H3).
    { intros H. apply Hout, elem_of_app. now right. }
    destruct (ri_frame _ _ _ Hinv i jj) as (H1' & H2' & H3').
    { intros H. apply Hout, elem_of_app. now left. }
    repeat split; congruence.
  - intros kd' e' s' Hkd' Hin i Hi. apply elem_of_app in Hkd' as [Hkd'|Hkd'].
    + assert (Hide : bid e' ∈ kids_ids bootTree done).
      { apply elem_of_flat_map. exists kd'. split; [assumption|].
        eapply sub_edge_id; eassumption. }
      destruct (Hold i (bid e') Hide) as (HI & HC & HH).
      rewrite HI, HC, HH. apply (ri_cols _ _ _ Hinv kd' e' s' Hkd' Hin i Hi).
    + apply list_elem_of_singleton in Hkd'. subst kd'.
      destruct (bp_cols _ _ _ _ Hpost e' s' Hin i Hi) as (HI & HC & HH).
      split; [|split; [|assumption]].
      * rewrite HI. apply col_sum_ext. intros jj Hjj. apply (Hseed i).
        eapply subs_ids; eassumption.
      * rewrite HC. apply col_sum_ext. intros jj Hjj. apply (Hseed i).
        eapply subs_ids; eassumption.
  - intros i Hi. rewrite flat_map_app', map_app, best_app. cbn [flat_map].
    rewrite app_nil_r.
    rewrite (bp_min _ _ _ _ Hpost i Hi), (ri_min _ _ _ Hinv i Hi).
    f_equal. f_equal. apply map_ext_in. intros x Hx. apply list_elem_of_In in Hx.
    f_equal. symmetry. apply Hold.
    apply elem_of_flat_map in Hx as (kd' & Hkd' & Hx).
    apply elem_of_flat_map. exists kd'. split; [assumption|]. now apply visit_ids.
Qed.

Lemma loop_over_root_kids {B} (F : B -> nat -> ptr -> outcome B) (t : Tree) (n : ptr)
  (kids : list (nat * ptr * shape)) (nd : Node) (b : B) :
  rep t None (Sh n kids) -> nodes t !! n = Some nd ->
  ofoldi F 0 (n_neigh nd) b
  = ofold (fun b kd => F b (kid_pos kd) (shape_root (kid_sub kd))) kids b.
Proof.
  intros Hrep Hnd. inversion Hrep; subst. simplify_eq.
  change (ofoldi F 0 (n_neigh nd) b)
    with (ofoldi (fun b k c => if negb (ptr_eqb (Some c) None) then F b k c else Ret b)
            0 (n_neigh nd) b).
  rewrite (ofoldi_skip F (fun c => negb (ptr_eqb (Some c) None))).
  match goal with H : kid_positions _ _ = _ |- _ => unfold kid_positions in H; simpl in H end.
  simpl.
  match goal with H : List.filter _ _ = _ |- _ => rewrite H end.
  now rewrite ofold_map.
Qed.

(** The second pass on a well-formed bootstrap tree. *)
Lemma boot_root_ok (r : ptr) (kids : list (nat * ptr * shape)) (fuel : nat) (m : Mats) :
  rep bootTree None (Sh r kids) ->
  (forall x, x ∈ shape_edges (Sh r kids) -> id_ok bootTree E2 x) ->
  NoDup (map bid (shape_edges (Sh r kids))) ->
  depth (Sh r kids) <= S fuel -> dims E1 E2 m ->
  forall todo done mk, kids = done ++ todo -> root_inv done m mk ->
  exists m',
    ofold (fun m kd => update_i_c_post_order_boot_tree fuel refTree ntips edges
                         bootTree (shape_root (kid_sub kd)) (kid_pos kd) r m)
      todo mk = Ret m' /\
    root_inv kids m m'.
Proof.
  intros Hrep Hids Hnd Hfuel Hdims todo.
  rewrite shape_edges_ids in Hnd.
  induction todo as [|kd todo IH]; intros done mk Heq Hinv.
  - rewrite app_nil_r in Heq. subst done. exists mk. split; [reflexivity|assumption].
  - assert (Hin : kd ∈ kids).
    { rewrite Heq. apply elem_of_app. right. apply elem_of_cons. now left. }
    destruct (rep_kid bootTree None r kids kd Hrep Hin) as [Hent Hrep'].
    assert (Hnd' : NoDup (kids_ids bootTree (done ++ [kd]))).
    { rewrite Heq in Hnd. replace (done ++ kd :: todo) with ((done ++ [kd]) ++ todo) in Hnd
        by now rewrite <- app_assoc.
      rewrite kids_ids_app in Hnd. now apply NoDup_app in Hnd as (Hnd & _ & _). }
    assert (Hnd_kd : NoDup (ids_of (kid_edge kd) (kid_sub kd))).
    { rewrite kids_ids_app in Hnd'. cbn [kids_ids flat_map] in Hnd'.
      rewrite app_nil_r in Hnd'. now apply NoDup_app in Hnd' as (_ & _ & Hnd'). }
    destruct (boot_pass_ok (kid_sub kd) (kid_edge kd) r (kid_pos kd) fuel mk)
      as (ma & Hrun & Hpost); try assumption.
    { intros x Hx. apply Hids.
      change (x ∈ flat_map (fun k => snd (fst k) :: shape_edges (snd k)) kids).
      apply elem_of_flat_map. exists kd. split; assumption. }
    { pose proof (depth_kid r kids kd Hin). unfold kid_sub. lia. }
    { apply (ri_dims _ _ _ Hinv). }
    cbn [ofold]. rewrite Hrun. cbn [obind].
    apply (IH (done ++ [kd]) ma); [now rewrite <- app_assoc|].
    eapply root_step; eassumption.
Qed.

End BootPass.

(* --------------------------------------------------------------------- *)
(** *** The first pass, on a well-formed reference tree                   *)
(* --------------------------------------------------------------------- *)

Section RefRows.

Variables (bootTree : Tree) (bootEdges : list ptr) (E1 E2 : nat).
Hypothesis Hboot : length bootEdges = E2.
Hypothesis Hcols : forall j be, bootEdges !! j = Some be ->
  exists nd, right_node bootTree be = Ret nd.

Local Abbreviation tipcol := (tipcol bootTree bootEdges).

(** The cells of the row [i] that a loop over the terminal bootstrap edges
    has set to the values [vi] and [vc], which depend on the name of the
    tip of the column. *)
Record row_set (i : nat) (vi vc : nat -> string -> N) (upto : nat) (m m' : Mats) : Prop := {
  rs_dims : dims E1 E2 m';
  rs_h : hamming m' = hamming m;
  rs_md : min_dist m' = min_dist m;
  rs_mde : min_dist_edge m' = min_dist_edge m;
  rs_i : forall i' j, cell (i_matrix m') i' j
    = match tipcol j with
      | Some y => if decide (i' = i /\ j < upto) then vi j y else cell (i_matrix m) i' j
      | None => cell (i_matrix m) i' j
      end;
  rs_c : forall i' j, cell (c_matrix m') i' j
    = match tipcol j with
      | Some y => if decide (i' = i /\ j < upto) then vc j y else cell (c_matrix m) i' j
      | None => cell (c_matrix m) i' j
      end
}.

Lemma row_set_start (i : nat) (vi vc : nat -> string -> N) (m : Mats) :
  dims E1 E2 m -> row_set i vi vc 0 m m.
Proof.
  intros Hd. split; try reflexivity; try assumption;
    intros i' j; destruct (tipcol j); try reflexivity;
    rewrite decide_False by lia; reflexivity.
Qed.

(** One turn of such a loop, on the column [j]. *)
Lemma row_set_step (i : nat) (vi vc : nat -> string -> N) (j : nat) (be : ptr)
  (m m1 : Mats) (body : Mats -> outcome Mats) :
  i < E1 -> bootEdges !! j = Some be -> row_set i vi vc j m m1 ->
  (forall nd, right_node bootTree be = Ret nd -> Node_Tip nd = false -> body m1 = Ret m1) ->
  (forall nd, right_node bootTree be = Ret nd -> Node_Tip nd = true ->
     body m1 = put_ic m1 (Z.of_nat i) (Z.of_nat j) (vi j (n_name nd)) (vc j (n_name nd))) ->
  exists m2, body m1 = Ret m2 /\ row_set i vi vc (S j) m m2.
Proof.
  intros Hi Hbe Hrs Hskip Hput.
  assert (Hj : j < E2) by (rewrite <- Hboot; eapply lookup_lt_Some; eassumption).
  destruct (Hcols j be Hbe) as [nd Hnd].
  destruct (Node_Tip nd) eqn:Htip.
  - rewrite (Hput nd Hnd Htip). destruct (rs_dims _ _ _ _ _ _ Hrs).
    unfold put_ic. rewrite (mat_set_ok E1 E2) by assumption. cbn [obind].
    rewrite (mat_set_ok E1 E2) by assumption. cbn [obind].
    eexists. split; [reflexivity|].
    assert (Htc : tipcol j = Some (n_name nd)).
    { unfold booster.tipcol. now rewrite Hbe, Hnd, Htip. }
    split; simpl; try apply Hrs.
    + split; simpl; auto using wide_put.
    + intros i' j'. rewrite (cell_put_wide E1 E2) by assumption.
      rewrite (rs_i _ _ _ _ _ _ Hrs).
      destruct (decide (i' = i /\ j' = j)) as [[-> ->]|Hne].
      * rewrite Htc. now rewrite decide_True by lia.
      * destruct (tipcol j'); [|reflexivity]. decide_cells.
    + intros i' j'. rewrite (cell_put_wide E1 E2) by assumption.
      rewrite (rs_c _ _ _ _ _ _ Hrs).
      destruct (decide (i' = i /\ j' = j)) as [[-> ->]|Hne].
      * rewrite Htc. now rewrite decide_True by lia.
      * destruct (tipcol j'); [|reflexivity]. decide_cells.
  - rewrite (Hskip nd Hnd Htip). exists m1. split; [reflexivity|].
    assert (Htc : tipcol j = None).
    { unfold booster.tipcol. now rewrite Hbe, Hnd, Htip. }
    split; try apply Hrs.
    + intros i' j'. rewrite (rs_i _ _ _ _ _ _ Hrs).
      destruct (tipcol j') eqn:Hj'; [|reflexivity].
      assert (j' <> j) by congruence. decide_cells.
    + intros i' j'. rewrite (rs_c _ _ _ _ _ _ Hrs).
      destruct (tipcol j') eqn:Hj'; [|reflexivity].
      assert (j' <> j) by congruence. decide_cells.
Qed.

Lemma row_loop (i : nat) (vi vc : nat -> string -> N)
  (body : Mats -> nat -> ptr -> outcome Mats) (m : Mats) :
  i < E1 -> dims E1 E2 m ->
  (forall j be m1, bootEdges !! j = Some be -> row_set i vi vc j m m1 ->
     (forall nd, right_node bootTree be = Ret nd -> Node_Tip nd = false ->
        body m1 j be = Ret m1) /\
     (forall nd, right_node bootTree be = Ret nd -> Node_Tip nd = true ->
        body m1 j be
        = put_ic m1 (Z.of_nat i) (Z.of_nat j) (vi j (n_name nd)) (vc j (n_name nd)))) ->
  exists m', ofoldi body 0 bootEdges m = Ret m' /\ row_set i vi vc E2 m m'.
Proof.
  intros Hi Hd Hbody.
  destruct (ofoldi_ind body (fun k m1 => row_set i vi vc k m m1) bootEdges 0 m)
    as (m' & Hrun & HP).
  - now apply row_set_start.
  - intros k be m1 Hk Hrs. simpl.
    destruct (Hbody k be m1 Hk Hrs) as [Hskip Hput].
    apply (row_set_step i vi vc k be m m1 (fun m1 => body m1 k be)); assumption.
  - rewrite Hboot in HP. eauto.
Qed.

(** The row of a terminal reference edge, whose tip is named [x]. *)
Lemma seed_row (i : nat) (x : string) (m : Mats) :
  i < E1 -> dims E1 E2 m ->
  exists m',
    ofoldi (fun m be_id be =>
              let! r := right_node bootTree be in
              if negb (Node_Tip r) then Ret m
              else if negb (String.eqb x (n_name r))
              then put_ic m (Z.of_nat i) (Z.of_nat be_id) 0 1
              else put_ic m (Z.of_nat i) (Z.of_nat be_id) 1 0)
      0 bootEdges m = Ret m' /\
    row_set i (fun _ y => b2n (String.eqb x y)) (fun _ y => b2n (negb (String.eqb x y)))
      E2 m m'.
Proof.
  intros Hi Hd. apply row_loop; try assumption.
  intros j be m1 Hbe Hrs. split; intros nd Hnd Htip; rewrite Hnd; cbn [obind];
    rewrite Htip; cbn [negb]; [reflexivity|].
  destruct (String.eqb x (n_name nd)); reflexivity.
Qed.

(** The row of an internal reference edge before its children are met. *)
Lemma init_row (i : nat) (m : Mats) :
  i < E1 -> dims E1 E2 m ->
  exists m',
    ofoldi (fun m be_id be =>
              let! r := right_node bootTree be in
              if Node_Tip r then put_ic m (Z.of_nat i) (Z.of_nat be_id) 0 1
              else Ret m)
      0 bootEdges m = Ret m' /\
    row_set i (fun _ _ => 0%N) (fun _ _ => 1%N) E2 m m'.
Proof.
  intros Hi Hd. apply row_loop; try assumption.
  intros j be m1 Hbe Hrs. split; intros nd Hnd Htip; rewrite Hnd; cbn [obind];
    rewrite Htip; reflexivity.
Qed.

(** The row of an internal reference edge once the row [i2] of one more
    child has been merged into it. *)
Lemma combine_row (i i2 : nat) (m : Mats) :
  i < E1 -> i2 < E1 -> dims E1 E2 m ->
  exists m',
    ofoldi (fun m be_id be =>
              let! r := right_node bootTree be in
              if negb (Node_Tip r) then Ret m
              else
                let j := Z.of_nat be_id in
                let! a := mat_get (i_matrix m) (Z.of_nat i) j in
                let! b := mat_get (i_matrix m) (Z.of_nat i2) j in
                let! im := mat_set (i_matrix m) (Z.of_nat i) j
                  (if (negb (N.eqb a 0) || negb (N.eqb b 0))%bool then 1%N else 0%N) in
                let m := set_i m im in
                let! a := mat_get (c_matrix m) (Z.of_nat i) j in
                let! b := mat_get (c_matrix m) (Z.of_nat i2) j in
                let! cm := mat_set (c_matrix m) (Z.of_nat i) j
                  (if (negb (N.eqb a 0) && negb (N.eqb b 0))%bool then 1%N else 0%N) in
                Ret (set_c m cm))
      0 bootEdges m = Ret m' /\
    row_set i
      (fun j _ => b2n (negb (N.eqb (cell (i_matrix m) i j) 0)
                       || negb (N.eqb (cell (i_matrix m) i2 j) 0)))
      (fun j _ => b2n (negb (N.eqb (cell (c_matrix m) i j) 0)
                       && negb (N.eqb (cell (c_matrix m) i2 j) 0)))
      E2 m m'.
Proof.
  intros Hi Hi2 Hd. apply row_loop; try assumption.
  intros j be m1 Hbe Hrs.
  assert (Hj : j < E2) by (rewrite <- Hboot; eapply lookup_lt_Some; eassumption).
  split; intros nd Hnd Htip; rewrite Hnd; cbn [obind]; rewrite Htip; cbn [negb];
    [reflexivity|].
  destruct (rs_dims _ _ _ _ _ _ Hrs).
  assert (Hsame : forall i', cell (i_matrix m1) i' j = cell (i_matrix m) i' j /\
                             cell (c_matrix m1) i' j = cell (c_matrix m) i' j).
  { intros i'. rewrite (rs_i _ _ _ _ _ _ Hrs), (rs_c _ _ _ _ _ _ Hrs).
    destruct (tipcol j); [|auto]. rewrite !decide_False by lia. auto. }
  cbv zeta. rewrite !(mat_get_ok E1 E2) by assumption. cbn [obind].
  unfold put_ic.
  destruct (Hsame i) as [HIi HCi]. destruct (Hsame i2) as [HIi2 HCi2].
  rewrite HIi, HIi2. unfold b2n.
  rewrite (mat_set_ok E1 E2) by assumption. cbn [obind].
  simpl c_matrix.
  rewrite !(mat_get_ok E1 E2) by assumption. cbn [obind].
  rewrite HCi, HCi2. reflexivity.
Qed.

End RefRows.

Lemma has_name_app (y : string) (l1 l2 : list string) :
  has_name y (l1 ++ l2) = (has_name y l1 || has_name y l2)%bool.
Proof.
  unfold has_name. apply eq_true_iff_eq.
  rewrite orb_true_iff, !bool_decide_eq_true, elem_of_app. tauto.
Qed.

Lemma has_name_single (x y : string) : has_name y [x] = String.eqb x y.
Proof.
  unfold has_name. apply eq_true_iff_eq.
  rewrite bool_decide_eq_true, list_elem_of_singleton, String.eqb_eq.
  split; congruence.
Qed.

Lemma b2n_nonzero (b : bool) : negb (N.eqb (b2n b) 0) = b.
Proof. now destruct b. Qed.

Section RefPass.

Variables (refTree bootTree : Tree) (bootEdges : list ptr) (E1 E2 : nat).
Hypothesis Hboot : length bootEdges = E2.
Hypothesis Hcols : forall j be, bootEdges !! j = Some be ->
  exists nd, right_node bootTree be = Ret nd.

Local Abbreviation tipcol := (tipcol bootTree bootEdges).
Local Abbreviation rid := (bid refTree).
Local Abbreviation names := (tip_names refTree).

(** What the first pass leaves once it has gone through the edge [e] and
    the subtree [s] below it: on the columns of the terminal bootstrap
    edges, the row of each reference edge tells whether the tip of the
    column is below the reference edge (I) or not (C). *)
Record ref_post (e : ptr) (s : shape) (m m' : Mats) : Prop := {
  rp_dims : dims E1 E2 m';
  rp_h : hamming m' = hamming m;
  rp_md : min_dist m' = min_dist m;
  rp_mde : min_dist_edge m' = min_dist_edge m;
  rp_frame : forall i j, i ∉ ids_of refTree e s \/ tipcol j = None ->
    cell (i_matrix m') i j = cell (i_matrix m) i j /\
    cell (c_matrix m') i j = cell (c_matrix m) i j;
  rp_rows : forall e' s', (e', s') ∈ subs_of e s -> forall j y, tipcol j = Some y ->
    cell (i_matrix m') (rid e') j = b2n (has_name y (names s')) /\
    cell (c_matrix m') (rid e') j = b2n (negb (has_name y (names s')))
}.

Record ref_kids_inv (i : nat) (done : list (nat * ptr * shape)) (m mk : Mats) : Prop := {
  rk_dims : dims E1 E2 mk;
  rk_h : hamming mk = hamming m;
  rk_md : min_dist mk = min_dist m;
  rk_mde : min_dist_edge mk = min_dist_edge m;
  rk_frame : forall i' j, i' ∉ i :: kids_ids refTree done \/ tipcol j = None ->
    cell (i_matrix mk) i' j = cell (i_matrix m) i' j /\
    cell (c_matrix mk) i' j = cell (c_matrix m) i' j;
  rk_row : forall j y, tipcol j = Some y ->
    cell (i_matrix mk) i j
      = b2n (has_name y (flat_map (fun k => names (snd k)) done)) /\
    cell (c_matrix mk) i j
      = b2n (negb (has_name y (flat_map (fun k => names (snd k)) done)));
  rk_rows : forall kd e' s', kd ∈ done -> (e', s') ∈ subs_of (kid_edge kd) (kid_sub kd) ->
    forall j y, tipcol j = Some y ->
    cell (i_matrix mk) (rid e') j = b2n (has_name y (names s')) /\
    cell (c_matrix mk) (rid e') j = b2n (negb (has_name y (names s')))
}.

Lemma ref_kids_step (i : nat) (done : list (nat * ptr * shape))
  (kd : nat * ptr * shape) (m mk ma mb : Mats) :
  i < E1 -> NoDup (i :: kids_ids refTree (done ++ [kd])) ->
  ref_kids_inv i done m mk ->
  ref_post (kid_edge kd) (kid_sub kd) mk ma ->
  row_set bootTree bootEdges E1 E2 i
    (fun j _ => b2n (negb (N.eqb (cell (i_matrix ma) i j) 0)
                     || negb (N.eqb (cell (i_matrix ma) (rid (kid_edge kd)) j) 0)))
    (fun j _ => b2n (negb (N.eqb (cell (c_matrix ma) i j) 0)
                     && negb (N.eqb (cell (c_matrix ma) (rid (kid_edge kd)) j) 0)))
    E2 ma mb ->
  ref_kids_inv i (done ++ [kd]) m mb.
Proof.
  intros Hi Hnd Hinv Hpost Hrow.
  set (e2 := kid_edge kd) in *. set (s2 := kid_sub kd) in *.
  rewrite kids_ids_app in Hnd. simpl in Hnd. rewrite app_nil_r in Hnd.
  fold (ids_of refTree e2 s2) in Hnd.
  apply NoDup_cons in Hnd as [Hjn Hnd]. apply NoDup_app in Hnd as (_ & Hdisj & _).
  assert (Hi_done : i ∉ kids_ids refTree done).
  { intros H. apply Hjn, elem_of_app. now left. }
  assert (Hi_kd : i ∉ ids_of refTree e2 s2).
  { intros H. apply Hjn, elem_of_app. now right. }
  (* the rows other than [i] are those left by the child *)
  assert (Hother : forall i' j, i' <> i ->
            cell (i_matrix mb) i' j = cell (i_matrix ma) i' j /\
            cell (c_matrix mb) i' j = cell (c_matrix ma) i' j).
  { intros i' j Hne. rewrite (rs_i _ _ _ _ _ _ _ _ _ _ Hrow), (rs_c _ _ _ _ _ _ _ _ _ _ Hrow).
    destruct (tipcol j); [|auto]. rewrite !decide_False by tauto. auto. }
  split.
  - apply (rs_dims _ _ _ _ _ _ _ _ _ _ Hrow).
  - rewrite (rs_h _ _ _ _ _ _ _ _ _ _ Hrow), (rp_h _ _ _ _ Hpost). apply Hinv.
  - rewrite (rs_md _ _ _ _ _ _ _ _ _ _ Hrow), (rp_md _ _ _ _ Hpost). apply Hinv.
  - rewrite (rs_mde _ _ _ _ _ _ _ _ _ _ Hrow), (rp_mde _ _ _ _ Hpost). apply Hinv.
  - intros i' j Hout. rewrite kids_ids_app in Hout. simpl in Hout.
    rewrite app_nil_r in Hout. fold (ids_of refTree e2 s2) in Hout.
    assert (H1 : i' ∉ ids_of refTree e2 s2 \/ tipcol j = None).
    { destruct Hout as [Hout|Hout]; [left|now right].
      intros H. apply Hout, elem_of_cons. right. apply elem_of_app. now right. }
    assert (H2 : i' ∉ i :: kids_ids refTree done \/ tipcol j = None).
    { destruct Hout as [Hout|Hout]; [left|now right].
      intros H. apply Hout. apply elem_of_cons in H as [H|H].
      - apply elem_of_cons. now left.
      - apply elem_of_cons. right. apply elem_of_app. now left. }
    destruct (rp_frame _ _ _ _ Hpost i' j H1) as [HI HC].
    destruct (rk_frame _ _ _ _ Hinv i' j H2) as [HI' HC'].
    rewrite (rs_i _ _ _ _ _ _ _ _ _ _ Hrow), (rs_c _ _ _ _ _ _ _ _ _ _ Hrow).
    destruct (tipcol j) eqn:Htc.
    + destruct Hout as [Hout|Hout]; [|discriminate].
      rewrite !decide_False; [split; congruence|..];
        intros [-> _]; apply Hout, elem_of_cons; now left.
    + split; congruence.
  - intros j y Htc.
    assert (Hj : j < E2).
    { unfold booster.tipcol in Htc. destruct (bootEdges !! j) eqn:Hbe; [|discriminate].
      rewrite <- Hboot. eapply lookup_lt_Some; eassumption. }
    rewrite (rs_i _ _ _ _ _ _ _ _ _ _ Hrow), (rs_c _ _ _ _ _ _ _ _ _ _ Hrow), Htc.
    rewrite !decide_True by auto.
    destruct (rp_frame _ _ _ _ Hpost i j (or_introl Hi_kd)) as [HI HC].
    destruct (rk_row _ _ _ _ Hinv j y Htc) as [HIk HCk].
    destruct (rp_rows _ _ _ _ Hpost e2 s2 (list_elem_of_here _ _) j y Htc) as [HI2 HC2].
    rewrite HI, HC, HIk, HCk, HI2, HC2. rewrite !b2n_nonzero.
    rewrite flat_map_app', has_name_app. cbn [flat_map]. rewrite app_nil_r.
    fold s2. split; [reflexivity|]. now rewrite negb_orb.
  - intros kd' e' s' Hkd' Hin j y Htc.
    assert (Hne : kd' ∈ done \/ kd' = kd).
    { apply elem_of_app in Hkd' as [?|Hk]; [now left|right].
      now apply list_elem_of_singleton in Hk. }
    assert (Hrow_ne : rid e' <> i).
    { intros Heq. destruct Hne as [Hd| ->].
      - apply Hi_done. rewrite <- Heq. apply elem_of_flat_map. exists kd'.
        split; [assumption|]. eapply sub_edge_id; eassumption.
      - apply Hi_kd. rewrite <- Heq. eapply sub_edge_id; eassumption. }
    destruct (Hother (rid e') j Hrow_ne) as [HI HC]. rewrite HI, HC.
    destruct Hne as [Hd| ->].
    + destruct (rp_frame _ _ _ _ Hpost (rid e') j) as [HI' HC'].
      { left. intros H. eapply Hdisj; [|exact H]. apply elem_of_flat_map. exists kd'.
        split; [assumption|]. eapply sub_edge_id; eassumption. }
      rewrite HI', HC'. apply (rk_rows _ _ _ _ Hinv kd' e' s' Hd Hin j y Htc).
    + apply (rp_rows _ _ _ _ Hpost e' s' Hin j y Htc).
Qed.

Lemma has_name_nil (y : string) : has_name y [] = false.
Proof. unfold has_name. apply bool_decide_eq_false. apply not_elem_of_nil. Qed.

Lemma tipcol_lt (j : nat) (y : string) : tipcol j = Some y -> j < E2.
Proof.
  unfold booster.tipcol. intros H. destruct (bootEdges !! j) eqn:Hbe; [|discriminate].
  rewrite <- Hboot. eapply lookup_lt_Some; eassumption.
Qed.

Local Abbreviation merge_rows i edge_id2 :=
  (fun m be_id be =>
     let! r := right_node bootTree be in
     if negb (Node_Tip r) then Ret m
     else
       let j := Z.of_nat be_id in
       let! a := mat_get (i_matrix m) (Z.of_nat i) j in
       let! b := mat_get (i_matrix m) edge_id2 j in
       let! im := mat_set (i_matrix m) (Z.of_nat i) j
         (if (negb (N.eqb a 0) || negb (N.eqb b 0))%bool then 1%N else 0%N) in
       let m := set_i m im in
       let! a := mat_get (c_matrix m) (Z.of_nat i) j in
       let! b := mat_get (c_matrix m) edge_id2 j in
       let! cm := mat_set (c_matrix m) (Z.of_nat i) j
         (if (negb (N.eqb a 0) && negb (N.eqb b 0))%bool then 1%N else 0%N) in
       Ret (set_c m cm)).

Lemma ref_kids_loop (n : ptr) (i : nat) (fuel : nat) (m : Mats)
  (kids : list (nat * ptr * shape)) :
  (forall kd, kd ∈ kids ->
     (forall m0, dims E1 E2 m0 ->
        exists m', update_i_c_post_order_ref_tree fuel refTree bootTree bootEdges
                     (shape_root (kid_sub kd)) (kid_pos kd) n m0 = Ret m' /\
                   ref_post (kid_edge kd) (kid_sub kd) m0 m') /\
     enters refTree n (kid_pos kd) (kid_edge kd) /\
     id_ok refTree E1 (kid_edge kd)) ->
  i < E1 -> NoDup (i :: kids_ids refTree kids) ->
  forall todo done mk, kids = done ++ todo -> ref_kids_inv i done m mk ->
  exists mk',
    ofold (fun m kd =>
             let! edge_id2 := edge_id_at refTree n (kid_pos kd) in
             let! m := update_i_c_post_order_ref_tree fuel refTree bootTree bootEdges
                         (shape_root (kid_sub kd)) (kid_pos kd) n m in
             ofoldi (merge_rows i edge_id2) 0 bootEdges m)
          todo mk = Ret mk' /\
    ref_kids_inv i kids m mk'.
Proof.
  intros Hkids Hi Hnd todo. induction todo as [|kd todo IH]; intros done mk Heq Hinv.
  - rewrite app_nil_r in Heq. subst done. exists mk. split; [reflexivity|assumption].
  - assert (Hin : kd ∈ kids).
    { rewrite Heq. apply elem_of_app. right. apply elem_of_cons. now left. }
    destruct (Hkids kd Hin) as (IHkd & Hent & Hid).
    assert (Hnd' : NoDup (i :: kids_ids refTree (done ++ [kd]))).
    { rewrite Heq in Hnd. replace (done ++ kd :: todo) with ((done ++ [kd]) ++ todo) in Hnd
        by now rewrite <- app_assoc.
      rewrite kids_ids_app in Hnd. apply NoDup_cons in Hnd as [Hjn Hnd].
      apply NoDup_app in Hnd as (Hnd & _ & _). apply NoDup_cons. split; [|assumption].
      intros H. apply Hjn, elem_of_app. now left. }
    destruct (IHkd mk (rk_dims _ _ _ _ Hinv)) as (ma & Hrun & Hpost).
    assert (Hi2 : rid (kid_edge kd) < E1) by (destruct Hid as (? & ? & ? & ?); assumption).
    destruct (combine_row bootTree bootEdges E1 E2 Hboot Hcols i (rid (kid_edge kd)) ma
                Hi Hi2 (rp_dims _ _ _ _ Hpost)) as (mb & Hmerge & Hrow).
    pose proof (ref_kids_step i done kd m mk ma mb Hi Hnd' Hinv Hpost Hrow) as Hinv1.
    cbn [ofold].
    rewrite (edge_id_at_enters refTree E1 n (kid_pos kd) (kid_edge kd) Hent Hid).
    cbn [obind]. rewrite Hrun. cbn [obind].
    match goal with |- exists mk', (let! x := ?c in _) = _ /\ _ =>
      replace c with (Ret mb) by (symmetry; exact Hmerge) end.
    cbn [obind].
    apply (IH (done ++ [kd]) mb); [|assumption].
    now rewrite <- app_assoc.
Qed.

(** The first pass on the subtree below a reference edge: it returns, and
    the rows of the edges of the subtree tell, for each terminal bootstrap
    edge, whether its tip is below the reference edge. *)
Lemma ref_pass_ok (s : shape) :
  forall (e prev : ptr) (curidx fuel : nat) (m : Mats),
  rep refTree (Some prev) s -> enters refTree prev curidx e ->
  (forall x, x ∈ e :: shape_edges s -> id_ok refTree E1 x) ->
  NoDup (ids_of refTree e s) -> depth s <= fuel -> dims E1 E2 m ->
  exists m',
    update_i_c_post_order_ref_tree fuel refTree bootTree bootEdges
      (shape_root s) curidx prev m = Ret m' /\
    ref_post e s m m'.
Proof.
  induction s as [n kids IH] using shape_ind'.
  intros e prev curidx fuel m Hrep Hent Hids Hnd Hfuel Hdims.
  destruct fuel as [|fuel]; [simpl in Hfuel; lia|].
  assert (He : id_ok refTree E1 e) by (apply Hids, elem_of_cons; now left).
  assert (Hi : rid e < E1) by (destruct He as (? & ? & ? & ?); assumption).
  set (i := rid e) in *.
  inversion Hrep as [? ? ? nd Hnode Hbr Hpos Hlen Hpar Hkids]; subst.
  cbn [update_i_c_post_order_ref_tree shape_root].
  rewrite (edge_id_at_enters refTree E1 prev curidx e Hent He). cbn [obind]. fold i.
  unfold node_at. rewrite Hnode. cbn [of_option obind].
  rewrite (rep_tip refTree prev n kids nd Hrep Hnode).
  destruct kids as [|kd0 kids0].
  - (* a terminal edge *)
    destruct (seed_row bootTree bootEdges E1 E2 Hboot Hcols i (n_name nd) m Hi Hdims)
      as (m' & Hrun & Hrow).
    exists m'. split; [exact Hrun|]. split; try apply Hrow.
    + intros i' j Hout.
      rewrite (rs_i _ _ _ _ _ _ _ _ _ _ Hrow), (rs_c _ _ _ _ _ _ _ _ _ _ Hrow).
      destruct (tipcol j) eqn:Htc; [|auto].
      destruct Hout as [Hout|Hout]; [|discriminate].
      rewrite !decide_False; [auto|..]; intros [-> _]; apply Hout, subs_self_id.
    + intros e' s' Hin j y Htc. apply list_elem_of_singleton in Hin.
      inversion Hin; subst e' s'. fold i.
      rewrite (rs_i _ _ _ _ _ _ _ _ _ _ Hrow), (rs_c _ _ _ _ _ _ _ _ _ _ Hrow), Htc.
      pose proof (tipcol_lt j y Htc).
      rewrite !decide_True by auto.
      cbn [tip_names]. unfold node_name. rewrite Hnode. now rewrite has_name_single.
  - (* an internal edge *)
    remember (kd0 :: kids0) as kids eqn:Hk.
    destruct (init_row bootTree bootEdges E1 E2 Hboot Hcols i m Hi Hdims)
      as (m0 & Hinit & Hrow).
    rewrite Hinit. cbn [obind].
    rewrite (loop_over_kids _ refTree prev n kids nd _ Hrep Hnode).
    assert (Hnd2 : NoDup (i :: kids_ids refTree kids)).
    { unfold booster.ids_of in Hnd. rewrite map_cons, shape_edges_ids in Hnd. exact Hnd. }
    assert (Hinv0 : ref_kids_inv i [] m0 m0).
    { split; try reflexivity; try apply Hrow; [auto| |intros kd e' s' Hin; inversion Hin].
      intros j y Htc. pose proof (tipcol_lt j y Htc).
      rewrite (rs_i _ _ _ _ _ _ _ _ _ _ Hrow), (rs_c _ _ _ _ _ _ _ _ _ _ Hrow), Htc.
      rewrite !decide_True by auto. cbn [flat_map]. now rewrite has_name_nil. }
    destruct (ref_kids_loop n i fuel m0 kids) with (todo := kids)
      (done := @nil (nat * ptr * shape)) (mk := m0) as (mk & Hloop & Hinv);
      try assumption; try reflexivity.
    { intros kd Hkd. destruct (rep_kid refTree (Some prev) n kids kd Hrep Hkd) as [Hent' Hrep'].
      assert (Hsub : forall x, x ∈ kid_edge kd :: shape_edges (kid_sub kd) ->
                x ∈ shape_edges (Sh n kids)).
      { intros x Hx.
        change (x ∈ flat_map (fun k => snd (fst k) :: shape_edges (snd k)) kids).
        apply elem_of_flat_map. exists kd. split; assumption. }
      split; [|split; [assumption|]].
      - intros m1 Hd1. rewrite Forall_forall in IH.
        apply (IH kd Hkd (kid_edge kd) n (kid_pos kd) fuel m1); try assumption.
        + intros x Hx. apply Hids, elem_of_cons. right. now apply Hsub.
        + apply NoDup_cons in Hnd2 as [_ Hnd2]. unfold kids_ids in Hnd2.
          apply list_elem_of_split in Hkd as (l1 & l2 & ->).
          rewrite flat_map_app' in Hnd2. cbn [flat_map] in Hnd2.
          apply NoDup_app in Hnd2 as (_ & _ & Hnd2).
          apply NoDup_app in Hnd2 as (Hnd2 & _ & _). exact Hnd2.
        + pose proof (depth_kid n kids kd Hkd). unfold kid_sub. simpl in Hfuel. simpl in H. lia.
      - apply Hids, elem_of_cons. right. apply Hsub, elem_of_cons. now left. }
    exists mk. split; [exact Hloop|].
    assert (Hids_eq : ids_of refTree e (Sh n kids) = i :: kids_ids refTree kids).
    { unfold booster.ids_of. now rewrite map_cons, shape_edges_ids. }
    assert (Hjn : i ∉ kids_ids refTree kids) by now apply NoDup_cons in Hnd2.
    split.
    + apply Hinv.
    + rewrite (rk_h _ _ _ _ Hinv). apply Hrow.
    + rewrite (rk_md _ _ _ _ Hinv). apply Hrow.
    + rewrite (rk_mde _ _ _ _ Hinv). apply Hrow.
    + intros i' j Hout. rewrite Hids_eq in Hout.
      destruct (rk_frame _ _ _ _ Hinv i' j Hout) as [HI HC]. rewrite HI, HC.
      rewrite (rs_i _ _ _ _ _ _ _ _ _ _ Hrow), (rs_c _ _ _ _ _ _ _ _ _ _ Hrow).
      destruct (tipcol j) eqn:Htc; [|auto].
      destruct Hout as [Hout|Hout]; [|discriminate].
      rewrite !decide_False; [auto|..]; intros [-> _]; apply Hout, elem_of_cons; now left.
    + intros e' s' Hin j y Htc. unfold subs_of in Hin.
      apply elem_of_cons in Hin as [Heq|Hin].
      * inversion Heq; subst e' s'. fold i.
        destruct (rk_row _ _ _ _ Hinv j y Htc) as [HI HC].
        rewrite HI, HC. subst kids. split; reflexivity.
      * apply elem_of_subs_kids in Hin as (kd & Hkd & Hin).
        apply (rk_rows _ _ _ _ Hinv kd e' s' Hkd Hin j y Htc).
Qed.

(** What the first pass leaves once it has gone through the children
    [done] of the root. *)
Record ref_root_inv (done : list (nat * ptr * shape)) (m mk : Mats) : Prop := {
  rr_dims : dims E1 E2 mk;
  rr_h : hamming mk = hamming m;
  rr_md : min_dist mk = min_dist m;
  rr_mde : min_dist_edge mk = min_dist_edge m;
  rr_frame : forall i j, i ∉ kids_ids refTree done \/ tipcol j = None ->
    cell (i_matrix mk) i j = cell (i_matrix m) i j /\
    cell (c_matrix mk) i j = cell (c_matrix m) i j;
  rr_rows : forall kd e' s', kd ∈ done -> (e', s') ∈ subs_of (kid_edge kd) (kid_sub kd) ->
    forall j y, tipcol j = Some y ->
    cell (i_matrix mk) (rid e') j = b2n (has_name y (names s')) /\
    cell (c_matrix mk) (rid e') j = b2n (negb (has_name y (names s')))
}.

Lemma ref_root_step (done : list (nat * ptr * shape)) (kd : nat * ptr * shape)
  (m mk ma : Mats) :
  NoDup (kids_ids refTree (done ++ [kd])) ->
  ref_root_inv done m mk ->
  ref_post (kid_edge kd) (kid_sub kd) mk ma ->
  ref_root_inv (done ++ [kd]) m ma.
Proof.
  intros Hnd Hinv Hpost.
  set (e2 := kid_edge kd) in *. set (s2 := kid_sub kd) in *.
  rewrite kids_ids_app in Hnd. simpl in Hnd. rewrite app_nil_r in Hnd.
  fold (ids_of refTree e2 s2) in Hnd. apply NoDup_app in Hnd as (_ & Hdisj & _).
  split.
  - apply Hpost.
  - rewrite (rp_h _ _ _ _ Hpost). apply Hinv.
  - rewrite (rp_md _ _ _ _ Hpost). apply Hinv.
  - rewrite (rp_mde _ _ _ _ Hpost). apply Hinv.
  - intros i j Hout. rewrite kids_ids_app in Hout. simpl in Hout.
    rewrite app_nil_r in Hout. fold (ids_of refTree e2 s2) in Hout.
    destruct (rp_frame _ _ _ _ Hpost i j) as [H1 H2].
    { destruct Hout as [Hout|Hout]; [left|now right].
      intros H. apply Hout, elem_of_app. now right. }
    destruct (rr_frame _ _ _ Hinv i j) as [H1' H2'].
    { destruct Hout as [Hout|Hout]; [left|now right].
      intros H. apply Hout, elem_of_app. now left. }
    split; congruence.
  - intros kd' e' s' Hkd' Hin j y Htc. apply elem_of_app in Hkd' as [Hkd'|Hkd'].
    + assert (Hide : rid e' ∈ kids_ids refTree done).
      { apply elem_of_flat_map. exists kd'. split; [assumption|].
        eapply sub_edge_id; eassumption. }
      destruct (rp_frame _ _ _ _ Hpost (rid e') j) as [HI HC].
      { left. intros H. apply (Hdisj _ Hide H). }
      rewrite HI, HC. apply (rr_rows _ _ _ Hinv kd' e' s' Hkd' Hin j y Htc).
    + apply list_elem_of_singleton in Hkd'. subst kd'.
      apply (rp_rows _ _ _ _ Hpost e' s' Hin j y Htc).
Qed.

Lemma ref_root_loop (r : ptr) (kids : list (nat * ptr * shape)) (fuel : nat) (m : Mats) :
  rep refTree None (Sh r kids) ->
  (forall x, x ∈ shape_edges (Sh r kids) -> id_ok refTree E1 x) ->
  NoDup (map rid (shape_edges (Sh r kids))) ->
  depth (Sh r kids) <= S fuel ->
  forall todo done mk, kids = done ++ todo -> ref_root_inv done m mk ->
  exists m',
    ofold (fun m kd => update_i_c_post_order_ref_tree fuel refTree bootTree bootEdges
                         (shape_root (kid_sub kd)) (kid_pos kd) r m)
      todo mk = Ret m' /\
    ref_root_inv kids m m'.
Proof.
  intros Hrep Hids Hnd Hfuel todo.
  rewrite shape_edges_ids in Hnd.
  induction todo as [|kd todo IH]; intros done mk Heq Hinv.
  - rewrite app_nil_r in Heq. subst done. exists mk. split; [reflexivity|assumption].
  - assert (Hin : kd ∈ kids).
    { rewrite Heq. apply elem_of_app. right. apply elem_of_cons. now left. }
    destruct (rep_kid refTree None r kids kd Hrep Hin) as [Hent Hrep'].
    assert (Hnd' : NoDup (kids_ids refTree (done ++ [kd]))).
    { rewrite Heq in Hnd. replace (done ++ kd :: todo) with ((done ++ [kd]) ++ todo) in Hnd
        by now rewrite <- app_assoc.
      rewrite kids_ids_app in Hnd. now apply NoDup_app in Hnd as (Hnd & _ & _). }
    assert (Hnd_kd : NoDup (ids_of refTree (kid_edge kd) (kid_sub kd))).
    { rewrite kids_ids_app in Hnd'. cbn [kids_ids flat_map] in Hnd'.
      rewrite app_nil_r in Hnd'. now apply NoDup_app in Hnd' as (_ & _ & Hnd'). }
    destruct (ref_pass_ok (kid_sub kd) (kid_edge kd) r (kid_pos kd) fuel mk)
      as (ma & Hrun & Hpost); try assumption.
    { intros x Hx. apply Hids.
      change (x ∈ flat_map (fun k => snd (fst k) :: shape_edges (snd k)) kids).
      apply elem_of_flat_map. exists kd. split; assumption. }
    { pose proof (depth_kid r kids kd Hin). unfold kid_sub. simpl in Hfuel. simpl in H. lia. }
    { apply (rr_dims _ _ _ Hinv). }
    cbn [ofold]. rewrite Hrun. cbn [obind].
    apply (IH (done ++ [kd]) ma); [now rewrite <- app_assoc|].
    eapply ref_root_step; eassumption.
Qed.

(** The first pass on a well-formed reference tree: every reference edge
    gets, in the columns of the terminal bootstrap edges, the indicator of
    the tips below it and its complement. *)
Lemma ref_all_ok (s : shape) (fuel : nat) (m : Mats) :
  Root refTree = Some (shape_root s) -> rep refTree None s ->
  (forall x, x ∈ shape_edges s -> id_ok refTree E1 x) ->
  NoDup (map rid (shape_edges s)) ->
  depth s <= S fuel -> dims E1 E2 m ->
  exists m',
    Update_all_i_c_post_order_ref_tree fuel refTree bootTree bootEdges m = Ret m' /\
    ref_root_inv (shape_kids s) m m'.
Proof.
  destruct s as [r kids]. intros Hroot Hrep Hids Hnd Hfuel Hdims.
  unfold Update_all_i_c_post_order_ref_tree. rewrite Hroot. cbn [of_option obind shape_root].
  inversion Hrep as [? ? ? nd Hnode Hbr Hpos Hlen Hpar Hkids]; subst.
  unfold node_at. rewrite Hnode. cbn [of_option obind].
  rewrite (loop_over_root_kids _ refTree r kids nd _ Hrep Hnode).
  apply (ref_root_loop r kids fuel m Hrep Hids Hnd Hfuel kids [] m eq_refl).
  split; try reflexivity; [assumption|auto|].
  intros kd e' s' Hin. inversion Hin.
Qed.

End RefPass.

(* --------------------------------------------------------------------- *)
(** *** Counting the tips of the two sides                                *)
(* --------------------------------------------------------------------- *)

Lemma u16_small (z : Z) : (0 <= z < 65536)%Z -> Z.of_N (u16 z) = z.
Proof. intros H. unfold u16. rewrite Z.mod_small by assumption. lia. Qed.

Lemma u16_of_N (z : Z) : Z.of_N (u16 z) = (z mod 65536)%Z.
Proof. unfold u16. pose proof (Z.mod_pos_bound z 65536). lia. Qed.

Lemma u16_add_u16 (a b : Z) : u16_add (u16 a) (u16 b) = u16 (a + b).
Proof. unfold u16_add. rewrite !u16_of_N. unfold u16. now rewrite <- Zplus_mod. Qed.

Lemma best_spec (l : list (N * Z)) (a0 : N * Z) :
  (forall x, x ∈ l -> (fst (best l a0) <= fst x)%N) /\
  (fst (best l a0) <= fst a0)%N /\
  (best l a0 = a0 \/ best l a0 ∈ l).
Proof.
  revert a0. induction l as [|x l IH]; intros a0.
  - split; [intros x Hx; inversion Hx|]. split; [simpl; lia|now left].
  - change (best (x :: l) a0) with (best l (better a0 x)).
    destruct (IH (better a0 x)) as (H1 & H2 & H3).
    assert (Hb : (fst (better a0 x) <= fst a0)%N /\ (fst (better a0 x) <= fst x)%N /\
                 (better a0 x = a0 \/ better a0 x = x)).
    { unfold better. destruct (N.ltb (fst x) (fst a0)) eqn:Hlt.
      - apply N.ltb_lt in Hlt. repeat split; try lia. now right.
      - apply N.ltb_ge in Hlt. repeat split; try lia. now left. }
    destruct Hb as (Hb1 & Hb2 & Hb3). split; [|split].
    + intros y Hy. apply elem_of_cons in Hy as [->|Hy]; [lia|now apply H1].
    + lia.
    + destruct H3 as [H3|H3].
      * rewrite H3. destruct Hb3 as [->| ->]; [now left|right; apply elem_of_cons; now left].
      * right. apply elem_of_cons. now right.
Qed.

Lemma inside_le (R names : list string) :
  NoDup names -> length (inside R names) <= length R.
Proof.
  intros Hnd. apply submseteq_length, NoDup_submseteq.
  - unfold inside. apply NoDup_ListNoDup, List.NoDup_filter. now apply NoDup_ListNoDup.
  - intros y Hy. unfold inside in Hy. apply list_elem_of_In, filter_In in Hy.
    destruct Hy as [_ Hy]. unfold has_name in Hy. now apply bool_decide_eq_true in Hy.
Qed.

Lemma outside_le (R names all : list string) :
  NoDup R -> NoDup names ->
  (forall y, y ∈ R -> y ∈ all) -> (forall y, y ∈ names -> y ∈ all) ->
  length R + length (outside R names) <= length all.
Proof.
  intros HR Hn HRa Hna. rewrite <- length_app. apply submseteq_length, NoDup_submseteq.
  - apply NoDup_app. split; [assumption|]. split.
    + intros y Hy Hout. unfold outside in Hout. apply list_elem_of_In, filter_In in Hout.
      destruct Hout as [_ Hout]. apply negb_true_iff in Hout.
      unfold has_name in Hout. apply bool_decide_eq_false in Hout. contradiction.
    + unfold outside. apply NoDup_ListNoDup, List.NoDup_filter. now apply NoDup_ListNoDup.
  - intros y Hy. apply elem_of_app in Hy as [Hy|Hy].
    + now apply HRa.
    + unfold outside in Hy. apply list_elem_of_In, filter_In in Hy.
      destruct Hy as [Hy _]. apply Hna. now apply list_elem_of_In.
Qed.

(** With fewer than 65536 tips, the distance computed on 16 bits is the
    one of the integers, folded. *)
Lemma ham16_exact (n r cin cout : nat) :
  cin <= r -> r + cout <= n -> (Z.of_nat n < 65536)%Z ->
  let H := (Z.of_nat r + Z.of_nat cout - Z.of_nat cin)%Z in
  Z.of_N (ham16 (N.of_nat n) (u16 (Z.of_nat r)) (u16 (Z.of_nat cout)) (u16 (Z.of_nat cin)))
  = Z.min H (Z.of_nat n - H).
Proof.
  intros Hin Hout Hn H. unfold ham16, u16_sub, u16_add.
  rewrite !(u16_small (Z.of_nat _)) by lia.
  rewrite (u16_small (Z.of_nat r + Z.of_nat cout)) by lia.
  fold H. assert (HH : (0 <= H <= Z.of_nat n)%Z) by (unfold H; lia).
  rewrite N2Z.id || idtac.
  replace (Z.of_N (N.of_nat n)) with (Z.of_nat n) by lia.
  assert (Hh : u16 H = Z.to_N H).
  { unfold u16. now rewrite Z.mod_small by lia. }
  assert (Hn16 : u16 (Z.of_nat n) = N.of_nat n).
  { unfold u16. rewrite Z.mod_small by lia. lia. }
  rewrite Hh, Hn16.
  pose proof (N.Div0.mul_div_le (N.of_nat n) 2) as Hd1.
  pose proof (N.mul_succ_div_gt (N.of_nat n) 2 ltac:(lia)) as Hd2.
  destruct (N.ltb (N.of_nat n / 2) (Z.to_N H)) eqn:Hlt.
  - apply N.ltb_lt in Hlt. rewrite u16_small by lia. lia.
  - apply N.ltb_ge in Hlt. lia.
Qed.

Lemma below_kid (t : Tree) (b : ptr) (n : ptr) (kids : list (nat * ptr * shape))
  (kd : nat * ptr * shape) :
  below t b (Sh n kids) -> kd ∈ kids -> below t (kid_edge kd) (kid_sub kd).
Proof.
  intros (_ & p & Hrep) Hkd.
  inversion Hrep as [? ? ? nd Hnode Hbr Hpos Hlen Hpar Hkids]; subst.
  rewrite Forall_forall in Hkids.
  destruct (Hkids kd Hkd) as (_ & (ed & Hed & _ & Hr) & Hsub).
  split; [exists ed; split; assumption|exists n; exact Hsub].
Qed.

Lemma root_kid_below (t : Tree) (prev : option ptr) (n : ptr)
  (kids : list (nat * ptr * shape)) (kd : nat * ptr * shape) :
  rep t prev (Sh n kids) -> kd ∈ kids -> below t (kid_edge kd) (kid_sub kd).
Proof.
  intros Hrep Hkd.
  inversion Hrep as [? ? ? nd Hnode Hbr Hpos Hlen Hpar Hkids]; subst.
  rewrite Forall_forall in Hkids.
  destruct (Hkids kd Hkd) as (_ & (ed & Hed & _ & Hr) & Hsub).
  split; [exists ed; split; assumption|exists n; exact Hsub].
Qed.

Lemma subs_of_below (t : Tree) (s : shape) :
  forall b b' s', below t b s -> (b', s') ∈ subs_of b s -> below t b' s'.
Proof.
  induction s as [n kids IH] using shape_ind'. intros b b' s' Hb Hin.
  unfold subs_of in Hin. apply elem_of_cons in Hin as [Heq|Hin].
  - inversion Heq; subst. exact Hb.
  - apply elem_of_subs_kids in Hin as (kd & Hkd & Hin).
    rewrite Forall_forall in IH. apply (IH kd Hkd (kid_edge kd)); [|exact Hin].
    eapply below_kid; eassumption.
Qed.

Lemma subs_below (t : Tree) (s : shape) (prev : option ptr) :
  rep t prev s -> forall b sb, (b, sb) ∈ shape_subs s -> below t b sb.
Proof.
  destruct s as [n kids]. intros Hrep b sb Hin.
  apply elem_of_subs_kids in Hin as (kd & Hkd & Hin).
  eapply subs_of_below; [|exact Hin]. eapply root_kid_below; eassumption.
Qed.

Lemma below_right_node (t : Tree) (b : ptr) (n : ptr) (kids : list (nat * ptr * shape)) :
  below t b (Sh n kids) ->
  exists nd, right_node t b = Ret nd /\ nodes t !! n = Some nd /\
             Node_Tip nd = match kids with [] => true | _ => false end.
Proof.
  intros ((ed & Hed & Hr) & p & Hrep).
  inversion Hrep as [? ? ? nd Hnode Hbr Hpos Hlen Hpar Hkids]; subst.
  exists nd. split; [|split; [assumption|]].
  - unfold right_node, edge_at. rewrite Hed. cbn [of_option obind]. rewrite Hr.
    cbn [shape_root node_of]. unfold node_at. now rewrite Hnode.
  - eapply rep_tip; eassumption.
Qed.

Lemma tipcol_leaf (t : Tree) (es : list ptr) (b n : ptr) :
  below t b (Sh n []) -> es !! bid t b = Some b ->
  tipcol t es (bid t b) = Some (node_name t n).
Proof.
  intros Hb Hes. destruct (below_right_node t b n [] Hb) as (nd & Hr & Hnd & Htip).
  unfold tipcol, node_name. now rewrite Hes, Hr, Htip, Hnd.
Qed.


Lemma subs_in_edges (e : ptr) (s : shape) (e' : ptr) (s' : shape) :
  (e', s') ∈ shape_subs s -> e' ∈ shape_edges s.
Proof.
  intros Hin. rewrite <- subs_edges. apply list_elem_of_fmap. exists (e', s').
  split; [reflexivity|assumption].
Qed.

Lemma subs_trans (s : shape) :
  forall e e' s' x, (e', s') ∈ subs_of e s -> x ∈ subs_of e' s' -> x ∈ subs_of e s.
Proof.
  induction s as [n kids IH] using shape_ind'. intros e e' s' x Hin Hx.
  unfold subs_of in Hin. apply elem_of_cons in Hin as [Heq|Hin].
  - inversion Heq; subst. exact Hx.
  - apply elem_of_subs_kids in Hin as (kd & Hkd & Hin).
    apply elem_of_cons. right. apply elem_of_subs_kids. exists kd. split; [assumption|].
    rewrite Forall_forall in IH. eapply (IH kd Hkd); eassumption.
Qed.

(** The names below an edge of a subtree are a segment of the names of the
    subtree. *)
Lemma names_split (t : Tree) (s : shape) :
  forall e e' s', (e', s') ∈ subs_of e s ->
  exists l1 l2, tip_names t s = l1 ++ tip_names t s' ++ l2.
Proof.
  induction s as [n kids IH] using shape_ind'. intros e e' s' Hin.
  unfold subs_of in Hin. apply elem_of_cons in Hin as [Heq|Hin].
  - inversion Heq; subst. exists [], []. now rewrite app_nil_r.
  - apply elem_of_subs_kids in Hin as (kd & Hkd & Hin).
    rewrite Forall_forall in IH.
    destruct (IH kd Hkd (kid_edge kd) e' s' Hin) as (l1 & l2 & Heq).
    destruct kids as [|k0 ks]; [inversion Hkd|].
    cbn [tip_names]. apply list_elem_of_split in Hkd as (k1 & k2 & ->).
    rewrite flat_map_app'. cbn [flat_map]. unfold kid_sub in Heq. rewrite Heq.
    exists (flat_map (fun k => tip_names t (snd k)) k1 ++ l1),
           (l2 ++ flat_map (fun k => tip_names t (snd k)) k2).
    now rewrite <- !app_assoc.
Qed.

Lemma tip_names_nonempty (t : Tree) (s : shape) : tip_names t s <> [].
Proof.
  induction s as [n kids IH] using shape_ind'.
  destruct kids as [|k0 ks]; [discriminate|].
  cbn [tip_names flat_map]. inversion IH; subst.
  destruct (tip_names t (snd k0)); [contradiction|discriminate].
Qed.


Lemma visit_all (s : shape) :
  forall e x, x ∈ e :: shape_edges s -> x ∈ visit e s.
Proof.
  induction s as [n kids IH] using shape_ind'. intros e x Hx. cbn [visit].
  apply elem_of_app. apply elem_of_cons in Hx as [->|Hx].
  - right. apply elem_of_cons. now left.
  - left. cbn [shape_edges] in Hx. apply elem_of_flat_map in Hx as (kd & Hkd & Hx).
    apply elem_of_flat_map. exists kd. split; [assumption|].
    rewrite Forall_forall in IH. apply (IH kd Hkd). exact Hx.
Qed.

(** The column of a bootstrap edge after the second pass counts the tips
    below the edge that the first pass has marked. *)
Lemma col_sum_count (t : Tree) (es : list ptr) (seed : nat -> N) (f : string -> bool) :
  (forall j y, tipcol t es j = Some y -> seed j = b2n (f y)) ->
  forall s b, below t b s -> (forall x, x ∈ b :: shape_edges s -> es !! bid t x = Some x) ->
  col_sum t seed b s = u16 (Z.of_nat (length (List.filter f (tip_names t s)))).
Proof.
  intros Hseed. induction s as [n kids IH] using shape_ind'. intros b Hb Hes.
  destruct kids as [|k0 ks].
  - cbn [col_sum tip_names]. rewrite (Hseed _ (node_name t n)).
    + cbn [List.filter]. destruct (f (node_name t n)); reflexivity.
    + apply tipcol_leaf; [assumption|]. apply Hes, elem_of_cons. now left.
  - cbn [col_sum tip_names]. remember (k0 :: ks) as kids eqn:Hk.
    assert (Hkid : forall k, k ∈ kids ->
              col_sum t seed (snd (fst k)) (snd k)
              = u16 (Z.of_nat (length (List.filter f (tip_names t (snd k)))))).
    { intros k Hk'. rewrite Forall_forall in IH. apply (IH k Hk').
      - apply (below_kid t b n kids k Hb Hk').
      - intros x Hx. apply Hes. apply elem_of_cons. right.
        change (x ∈ flat_map (fun k => snd (fst k) :: shape_edges (snd k)) kids).
        apply elem_of_flat_map. exists k. split; assumption. }
    clear IH Hes Hb Hk.
    assert (Hgen : forall l a, (forall k, k ∈ l -> k ∈ kids) ->
              fold_left (fun acc k => u16_add acc (col_sum t seed (snd (fst k)) (snd k)))
                l (u16 a)
              = u16 (a + Z.of_nat (length (List.filter f
                                     (flat_map (fun k => tip_names t (snd k)) l))))).
    { induction l as [|k l IHl]; intros a Hl.
      - simpl. f_equal. lia.
      - cbn [fold_left flat_map]. rewrite Hkid by (apply Hl, elem_of_cons; now left).
        rewrite u16_add_u16, IHl by (intros k' Hk'; apply Hl, elem_of_cons; now right).
        f_equal. rewrite List.filter_app, length_app. lia. }
    apply (Hgen kids 0%Z). auto.
Qed.

(* --------------------------------------------------------------------- *)
(** *** The computable checks are sound                                   *)
(* --------------------------------------------------------------------- *)

Lemma ptr_eqb_eq (a b : option ptr) : ptr_eqb a b = true <-> a = b.
Proof.
  destruct a as [x|], b as [y|]; simpl; try (split; congruence).
  rewrite Nat.eqb_eq. split; congruence.
Qed.

Lemma edge_joins_sound (t : Tree) (e : ptr) (l r : option ptr) :
  edge_joins t e l r = true ->
  exists ed, edges t !! e = Some ed /\ e_left ed = l /\ e_right ed = r.
Proof.
  unfold edge_joins. destruct (edges t !! e) as [ed|]; [|discriminate].
  rewrite andb_true_iff, !ptr_eqb_eq. intros [H1 H2]. exists ed. auto.
Qed.

Lemma repb_sound (t : Tree) (s : shape) :
  forall prev, repb t prev s = true -> rep t prev s.
Proof.
  induction s as [n kids IH] using shape_ind'. intros prev H. cbn [repb] in H.
  destruct (nodes t !! n) as [nd|] eqn:Hnd; [|discriminate].
  rewrite !andb_true_iff in H. destruct H as ((((H1 & H2) & H3) & H4) & H5).
  apply Nat.eqb_eq in H1, H3. apply bool_decide_eq_true in H2.
  rewrite forallb_forall in H4, H5.
  apply (rep_intro t prev n kids nd); try assumption.
  - intros k c e Hc He Hprev.
    assert (Hin : In (k, c) (imap (fun i c => (i, c)) (n_neigh nd))).
    { apply list_elem_of_In, elem_of_lookup_imap. exists k, c. auto. }
    specialize (H4 (k, c) Hin). cbn [fst snd] in H4.
    rewrite (proj2 (ptr_eqb_eq (Some c) prev) Hprev), He in H4. cbn [implb] in H4.
    now apply edge_joins_sound.
  - apply Forall_forall. intros k Hk.
    specialize (H5 k (proj1 (list_elem_of_In _ _) Hk)).
    rewrite !andb_true_iff in H5. destruct H5 as ((Hb & Hj) & Hr).
    apply bool_decide_eq_true in Hb. split; [assumption|]. split.
    + now apply edge_joins_sound.
    + rewrite Forall_forall in IH. apply (IH k Hk). exact Hr.
Qed.

Lemma wfb_sound (t : Tree) (s : shape) : wfb t s = true -> wf t s.
Proof.
  unfold wfb. rewrite !andb_true_iff. intros (((H1 & H2) & H3) & H4).
  apply ptr_eqb_eq in H1. apply bool_decide_eq_true in H3, H4.
  split; try assumption. now apply repb_sound.
Qed.

Lemma indexedb_sound (t : Tree) (s : shape) (es : list ptr) :
  indexedb t s es = true -> indexed_by t s es.
Proof.
  unfold indexedb. rewrite andb_true_iff, !forallb_forall. intros [H1 H2]. split.
  - intros x Hx. specialize (H1 x (proj1 (list_elem_of_In _ _) Hx)).
    destruct (edges t !! x) as [ed|] eqn:Hed; [|discriminate].
    rewrite !andb_true_iff in H1. destruct H1 as ((Ha & Hb) & Hc).
    apply Z.eqb_eq in Ha. apply Nat.ltb_lt in Hb. apply bool_decide_eq_true in Hc.
    split; [|assumption]. exists ed. auto.
  - intros j x Hj. apply list_elem_of_lookup_2 in Hj.
    specialize (H2 x (proj1 (list_elem_of_In _ _) Hj)).
    now apply bool_decide_eq_true in H2.
Qed.

Lemma tips_countedb_sound (t : Tree) (s : shape) :
  tips_countedb t s = true -> tips_counted t s.
Proof.
  unfold tips_countedb. rewrite forallb_forall. intros H e' s' Hin.
  specialize (H (e', s') (proj1 (list_elem_of_In _ _) Hin)). cbn [fst snd] in H.
  destruct (edges t !! e') as [ed|]; [|discriminate].
  apply Z.eqb_eq in H. exists ed. auto.
Qed.

Lemma numberedb_sound (refTree bootTree : Tree) (sR sB : shape)
  (edges bootEdges : list ptr) :
  numberedb refTree bootTree sR sB edges bootEdges = true ->
  numbered refTree bootTree sR sB edges bootEdges.
Proof.
  unfold numberedb. rewrite !andb_true_iff. intros (((H1 & H2) & H3) & H4).
  split; auto using wfb_sound, indexedb_sound.
Qed.

Lemma comparableb_sound (refTree bootTree : Tree) (sR sB : shape)
  (edges bootEdges : list ptr) (ntips : N) :
  comparableb refTree bootTree sR sB edges bootEdges ntips = true ->
  comparable refTree bootTree sR sB edges bootEdges ntips.
Proof.
  unfold comparableb. rewrite !andb_true_iff.
  intros ((((((((H1 & H2) & H3) & H4) & H5) & H6) & H7) & H8) & H9).
  apply bool_decide_eq_true in H3, H4. rewrite forallb_forall in H5, H6.
  apply N.eqb_eq in H7. apply N.ltb_lt in H8. apply negb_true_iff, Nat.eqb_neq in H9.
  split; auto using numberedb_sound, tips_countedb_sound.
  - intros y. split; intros Hy.
    + specialize (H5 y (proj1 (list_elem_of_In _ _) Hy)).
      now apply bool_decide_eq_true in H5.
    + specialize (H6 y (proj1 (list_elem_of_In _ _) Hy)).
      now apply bool_decide_eq_true in H6.
  - intros Hk. apply H9. now rewrite Hk.
Qed.

(* --------------------------------------------------------------------- *)
(** *** The checks made after the second pass                             *)
(* --------------------------------------------------------------------- *)

Lemma check_min_dist_one (refTree : Tree) (m : Mats) (E1 : nat) (e : ptr) :
  length (min_dist m) = E1 -> id_ok refTree E1 e ->
  (exists nd, right_node refTree e = Ret nd) ->
  check_min_dist refTree m None e
  = Ret (if (right_tip refTree e && negb (N.eqb (md m (bid refTree e)) 0))%bool
         then Some (support_facts.no_exact_match (md m (bid refTree e)))
         else None).
Proof.
  intros Hlen (ed & Hed & Hid & Hlt) (nd & Hnd).
  assert (Hrt : right_tip refTree e = Node_Tip nd) by (unfold right_tip; now rewrite Hnd).
  rewrite Hrt. unfold right_node, edge_at in Hnd. rewrite Hed in Hnd.
  cbn [of_option obind] in Hnd.
  unfold check_min_dist, edge_at. rewrite Hed. cbn [of_option obind].
  rewrite Hid, md_lookup by lia. cbn [obind].
  replace (N.ltb (md m (bid refTree e)) 0) with false by (symmetry; apply N.ltb_ge; lia).
  rewrite Hnd. cbn [obind].
  destruct (Node_Tip nd && negb (N.eqb (md m (bid refTree e)) 0))%bool; reflexivity.
Qed.

(** The checks return; they give an error exactly when a terminal
    reference edge is left with a minimum distance that is not 0. *)
Lemma check_fold (refTree : Tree) (m : Mats) (E1 : nat) (edges : list ptr) :
  length (min_dist m) = E1 ->
  (forall e, e ∈ edges -> id_ok refTree E1 e /\ exists nd, right_node refTree e = Ret nd) ->
  exists res, ofold (check_min_dist refTree m) edges None = Ret res /\
    ((res = None /\
      forall e, e ∈ edges -> right_tip refTree e = true -> md m (bid refTree e) = 0%N) \/
     (exists e, e ∈ edges /\ right_tip refTree e = true /\ md m (bid refTree e) <> 0%N /\
                res = Some (support_facts.no_exact_match (md m (bid refTree e))))).
Proof.
  intros Hlen. induction edges as [|x l IH]; intros Hall.
  - exists None. split; [reflexivity|]. left. split; [reflexivity|].
    intros e He. inversion He.
  - destruct (Hall x ltac:(apply elem_of_cons; now left)) as [Hid Hr].
    cbn [ofold]. rewrite (check_min_dist_one refTree m E1 x Hlen Hid Hr). cbn [obind].
    destruct (right_tip refTree x && negb (N.eqb (md m (bid refTree x)) 0))%bool eqn:Hc.
    + apply andb_true_iff in Hc as [Ht Hd]. apply negb_true_iff, N.eqb_neq in Hd.
      exists (Some (support_facts.no_exact_match (md m (bid refTree x)))). split.
      * clear. induction l as [|y l IHl]; [reflexivity|]. cbn [ofold check_min_dist obind].
        exact IHl.
      * right. exists x. split; [apply elem_of_cons; now left|]. auto.
    + destruct IH as (res & Hrun & Hres).
      { intros e He. apply Hall, elem_of_cons. now right. }
      exists res. split; [exact Hrun|]. destruct Hres as [[-> Hz]|(e & He & Hrest)].
      * left. split; [reflexivity|]. intros e He Ht.
        apply elem_of_cons in He as [->|He]; [|now apply Hz].
        rewrite Ht in Hc. cbn [andb] in Hc. now apply negb_false_iff, N.eqb_eq in Hc.
      * right. exists e. split; [apply elem_of_cons; now right|exact Hrest].
Qed.

(* --------------------------------------------------------------------- *)
(** *** The two passes on numbered trees                                  *)
(* --------------------------------------------------------------------- *)

Lemma indexed_nodup (t : Tree) (s : shape) (es : list ptr) :
  wf t s -> indexed_by t s es -> NoDup (map (bid t) (shape_edges s)).
Proof.
  intros Hwf Hix. apply (NoDup_fmap_2_strong (bid t)); [|apply Hwf].
  intros x y Hx Hy Heq.
  destruct (ib_ids _ _ _ Hix x Hx) as [_ H1]. destruct (ib_ids _ _ _ Hix y Hy) as [_ H2].
  rewrite Heq in H1. congruence.
Qed.

Lemma edge_has_sub (s : shape) (x : ptr) :
  x ∈ shape_edges s -> exists sx, (x, sx) ∈ shape_subs s.
Proof.
  rewrite <- subs_edges. intros Hx. apply list_elem_of_fmap in Hx as ([x' sx] & -> & Hin).
  now exists sx.
Qed.

Lemma indexed_real (t : Tree) (s : shape) (es : list ptr) :
  wf t s -> indexed_by t s es -> forall j x, es !! j = Some x ->
  id_ok t (length es) x /\ exists sx, (x, sx) ∈ shape_subs s /\ below t x sx.
Proof.
  intros Hwf Hix j x Hj. pose proof (ib_all _ _ _ Hix j x Hj) as Hx.
  split; [apply (ib_ids _ _ _ Hix x Hx)|].
  destruct (edge_has_sub s x Hx) as (sx & Hsx). exists sx. split; [assumption|].
  eapply subs_below; [apply Hwf|exact Hsx].
Qed.

Section Numbered.

Variables (refTree bootTree : Tree) (sR sB : shape) (edges bootEdges : list ptr).
Hypothesis Hnum : numbered refTree bootTree sR sB edges bootEdges.

Local Abbreviation E1 := (length edges).
Local Abbreviation E2 := (length bootEdges).

Lemma edges_real (i : nat) (e : ptr) :
  edges !! i = Some e -> is_Some (tree.edges refTree !! e).
Proof.
  intros Hi.
  destruct (indexed_real refTree sR edges (nb_ref _ _ _ _ _ _ Hnum)
              (nb_edges _ _ _ _ _ _ Hnum) i e Hi) as [(ed & Hed & _) _].
  now exists ed.
Qed.

Lemma boot_cols (j : nat) (be : ptr) :
  bootEdges !! j = Some be -> exists nd, right_node bootTree be = Ret nd.
Proof.
  intros Hj.
  destruct (indexed_real bootTree sB bootEdges (nb_boot _ _ _ _ _ _ Hnum)
              (nb_bootEdges _ _ _ _ _ _ Hnum) j be Hj) as [_ (sx & _ & Hb)].
  destruct sx as [n kids].
  destruct (below_right_node bootTree be n kids Hb) as (nd & Hr & _). now exists nd.
Qed.

(** The first pass returns. *)
Lemma ref_pass_returns (fuel : nat) (m : Mats) :
  depth sR <= S fuel -> dims E1 E2 m ->
  exists m1,
    Update_all_i_c_post_order_ref_tree fuel refTree bootTree bootEdges m = Ret m1 /\
    ref_root_inv refTree bootTree bootEdges E1 E2 (shape_kids sR) m m1.
Proof.
  intros Hfuel Hdims.
  pose proof (nb_ref _ _ _ _ _ _ Hnum) as Hwf.
  pose proof (nb_edges _ _ _ _ _ _ Hnum) as Hix.
  apply (ref_all_ok refTree bootTree bootEdges E1 E2 eq_refl boot_cols sR fuel m);
    try assumption.
  - apply Hwf.
  - apply Hwf.
  - intros x Hx. apply (ib_ids _ _ _ Hix x Hx).
  - now apply (indexed_nodup refTree sR edges).
Qed.

(** The second pass returns, with an error exactly when a terminal
    reference edge is left with a minimum distance that is not 0. *)
Lemma boot_pass_returns (ntips : N) (fuel : nat) (m : Mats) :
  depth sB <= S fuel -> dims E1 E2 m ->
  exists res m2,
    Update_all_i_c_post_order_boot_tree fuel refTree ntips edges bootTree m
      = Ret (res, m2) /\
    root_inv refTree bootTree edges ntips E1 E2 (shape_kids sB) m m2 /\
    ((res = None /\
      forall e, e ∈ edges -> right_tip refTree e = true -> md m2 (bid refTree e) = 0%N) \/
     (exists e, e ∈ edges /\ right_tip refTree e = true /\ md m2 (bid refTree e) <> 0%N /\
                res = Some (support_facts.no_exact_match (md m2 (bid refTree e))))).
Proof.
  intros Hfuel Hdims.
  pose proof (nb_boot _ _ _ _ _ _ Hnum) as Hwf.
  pose proof (nb_bootEdges _ _ _ _ _ _ Hnum) as Hix.
  assert (HsB : sB = Sh (shape_root sB) (shape_kids sB)) by (destruct sB; reflexivity).
  pose proof (wf_rep _ _ Hwf) as Hrep. pose proof (wf_edges _ _ Hwf) as Hnde.
  pose proof (ib_ids _ _ _ Hix) as Hids.
  pose proof (indexed_nodup bootTree sB bootEdges Hwf Hix) as Hndi.
  rewrite HsB in Hrep, Hfuel, Hids, Hndi.
  inversion Hrep as [? ? ? nd Hnode Hbr Hpos Hlen Hpar Hkids]; subst.
  unfold Update_all_i_c_post_order_boot_tree, Root.
  rewrite (wf_root _ _ Hwf). cbn [of_option obind].
  unfold node_at. rewrite Hnode. cbn [of_option obind].
  rewrite (loop_over_root_kids _ bootTree (shape_root sB) (shape_kids sB) nd _ Hrep Hnode).
  destruct (boot_root_ok refTree bootTree edges ntips E1 E2 eq_refl edges_real
              (shape_root sB) (shape_kids sB) fuel m Hrep)
    with (todo := shape_kids sB) (done := @nil (nat * ptr * shape)) (mk := m) as (m2 & Hrun & Hinv); try assumption; try reflexivity.
  { intros x Hx. apply (Hids x Hx). }
  { split; [assumption|auto| |reflexivity].
    intros kd e' s' Hin. inversion Hin. }
  rewrite Hrun. cbn [obind].
  destruct (check_fold refTree m2 E1 edges) as (res & Hres & Hspec).
  { apply (ri_dims _ _ _ _ _ _ _ _ _ Hinv). }
  { intros e He. apply list_elem_of_lookup in He as [i Hi].
    destruct (indexed_real refTree sR edges (nb_ref _ _ _ _ _ _ Hnum)
                (nb_edges _ _ _ _ _ _ Hnum) i e Hi) as [Hid (sx & _ & Hb)].
    split; [assumption|]. destruct sx as [n ks].
    destruct (below_right_node refTree e n ks Hb) as (nd' & Hr & _). now exists nd'. }
  rewrite Hres. cbn [obind]. exists res, m2. auto.
Qed.

End Numbered.

(* --------------------------------------------------------------------- *)
(** *** The two passes on comparable trees                                *)
(* --------------------------------------------------------------------- *)

Lemma names_split_root (t : Tree) (s : shape) (e' : ptr) (s' : shape) :
  (e', s') ∈ shape_subs s -> exists l1 l2, tip_names t s = l1 ++ tip_names t s' ++ l2.
Proof.
  intros Hin. apply (names_split t s 0 e' s'). apply elem_of_cons. now right.
Qed.


Lemma subs_trans_root (s : shape) (e' : ptr) (s' : shape) (x : ptr * shape) :
  (e', s') ∈ shape_subs s -> x ∈ shape_subs s' -> x ∈ shape_subs s.
Proof.
  destruct s as [n kids]. intros Hin Hx.
  apply elem_of_subs_kids in Hin as (kd & Hkd & Hin).
  apply elem_of_subs_kids. exists kd. split; [assumption|].
  eapply subs_trans; [exact Hin|]. apply elem_of_cons. now right.
Qed.

Lemma sub_edges_root (s : shape) (e' : ptr) (s' : shape) (x : ptr) :
  (e', s') ∈ shape_subs s -> x ∈ e' :: shape_edges s' -> x ∈ shape_edges s.
Proof.
  intros Hin Hx. apply elem_of_cons in Hx as [->|Hx].
  - eapply subs_in_edges; [exact 0|exact Hin].
  - destruct (edge_has_sub s' x Hx) as (sx & Hsx).
    eapply subs_in_edges; [exact 0|]. eapply subs_trans_root; eassumption.
Qed.

Lemma segment_nodup {A} (l1 x l2 : list A) : NoDup (l1 ++ x ++ l2) -> NoDup x.
Proof.
  intros H. apply NoDup_app in H as (_ & _ & H). now apply NoDup_app in H as (H & _ & _).
Qed.

Lemma segment_in {A} (l1 x l2 : list A) (y : A) : y ∈ x -> y ∈ l1 ++ x ++ l2.
Proof. intros H. apply elem_of_app. right. apply elem_of_app. now left. Qed.

Lemma edge_visited (s : shape) (b : ptr) :
  b ∈ shape_edges s ->
  b ∈ flat_map (fun k => visit (snd (fst k)) (snd k)) (shape_kids s).
Proof.
  destruct s as [n kids]. cbn [shape_edges shape_kids]. intros Hb.
  apply elem_of_flat_map in Hb as (kd & Hkd & Hb).
  apply elem_of_flat_map. exists kd. split; [assumption|]. now apply visit_all.
Qed.

Lemma visited_edge (s : shape) (b : ptr) :
  b ∈ flat_map (fun k => visit (snd (fst k)) (snd k)) (shape_kids s) ->
  b ∈ shape_edges s.
Proof.
  destruct s as [n kids]. cbn [shape_edges shape_kids]. intros Hb.
  apply elem_of_flat_map in Hb as (kd & Hkd & Hb).
  apply elem_of_flat_map. exists kd. split; [assumption|]. now apply visit_edges.
Qed.

Lemma u16_nat (k : nat) : (Z.of_nat k < 65536)%Z -> u16 (Z.of_nat k) = N.of_nat k.
Proof. intros H. apply N2Z.inj. rewrite u16_small by lia. lia. Qed.

Section Comparable.

Variables (refTree bootTree : Tree) (sR sB : shape) (edges bootEdges : list ptr).
Variable ntips : N.
Hypothesis Hcmp : comparable refTree bootTree sR sB edges bootEdges ntips.

Local Abbreviation E1 := (length edges).
Local Abbreviation E2 := (length bootEdges).
Local Abbreviation rid := (bid refTree).
Local Abbreviation bbid := (bid bootTree).
Local Abbreviation rnames := (tip_names refTree).
Local Abbreviation bnames := (tip_names bootTree).

Lemma ref_edge_facts (e : ptr) (sRe : shape) :
  (e, sRe) ∈ shape_subs sR ->
  rid e < E1 /\ edges !! rid e = Some e /\
  tipsRight refTree e = Z.of_nat (length (rnames sRe)) /\
  numtips refTree edges (rid e) = u16 (Z.of_nat (length (rnames sRe))) /\
  NoDup (rnames sRe) /\ (forall y, y ∈ rnames sRe -> y ∈ rnames sR).
Proof.
  intros Hin. pose proof (cmp_numbered _ _ _ _ _ _ _ Hcmp) as Hnum.
  pose proof (nb_edges _ _ _ _ _ _ Hnum) as Hix.
  assert (He : e ∈ shape_edges sR) by (eapply subs_in_edges; [exact 0|exact Hin]).
  destruct (ib_ids _ _ _ Hix e He) as [(ed0 & Hed0 & _ & Hlt) Hpos].
  destruct (cmp_bits _ _ _ _ _ _ _ Hcmp e sRe Hin) as (ed & Hed & Hcount).
  destruct (names_split_root refTree sR e sRe Hin) as (l1 & l2 & Hseg).
  split; [assumption|]. split; [assumption|]. split; [|split; [|split]].
  - unfold tipsRight. now rewrite Hed.
  - unfold numtips. now rewrite Hpos, Hed, Hcount.
  - pose proof (cmp_ref_names _ _ _ _ _ _ _ Hcmp) as Hnd. rewrite Hseg in Hnd.
    now apply segment_nodup in Hnd.
  - intros y Hy. rewrite Hseg. now apply segment_in.
Qed.

Lemma boot_edge_facts (b : ptr) (sBb : shape) :
  (b, sBb) ∈ shape_subs sB ->
  below bootTree b sBb /\
  (forall x, x ∈ b :: shape_edges sBb -> bootEdges !! bbid x = Some x) /\
  NoDup (bnames sBb) /\ (forall y, y ∈ bnames sBb -> y ∈ rnames sR) /\
  exists kd, kd ∈ shape_kids sB /\ (b, sBb) ∈ subs_of (kid_edge kd) (kid_sub kd).
Proof.
  intros Hin. pose proof (cmp_numbered _ _ _ _ _ _ _ Hcmp) as Hnum.
  pose proof (nb_bootEdges _ _ _ _ _ _ Hnum) as Hix.
  pose proof (nb_boot _ _ _ _ _ _ Hnum) as Hwf.
  destruct (names_split_root bootTree sB b sBb Hin) as (l1 & l2 & Hseg).
  split; [|split; [|split; [|split]]].
  - eapply subs_below; [apply Hwf|exact Hin].
  - intros x Hx. apply (ib_ids _ _ _ Hix x). eapply sub_edges_root; eassumption.
  - pose proof (cmp_boot_names _ _ _ _ _ _ _ Hcmp) as Hnd. rewrite Hseg in Hnd.
    now apply segment_nodup in Hnd.
  - intros y Hy. apply (cmp_same _ _ _ _ _ _ _ Hcmp). rewrite Hseg. now apply segment_in.
  - destruct sB as [r kids]. now apply elem_of_subs_kids in Hin.
Qed.

(** The two passes on comparable trees return, and leave in the cells of a
    reference edge and a bootstrap edge the numbers of tips below the
    bootstrap edge that are, and are not, below the reference edge. *)
Lemma two_passes (fuel fuel' : nat) (m : Mats) :
  depth sR <= S fuel -> depth sB <= S fuel' -> dims E1 E2 m ->
  exists m1 res m2,
    Update_all_i_c_post_order_ref_tree fuel refTree bootTree bootEdges m = Ret m1 /\
    Update_all_i_c_post_order_boot_tree fuel' refTree ntips edges bootTree m1
      = Ret (res, m2) /\
    ((res = None /\
      forall e, e ∈ edges -> right_tip refTree e = true -> md m2 (rid e) = 0%N) \/
     (exists e, e ∈ edges /\ right_tip refTree e = true /\ md m2 (rid e) <> 0%N /\
                res = Some (support_facts.no_exact_match (md m2 (rid e))))) /\
    (forall i, i < E1 ->
       (md m2 i, mde m2 i)
       = best (map (fun x => (cell (hamming m2) i (bbid x), Z.of_nat (bbid x)))
                 (flat_map (fun k => visit (snd (fst k)) (snd k)) (shape_kids sB)))
           (md m i, mde m i)) /\
    forall e sRe b sBb, (e, sRe) ∈ shape_subs sR -> (b, sBb) ∈ shape_subs sB ->
      let r := length (rnames sRe) in
      let cin := length (inside (rnames sRe) (bnames sBb)) in
      let cout := length (outside (rnames sRe) (bnames sBb)) in
      cell (i_matrix m2) (rid e) (bbid b) = N.of_nat cin /\
      cell (c_matrix m2) (rid e) (bbid b) = N.of_nat cout /\
      cin <= r /\ (Z.of_nat r + Z.of_nat cout <= Z.of_N ntips)%Z /\
      let H := (Z.of_nat r + Z.of_nat cout - Z.of_nat cin)%Z in
      Z.of_N (cell (hamming m2) (rid e) (bbid b)) = Z.min H (Z.of_N ntips - H).
Proof.
  intros Hfuel Hfuel' Hdims. pose proof (cmp_numbered _ _ _ _ _ _ _ Hcmp) as Hnum.
  destruct (ref_pass_returns refTree bootTree sR sB edges bootEdges Hnum fuel m Hfuel Hdims)
    as (m1 & Href & Hinv1).
  destruct (boot_pass_returns refTree bootTree sR sB edges bootEdges Hnum ntips fuel' m1
              Hfuel' (rr_dims _ _ _ _ _ _ _ _ Hinv1)) as (res & m2 & Hboot & Hinv2 & Hres).
  exists m1, res, m2. split; [exact Href|]. split; [exact Hboot|]. split; [exact Hres|].
  split.
  - intros i Hi. rewrite (ri_min _ _ _ _ _ _ _ _ _ Hinv2 i Hi). unfold md, mde.
    now rewrite (rr_md _ _ _ _ _ _ _ _ Hinv1), (rr_mde _ _ _ _ _ _ _ _ Hinv1).
  - intros e sRe b sBb He Hb r cin cout.
    destruct (ref_edge_facts e sRe He) as (Hi & Hpos & Htr & Hnt & HndR & HsubR).
    destruct (boot_edge_facts b sBb Hb) as (Hbel & Hbpos & HndB & HsubB & kd & Hkd & Hbin).
    assert (HkdR : exists kr, kr ∈ shape_kids sR /\ (e, sRe) ∈ subs_of (kid_edge kr) (kid_sub kr)).
    { clear -He. destruct sR as [rr kids]. now apply elem_of_subs_kids in He. }
    destruct HkdR as (kr & Hkr & Hein).
    destruct (ri_cols _ _ _ _ _ _ _ _ _ Hinv2 kd b sBb Hkd Hbin (rid e) Hi) as (HI & HC & HH).
    pose proof (inside_le (rnames sRe) (bnames sBb) HndB) as Hle1.
    pose proof (outside_le (rnames sRe) (bnames sBb) (rnames sR) HndR HndB HsubR HsubB) as Hle2.
    fold r cin in Hle1. fold r cout in Hle2.
    pose proof (cmp_ntips _ _ _ _ _ _ _ Hcmp) as Hn.
    pose proof (cmp_small _ _ _ _ _ _ _ Hcmp) as Hsmall.
    assert (HIc : cell (i_matrix m2) (rid e) (bbid b) = N.of_nat cin).
    { rewrite HI.
      rewrite (col_sum_count bootTree bootEdges _ (fun y => has_name y (rnames sRe)));
        try assumption.
      - apply u16_nat. fold (inside (rnames sRe) (bnames sBb)). fold cin. lia.
      - intros j y Hy.
        apply (rr_rows _ _ _ _ _ _ _ _ Hinv1 kr e sRe Hkr Hein j y Hy). }
    assert (HCc : cell (c_matrix m2) (rid e) (bbid b) = N.of_nat cout).
    { rewrite HC.
      rewrite (col_sum_count bootTree bootEdges _ (fun y => negb (has_name y (rnames sRe))));
        try assumption.
      - apply u16_nat. fold (outside (rnames sRe) (bnames sBb)). fold cout. lia.
      - intros j y Hy.
        apply (rr_rows _ _ _ _ _ _ _ _ Hinv1 kr e sRe Hkr Hein j y Hy). }
    split; [exact HIc|]. split; [exact HCc|]. split; [exact Hle1|]. split; [lia|].
    intros H. rewrite HH, Hnt, HIc, HCc, Hn.
    rewrite <- (u16_nat cin), <- (u16_nat cout) by lia.
    rewrite nat_N_Z.
    apply (ham16_exact (length (rnames sR)) r cin cout); lia.
Qed.

End Comparable.

Lemma min_over_visited (m2 : Mats) (i : nat) (bootTree : Tree) (visited : list ptr)
  (start : N * Z) :
  (md m2 i, mde m2 i)
  = best (map (fun x => (cell (hamming m2) i (bid bootTree x), Z.of_nat (bid bootTree x)))
            visited) start ->
  (forall b, b ∈ visited -> (md m2 i <= cell (hamming m2) i (bid bootTree b))%N) /\
  ((md m2 i, mde m2 i) = start \/
   exists b, b ∈ visited /\ mde m2 i = Z.of_nat (bid bootTree b) /\
             md m2 i = cell (hamming m2) i (bid bootTree b)).
Proof.
  intros Heq.
  destruct (best_spec
    (map (fun x => (cell (hamming m2) i (bid bootTree x), Z.of_nat (bid bootTree x))) visited)
    start) as (H1 & _ & H3).
  rewrite <- Heq in H1, H3. cbn [fst] in H1. split.
  - intros b Hb.
    apply (H1 (cell (hamming m2) i (bid bootTree b), Z.of_nat (bid bootTree b))).
    apply list_elem_of_fmap. exists b. split; [reflexivity|assumption].
  - destruct H3 as [H3|H3]; [now left|right].
    apply list_elem_of_fmap in H3 as (b & Hb & Hin). exists b.
    inversion Hb. auto.
Qed.

Lemma in_list_edge (t : Tree) (s : shape) (es : list ptr) (x : ptr) :
  indexed_by t s es -> (x ∈ es <-> x ∈ shape_edges s).
Proof.
  intros Hix. split; intros Hx.
  - apply list_elem_of_lookup in Hx as [j Hj]. apply (ib_all _ _ _ Hix j x Hj).
  - destruct (ib_ids _ _ _ Hix x Hx) as [_ Hpos]. eapply list_elem_of_lookup_2, Hpos.
Qed.

End booster_facts.

(* --------------------------------------------------------------------- *)
(** ** The transfer distances of a bootstrap tree                         *)
(* --------------------------------------------------------------------- *)

Module transfer_facts.
Import tree support shapes loops booster booster_facts.

(** C4. On a reference tree and a bootstrap tree that can be compared, the
    two passes return, and for every reference edge [e] and every bootstrap
    edge [b] the entry of [hamming] is [min(H, ntips - H)], where
    [H = tipsRight(e) + C[e][b] - I[e][b]] is computed on the integers;
    [min_dist] of [e] is the least of these entries over the bootstrap
    edges, and [min_dist_edge] of [e] is the id of a bootstrap edge that
    reaches it.  The minimum distances start at [uint16(ntips)], as
    [ComputeValue] sets them. *)
Theorem transfer_distance_min (refTree bootTree : Tree) (sR sB : shape)
  (edges bootEdges : list ptr) (ntips : N) (fuel fuel' : nat) (m : Mats) :
  comparable refTree bootTree sR sB edges bootEdges ntips ->
  depth sR <= S fuel -> depth sB <= S fuel' ->
  dims (length edges) (length bootEdges) m ->
  min_dist m = replicate (length edges) (u16 (Z.of_N ntips)) ->
  exists m1 res m2,
    Update_all_i_c_post_order_ref_tree fuel refTree bootTree bootEdges m = Ret m1 /\
    Update_all_i_c_post_order_boot_tree fuel' refTree ntips edges bootTree m1
      = Ret (res, m2) /\
    forall e b, e ∈ edges -> b ∈ bootEdges ->
      let i := bid refTree e in
      let j := bid bootTree b in
      let H := (tipsRight refTree e + Z.of_N (cell (c_matrix m2) i j)
                - Z.of_N (cell (i_matrix m2) i j))%Z in
      Z.of_N (cell (hamming m2) i j) = Z.min H (Z.of_N ntips - H) /\
      (md m2 i <= cell (hamming m2) i j)%N /\
      exists b', b' ∈ bootEdges /\ mde m2 i = Z.of_nat (bid bootTree b') /\
                 md m2 i = cell (hamming m2) i (bid bootTree b').
Proof.
  intros Hcmp Hfuel Hfuel' Hdims Hinit.
  pose proof (cmp_numbered _ _ _ _ _ _ _ Hcmp) as Hnum.
  pose proof (nb_edges _ _ _ _ _ _ Hnum) as HixR.
  pose proof (nb_bootEdges _ _ _ _ _ _ Hnum) as HixB.
  destruct (two_passes refTree bootTree sR sB edges bootEdges ntips Hcmp fuel fuel' m
              Hfuel Hfuel' Hdims) as (m1 & res & m2 & Href & Hboot & _ & Hmin & Hcells).
  exists m1, res, m2. split; [exact Href|]. split; [exact Hboot|].
  intros e b He Hb. cbv zeta.
  apply (in_list_edge refTree sR edges e HixR) in He.
  apply (in_list_edge bootTree sB bootEdges b HixB) in Hb.
  destruct (edge_has_sub sR e He) as (sRe & HsRe).
  destruct (edge_has_sub sB b Hb) as (sBb & HsBb).
  destruct (Hcells e sRe b sBb HsRe HsBb) as (HI & HC & Hle1 & Hle2 & HH).
  destruct (ref_edge_facts refTree bootTree sR sB edges bootEdges ntips Hcmp e sRe HsRe)
    as (Hi & _ & Htr & _).
  rewrite Htr, HI, HC, !nat_N_Z. cbv zeta in HH.
  split; [exact HH|].
  destruct (min_over_visited m2 (bid refTree e) bootTree _ _ (Hmin _ Hi)) as [Hall Harg].
  assert (Hle : (md m2 (bid refTree e)
                 <= cell (hamming m2) (bid refTree e) (bid bootTree b))%N)
    by (apply Hall, edge_visited, Hb).
  split; [exact Hle|].
  destruct Harg as [Hstart|(b' & Hb' & Hmde & Hmd)].
  - (* the minimum cannot be the initial value *)
    exfalso. injection Hstart as Hmd0 _. unfold md at 2 in Hmd0.
    rewrite Hinit, lookup_replicate_2 in Hmd0 by exact Hi. cbn [default id] in Hmd0.
    pose proof (cmp_small _ _ _ _ _ _ _ Hcmp) as Hsmall.
    assert (Hn16 : Z.of_N (u16 (Z.of_N ntips)) = Z.of_N ntips) by (apply u16_small; lia).
    assert (Hpos : 0 < length (tip_names refTree sRe)).
    { pose proof (tip_names_nonempty refTree sRe).
      destruct (tip_names refTree sRe); [contradiction|simpl; lia]. }
    lia.
  - exists b'. split; [|auto].
    apply (in_list_edge bootTree sB bootEdges b' HixB). now apply visited_edge.
Qed.





(** The matrices of a worker before the two passes, for [E1] reference
    edges, [E2] bootstrap edges and [ntips] tips. *)
Definition fresh_mats (E1 E2 : nat) (ntips : N) : Mats :=
  mkMats (support_facts.zeros E1 E2) (support_facts.zeros E1 E2)
    (support_facts.zeros E1 E2)
    (replicate E1 (u16 (Z.of_N ntips))) (replicate E1 (-1)%Z).

Lemma wide_zeros (r c : nat) : wide r c (support_facts.zeros r c).
Proof.
  unfold wide, support_facts.zeros. split; [apply length_replicate|].
  apply Forall_replicate. now rewrite length_replicate.
Qed.

Lemma dims_fresh (E1 E2 : nat) (ntips : N) : dims E1 E2 (fresh_mats E1 E2 ntips).
Proof.
  split; cbn [fresh_mats i_matrix c_matrix hamming min_dist min_dist_edge];
    try apply wide_zeros; apply length_replicate.
Qed.

(** [((A,B),(C,D));] as the reference tree and [((A,C),(B,D));] as a
    bootstrap tree, both numbered. *)
Definition boot_ac : Tree := examples.indexed examples.quartet_ac.
Definition ref_shape : shape := shape_at_root support_facts.reference.
Definition boot_shape : shape := shape_at_root boot_ac.
Definition ref_edges : list ptr := examples.edges_of support_facts.reference.
Definition boot_edges : list ptr := examples.edges_of boot_ac.

Lemma transfer_distance_min_witness :
  comparable support_facts.reference boot_ac ref_shape boot_shape ref_edges boot_edges 4 /\
  exists m1 res m2,
    Update_all_i_c_post_order_ref_tree 8 support_facts.reference boot_ac boot_edges
      (fresh_mats 6 6 4) = Ret m1 /\
    Update_all_i_c_post_order_boot_tree 8 support_facts.reference 4 ref_edges boot_ac m1
      = Ret (res, m2) /\
    forall e b, e ∈ ref_edges -> b ∈ boot_edges ->
      let i := bid support_facts.reference e in
      let j := bid boot_ac b in
      let H := (tipsRight support_facts.reference e + Z.of_N (cell (c_matrix m2) i j)
                - Z.of_N (cell (i_matrix m2) i j))%Z in
      Z.of_N (cell (hamming m2) i j) = Z.min H (Z.of_N 4 - H) /\
      (md m2 i <= cell (hamming m2) i j)%N /\
      exists b', b' ∈ boot_edges /\ mde m2 i = Z.of_nat (bid boot_ac b') /\
                 md m2 i = cell (hamming m2) i (bid boot_ac b').
Proof.
  assert (Hc : comparable support_facts.reference boot_ac ref_shape boot_shape
                 ref_edges boot_edges 4)
    by (apply comparableb_sound; vm_compute; reflexivity).
  split; [exact Hc|].
  apply (transfer_distance_min support_facts.reference boot_ac ref_shape boot_shape
           ref_edges boot_edges 4 8 8 (fresh_mats 6 6 4) Hc).
  - vm_compute. lia.
  - vm_compute. lia.
  - exact (dims_fresh 6 6 4).
  - reflexivity.
Defined.


End transfer_facts.

(* --------------------------------------------------------------------- *)
(** ** The bitsets of the edges                                           *)
(* --------------------------------------------------------------------- *)

Module bits.
Import tree shapes booster.

(** [UpdateBitSet] only writes the bitsets of the edges: a run is followed
    on a fixed tree [t0] together with the bitset of each of its edges. *)
Definition bitmap : Type := ptr -> option (list bool).

Definition with_bits (t0 : Tree) (bs : bitmap) : Tree :=
  set_edges t0 (imap (fun e ed => with_bitset ed (bs e)) (edges t0)).

Definition bits_of (t : Tree) : bitmap :=
  fun e => match edges t !! e with Some ed => e_bitset ed | None => None end.

Definition upd (bs : bitmap) (e : ptr) (v : option (list bool)) : bitmap :=
  fun x => if decide (x = e) then v else bs x.

(** The ordinal of a tip name, and the ordinals of the tips of a subtree. *)
Definition ord (t : Tree) (y : string) : nat := default 0 (tipIndex t !! y).
Definition ords (t : Tree) (s : shape) : list nat := map (ord t) (tip_names t s).

(** The bitset [b] with the bits of the list set. *)
Definition mark (l : list nat) (b : list bool) : list bool :=
  fold_left (fun b i => bitset_Set i b) l b.

(** The edge [e] has a bitset of [n] bits. *)
Definition alloc (n : nat) (bs : bitmap) (e : ptr) : Prop :=
  exists b, bs e = Some b /\ length b = n.

(** The subtree [s] hangs below the node [p]. *)
Definition hangs (t : Tree) (p : ptr) (s : shape) : Prop :=
  rep t (Some p) s /\ (p ∉ shape_nodes s) /\ NoDup (shape_nodes s).

(** The names of the tips below the edges of the root. *)
Definition leaf_names (t : Tree) (s : shape) : list string :=
  flat_map (fun k => tip_names t (snd k)) (shape_kids s).

(** The tip index numbers the tips of the tree from 0 to [n - 1]: the
    names are distinct, and the index is a bijection from the names to the
    ordinals below [n]. *)
Record tip_index_ok (t : Tree) (s : shape) (n : nat) : Prop := {
  ti_names : NoDup (leaf_names t s);
  ti_index : forall y, y ∈ leaf_names t s -> exists i, tipIndex t !! y = Some i /\ i < n;
  ti_inj : forall y1 y2, y1 ∈ leaf_names t s -> y2 ∈ leaf_names t s ->
    tipIndex t !! y1 = tipIndex t !! y2 -> y1 = y2;
  ti_surj : forall i, i < n -> exists y, y ∈ leaf_names t s /\ tipIndex t !! y = Some i
}.

(** The bitsets of all the edges of the tree are allocated with [n] bits. *)
Definition bitsets_allocated (t : Tree) (s : shape) (n : nat) : Prop :=
  forall e, e ∈ shape_edges s -> alloc n (bits_of t) e.

(** The bit [i] of the bitset of the edge [e]. *)
Definition bit (t : Tree) (e : ptr) (i : nat) : bool :=
  match bits_of t e with Some b => bitset_Test i b | None => false end.



End bits.

Module bits_facts.
Import tree shapes loops booster booster_facts bits.

Lemma with_bits_edge (t0 : Tree) (bs : bitmap) (e : ptr) :
  edges (with_bits t0 bs) !! e = (fun ed => with_bitset ed (bs e)) <$> (edges t0 !! e).
Proof. unfold with_bits. cbn [set_edges edges]. apply list_lookup_imap. Qed.

Lemma with_bits_self (t : Tree) : with_bits t (bits_of t) = t.
Proof.
  destruct t as [ns es r ti]. unfold with_bits, set_edges. cbn [nodes edges root tipIndex].
  f_equal. apply list_eq. intros i. rewrite list_lookup_imap. unfold bits_of.
  cbn [edges]. unfold ptr in *. destruct (es !! i) as [ed|] eqn:H; [|reflexivity].
  cbn [fmap option_fmap option_map]. f_equal. now destruct ed.
Qed.

Lemma with_bits_ext (t0 : Tree) (bs bs' : bitmap) :
  (forall e, e < length (edges t0) -> bs e = bs' e) -> with_bits t0 bs = with_bits t0 bs'.
Proof.
  intros Hext. unfold with_bits. f_equal. apply list_eq. intros i.
  rewrite !list_lookup_imap. destruct (edges t0 !! i) as [ed|] eqn:H; [|reflexivity].
  cbn [fmap option_fmap option_map]. rewrite (Hext i); [reflexivity|].
  eapply lookup_lt_Some; eassumption.
Qed.

Lemma bits_of_with_bits (t0 : Tree) (bs : bitmap) (e : ptr) :
  is_Some (edges t0 !! e) -> bits_of (with_bits t0 bs) e = bs e.
Proof.
  intros [ed Hed]. unfold bits_of. now rewrite with_bits_edge, Hed.
Qed.

Lemma get_edge_bits (t0 : Tree) (bs : bitmap) (e : ptr) (ed0 : Edge) :
  edges t0 !! e = Some ed0 ->
  get_edge e (with_bits t0 bs) = Ret (with_bitset ed0 (bs e), with_bits t0 bs).
Proof.
  intros H. unfold get_edge, mread, edge_at. now rewrite with_bits_edge, H.
Qed.

Lemma put_bits (t0 : Tree) (bs : bitmap) (e : ptr) (ed0 : Edge) (v : option (list bool)) :
  edges t0 !! e = Some ed0 ->
  put_edge (with_bits t0 bs) e (with_bitset (with_bitset ed0 (bs e)) v)
  = with_bits t0 (upd bs e v).
Proof.
  intros H. unfold put_edge, with_bits, set_edges. cbn [nodes edges root tipIndex].
  unfold ptr in *. f_equal. apply list_eq. intros i. destruct (decide (i = e)) as [->|Hne].
  - rewrite list_lookup_insert_eq
      by (rewrite length_imap; eapply lookup_lt_Some; eassumption).
    rewrite list_lookup_imap, H. unfold upd. now rewrite decide_True by reflexivity.
  - rewrite list_lookup_insert_ne by auto. rewrite !list_lookup_imap. unfold upd.
    destruct (edges t0 !! i); [|reflexivity]. cbn [fmap option_fmap option_map].
    now rewrite decide_False by auto.
Qed.

Lemma upd_edge_bits (t0 : Tree) (bs : bitmap) (e : ptr) (ed0 : Edge)
  (v : option (list bool)) :
  edges t0 !! e = Some ed0 ->
  upd_edge e (fun ed => with_bitset ed v) (with_bits t0 bs)
  = Ret (tt, with_bits t0 (upd bs e v)).
Proof.
  intros H. unfold upd_edge, mbind. rewrite (get_edge_bits t0 bs e ed0 H).
  unfold mwrite. now rewrite (put_bits t0 bs e ed0 v H).
Qed.

Lemma set_bit_bits (t0 : Tree) (bs : bitmap) (e : ptr) (ed0 : Edge) (b : list bool)
  (i : nat) :
  edges t0 !! e = Some ed0 -> bs e = Some b ->
  set_bit i e (with_bits t0 bs)
  = Ret (tt, with_bits t0 (upd bs e (Some (bitset_Set i b)))).
Proof.
  intros H Hb. unfold set_bit, mbind. rewrite (get_edge_bits t0 bs e ed0 H).
  cbn [e_bitset with_bitset]. rewrite Hb. unfold mread. cbn [of_option obind].
  unfold mwrite. rewrite <- Hb at 1. now rewrite (put_bits t0 bs e ed0 _ H).
Qed.

(** *** Setting a list of bits *)

Lemma length_mark (l : list nat) (b : list bool) : length (mark l b) = length b.
Proof.
  revert b. induction l as [|i l IH]; intros b; [reflexivity|].
  cbn [mark fold_left]. fold (mark l (bitset_Set i b)). rewrite IH.
  unfold bitset_Set. apply length_insert.
Qed.

Lemma mark_app (l1 l2 : list nat) (b : list bool) :
  mark (l1 ++ l2) b = mark l2 (mark l1 b).
Proof. unfold mark. apply fold_left_app. Qed.

Lemma mark_lookup (l : list nat) (b : list bool) (j : nat) :
  mark l b !! j = Some true <-> (j ∈ l /\ j < length b) \/ b !! j = Some true.
Proof.
  revert b. induction l as [|i l IH]; intros b.
  - cbn [mark fold_left]. split; [now right|]. intros [[H _]|H]; [inversion H|exact H].
  - cbn [mark fold_left]. fold (mark l (bitset_Set i b)). rewrite IH.
    unfold bitset_Set. rewrite length_insert. split.
    + intros [[Hj Hlt]|Hj].
      * left. split; [apply elem_of_cons; now right|assumption].
      * destruct (decide (j = i)) as [->|Hne].
        -- left. split; [apply elem_of_cons; now left|].
           apply lookup_lt_Some in Hj. now rewrite length_insert in Hj.
        -- right. now rewrite list_lookup_insert_ne in Hj by auto.
    + intros [[Hj Hlt]|Hj].
      * apply elem_of_cons in Hj as [->|Hj]; [right|left; auto].
        now apply list_lookup_insert_eq.
      * destruct (decide (j = i)) as [->|Hne].
        -- right. apply list_lookup_insert_eq. eapply lookup_lt_Some; eassumption.
        -- right. now rewrite list_lookup_insert_ne by auto.
Qed.

(** *** The edges of a node that lead to its children *)

Lemma filter_br (prev : option ptr) (keep : ptr -> bool) (br_all : list ptr) :
  forall (neigh br : list ptr) (o : nat) (kids : list (nat * ptr * shape)),
  length br = length neigh ->
  (forall i e, br !! i = Some e -> br_all !! (o + i) = Some e) ->
  List.filter (fun x => negb (ptr_eqb (Some (snd x)) prev))
    (imap (fun i c => (o + i, c)) neigh)
  = map (fun k => (kid_pos k, shape_root (kid_sub k))) kids ->
  (forall kd, kd ∈ kids ->
     br_all !! kid_pos kd = Some (kid_edge kd) /\ keep (kid_edge kd) = true) ->
  (forall i c e, neigh !! i = Some c -> br !! i = Some e -> Some c = prev ->
     keep e = false) ->
  List.filter keep br = map kid_edge kids.
Proof.
  induction neigh as [|c neigh IH]; intros br o kids Hlen Hall Hpos Hkids Hpar.
  - destruct br; [|discriminate]. simpl in Hpos. destruct kids; [reflexivity|discriminate].
  - destruct br as [|e br]; [discriminate|].
    cbn [imap List.filter snd] in Hpos.
    assert (Hshift : imap ((fun i c => (o + i, c)) ∘ S) neigh
                     = imap (fun i c => (S o + i, c)) neigh).
    { apply imap_ext. intros i x _. cbn. f_equal. lia. }
    rewrite Hshift in Hpos.
    assert (Hall' : forall i e', br !! i = Some e' -> br_all !! (S o + i) = Some e').
    { intros i e' Hi. replace (S o + i) with (o + S i) by lia. apply Hall. exact Hi. }
    assert (Hpar' : forall i c' e', neigh !! i = Some c' -> br !! i = Some e' ->
              Some c' = prev -> keep e' = false).
    { intros i c' e' Hc' He'. apply (Hpar (S i) c' e'); assumption. }
    assert (Hlen' : length br = length neigh) by (simpl in Hlen; lia).
    destruct (ptr_eqb (Some c) prev) eqn:Hc; cbn [negb] in Hpos.
    + apply ptr_eqb_eq in Hc. cbn [List.filter].
      rewrite (Hpar 0 c e eq_refl eq_refl Hc).
      apply (IH br (S o) kids); assumption.
    + destruct kids as [|kd kids]; [discriminate|]. cbn [map] in Hpos.
      injection Hpos as Hkp Hroot Hrest.
      destruct (Hkids kd ltac:(apply elem_of_cons; now left)) as [Hbr Hkeep].
      pose proof (Hall 0 e eq_refl) as He. rewrite Hkp, Hbr in He.
      injection He as <-. cbn [List.filter map]. rewrite Hkeep. f_equal.
      apply (IH br (S o) kids); try assumption.
      intros kd' Hkd'. apply Hkids, elem_of_cons. now right.
Qed.

(** The edge that leads from the node [n] to a child. *)
Definition leaves_from (t : Tree) (n : ptr) (e : ptr) : bool :=
  match edges t !! e with
  | Some ed => ptr_eqb (e_left ed) (Some n)
  | None => false
  end.

Lemma br_kids (t : Tree) (p n : ptr) (kids : list (nat * ptr * shape)) (nd : Node) :
  rep t (Some p) (Sh n kids) -> p <> n -> nodes t !! n = Some nd ->
  List.filter (leaves_from t n) (n_br nd) = map kid_edge kids.
Proof.
  intros Hrep Hpn Hnd.
  inversion Hrep as [? ? ? nd' Hnode Hbr Hpos Hlen Hpar Hkids]; subst.
  unfold ptr in *. rewrite Hnd in Hnode. injection Hnode as <-.
  apply (filter_br (Some p) (leaves_from t n) (n_br nd) (n_neigh nd) (n_br nd) 0 kids);
    try assumption.
  - intros i e Hi. exact Hi.
  - intros kd Hkd. rewrite Forall_forall in Hkids.
    destruct (Hkids kd Hkd) as (Hk & (ed & Hed & Hl & _) & _).
    split; [assumption|]. unfold leaves_from. unfold ptr in *. rewrite Hed, Hl.
    now apply ptr_eqb_eq.
  - intros i c e Hc He Hprev. destruct (Hpar i c e Hc He Hprev) as (ed & Hed & Hl & _).
    unfold leaves_from. unfold ptr in *. rewrite Hed, Hl. apply not_true_is_false.
    intros H.
    apply ptr_eqb_eq in H. congruence.
Qed.

Lemma root_br (t : Tree) (r : ptr) (kids : list (nat * ptr * shape)) (nd : Node) :
  rep t None (Sh r kids) -> nodes t !! r = Some nd -> n_br nd = map kid_edge kids.
Proof.
  intros Hrep Hnd.
  inversion Hrep as [? ? ? nd' Hnode Hbr Hpos Hlen Hpar Hkids]; subst.
  unfold ptr in *. rewrite Hnd in Hnode. injection Hnode as <-.
  transitivity (List.filter (fun _ : ptr => true) (n_br nd)).
  { clear. induction (n_br nd) as [|x l IH]; [reflexivity|]. cbn [List.filter].
    now rewrite <- IH. }
  apply (filter_br None (fun _ => true) (n_br nd) (n_neigh nd) (n_br nd) 0 kids);
    try assumption.
  - intros i e Hi. exact Hi.
  - intros kd Hkd. rewrite Forall_forall in Hkids.
    destruct (Hkids kd Hkd) as (Hk & _). auto.
  - intros i c e _ _ Habs. discriminate.
Qed.

Lemma br_real (t : Tree) (prev : option ptr) (n : ptr) (kids : list (nat * ptr * shape))
  (nd : Node) (e : ptr) :
  rep t prev (Sh n kids) -> nodes t !! n = Some nd -> e ∈ n_br nd ->
  is_Some (edges t !! e).
Proof.
  intros Hrep Hnd He.
  inversion Hrep as [? ? ? nd' Hnode Hbr Hpos Hlen Hpar Hkids]; subst.
  unfold ptr in *. rewrite Hnd in Hnode. injection Hnode as <-.
  apply list_elem_of_lookup in He as [i Hi].
  destruct (lookup_lt_is_Some_2 (n_neigh nd) i) as [c Hc].
  { apply lookup_lt_Some in Hi. unfold ptr in *. lia. }
  destruct (ptr_eqb (Some c) prev) eqn:Heq.
  - apply ptr_eqb_eq in Heq. destruct (Hpar i c e Hc Hi Heq) as (ed & Hed & _). now exists ed.
  - assert (Hin : (i, c) ∈ kid_positions (n_neigh nd) prev).
    { unfold kid_positions. apply list_elem_of_In, filter_In. split.
      - apply list_elem_of_In, elem_of_lookup_imap. exists i, c. auto.
      - cbn [snd]. now rewrite Heq. }
    rewrite Hpos in Hin. apply list_elem_of_fmap in Hin as (kd & Hkd & Hin).
    injection Hkd as Hkp _. rewrite Forall_forall in Hkids.
    destruct (Hkids kd Hin) as (Hk & (ed & Hed & _) & _).
    rewrite <- Hkp in Hk. rewrite Hi in Hk. injection Hk as ->. now exists ed.
Qed.

(** *** [fillRightBitSet] on the subtree below an edge *)

Lemma TipIndex_lookup (t : Tree) (y : string) (i : nat) :
  tipIndex t !! y = Some i -> TipIndex t y = inl i.
Proof.
  intros H. unfold TipIndex. destruct (Nat.eqb (size (tipIndex t)) 0) eqn:Hs.
  - apply Nat.eqb_eq, map_size_empty_iff in Hs. rewrite Hs, lookup_empty in H. discriminate.
  - now rewrite H.
Qed.

Section Fill.

Variable t0 : Tree.
Variable nbits : nat.

Lemma alloc_upd (bs : bitmap) (e x : ptr) (b : list bool) :
  length b = nbits -> alloc nbits bs x -> alloc nbits (upd bs e (Some b)) x.
Proof.
  intros Hb Hx. unfold alloc, upd. destruct (decide (x = e)); [|exact Hx]. now exists b.
Qed.

(** [for _, e := range *rightEdges { e.bitset.Set(i) }] *)
Lemma set_bits_loop (i : nat) :
  forall (l : list ptr) (bs : bitmap),
  (forall x, x ∈ l -> is_Some (edges t0 !! x) /\ alloc nbits bs x) ->
  exists bs',
    mfold (fun _ e => set_bit i e) l tt (with_bits t0 bs) = Ret (tt, with_bits t0 bs') /\
    forall x, bs' x = if decide (x ∈ l) then bitset_Set i <$> bs x else bs x.
Proof.
  induction l as [|x l IH]; intros bs Hall.
  - exists bs. split; [reflexivity|]. intros x. rewrite decide_False; [reflexivity|].
    apply not_elem_of_nil.
  - destruct (Hall x ltac:(apply elem_of_cons; now left)) as [[ed0 Hed0] (b & Hb & Hlen)].
    destruct (IH (upd bs x (Some (bitset_Set i b)))) as (bs' & Hrun & Hbs').
    { intros y Hy. destruct (Hall y ltac:(apply elem_of_cons; now right)) as [Hr Ha].
      split; [assumption|]. apply alloc_upd; [|assumption].
      unfold bitset_Set. now rewrite length_insert. }
    exists bs'. split.
    + cbn [mfold]. unfold mbind at 1. rewrite (set_bit_bits t0 bs x ed0 b i Hed0 Hb).
      exact Hrun.
    + intros y. rewrite Hbs'. unfold upd. destruct (decide (y = x)) as [->|Hne].
      * rewrite Hb. rewrite (decide_True (P := x ∈ x :: l)) by (apply elem_of_cons; now left).
        destruct (decide (x ∈ l)); [|reflexivity].
        cbn [fmap option_fmap option_map]. unfold bitset_Set.
        now rewrite list_insert_insert_eq.
      * destruct (decide (y ∈ l)) as [Hin|Hin].
        -- now rewrite decide_True by (apply elem_of_cons; now right).
        -- rewrite decide_False; [reflexivity|]. intros H.
           apply elem_of_cons in H as [?|?]; contradiction.
Qed.

Local Abbreviation kid := (nat * ptr * shape)%type.
Local Abbreviation below_kid := (fun k : kid => snd (fst k) :: shape_edges (snd k)).
Local Abbreviation kords := (fun k : kid => ords t0 (snd k)).

(** What [fillRightBitSet] leaves: the edges of the stack [anc] have got
    the ordinals of the tips of the subtree, the edges of the subtree have
    the ordinals of the tips below them, the other bitsets are as before. *)
Record fill_post (e : ptr) (s : shape) (anc : list ptr) (bs bs' : bitmap) : Prop := {
  fp_frame : forall x, x ∉ (anc ++ [e]) ++ shape_edges s -> bs' x = bs x;
  fp_anc : forall x b, x ∈ anc -> bs x = Some b -> bs' x = Some (mark (ords t0 s) b);
  fp_subs : forall e' s', (e', s') ∈ subs_of e s ->
    bs' e' = Some (mark (ords t0 s') (replicate nbits false))
}.

(** The invariant of the loop over the edges of an internal node, once the
    children [done] have been gone through. *)
Record fill_inv (e : ptr) (anc : list ptr) (done : list kid) (bs bsk : bitmap)
  : Prop := {
  fk_frame : forall x, x ∉ (anc ++ [e]) ++ flat_map below_kid done -> bsk x = bs x;
  fk_anc : forall x b, x ∈ anc -> bs x = Some b ->
    bsk x = Some (mark (flat_map kords done) b);
  fk_self : bsk e = Some (mark (flat_map kords done) (replicate nbits false));
  fk_subs : forall kd e' s', kd ∈ done ->
    (e', s') ∈ subs_of (kid_edge kd) (kid_sub kd) ->
    bsk e' = Some (mark (ords t0 s') (replicate nbits false))
}.

Lemma subs_of_edges (e : ptr) (s : shape) (e' : ptr) (s' : shape) :
  (e', s') ∈ subs_of e s -> e' ∈ e :: shape_edges s.
Proof.
  intros Hin. apply elem_of_cons in Hin as [Heq|Hin].
  - inversion Heq. apply elem_of_cons. now left.
  - apply elem_of_cons. right. eapply subs_in_edges; [exact 0|exact Hin].
Qed.

Lemma stack_split (A : list ptr) (done : list kid) (kd : kid) :
  NoDup (A ++ flat_map below_kid (done ++ [kd])) ->
  NoDup ((A ++ [kid_edge kd]) ++ shape_edges (kid_sub kd)) /\
  (forall x, x ∈ below_kid kd -> (x ∉ A) /\ (x ∉ flat_map below_kid done)) /\
  (forall x, x ∈ flat_map below_kid done -> x ∉ A).
Proof.
  intros Hnd. rewrite flat_map_app' in Hnd. cbn [flat_map] in Hnd.
  rewrite app_nil_r in Hnd.
  apply NoDup_app in Hnd as (HA & Hdis & Hrest).
  apply NoDup_app in Hrest as (Hdone & Hdis2 & Hkd).
  split; [|split].
  - rewrite <- app_assoc. apply NoDup_app. split; [assumption|]. split; [|exact Hkd].
    intros x Hx Hin. apply (Hdis x Hx). apply elem_of_app. now right.
  - intros x Hx. split.
    + intros HxA. apply (Hdis x HxA). apply elem_of_app. now right.
    + intros Hxd. apply (Hdis2 x Hxd Hx).
  - intros x Hx HxA. apply (Hdis x HxA). apply elem_of_app. now left.
Qed.

Lemma fill_kid_step (e : ptr) (anc : list ptr) (done : list kid) (kd : kid)
  (bs bsk bsk' : bitmap) :
  NoDup ((anc ++ [e]) ++ flat_map below_kid (done ++ [kd])) ->
  fill_inv e anc done bs bsk ->
  fill_post (kid_edge kd) (kid_sub kd) (anc ++ [e]) bsk bsk' ->
  fill_inv e anc (done ++ [kd]) bs bsk'.
Proof.
  intros Hnd Hinv Hpost.
  destruct (stack_split (anc ++ [e]) done kd Hnd) as (Hnd' & Hkd & Hdone).
  assert (Hfm : forall x, x ∈ (anc ++ [e]) ++ flat_map below_kid (done ++ [kd]) <->
             x ∈ (anc ++ [e]) ++ flat_map below_kid done \/ x ∈ below_kid kd).
  { intros x. rewrite flat_map_app'. cbn [flat_map]. rewrite app_nil_r.
    rewrite !elem_of_app. tauto. }
  assert (Hstack : forall x, x ∈ ((anc ++ [e]) ++ [kid_edge kd]) ++ shape_edges (kid_sub kd)
             <-> x ∈ anc ++ [e] \/ x ∈ below_kid kd).
  { intros x. rewrite <- app_assoc. rewrite elem_of_app. reflexivity. }
  split.
  - intros x Hx. rewrite (fp_frame _ _ _ _ _ Hpost).
    + apply (fk_frame _ _ _ _ _ Hinv). intros H. apply Hx, Hfm. now left.
    + intros H. apply Hstack in H. apply Hx, Hfm. destruct H as [H|H]; [left|now right].
      apply elem_of_app. now left.
  - intros x b Hx Hb. rewrite flat_map_app', mark_app. cbn [flat_map]. rewrite app_nil_r.
    apply (fp_anc _ _ _ _ _ Hpost); [apply elem_of_app; now left|].
    apply (fk_anc _ _ _ _ _ Hinv x b Hx Hb).
  - rewrite flat_map_app', mark_app. cbn [flat_map]. rewrite app_nil_r.
    apply (fp_anc _ _ _ _ _ Hpost).
    + apply elem_of_app. right. apply elem_of_cons. now left.
    + apply (fk_self _ _ _ _ _ Hinv).
  - intros kd' e' s' Hkd' Hin. apply elem_of_app in Hkd' as [Hkd'|Hkd'].
    + assert (He' : e' ∈ flat_map below_kid done).
      { apply elem_of_flat_map. exists kd'. split; [assumption|].
        now apply subs_of_edges in Hin. }
      rewrite (fp_frame _ _ _ _ _ Hpost).
      * apply (fk_subs _ _ _ _ _ Hinv kd' e' s' Hkd' Hin).
      * intros H. apply Hstack in H. destruct H as [H|H].
        -- apply (Hdone e' He' H).
        -- destruct (Hkd e' H) as [_ Hn]. contradiction.
    + apply list_elem_of_singleton in Hkd'. subst kd'.
      apply (fp_subs _ _ _ _ _ Hpost e' s' Hin).
Qed.

Lemma alloc_mark (l : list nat) (b : list bool) (bs : bitmap) (x : ptr) :
  length b = nbits -> bs x = Some (mark l b) -> alloc nbits bs x.
Proof. intros Hb Hx. exists (mark l b). split; [assumption|]. now rewrite length_mark. Qed.

Lemma fill_inv_alloc (e : ptr) (anc : list ptr) (done : list kid) (kd : kid)
  (bs bsk : bitmap) :
  NoDup ((anc ++ [e]) ++ flat_map below_kid (done ++ [kd])) ->
  (forall x, x ∈ (anc ++ [e]) ++ flat_map below_kid (done ++ [kd]) -> alloc nbits bs x) ->
  fill_inv e anc done bs bsk ->
  forall x, x ∈ ((anc ++ [e]) ++ [kid_edge kd]) ++ shape_edges (kid_sub kd) ->
  alloc nbits bsk x.
Proof.
  intros Hnd Hal Hinv x Hx.
  destruct (stack_split (anc ++ [e]) done kd Hnd) as (_ & Hkd & _).
  rewrite <- app_assoc in Hx. apply elem_of_app in Hx as [Hx|Hx].
  - apply elem_of_app in Hx as [Hx|Hx].
    + destruct (Hal x) as (b & Hb & Hlen).
      { apply elem_of_app. left. apply elem_of_app. now left. }
      eapply alloc_mark; [exact Hlen|]. apply (fk_anc _ _ _ _ _ Hinv x b Hx Hb).
    + apply list_elem_of_singleton in Hx. subst x.
      eapply alloc_mark; [apply length_replicate|]. apply (fk_self _ _ _ _ _ Hinv).
  - destruct (Hkd x Hx) as [HnA Hnd'].
    assert (Hsame : bsk x = bs x).
    { apply (fk_frame _ _ _ _ _ Hinv). intros H.
      apply elem_of_app in H as [H|H]; contradiction. }
    unfold alloc. rewrite Hsame. apply Hal.
    rewrite flat_map_app'. cbn [flat_map]. rewrite app_nil_r.
    apply elem_of_app. right. apply elem_of_app. now right.
Qed.

(** The loop over the edges of an internal node. *)
Lemma fill_kids (e n : ptr) (anc : list ptr) (fuel : nat) (bs : bitmap)
  (kids : list kid) (r : option ptr) :
  r = Some n ->
  NoDup ((anc ++ [e]) ++ flat_map below_kid kids) ->
  (forall x, x ∈ (anc ++ [e]) ++ flat_map below_kid kids -> alloc nbits bs x) ->
  (forall kd, kd ∈ kids -> forall bsk,
     (forall x, x ∈ ((anc ++ [e]) ++ [kid_edge kd]) ++ shape_edges (kid_sub kd) ->
        alloc nbits bsk x) ->
     exists bsk',
       fillRightBitSet fuel (kid_edge kd) ((anc ++ [e]) ++ [kid_edge kd]) (with_bits t0 bsk)
         = Ret (None, with_bits t0 bsk') /\
       fill_post (kid_edge kd) (kid_sub kd) (anc ++ [e]) bsk bsk') ->
  forall brs todo done bsk,
    List.filter (leaves_from t0 n) brs = map kid_edge todo ->
    (forall x, x ∈ brs -> is_Some (edges t0 !! x)) ->
    kids = done ++ todo -> fill_inv e anc done bs bsk ->
    exists bsk',
      mfold (fun (res : option error) e2 =>
               match res with
               | Some er => mret (Some er)
               | None =>
                 let* ed2 := get_edge e2 in
                 if ptr_eqb (e_left ed2) r
                 then fillRightBitSet fuel e2 ((anc ++ [e]) ++ [e2])
                 else mret None
               end) brs None (with_bits t0 bsk) = Ret (None, with_bits t0 bsk') /\
      fill_inv e anc kids bs bsk'.
Proof.
  intros -> Hnd Hal Hkids brs.
  induction brs as [|x brs IH]; intros todo done bsk Hfilter Hreal Heq Hinv.
  - cbn [List.filter] in Hfilter. destruct todo; [|discriminate].
    rewrite app_nil_r in Heq. subst done. exists bsk. split; [reflexivity|assumption].
  - destruct (Hreal x ltac:(apply elem_of_cons; now left)) as [ed Hed].
    assert (Hreal' : forall y, y ∈ brs -> is_Some (edges t0 !! y)).
    { intros y Hy. apply Hreal, elem_of_cons. now right. }
    cbn [mfold]. unfold mbind at 1. unfold mbind at 1.
    rewrite (get_edge_bits t0 bsk x ed Hed). cbn [e_left with_bitset].
    cbn [List.filter] in Hfilter.
    assert (Hkeep : leaves_from t0 n x = ptr_eqb (e_left ed) (Some n)).
    { unfold leaves_from. unfold ptr in *. now rewrite Hed. }
    rewrite Hkeep in Hfilter.
    destruct (ptr_eqb (e_left ed) (Some n)).
    + destruct todo as [|kd todo]; [discriminate|]. cbn [map] in Hfilter.
      injection Hfilter as Hx Hfilter. subst x.
      assert (Hin : kd ∈ kids).
      { rewrite Heq. apply elem_of_app. right. apply elem_of_cons. now left. }
      assert (Hnd' : NoDup ((anc ++ [e]) ++ flat_map below_kid (done ++ [kd]))).
      { rewrite Heq in Hnd.
        replace (done ++ kd :: todo) with ((done ++ [kd]) ++ todo) in Hnd
          by now rewrite <- app_assoc.
        rewrite flat_map_app', app_assoc in Hnd. now apply NoDup_app in Hnd as (Hnd & _). }
      assert (Hal' : forall y, y ∈ (anc ++ [e]) ++ flat_map below_kid (done ++ [kd]) ->
                alloc nbits bs y).
      { intros y Hy. apply Hal. rewrite Heq.
        replace (done ++ kd :: todo) with ((done ++ [kd]) ++ todo)
          by now rewrite <- app_assoc.
        rewrite flat_map_app', app_assoc. apply elem_of_app. now left. }
      destruct (Hkids kd Hin bsk (fill_inv_alloc e anc done kd bs bsk Hnd' Hal' Hinv))
        as (bsk1 & Hrun & Hpost).
      rewrite Hrun.
      apply (IH todo (done ++ [kd]) bsk1); try assumption.
      * now rewrite <- app_assoc.
      * eapply fill_kid_step; eassumption.
    + unfold mret at 1. apply (IH todo done bsk); assumption.
Qed.

Lemma nodup_flat_map_in {A B} (f : A -> list B) (l : list A) (x : A) :
  NoDup (flat_map f l) -> x ∈ l -> NoDup (f x).
Proof.
  intros Hnd Hx. apply list_elem_of_split in Hx as (l1 & l2 & ->).
  rewrite flat_map_app' in Hnd. cbn [flat_map] in Hnd.
  apply NoDup_app in Hnd as (_ & _ & Hnd). now apply NoDup_app in Hnd as (Hnd & _).
Qed.

Lemma hangs_kid (p n : ptr) (kids : list kid) (kd : kid) :
  hangs t0 p (Sh n kids) -> kd ∈ kids -> hangs t0 n (kid_sub kd).
Proof.
  intros (Hrep & _ & Hnd) Hkd. cbn [shape_nodes] in Hnd.
  apply NoDup_cons in Hnd as [Hn Hnd].
  destruct (rep_kid t0 (Some p) n kids kd Hrep Hkd) as [_ Hrep'].
  split; [exact Hrep'|]. split.
  - intros H. apply Hn. apply elem_of_flat_map. exists kd. split; assumption.
  - apply (nodup_flat_map_in (fun k => shape_nodes (snd k)) kids kd Hnd Hkd).
Qed.

Lemma fill_ok (s : shape) :
  forall (e p : ptr) (anc : list ptr) (fuel : nat) (bs : bitmap),
  hangs t0 p s ->
  (exists ed, edges t0 !! e = Some ed /\ e_right ed = Some (shape_root s)) ->
  (forall x, x ∈ anc -> is_Some (edges t0 !! x)) ->
  (forall x, x ∈ (anc ++ [e]) ++ shape_edges s -> alloc nbits bs x) ->
  NoDup ((anc ++ [e]) ++ shape_edges s) ->
  (forall y, y ∈ tip_names t0 s -> is_Some (tipIndex t0 !! y)) ->
  depth s <= fuel ->
  exists bs',
    fillRightBitSet fuel e (anc ++ [e]) (with_bits t0 bs) = Ret (None, with_bits t0 bs') /\
    fill_post e s anc bs bs'.
Proof.
  induction s as [n kids IH] using shape_ind'.
  intros e p anc fuel bs Hhang (ed0 & Hed0 & Hr) Hreal Hal Hnd Hidx Hfuel.
  destruct fuel as [|fuel]; [simpl in Hfuel; lia|].
  pose proof Hhang as (Hrep & Hp & Hnds).
  inversion Hrep as [? ? ? nd Hnode Hbr Hpos Hlen Hpar Hkids]; subst.
  assert (He_in : e ∈ (anc ++ [e]) ++ shape_edges (Sh n kids)).
  { apply elem_of_app. left. apply elem_of_app. right. apply elem_of_cons. now left. }
  destruct (Hal e He_in) as (b & Hb & Hblen).
  assert (Hstack_real : forall x, x ∈ anc ++ [e] -> is_Some (edges t0 !! x)).
  { intros x Hx. apply elem_of_app in Hx as [Hx|Hx]; [now apply Hreal|].
    apply list_elem_of_singleton in Hx. subst x. now exists ed0. }
  cbn [fillRightBitSet]. unfold mbind at 1. rewrite (get_edge_bits t0 bs e ed0 Hed0).
  cbn [e_bitset with_bitset e_right]. rewrite Hb.
  unfold mbind at 1. rewrite (upd_edge_bits t0 bs e ed0 _ Hed0).
  unfold mbind at 1. unfold get_node_of, mread. rewrite Hr. cbn [shape_root node_of].
  unfold node_at. change (nodes (with_bits t0 _)) with (nodes t0).
  rewrite Hnode. cbn [of_option obind].
  change (Nat.eqb (length (n_neigh nd)) 1) with (Node_Tip nd).
  rewrite (rep_tip t0 p n kids nd Hrep Hnode).
  assert (Hclear : bitset_ClearAll b = replicate nbits false).
  { unfold bitset_ClearAll. now rewrite Hblen. }
  rewrite Hclear.
  set (bs1 := upd bs e (Some (replicate nbits false))).
  assert (Hal1 : forall x, x ∈ (anc ++ [e]) ++ shape_edges (Sh n kids) -> alloc nbits bs1 x).
  { intros x Hx. apply alloc_upd; [apply length_replicate|now apply Hal]. }
  destruct kids as [|kd0 kids0].
  - (* a terminal edge *)
    destruct (Hidx (node_name t0 n)) as [i Hi].
    { cbn [tip_names]. apply elem_of_cons. now left. }
    unfold mbind at 1. cbv beta iota.
    assert (Htip : tipIndexNode (with_bits t0 bs1) nd = inl i).
    { unfold tipIndexNode.
      pose proof (rep_tip t0 p n [] nd Hrep Hnode) as Ht. unfold Node_Tip in Ht.
      rewrite Ht. cbn [negb]. apply TipIndex_lookup.
      change (tipIndex (with_bits t0 bs1)) with (tipIndex t0).
      unfold node_name in Hi. unfold ptr in *. now rewrite Hnode in Hi. }
    rewrite Htip.
    destruct (set_bits_loop i (anc ++ [e]) bs1) as (bs' & Hrun & Hbs').
    { intros x Hx. split; [now apply Hstack_real|]. apply Hal1.
      apply elem_of_app. now left. }
    unfold mbind at 1. rewrite Hrun. exists bs'. split; [reflexivity|].
    assert (Hord : ords t0 (Sh n []) = [i]).
    { unfold ords. cbn [tip_names map]. unfold ord. now rewrite Hi. }
    cbn [shape_edges flat_map] in Hnd. rewrite app_nil_r in Hnd.
    split.
    + intros x Hx. cbn [shape_edges flat_map] in Hx. rewrite app_nil_r in Hx.
      rewrite Hbs', decide_False by exact Hx. unfold bs1, upd.
      rewrite decide_False; [reflexivity|]. intros ->. apply Hx.
      apply elem_of_app. right. apply elem_of_cons. now left.
    + intros x bx Hx Hbx. rewrite Hbs', decide_True by (apply elem_of_app; now left).
      unfold bs1, upd. rewrite decide_False.
      * rewrite Hbx, Hord. reflexivity.
      * intros ->. apply NoDup_app in Hnd as (_ & Hdis & _). apply (Hdis e Hx).
        apply elem_of_cons. now left.
    + intros e' s' Hin. apply list_elem_of_singleton in Hin. inversion Hin; subst e' s'.
      rewrite Hbs', decide_True
        by (apply elem_of_app; right; apply elem_of_cons; now left).
      unfold bs1, upd. rewrite decide_True by reflexivity. now rewrite Hord.
  - (* an internal edge *)
    remember (kd0 :: kids0) as kids eqn:Hk.
    assert (Hpn : p <> n).
    { intros ->. apply Hp. cbn [shape_nodes]. apply elem_of_cons. now left. }
    destruct (fill_kids e n anc fuel bs1 kids (Some n) eq_refl Hnd Hal1)
      with (brs := n_br nd) (todo := kids) (done := @nil kid) (bsk := bs1)
      as (bs' & Hrun & Hinv).
    { intros kd Hkd bsk Hbsk. rewrite Forall_forall in IH.
      rewrite Forall_forall in Hkids.
      destruct (Hkids kd Hkd) as (_ & (edk & Hedk & _ & Hrk) & _).
      assert (Hsub : forall x, x ∈ below_kid kd -> x ∈ shape_edges (Sh n kids)).
      { intros x Hx. cbn [shape_edges]. apply elem_of_flat_map. exists kd.
        split; assumption. }
      apply (IH kd Hkd (kid_edge kd) n (anc ++ [e]) fuel bsk).
      - eapply hangs_kid; eassumption.
      - exists edk. split; assumption.
      - exact Hstack_real.
      - exact Hbsk.
      - rewrite <- app_assoc. apply NoDup_app in Hnd as (HA & Hdis & Hrest).
        apply NoDup_app. split; [assumption|]. split.
        + intros x Hx Hin. apply (Hdis x Hx), Hsub, Hin.
        + apply (nodup_flat_map_in below_kid kids kd Hrest Hkd).
      - intros y Hy. apply Hidx. subst kids. cbn [tip_names].
        apply elem_of_flat_map. exists kd. split; assumption.
      - pose proof (depth_kid n kids kd Hkd). unfold kid_sub. simpl in Hfuel. simpl in H.
        lia. }
    { apply (br_kids t0 p n kids nd Hrep Hpn Hnode). }
    { intros x Hx. eapply br_real; eassumption. }
    { reflexivity. }
    { split.
      - reflexivity.
      - intros x bx Hx Hbx. exact Hbx.
      - unfold bs1, upd. now rewrite decide_True by reflexivity.
      - intros kd e' s' Hkd. inversion Hkd. }
    exists bs'. split; [exact Hrun|].
    assert (Hords : ords t0 (Sh n kids) = flat_map kords kids).
    { unfold ords. subst kids. cbn [tip_names]. apply map_flat_map. }
    split.
    + intros x Hx. rewrite (fk_frame _ _ _ _ _ Hinv x Hx). unfold bs1, upd.
      rewrite decide_False; [reflexivity|]. intros ->. apply Hx.
      apply elem_of_app. left. apply elem_of_app. right. apply elem_of_cons. now left.
    + intros x bx Hx Hbx. rewrite Hords. apply (fk_anc _ _ _ _ _ Hinv x bx Hx).
      unfold bs1, upd. rewrite decide_False; [assumption|]. intros ->.
      apply NoDup_app in Hnd as (Hnd & _). apply NoDup_app in Hnd as (_ & Hdis & _).
      apply (Hdis e Hx). apply elem_of_cons. now left.
    + intros e' s' Hin. apply elem_of_cons in Hin as [Heq|Hin].
      * inversion Heq; subst e' s'. rewrite Hords. apply (fk_self _ _ _ _ _ Hinv).
      * apply elem_of_subs_kids in Hin as (kd & Hkd & Hin).
        apply (fk_subs _ _ _ _ _ Hinv kd e' s' Hkd Hin).
Qed.

Lemma kid_hangs (prev : option ptr) (n : ptr) (kids : list kid) (kd : kid) :
  rep t0 prev (Sh n kids) -> NoDup (shape_nodes (Sh n kids)) -> kd ∈ kids ->
  hangs t0 n (kid_sub kd).
Proof.
  intros Hrep Hnd Hkd. cbn [shape_nodes] in Hnd.
  apply NoDup_cons in Hnd as [Hn Hnd].
  destruct (rep_kid t0 prev n kids kd Hrep Hkd) as [_ Hrep'].
  split; [exact Hrep'|]. split.
  - intros H. apply Hn. apply elem_of_flat_map. exists kd. split; assumption.
  - apply (nodup_flat_map_in (fun k => shape_nodes (snd k)) kids kd Hnd Hkd).
Qed.

(** The invariant of the loop of [UpdateBitSet] over the edges of the
    root. *)
Record update_inv (done : list kid) (bs bsk : bitmap) : Prop := {
  ui_frame : forall x, x ∉ flat_map below_kid done -> bsk x = bs x;
  ui_subs : forall kd e' s', kd ∈ done ->
    (e', s') ∈ subs_of (kid_edge kd) (kid_sub kd) ->
    bsk e' = Some (mark (ords t0 s') (replicate nbits false))
}.

Lemma update_step (done : list kid) (kd : kid) (bs bsk bsk' : bitmap) :
  NoDup (flat_map below_kid (done ++ [kd])) ->
  update_inv done bs bsk ->
  fill_post (kid_edge kd) (kid_sub kd) [] bsk bsk' ->
  update_inv (done ++ [kd]) bs bsk'.
Proof.
  intros Hnd Hinv Hpost.
  rewrite flat_map_app' in Hnd. cbn [flat_map] in Hnd. rewrite app_nil_r in Hnd.
  apply NoDup_app in Hnd as (_ & Hdis & _).
  split.
  - intros x Hx. rewrite flat_map_app' in Hx. cbn [flat_map] in Hx.
    rewrite app_nil_r in Hx. rewrite (fp_frame _ _ _ _ _ Hpost).
    + apply (ui_frame _ _ _ Hinv). intros H. apply Hx, elem_of_app. now left.
    + intros H. apply Hx, elem_of_app. now right.
  - intros kd' e' s' Hkd' Hin. apply elem_of_app in Hkd' as [Hkd'|Hkd'].
    + assert (He' : e' ∈ flat_map below_kid done).
      { apply elem_of_flat_map. exists kd'. split; [assumption|].
        now apply subs_of_edges in Hin. }
      rewrite (fp_frame _ _ _ _ _ Hpost).
      * apply (ui_subs _ _ _ Hinv kd' e' s' Hkd' Hin).
      * intros H. apply (Hdis e' He' H).
    + apply list_elem_of_singleton in Hkd'. subst kd'.
      apply (fp_subs _ _ _ _ _ Hpost e' s' Hin).
Qed.

Lemma update_loop (r : ptr) (kids : list kid) (fuel : nat) (bs : bitmap) :
  rep t0 None (Sh r kids) -> NoDup (shape_nodes (Sh r kids)) ->
  NoDup (shape_edges (Sh r kids)) ->
  (forall x, x ∈ shape_edges (Sh r kids) -> alloc nbits bs x) ->
  (forall y, y ∈ flat_map (fun k => tip_names t0 (snd k)) kids ->
     is_Some (tipIndex t0 !! y)) ->
  depth (Sh r kids) <= S fuel ->
  forall todo done bsk, kids = done ++ todo -> update_inv done bs bsk ->
  exists bs',
    mfold (fun (res : option error) e =>
             match res with
             | Some er => mret (Some er)
             | None => fillRightBitSet fuel e [e]
             end) (map kid_edge todo) None (with_bits t0 bsk)
      = Ret (None, with_bits t0 bs') /\
    update_inv kids bs bs'.
Proof.
  intros Hrep Hnds Hnde Hal Hidx Hfuel todo. cbn [shape_edges] in Hnde, Hal.
  induction todo as [|kd todo IH]; intros done bsk Heq Hinv.
  - rewrite app_nil_r in Heq. subst done. exists bsk. split; [reflexivity|assumption].
  - assert (Hin : kd ∈ kids).
    { rewrite Heq. apply elem_of_app. right. apply elem_of_cons. now left. }
    assert (Hnd' : NoDup (flat_map below_kid (done ++ [kd]))).
    { rewrite Heq in Hnde.
      replace (done ++ kd :: todo) with ((done ++ [kd]) ++ todo) in Hnde
        by now rewrite <- app_assoc.
      rewrite flat_map_app' in Hnde. now apply NoDup_app in Hnde as (Hnde & _). }
    inversion Hrep as [? ? ? nd Hnode Hbr Hpos Hlen Hpar Hkids]; subst r kids.
    rewrite Forall_forall in Hkids.
    destruct (Hkids kd Hin) as (_ & (edk & Hedk & _ & Hrk) & _).
    destruct (fill_ok (kid_sub kd) (kid_edge kd) n [] fuel bsk) as (bsk1 & Hrun & Hpost).
    + eapply kid_hangs; eassumption.
    + exists edk. split; assumption.
    + intros x Hx. inversion Hx.
    + intros x Hx. cbn [app] in Hx.
      assert (Hxd : x ∉ flat_map below_kid done).
      { intros Hxin. rewrite flat_map_app' in Hnd'. cbn [flat_map] in Hnd'.
        rewrite app_nil_r in Hnd'. apply NoDup_app in Hnd' as (_ & Hdis & _).
        apply (Hdis x Hxin Hx). }
      unfold alloc. rewrite (ui_frame _ _ _ Hinv x Hxd). apply Hal.
      apply elem_of_flat_map. exists kd. split; assumption.
    + cbn [app]. apply (nodup_flat_map_in below_kid _ kd Hnde Hin).
    + intros y Hy. apply Hidx. apply elem_of_flat_map. exists kd. split; assumption.
    + pose proof (depth_kid n (done ++ kd :: todo) kd Hin) as Hdk. unfold kid_sub.
      simpl in Hfuel. simpl in Hdk. lia.
    + cbn [map mfold]. unfold mbind at 1. cbn [app] in Hrun. rewrite Hrun.
      apply (IH (done ++ [kd]) bsk1); [now rewrite <- app_assoc|].
      eapply update_step; eassumption.
Qed.

End Fill.

Lemma depth_le_nodes (s : shape) : depth s <= length (shape_nodes s).
Proof.
  induction s as [n kids IH] using shape_ind'. cbn [depth shape_nodes length].
  apply le_n_S. induction kids as [|k kids IHk]; [simpl; lia|].
  inversion IH; subst. cbn [fold_right flat_map]. rewrite length_app.
  specialize (IHk ltac:(assumption)). lia.
Qed.

Lemma rep_nodes_real (t : Tree) (s : shape) :
  forall prev, rep t prev s -> forall x, x ∈ shape_nodes s -> x < length (nodes t).
Proof.
  induction s as [n kids IH] using shape_ind'. intros prev Hrep x Hx.
  cbn [shape_nodes] in Hx. apply elem_of_cons in Hx as [->|Hx].
  - inversion Hrep; subst. eapply lookup_lt_Some; eassumption.
  - apply elem_of_flat_map in Hx as (kd & Hkd & Hx).
    destruct (rep_kid t prev n kids kd Hrep Hkd) as [_ Hrep'].
    rewrite Forall_forall in IH. apply (IH kd Hkd (Some n) Hrep' x Hx).
Qed.

Lemma wf_depth (t : Tree) (s : shape) : wf t s -> depth s <= length (nodes t).
Proof.
  intros Hwf. etransitivity; [apply depth_le_nodes|].
  transitivity (length (seq 0 (length (nodes t)))); [|now rewrite length_seq].
  apply submseteq_length, NoDup_submseteq; [apply Hwf|].
  intros x Hx. apply elem_of_seq. split; [lia|].
  apply (rep_nodes_real t s None (wf_rep _ _ Hwf) x Hx).
Qed.

(** [UpdateBitSet] on a well-formed tree whose bitsets are allocated and
    whose tips are in the index: it returns nil, and gives every edge the
    ordinals of the tips below it. *)
Lemma update_ok (t : Tree) (s : shape) (n : nat) (bs : bitmap) :
  wf t s ->
  (forall x, x ∈ shape_edges s -> alloc n bs x) ->
  (forall y, y ∈ leaf_names t s -> is_Some (tipIndex t !! y)) ->
  exists bs',
    UpdateBitSet (with_bits t bs) = Ret (None, with_bits t bs') /\
    (forall x, x ∉ shape_edges s -> bs' x = bs x) /\
    (forall e' s', (e', s') ∈ shape_subs s ->
       bs' e' = Some (mark (ords t s') (replicate n false))).
Proof.
  intros Hwf Hal Hidx. pose proof (wf_depth t s Hwf) as Hdepth.
  destruct s as [r kids]. pose proof (wf_rep _ _ Hwf) as Hrep.
  inversion Hrep as [? ? ? nd Hnode Hbr Hpos Hlen Hpar Hkids]; subst.
  unfold UpdateBitSet. unfold mbind at 1. unfold mread at 1. cbn [obind].
  change (budget (with_bits t bs)) with (budget t).
  unfold UpdateBitSet_fuel. unfold mbind at 1. unfold mread at 1.
  change (Root (with_bits t bs)) with (root t). rewrite (wf_root _ _ Hwf).
  cbn [shape_root node_of]. unfold node_at.
  change (nodes (with_bits t bs)) with (nodes t). rewrite Hnode. cbn [of_option obind].
  rewrite (root_br t r kids nd Hrep Hnode).
  destruct (update_loop t n r kids (budget t) bs Hrep (wf_nodes _ _ Hwf)
              (wf_edges _ _ Hwf) Hal Hidx) with (todo := kids) (done := @nil (nat * ptr * shape))
    (bsk := bs) as (bs' & Hrun & Hinv).
  - unfold budget. lia.
  - reflexivity.
  - split; [reflexivity|]. intros kd e' s' Hkd. inversion Hkd.
  - exists bs'. split; [exact Hrun|]. split.
    + intros x Hx. apply (ui_frame _ _ _ _ _ Hinv x Hx).
    + intros e' s' Hin. apply elem_of_subs_kids in Hin as (kd & Hkd & Hin).
      apply (ui_subs _ _ _ _ _ Hinv kd e' s' Hkd Hin).
Qed.


Lemma nodup_map_inj {A B} (f : A -> B) (l : list A) (x y : A) :
  NoDup (map f l) -> x ∈ l -> y ∈ l -> f x = f y -> x = y.
Proof.
  induction l as [|a l IH]; intros Hnd Hx Hy Heq; [inversion Hx|].
  cbn [map] in Hnd. apply NoDup_cons in Hnd as [Ha Hnd].
  apply elem_of_cons in Hx as [->|Hx]; apply elem_of_cons in Hy as [->|Hy].
  - reflexivity.
  - exfalso. apply Ha. rewrite Heq. apply list_elem_of_fmap. now exists y.
  - exfalso. apply Ha. rewrite <- Heq. apply list_elem_of_fmap. now exists x.
  - now apply IH.
Qed.



(** The bits of the edge of a child of the root, after [UpdateBitSet]. *)
Lemma marked_bit (l : list nat) (n i : nat) :
  bitset_Test i (mark l (replicate n false)) = true <-> i ∈ l /\ i < n.
Proof.
  unfold bitset_Test.
  assert (H : mark l (replicate n false) !! i = Some true <-> i ∈ l /\ i < n).
  { rewrite mark_lookup, length_replicate. split; [|now left].
    intros [H|H]; [exact H|]. apply lookup_replicate in H as [H _]. discriminate. }
  rewrite <- H. destruct (mark l (replicate n false) !! i) as [[|]|]; simpl;
    split; congruence.
Qed.


(** [(((a,b),t2)0.75:1.0,c,d);] with its tip index built and its bitsets
    allocated, before they are filled. *)
Definition prepared : Tree :=
  match (UpdateTipIndex;; ClearBitSets) examples.caterpillar with
  | Ret (_, t) => t
  | _ => examples.caterpillar
  end.


End bits_facts.

(* --------------------------------------------------------------------- *)
(** ** [Resolve]: multifurcations are resolved                            *)
(* --------------------------------------------------------------------- *)

Module resolve.
Import tree shapes booster.

(** The neighbors of a node, each with the edge that leads to it. *)
Definition adj (nd : Node) : list (ptr * ptr) := zip (n_neigh nd) (n_br nd).

(** The entry of the child [k] in the lists of its parent, and the entry of
    the parent [prev] (behind the edge [ep]) in the lists of a child. *)
Definition down (k : nat * ptr * shape) : ptr * ptr :=
  (shape_root (kid_sub k), kid_edge k).
Definition ups (prev : option ptr) (ep : ptr) : list (ptr * ptr) :=
  match prev with Some p => [(p, ep)] | None => [] end.

Definition joins (t : Tree) (e : ptr) (l r : ptr) : Prop :=
  exists ed, edges t !! e = Some ed /\ e_left ed = Some l /\ e_right ed = Some r.

(** [hold t prev s]: the node at the root of [s], entered from [prev], has
    for neighbors [prev] and the roots of the children of [s], in any
    order, each child behind an edge from the node to the child; the same
    holds below.  [Resolve] moves the neighbors of a node around: the
    positions recorded in the shape are not looked at. *)
Inductive hold (t : Tree) : option ptr -> shape -> Prop :=
| hold_intro (prev : option ptr) (ep : ptr) (n : ptr)
    (kids : list (nat * ptr * shape)) (nd : Node) :
    nodes t !! n = Some nd ->
    length (n_br nd) = length (n_neigh nd) ->
    adj nd ≡ₚ ups prev ep ++ map down kids ->
    (forall p, prev = Some p -> joins t ep p n) ->
    Forall (fun k => joins t (kid_edge k) n (shape_root (kid_sub k)) /\
                     hold t (Some n) (kid_sub k)) kids ->
    hold t prev (Sh n kids).

(** A subtree without a node met twice, that does not go back to the node
    it hangs from. *)
Definition tidy (t : Tree) (prev : option ptr) (s : shape) : Prop :=
  hold t prev s /\ NoDup (shape_nodes s) /\
  forall p, prev = Some p -> (p ∉ shape_nodes s) /\ is_Some (nodes t !! p).

Definition up_count (prev : option ptr) : nat :=
  match prev with Some _ => 1 | None => 0 end.

(** The length, the support and the p-value of an edge. *)
Definition attrs (t : Tree) (e : ptr) : option (float * float * float) :=
  match edges t !! e with
  | Some ed => Some (e_length ed, e_support ed, e_pvalue ed)
  | None => None
  end.

Definition degree (t : Tree) (x : ptr) : nat :=
  match nodes t !! x with Some nd => length (n_neigh nd) | None => 0 end.

(** A node once a neighbor has been removed at position [i], or added at
    the end, and an edge as [ConnectNodes] and the setters leave it. *)
Definition detach (nd : Node) (i : nat) : Node :=
  with_neigh nd (delete i (n_neigh nd)) (delete i (n_br nd)).
Definition attach (nd : Node) (n e : ptr) : Node :=
  with_neigh nd (n_neigh nd ++ [n]) (n_br nd ++ [e]).
Definition new_edge (l r : ptr) (len sup pv : float) : Edge :=
  mkEdge (Some l) (Some r) len sup pv NIL_ID None.
Definition new_node : Node := mkNode "" [] [] [] NIL_DEPTH NIL_ID.

(** What a step leaves untouched: the root, the tip index, the number of
    nodes and the nodes other than those of [touched]. *)
Record same_but (touched : list ptr) (t t' : Tree) : Prop := {
  sb_root : root t' = root t;
  sb_tipIndex : tipIndex t' = tipIndex t;
  sb_length : length (nodes t') = length (nodes t);
  sb_nodes : forall x, x ∉ touched -> nodes t' !! x = nodes t !! x
}.

Definition unset : option (float * float * float) :=
  Some (0%float, NIL_SUPPORT, NIL_PVALUE).

(** [regrouped tp s0 prev pend t s]: the tree [t] and the subtree [s] got
    from the tree [tp] and its subtree [s0] while [resolveRecur] runs on
    the subtree.  The nodes of [pend] have not been reached yet; the root
    of the subtree is the node being resolved, whose degree goes down to 3
    step by step. *)
Record regrouped (tp : Tree) (s0 : shape) (prev : option ptr) (pend : list ptr)
  (t : Tree) (s : shape) : Prop := {
  gi_tidy : tidy t prev s;
  gi_real : forall x, x ∈ shape_nodes s0 -> x < length (nodes tp);
  gi_rooted : shape_root s = shape_root s0;
  gi_edges : forall e ed, edges tp !! e = Some ed -> edges t !! e = Some ed;
  gi_len : length (nodes tp) <= length (nodes t);
  gi_root : root t = root tp;
  gi_tipIndex : tipIndex t = tipIndex tp;
  gi_frame : forall x, x ∉ shape_nodes s0 -> x < length (nodes tp) ->
    nodes t !! x = nodes tp !! x;
  gi_names : forall x nd, nodes tp !! x = Some nd ->
    exists nd', nodes t !! x = Some nd' /\ n_name nd' = n_name nd;
  gi_old : forall x, x ∈ shape_nodes s0 -> x ∈ shape_nodes s;
  gi_new : forall x, x ∈ shape_nodes s -> x ∈ shape_nodes s0 \/ length (nodes tp) <= x;
  gi_pend : forall x, x ∈ pend -> nodes t !! x = nodes tp !! x;
  gi_deg_old : forall x, x ∈ shape_nodes s0 -> x <> shape_root s0 -> x ∉ pend ->
    degree t x = Nat.min (degree tp x) 3;
  gi_deg_new : forall x, x ∈ shape_nodes s -> x ∉ shape_nodes s0 -> degree t x = 3;
  gi_deg_root :
    (3 <= degree t (shape_root s0) /\ 3 < degree tp (shape_root s0)) \/
    degree t (shape_root s0) = degree tp (shape_root s0);
  gi_attrs_old : forall e' sub', (e', sub') ∈ shape_subs s ->
    shape_root sub' ∈ shape_nodes s0 ->
    exists e sub, (e, sub) ∈ shape_subs s0 /\ shape_root sub = shape_root sub' /\
                  attrs t e' = attrs tp e;
  gi_attrs_new : forall e' sub', (e', sub') ∈ shape_subs s ->
    shape_root sub' ∉ shape_nodes s0 -> attrs t e' = unset
}.

(** [resolved tp s0 prev t s]: what [resolveRecur] leaves. *)
Definition resolved (tp : Tree) (s0 : shape) (prev : option ptr) (t : Tree) (s : shape)
  : Prop :=
  regrouped tp s0 prev [] t s /\
  degree t (shape_root s0) = Nat.min (degree tp (shape_root s0)) 3.

End resolve.

Module resolve_facts.
Import tree shapes loops booster booster_facts resolve.

Lemma zip_delete {A B} (i : nat) (l : list A) (k : list B) :
  zip (delete i l) (delete i k) = delete i (zip l k).
Proof.
  revert i k. induction l as [|x l IH]; intros i k.
  - destruct i; reflexivity.
  - destruct k as [|y k].
    + destruct i; cbn; [now destruct l|]. now destruct (delete i l).
    + destruct i; cbn; [reflexivity|]. f_equal. apply IH.
Qed.

Lemma zip_snoc {A B} (l : list A) (k : list B) (x : A) (y : B) :
  length l = length k -> zip (l ++ [x]) (k ++ [y]) = zip l k ++ [(x, y)].
Proof.
  revert k. induction l as [|a l IH]; intros k Hlen; destruct k as [|b k];
    try discriminate; [reflexivity|].
  cbn. f_equal. apply IH. now injection Hlen.
Qed.

Lemma hold_node (t : Tree) (prev : option ptr) (s : shape) :
  hold t prev s -> is_Some (nodes t !! shape_root s).
Proof. intros H. inversion H; subst. cbn. eauto. Qed.

Lemma hold_kid (t : Tree) (prev : option ptr) (n : ptr)
  (kids : list (nat * ptr * shape)) (kd : nat * ptr * shape) :
  hold t prev (Sh n kids) -> kd ∈ kids ->
  joins t (kid_edge kd) n (shape_root (kid_sub kd)) /\ hold t (Some n) (kid_sub kd).
Proof.
  intros H Hkd. inversion H as [? ? ? ? nd Hnd Hlen Hadj Hup Hkids]; subst.
  rewrite Forall_forall in Hkids. apply (Hkids kd Hkd).
Qed.

Lemma hold_nodes_real (t : Tree) (s : shape) :
  forall prev, hold t prev s -> forall x, x ∈ shape_nodes s -> is_Some (nodes t !! x).
Proof.
  induction s as [n kids IH] using shape_ind'. intros prev H x Hx.
  cbn [shape_nodes] in Hx. apply elem_of_cons in Hx as [->|Hx].
  - apply (hold_node t prev (Sh n kids) H).
  - apply elem_of_flat_map in Hx as (kd & Hkd & Hx).
    destruct (hold_kid t prev n kids kd H Hkd) as [_ Hk].
    rewrite Forall_forall in IH. apply (IH kd Hkd (Some n) Hk x Hx).
Qed.

(** A subtree is held by any tree that has the same nodes on it and the
    same edges. *)
Lemma hold_frame (t t' : Tree) (s : shape) :
  (forall e ed, edges t !! e = Some ed -> edges t' !! e = Some ed) ->
  forall prev, hold t prev s ->
  (forall x, x ∈ shape_nodes s -> nodes t' !! x = nodes t !! x) ->
  hold t' prev s.
Proof.
  intros Hedges. induction s as [n kids IH] using shape_ind'. intros prev H Hsame.
  inversion H as [? ep ? ? nd Hnd Hlen Hadj Hup Hkids]; subst.
  assert (Hj : forall e l r, joins t e l r -> joins t' e l r).
  { intros e l r (ed & Hed & Hl & Hr). exists ed. auto. }
  apply (hold_intro t' prev ep n kids nd); try assumption.
  - rewrite Hsame; [assumption|]. cbn [shape_nodes]. apply elem_of_cons. now left.
  - intros p Hp. apply Hj, Hup, Hp.
  - rewrite Forall_forall in *. intros kd Hkd. destruct (Hkids kd Hkd) as [Hjk Hk].
    split; [now apply Hj|]. apply (IH kd Hkd (Some n) Hk).
    intros x Hx. apply Hsame. cbn [shape_nodes]. apply elem_of_cons. right.
    apply elem_of_flat_map. exists kd. split; assumption.
Qed.

(** *** The steps of the regrouping, run forward *)

Lemma mbind_run {A B} (c : M A) (k : A -> M B) (t t' : Tree) (a : A) :
  c t = Ret (a, t') -> mbind c k t = k a t'.
Proof. intros H. unfold mbind. now rewrite H. Qed.

Lemma get_node_run (t : Tree) (p : ptr) (nd : Node) :
  nodes t !! p = Some nd -> get_node p t = Ret (nd, t).
Proof. intros H. unfold get_node, mread, node_at. now rewrite H. Qed.

Lemma get_edge_run (t : Tree) (p : ptr) (ed : Edge) :
  edges t !! p = Some ed -> get_edge p t = Ret (ed, t).
Proof. intros H. unfold get_edge, mread, edge_at. now rewrite H. Qed.

Lemma upd_node_run (t : Tree) (p : ptr) (nd : Node) (f : Node -> Node) :
  nodes t !! p = Some nd -> upd_node p f t = Ret (tt, put_node t p (f nd)).
Proof.
  intros H. unfold upd_node. rewrite (mbind_run _ _ t t nd (get_node_run t p nd H)).
  reflexivity.
Qed.

Lemma upd_edge_run (t : Tree) (p : ptr) (ed : Edge) (f : Edge -> Edge) :
  edges t !! p = Some ed -> upd_edge p f t = Ret (tt, put_edge t p (f ed)).
Proof.
  intros H. unfold upd_edge. rewrite (mbind_run _ _ t t ed (get_edge_run t p ed H)).
  reflexivity.
Qed.

Lemma put_node_eq (t : Tree) (p : ptr) (nd v : Node) :
  nodes t !! p = Some nd -> nodes (put_node t p v) !! p = Some v.
Proof.
  intros H. unfold put_node. cbn [set_nodes nodes]. apply list_lookup_insert_eq.
  eapply lookup_lt_Some; eassumption.
Qed.

Lemma put_node_ne (t : Tree) (p x : ptr) (v : Node) :
  x <> p -> nodes (put_node t p v) !! x = nodes t !! x.
Proof. intros H. unfold put_node. cbn [set_nodes nodes]. now apply list_lookup_insert_ne. Qed.

Lemma put_node_same_but (t : Tree) (p : ptr) (v : Node) :
  same_but [p] t (put_node t p v).
Proof.
  split; try reflexivity.
  - unfold put_node. cbn [set_nodes nodes]. apply length_insert.
  - intros x Hx. apply put_node_ne. intros ->. apply Hx, elem_of_cons. now left.
Qed.

Lemma same_but_trans (l1 l2 l : list ptr) (t1 t2 t3 : Tree) :
  same_but l1 t1 t2 -> same_but l2 t2 t3 ->
  (forall x, x ∈ l1 -> x ∈ l) -> (forall x, x ∈ l2 -> x ∈ l) ->
  same_but l t1 t3.
Proof.
  intros H1 H2 Hl1 Hl2. split.
  - rewrite (sb_root _ _ _ H2). apply H1.
  - rewrite (sb_tipIndex _ _ _ H2). apply H1.
  - rewrite (sb_length _ _ _ H2). apply H1.
  - intros x Hx. rewrite (sb_nodes _ _ _ H2), (sb_nodes _ _ _ H1); [reflexivity|..];
      intros H; apply Hx; auto.
Qed.

Lemma index_of_Some (x : ptr) (l : list ptr) (i : nat) :
  index_of x l = Some i -> l !! i = Some x.
Proof.
  revert i. induction l as [|y l IH]; intros i H; [discriminate|]. cbn [index_of] in H.
  destruct (Nat.eqb y x) eqn:Hy.
  - apply Nat.eqb_eq in Hy. injection H as <-. now subst.
  - destruct (index_of x l) as [j|]; [|discriminate]. injection H as <-.
    cbn. now apply IH.
Qed.

Lemma index_of_elem (x : ptr) (l : list ptr) :
  x ∈ l -> exists i, index_of x l = Some i.
Proof.
  induction l as [|y l IH]; intros H; [inversion H|]. cbn [index_of].
  destruct (Nat.eqb y x) eqn:Hy; [now exists 0|].
  apply elem_of_cons in H as [->|H]; [rewrite Nat.eqb_refl in Hy; discriminate|].
  destruct (IH H) as [i Hi]. rewrite Hi. now exists (S i).
Qed.

Lemma delNeighbor_run (t : Tree) (p o : ptr) (nd : Node) (i : nat) :
  nodes t !! p = Some nd -> index_of o (n_neigh nd) = Some i ->
  length (n_br nd) = length (n_neigh nd) ->
  delNeighbor (Some p) o t = Ret (None, put_node t p (detach nd i)).
Proof.
  intros Hnd Hi Hlen. unfold delNeighbor.
  unfold mbind at 1. unfold mread at 1. cbn [of_option obind].
  rewrite (mbind_run _ _ t t nd (get_node_run t p nd Hnd)).
  unfold NodeIndex. rewrite Hi.
  assert (Hlt : i < length (n_br nd)).
  { rewrite Hlen. apply index_of_Some in Hi. eapply lookup_lt_Some; eassumption. }
  apply Nat.ltb_lt in Hlt. rewrite Hlt.
  rewrite (mbind_run _ _ t _ tt (upd_node_run t p nd _ Hnd)). reflexivity.
Qed.

Lemma insert_last {A} (l : list A) (x y : A) :
  <[length l := y]> (l ++ [x]) = l ++ [y].
Proof.
  rewrite insert_app_r_alt by lia. now rewrite Nat.sub_diag.
Qed.

Lemma lookup_last {A} (l : list A) (x : A) : (l ++ [x]) !! length l = Some x.
Proof. rewrite lookup_app_r by lia. now rewrite Nat.sub_diag. Qed.

Lemma ConnectNodes_run (t : Tree) (a b : ptr) (na nb : Node) :
  a <> b -> nodes t !! a = Some na -> nodes t !! b = Some nb ->
  exists t',
    ConnectNodes a b t = Ret (length (edges t), t') /\
    edges t' = edges t ++ [new_edge a b NIL_LENGTH NIL_SUPPORT NIL_PVALUE] /\
    same_but [a; b] t t' /\
    nodes t' !! a = Some (attach na b (length (edges t))) /\
    nodes t' !! b = Some (attach nb a (length (edges t))).
Proof.
  intros Hab Ha Hb. set (M := length (edges t)).
  set (e0 := mkEdge None None NIL_LENGTH NIL_SUPPORT NIL_PVALUE NIL_ID None).
  set (t0 := set_edges t (edges t ++ [e0])).
  set (t1 := put_edge t0 M (with_ends e0 (Some a) (e_right e0))).
  set (t2 := put_edge t1 M
               (with_ends (with_ends e0 (Some a) (e_right e0))
                  (e_left (with_ends e0 (Some a) (e_right e0))) (Some b))).
  set (t3 := put_node t2 a (attach na b M)).
  set (t4 := put_node t3 b (attach nb a M)).
  assert (H0 : edges t0 !! M = Some e0) by apply lookup_last.
  assert (H1 : edges t1 !! M = Some (with_ends e0 (Some a) (e_right e0))).
  { unfold t1, put_edge. cbn [set_edges edges]. unfold t0. cbn [set_edges edges].
    unfold M. rewrite insert_last. apply lookup_last. }
  assert (Ha2 : nodes t2 !! a = Some na) by exact Ha.
  assert (Hb3 : nodes t3 !! b = Some nb).
  { unfold t3. rewrite put_node_ne by auto. exact Hb. }
  exists t4. split; [|split; [|split; [|split]]].
  - unfold ConnectNodes. unfold mbind at 1. fold M. fold e0. fold t0.
    change (NewEdge t) with (M, t0). cbv beta iota.
    rewrite (mbind_run _ _ t0 t1 tt (upd_edge_run t0 M e0 _ H0)).
    rewrite (mbind_run _ _ t1 t2 tt (upd_edge_run t1 M _ _ H1)).
    unfold addChild.
    rewrite (mbind_run _ _ t2 t3 tt (upd_node_run t2 a na _ Ha2)).
    rewrite (mbind_run _ _ t3 t4 tt (upd_node_run t3 b nb _ Hb3)).
    reflexivity.
  - unfold t4, t3, t2, t1, t0, put_node, put_edge. cbn [set_nodes set_edges edges].
    unfold M. now rewrite !insert_last.
  - split; try reflexivity.
    + unfold t4, t3, put_node. cbn [set_nodes nodes]. now rewrite !length_insert.
    + intros x Hx. unfold t4. rewrite put_node_ne.
      * unfold t3. rewrite put_node_ne; [reflexivity|].
        intros ->. apply Hx, elem_of_cons. now left.
      * intros ->. apply Hx, elem_of_cons. right. apply elem_of_cons. now left.
  - unfold t4. rewrite put_node_ne by auto. unfold t3. eapply put_node_eq. exact Ha2.
  - unfold t4. eapply put_node_eq. exact Hb3.
Qed.

(** The three setters called on the edge that has just been made. *)
Lemma set_attrs_run {B} (t : Tree) (es : list Edge) (ed : Edge) (len sup pv : float)
  (k : M B) :
  edges t = es ++ [ed] ->
  (upd_edge (length es) (fun x => with_length x len);;
   upd_edge (length es) (fun x => with_support x sup);;
   upd_edge (length es) (fun x => with_pvalue x pv);;
   k) t
  = k (set_edges t (es ++ [with_pvalue (with_support (with_length ed len) sup) pv])).
Proof.
  intros He.
  assert (H0 : edges t !! length es = Some ed) by (rewrite He; apply lookup_last).
  rewrite (mbind_run _ _ t _ tt (upd_edge_run t _ ed _ H0)).
  set (t1 := put_edge t (length es) (with_length ed len)).
  assert (He1 : edges t1 = es ++ [with_length ed len]).
  { unfold t1, put_edge. cbn [set_edges edges]. rewrite He. apply insert_last. }
  assert (H1 : edges t1 !! length es = Some (with_length ed len))
    by (rewrite He1; apply lookup_last).
  rewrite (mbind_run _ _ t1 _ tt (upd_edge_run t1 _ _ _ H1)).
  set (t2 := put_edge t1 (length es) (with_support (with_length ed len) sup)).
  assert (He2 : edges t2 = es ++ [with_support (with_length ed len) sup]).
  { unfold t2, put_edge. cbn [set_edges edges]. rewrite He1. apply insert_last. }
  assert (H2 : edges t2 !! length es = Some (with_support (with_length ed len) sup))
    by (rewrite He2; apply lookup_last).
  rewrite (mbind_run _ _ t2 _ tt (upd_edge_run t2 _ _ _ H2)).
  f_equal. unfold put_edge. cbn [set_edges edges nodes root tipIndex].
  rewrite He2, insert_last. reflexivity.
Qed.

(** One regrouping: the child [o] behind the last edge [e] of [togroup]
    leaves [c] and is hung under [n2] by a new edge with the length, the
    support and the p-value of [e]. *)
Lemma regroup_one_run (t : Tree) (c n2 : ptr) (L : list (option ptr)) (e o : ptr)
  (ed : Edge) (ndo ndc ndn : Node) (i j : nat) :
  edges t !! e = Some ed -> e_right ed = Some o ->
  nodes t !! o = Some ndo -> index_of c (n_neigh ndo) = Some i ->
  length (n_br ndo) = length (n_neigh ndo) ->
  nodes t !! c = Some ndc -> index_of o (n_neigh ndc) = Some j ->
  length (n_br ndc) = length (n_neigh ndc) ->
  nodes t !! n2 = Some ndn ->
  o <> c -> n2 <> o -> n2 <> c ->
  exists t',
    regroup_one c n2 (L ++ [Some e]) t = Ret (L, t') /\
    edges t' = edges t ++ [new_edge n2 o (e_length ed) (e_support ed) (e_pvalue ed)] /\
    same_but [o; c; n2] t t' /\
    nodes t' !! o = Some (attach (detach ndo i) n2 (length (edges t))) /\
    nodes t' !! c = Some (detach ndc j) /\
    nodes t' !! n2 = Some (attach ndn o (length (edges t))).
Proof.
  intros Hed Hr Ho Hi Hlo Hc Hj Hlc Hn Hoc Hno Hnc.
  set (t1 := put_node t o (detach ndo i)).
  set (t2 := put_node t1 c (detach ndc j)).
  assert (Hc1 : nodes t1 !! c = Some ndc).
  { unfold t1. rewrite put_node_ne by auto. exact Hc. }
  assert (Hn2 : nodes t2 !! n2 = Some ndn).
  { unfold t2, t1. rewrite !put_node_ne by auto. exact Hn. }
  assert (Ho2 : nodes t2 !! o = Some (detach ndo i)).
  { unfold t2. rewrite put_node_ne by auto. unfold t1. eapply put_node_eq. exact Ho. }
  destruct (ConnectNodes_run t2 n2 o ndn (detach ndo i) Hno Hn2 Ho2)
    as (t3 & Hrun3 & Hedges3 & Hsame3 & Hn3 & Ho3).
  change (edges t2) with (edges t) in *.
  set (E := new_edge n2 o (e_length ed) (e_support ed) (e_pvalue ed)).
  exists (set_edges t3 (edges t ++ [E])).
  split; [|split; [reflexivity|split; [|split; [|split]]]].
  - unfold regroup_one. unfold mbind at 1. unfold mread at 1.
    rewrite last_snoc. cbn [of_option obind]. rewrite removelast_last.
    unfold mbind at 1. unfold mread at 1. cbn [of_option obind].
    rewrite (mbind_run _ _ t t ed (get_edge_run t e ed Hed)).
    rewrite Hr. unfold mbind at 1. unfold mread at 1. cbn [of_option obind].
    rewrite (mbind_run _ _ t t1 None (delNeighbor_run t o c ndo i Ho Hi Hlo)).
    rewrite (mbind_run _ _ t1 t2 None (delNeighbor_run t1 c o ndc j Hc1 Hj Hlc)).
    rewrite (mbind_run _ _ t2 t3 _ Hrun3).
    rewrite (set_attrs_run t3 (edges t) _ _ _ _ _ Hedges3). reflexivity.
  - assert (H12 : same_but [o; c] t t2).
    { split; try reflexivity.
      - unfold t2, t1, put_node. cbn [set_nodes nodes]. now rewrite !length_insert.
      - intros x Hx. unfold t2, t1. rewrite !put_node_ne; [reflexivity|..];
          intros ->; apply Hx; [|apply elem_of_cons; right]; apply elem_of_cons; now left. }
    split.
    + cbn [set_edges root]. rewrite (sb_root _ _ _ Hsame3). reflexivity.
    + cbn [set_edges tipIndex]. rewrite (sb_tipIndex _ _ _ Hsame3). reflexivity.
    + cbn [set_edges nodes]. rewrite (sb_length _ _ _ Hsame3). apply H12.
    + intros x Hx. cbn [set_edges nodes]. rewrite (sb_nodes _ _ _ Hsame3).
      * apply (sb_nodes _ _ _ H12). intros H. apply Hx.
        apply elem_of_cons in H as [->|H]; [apply elem_of_cons; now left|].
        apply elem_of_cons. right. apply elem_of_cons. left.
        now apply list_elem_of_singleton in H.
      * intros H. apply Hx. apply elem_of_cons in H as [->|H].
        -- apply elem_of_cons. right. apply elem_of_cons. right. apply elem_of_cons. now left.
        -- apply list_elem_of_singleton in H. subst. apply elem_of_cons. now left.
  - exact Ho3.
  - cbn [set_edges nodes]. rewrite (sb_nodes _ _ _ Hsame3).
    + unfold t2. eapply put_node_eq. exact Hc1.
    + intros H. apply elem_of_cons in H as [->|H]; [now apply Hnc|].
      apply list_elem_of_singleton in H. now apply Hoc.
  - exact Hn3.
Qed.

Lemma delete_length_eq {A B} (i : nat) (l : list A) (k : list B) :
  length l = length k -> length (delete i l) = length (delete i k).
Proof.
  revert i k. induction l as [|x l IH]; intros i k H; destruct k as [|y k];
    try discriminate; [reflexivity|].
  destruct i; cbn; [now injection H|]. f_equal. apply IH. now injection H.
Qed.

Lemma detach_length (nd : Node) (i : nat) :
  length (n_br nd) = length (n_neigh nd) ->
  length (n_br (detach nd i)) = length (n_neigh (detach nd i)).
Proof. intros H. cbn. now apply delete_length_eq. Qed.

Lemma attach_length (nd : Node) (n e : ptr) :
  length (n_br nd) = length (n_neigh nd) ->
  length (n_br (attach nd n e)) = length (n_neigh (attach nd n e)).
Proof. intros H. cbn. rewrite !length_app. cbn. lia. Qed.

(** One round of [for len(current.Neigh()) > 3]: the children behind the
    two last edges of [togroup] are hung under a new node, itself hung
    under [c] by a new edge of length 0. *)
Lemma regroup_iter (t : Tree) (fuel : nat) (c : ptr) (L0 : list (option ptr))
  (e1 e2 o1 o2 : ptr) (ed1 ed2 : Edge) (ndc ndo1 ndo2 : Node) (i1 i2 j1 j2 : nat) :
  nodes t !! c = Some ndc -> 3 < length (n_neigh ndc) ->
  length (n_br ndc) = length (n_neigh ndc) ->
  edges t !! e1 = Some ed1 -> e_right ed1 = Some o1 ->
  edges t !! e2 = Some ed2 -> e_right ed2 = Some o2 ->
  nodes t !! o1 = Some ndo1 -> index_of c (n_neigh ndo1) = Some i1 ->
  length (n_br ndo1) = length (n_neigh ndo1) ->
  nodes t !! o2 = Some ndo2 -> index_of c (n_neigh ndo2) = Some i2 ->
  length (n_br ndo2) = length (n_neigh ndo2) ->
  index_of o1 (n_neigh ndc) = Some j1 ->
  index_of o2 (delete j1 (n_neigh ndc)) = Some j2 ->
  o1 <> c -> o2 <> c -> o1 <> o2 ->
  exists t',
    regroup_loop (S fuel) c ((L0 ++ [Some e2]) ++ [Some e1]) t
    = regroup_loop fuel c (L0 ++ [Some (length (edges t) + 2)]) t' /\
    edges t' = edges t
                 ++ [new_edge (length (nodes t)) o1 (e_length ed1) (e_support ed1)
                       (e_pvalue ed1);
                     new_edge (length (nodes t)) o2 (e_length ed2) (e_support ed2)
                       (e_pvalue ed2);
                     new_edge c (length (nodes t)) 0%float NIL_SUPPORT NIL_PVALUE] /\
    root t' = root t /\ tipIndex t' = tipIndex t /\
    length (nodes t') = S (length (nodes t)) /\
    (forall x, x ∉ [o1; o2; c; length (nodes t)] -> nodes t' !! x = nodes t !! x) /\
    nodes t' !! o1 = Some (attach (detach ndo1 i1) (length (nodes t)) (length (edges t))) /\
    nodes t' !! o2
      = Some (attach (detach ndo2 i2) (length (nodes t)) (length (edges t) + 1)) /\
    nodes t' !! c
      = Some (attach (detach (detach ndc j1) j2) (length (nodes t))
                (length (edges t) + 2)) /\
    nodes t' !! length (nodes t)
      = Some (attach (attach (attach new_node o1 (length (edges t))) o2
                        (length (edges t) + 1)) c (length (edges t) + 2)).
Proof.
  intros Hc Hdeg Hlc He1 Hr1 He2 Hr2 Ho1 Hi1 Hlo1 Ho2 Hi2 Hlo2 Hj1 Hj2 Hoc1 Hoc2 Ho12.
  set (N := length (nodes t)). set (M := length (edges t)).
  set (t0 := set_nodes t (nodes t ++ [new_node])).
  assert (Hold : forall x nd, nodes t !! x = Some nd -> nodes t0 !! x = Some nd /\ x <> N).
  { intros x nd Hx. pose proof (lookup_lt_Some _ _ _ Hx) as Hlt. split.
    - unfold t0. cbn [set_nodes nodes]. rewrite lookup_app_l by exact Hlt. exact Hx.
    - unfold N. lia. }
  destruct (Hold c ndc Hc) as [Hc0 HcN]. destruct (Hold o1 ndo1 Ho1) as [Ho10 Ho1N].
  destruct (Hold o2 ndo2 Ho2) as [Ho20 Ho2N].
  assert (HN0 : nodes t0 !! N = Some new_node) by apply lookup_last.
  destruct (regroup_one_run t0 c N (L0 ++ [Some e2]) e1 o1 ed1 ndo1 ndc new_node i1 j1)
    as (t1 & Hrun1 & Hedges1 & Hsame1 & Ho11 & Hc1 & HN1); try assumption; try congruence.
  change (edges t0) with (edges t) in *. fold M in Hedges1, Ho11, HN1.
  assert (Ho21 : nodes t1 !! o2 = Some ndo2).
  { rewrite (sb_nodes _ _ _ Hsame1); [exact Ho20|]. intros H.
    repeat (apply elem_of_cons in H as [H|H]; [congruence|]). inversion H. }
  assert (He21 : edges t1 !! e2 = Some ed2).
  { rewrite Hedges1. rewrite lookup_app_l; [exact He2|]. eapply lookup_lt_Some; eassumption. }
  destruct (regroup_one_run t1 c N L0 e2 o2 ed2 ndo2 (detach ndc j1)
              (attach new_node o1 M) i2 j2)
    as (t2 & Hrun2 & Hedges2 & Hsame2 & Ho22 & Hc2 & HN2); try assumption; try congruence.
  { now apply detach_length. }
  assert (HM1 : length (edges t1) = M + 1).
  { rewrite Hedges1, length_app. cbn. reflexivity. }
  rewrite HM1 in Ho22, HN2.
  assert (Ho12' : nodes t2 !! o1 = Some (attach (detach ndo1 i1) N M)).
  { rewrite (sb_nodes _ _ _ Hsame2); [exact Ho11|]. intros H.
    repeat (apply elem_of_cons in H as [H|H]; [congruence|]). inversion H. }
  destruct (ConnectNodes_run t2 c N (detach (detach ndc j1) j2)
              (attach (attach new_node o1 M) o2 (M + 1)))
    as (t3 & Hrun3 & Hedges3 & Hsame3 & Hc3 & HN3); try assumption; try congruence.
  assert (HM2 : length (edges t2) = M + 2).
  { rewrite Hedges2, length_app, HM1. cbn. lia. }
  rewrite HM2 in Hrun3, Hc3, HN3.
  set (E3 := new_edge c N 0%float NIL_SUPPORT NIL_PVALUE).
  exists (set_edges t3 (edges t2 ++ [E3])).
  split; [|split; [|split; [|split; [|split; [|split; [|split; [|split; [|split]]]]]]]].
  - cbn [regroup_loop]. rewrite (mbind_run _ _ t t ndc (get_node_run t c ndc Hc)).
    apply Nat.ltb_lt in Hdeg. rewrite Hdeg.
    unfold mbind at 1. change (NewNode t) with (N, t0). cbv beta iota.
    rewrite (mbind_run _ _ t0 t1 _ Hrun1).
    rewrite (mbind_run _ _ t1 t2 _ Hrun2).
    rewrite (mbind_run _ _ t2 t3 _ Hrun3).
    rewrite <- HM2.
    rewrite (set_attrs_run t3 (edges t2) _ _ _ _ _ Hedges3). reflexivity.
  - cbn [set_edges edges]. rewrite Hedges2, Hedges1. rewrite <- !app_assoc. reflexivity.
  - cbn [set_edges root]. rewrite (sb_root _ _ _ Hsame3), (sb_root _ _ _ Hsame2).
    apply (sb_root _ _ _ Hsame1).
  - cbn [set_edges tipIndex].
    rewrite (sb_tipIndex _ _ _ Hsame3), (sb_tipIndex _ _ _ Hsame2).
    apply (sb_tipIndex _ _ _ Hsame1).
  - cbn [set_edges nodes].
    rewrite (sb_length _ _ _ Hsame3), (sb_length _ _ _ Hsame2), (sb_length _ _ _ Hsame1).
    unfold t0. cbn [set_nodes nodes]. rewrite length_app. cbn. fold N. lia.
  - intros x Hx. cbn [set_edges nodes].
    assert (Hx1 : x <> o1) by (intros ->; apply Hx, elem_of_cons; now left).
    assert (Hx2 : x <> o2)
      by (intros ->; apply Hx, elem_of_cons; right; apply elem_of_cons; now left).
    assert (Hx3 : x <> c)
      by (intros ->; apply Hx; do 2 (apply elem_of_cons; right); apply elem_of_cons;
          now left).
    assert (Hx4 : x <> N)
      by (intros ->; apply Hx; do 3 (apply elem_of_cons; right); apply elem_of_cons;
          now left).
    rewrite (sb_nodes _ _ _ Hsame3), (sb_nodes _ _ _ Hsame2), (sb_nodes _ _ _ Hsame1).
    + unfold t0. cbn [set_nodes nodes].
      destruct (decide (x < N)) as [Hlt|Hge].
      * now rewrite lookup_app_l.
      * rewrite !lookup_ge_None_2; [reflexivity|fold N; lia|].
        rewrite length_app. cbn. fold N. lia.
    + intros H. repeat (apply elem_of_cons in H as [H|H]; [congruence|]). inversion H.
    + intros H. repeat (apply elem_of_cons in H as [H|H]; [congruence|]). inversion H.
    + intros H. repeat (apply elem_of_cons in H as [H|H]; [congruence|]). inversion H.
  - cbn [set_edges nodes]. rewrite (sb_nodes _ _ _ Hsame3); [exact Ho12'|].
    intros H. repeat (apply elem_of_cons in H as [H|H]; [congruence|]). inversion H.
  - cbn [set_edges nodes]. rewrite (sb_nodes _ _ _ Hsame3); [exact Ho22|].
    intros H. repeat (apply elem_of_cons in H as [H|H]; [congruence|]). inversion H.
  - exact Hc3.
  - exact HN3.
Qed.

(** *** Shapes up to the order of the children *)

Lemma adj_fst (nd : Node) :
  length (n_br nd) = length (n_neigh nd) -> (adj nd).*1 = n_neigh nd.
Proof. intros H. unfold adj. apply fst_zip. lia. Qed.

Lemma adj_length (nd : Node) :
  length (n_br nd) = length (n_neigh nd) -> length (adj nd) = length (n_neigh nd).
Proof. intros H. unfold adj. rewrite length_zip_with. lia. Qed.

Lemma adj_detach (nd : Node) (i : nat) : adj (detach nd i) = delete i (adj nd).
Proof. unfold adj, detach. destruct nd. cbn. apply zip_delete. Qed.

Lemma adj_attach (nd : Node) (n e : ptr) :
  length (n_br nd) = length (n_neigh nd) -> adj (attach nd n e) = adj nd ++ [(n, e)].
Proof. intros H. unfold adj, attach. destruct nd. cbn in *. apply zip_snoc. lia. Qed.

(** The entry of a neighbor that occurs once is the one to go when the
    neighbor is removed. *)
Lemma perm_remove (A rest : list (ptr * ptr)) (o e : ptr) (j : nat) :
  NoDup (A.*1) -> A ≡ₚ (o, e) :: rest -> index_of o (A.*1) = Some j ->
  delete j A ≡ₚ rest.
Proof.
  intros Hnd Hperm Hj. apply index_of_Some in Hj.
  apply list_lookup_fmap_Some in Hj as ([o' b] & Ho & Hb). cbn in Ho. subst o'.
  assert (Hin : (o, b) ∈ (o, e) :: rest).
  { rewrite <- Hperm. eapply list_elem_of_lookup_2. exact Hb. }
  assert (Hnd' : NoDup (((o, e) :: rest).*1)) by now rewrite <- Hperm.
  cbn in Hnd'. apply NoDup_cons in Hnd' as [Hnot _].
  apply elem_of_cons in Hin as [Heq|Hin].
  - injection Heq as ->. apply (Permutation_cons_inv (a := (o, e))).
    rewrite <- Hperm. symmetry. now apply delete_Permutation.
  - exfalso. apply Hnot. apply list_elem_of_fmap. exists (o, b). split; [reflexivity|exact Hin].
Qed.

Lemma hold_perm (t : Tree) (prev : option ptr) (n : ptr)
  (kids kids' : list (nat * ptr * shape)) :
  kids ≡ₚ kids' -> hold t prev (Sh n kids) -> hold t prev (Sh n kids').
Proof.
  intros Hp H. inversion H as [? ep ? ? nd Hnd Hlen Hadj Hup Hkids]; subst.
  apply (hold_intro t prev ep n kids' nd); try assumption.
  - rewrite Hadj. apply Permutation_app_head. now apply Permutation_map.
  - now rewrite <- Hp.
Qed.

Lemma shape_nodes_perm (n : ptr) (kids kids' : list (nat * ptr * shape)) :
  kids ≡ₚ kids' -> shape_nodes (Sh n kids) ≡ₚ shape_nodes (Sh n kids').
Proof.
  intros Hp. cbn [shape_nodes]. apply perm_skip. now apply Permutation_flat_map.
Qed.

Lemma shape_subs_perm (n : ptr) (kids kids' : list (nat * ptr * shape)) :
  kids ≡ₚ kids' -> shape_subs (Sh n kids) ≡ₚ shape_subs (Sh n kids').
Proof. intros Hp. cbn [shape_subs]. now apply Permutation_flat_map. Qed.

Lemma tidy_perm (t : Tree) (prev : option ptr) (n : ptr)
  (kids kids' : list (nat * ptr * shape)) :
  kids ≡ₚ kids' -> tidy t prev (Sh n kids) -> tidy t prev (Sh n kids').
Proof.
  intros Hp (Hh & Hnd & Hprev). pose proof (shape_nodes_perm n kids kids' Hp) as Hn.
  split; [|split].
  - now apply (hold_perm t prev n kids kids').
  - now rewrite <- Hn.
  - intros p Hpp. rewrite <- Hn. now apply Hprev.
Qed.

Lemma regrouped_perm (tp : Tree) (s0 : shape) (prev : option ptr) (pend : list ptr)
  (t : Tree) (n : ptr) (kids kids' : list (nat * ptr * shape)) :
  kids ≡ₚ kids' ->
  regrouped tp s0 prev pend t (Sh n kids) -> regrouped tp s0 prev pend t (Sh n kids').
Proof.
  intros Hp H. pose proof (shape_nodes_perm n kids kids' Hp) as Hn.
  pose proof (shape_subs_perm n kids kids' Hp) as Hs.
  destruct H. constructor; try assumption.
  - now apply (tidy_perm t prev n kids kids').
  - intros x Hx. rewrite <- Hn. auto.
  - intros x Hx. rewrite <- Hn in Hx. auto.
  - intros x Hx. rewrite <- Hn in Hx. auto.
  - intros e' sub' Hx. rewrite <- Hs in Hx. auto.
  - intros e' sub' Hx. rewrite <- Hs in Hx. eauto.
Qed.

Lemma root_in_nodes (s : shape) : shape_root s ∈ shape_nodes s.
Proof. destruct s. cbn. apply elem_of_cons. now left. Qed.

Lemma kid_nodes_in (n : ptr) (kids : list (nat * ptr * shape)) (kd : nat * ptr * shape)
  (x : ptr) :
  kd ∈ kids -> x ∈ shape_nodes (kid_sub kd) -> x ∈ shape_nodes (Sh n kids).
Proof.
  intros Hkd Hx. cbn [shape_nodes]. apply elem_of_cons. right.
  apply elem_of_flat_map. exists kd. split; assumption.
Qed.

Lemma roots_nodup (kids : list (nat * ptr * shape)) :
  NoDup (flat_map (fun k => shape_nodes (snd k)) kids) ->
  NoDup (map (fun k => shape_root (kid_sub k)) kids).
Proof.
  induction kids as [|kd kids IH]; intros H; [constructor|].
  cbn [flat_map] in H. apply NoDup_app in H as (H1 & H2 & H3).
  cbn [map]. apply NoDup_cons. split; [|now apply IH].
  intros Hin. apply list_elem_of_fmap in Hin as (kd' & Heq & Hkd').
  apply (H2 (shape_root (kid_sub kd))); [apply root_in_nodes|].
  apply elem_of_flat_map. exists kd'. split; [exact Hkd'|].
  rewrite Heq. apply root_in_nodes.
Qed.

Lemma ups_fst (prev : option ptr) (ep : ptr) (x : ptr) :
  x ∈ (ups prev ep).*1 -> prev = Some x.
Proof.
  destruct prev as [p|]; cbn; intros H; [|inversion H].
  apply list_elem_of_singleton in H. now subst.
Qed.

Lemma tidy_adj_nodup (t : Tree) (prev : option ptr) (ep n : ptr)
  (kids : list (nat * ptr * shape)) :
  tidy t prev (Sh n kids) -> NoDup ((ups prev ep ++ map down kids).*1).
Proof.
  intros (_ & Hnd & Hprev). cbn [shape_nodes] in Hnd. apply NoDup_cons in Hnd as [_ Hnd].
  rewrite fmap_app. apply NoDup_app. split; [|split].
  - destruct prev; cbn; [apply NoDup_singleton|constructor].
  - intros x Hx Hin. apply ups_fst in Hx. destruct (Hprev x Hx) as [Hnot _].
    apply Hnot. apply list_elem_of_fmap in Hin as (y & -> & Hy).
    apply list_elem_of_fmap in Hy as (kd & -> & Hkd). cbn.
    apply (kid_nodes_in n kids kd); [exact Hkd|apply root_in_nodes].
  - rewrite <- list_fmap_compose. now apply roots_nodup.
Qed.

Lemma tidy_kid (t : Tree) (prev : option ptr) (n : ptr)
  (kids : list (nat * ptr * shape)) (kd : nat * ptr * shape) :
  tidy t prev (Sh n kids) -> kd ∈ kids -> tidy t (Some n) (kid_sub kd).
Proof.
  intros (Hh & Hnd & Hprev) Hkd. destruct (hold_kid t prev n kids kd Hh Hkd) as [_ Hk].
  cbn [shape_nodes] in Hnd. apply NoDup_cons in Hnd as [Hn Hnd].
  split; [exact Hk|split].
  - apply list_elem_of_split in Hkd as (l1 & l2 & ->).
    rewrite flat_map_app in Hnd. cbn [flat_map] in Hnd.
    apply NoDup_app in Hnd as (_ & _ & Hnd). now apply NoDup_app in Hnd as (Hnd & _ & _).
  - intros p Hp. injection Hp as <-. split.
    + intros Hin. apply Hn. apply elem_of_flat_map. exists kd. split; assumption.
    + apply (hold_node t prev (Sh n kids) Hh).
Qed.

Lemma degree_hold (t : Tree) (prev : option ptr) (n : ptr)
  (kids : list (nat * ptr * shape)) :
  hold t prev (Sh n kids) -> degree t n = up_count prev + length kids.
Proof.
  intros H. inversion H as [? ep ? ? nd Hnd Hlen Hadj Hup Hkids]; subst.
  unfold degree. rewrite Hnd. rewrite <- (adj_length nd Hlen), Hadj.
  rewrite length_app, length_map. now destruct prev.
Qed.

(** A child moved under a new node: its entry for the old parent goes, the
    entry for the new one comes at the end. *)
Lemma hold_moved (t t' : Tree) (c o n2 e : ptr) (kk : list (nat * ptr * shape))
  (ndo : Node) (i : nat) :
  tidy t (Some c) (Sh o kk) ->
  nodes t !! o = Some ndo -> index_of c (n_neigh ndo) = Some i ->
  nodes t' !! o = Some (attach (detach ndo i) n2 e) ->
  joins t' e n2 o ->
  (forall e ed, edges t !! e = Some ed -> edges t' !! e = Some ed) ->
  (forall x, x ∈ shape_nodes (Sh o kk) -> x <> o -> nodes t' !! x = nodes t !! x) ->
  hold t' (Some n2) (Sh o kk).
Proof.
  intros Ht Ho Hi Ho' Hj Hedges Hsame. pose proof Ht as (Hh & Hnd & _).
  inversion Hh as [? ep ? ? nd Hnd0 Hlen Hadj Hup Hkids]; subst.
  assert (nd = ndo) by congruence. subst nd.
  pose proof (tidy_adj_nodup t (Some c) ep o kk Ht) as Hnd1. rewrite <- Hadj in Hnd1.
  assert (Hdel : delete i (adj ndo) ≡ₚ map down kk).
  { apply (perm_remove (adj ndo) (map down kk) c ep i Hnd1 Hadj).
    now rewrite (adj_fst ndo Hlen). }
  apply (hold_intro t' (Some n2) e o kk (attach (detach ndo i) n2 e)).
  - exact Ho'.
  - apply attach_length. now apply detach_length.
  - rewrite adj_attach by (now apply detach_length). rewrite adj_detach, Hdel.
    cbn [ups]. symmetry. apply Permutation_cons_append.
  - intros p Hp. injection Hp as <-. exact Hj.
  - rewrite Forall_forall in *. intros kd Hkd. destruct (Hkids kd Hkd) as [Hjk Hk]. split.
    + destruct Hjk as (ed & Hed & Hl & Hr). exists ed. auto.
    + apply (hold_frame t t' (kid_sub kd) Hedges (Some o) Hk).
      intros x Hx. apply Hsame; [now apply (kid_nodes_in o kk kd)|].
      intros ->. cbn [shape_nodes] in Hnd. apply NoDup_cons in Hnd as [Hn _].
      apply Hn. apply elem_of_flat_map. exists kd. split; assumption.
Qed.

Lemma hold_edges_real (t : Tree) (s : shape) :
  forall prev, hold t prev s ->
  forall e sub, (e, sub) ∈ shape_subs s -> is_Some (edges t !! e).
Proof.
  induction s as [n kids IH] using shape_ind'. intros prev H e sub Hx.
  cbn [shape_subs] in Hx. apply elem_of_flat_map in Hx as (kd & Hkd & Hx).
  destruct (hold_kid t prev n kids kd H Hkd) as [Hj Hk].
  apply elem_of_cons in Hx as [Heq|Hx].
  - injection Heq as -> ->. destruct Hj as (ed & Hed & _). unfold kid_edge in Hed. eauto.
  - rewrite Forall_forall in IH. apply (IH kd Hkd (Some n) Hk e sub Hx).
Qed.

Lemma attrs_keep (t t' : Tree) (e : ptr) :
  (forall e ed, edges t !! e = Some ed -> edges t' !! e = Some ed) ->
  is_Some (edges t !! e) -> attrs t' e = attrs t e.
Proof.
  intros H [ed Hed]. pose proof (H e ed Hed) as Hed'. unfold attrs, ptr in *.
  now rewrite Hed, Hed'.
Qed.

Lemma degree_moved (nd : Node) (c n e : ptr) (i : nat) :
  index_of c (n_neigh nd) = Some i ->
  length (n_neigh (attach (detach nd i) n e)) = length (n_neigh nd).
Proof.
  intros Hi. apply index_of_Some in Hi. destruct nd. cbn in *.
  rewrite length_app, length_delete by eauto. cbn.
  apply lookup_lt_Some in Hi. lia.
Qed.

Lemma name_moved (nd : Node) (n e : ptr) (i : nat) :
  n_name (attach (detach nd i) n e) = n_name nd.
Proof. now destruct nd. Qed.

Lemma name_detach (nd : Node) (i : nat) : n_name (detach nd i) = n_name nd.
Proof. now destruct nd. Qed.

Lemma neigh_in_adj (nd : Node) (x e : ptr) :
  length (n_br nd) = length (n_neigh nd) -> (x, e) ∈ adj nd -> x ∈ n_neigh nd.
Proof.
  intros Hlen H. rewrite <- (adj_fst nd Hlen). apply list_elem_of_fmap.
  exists (x, e). split; [reflexivity|exact H].
Qed.

Lemma degree_regrouped (nd : Node) (o1 o2 n e : ptr) (j1 j2 : nat) :
  index_of o1 (n_neigh nd) = Some j1 ->
  index_of o2 (delete j1 (n_neigh nd)) = Some j2 ->
  length (n_neigh (attach (detach (detach nd j1) j2) n e)) + 1 = length (n_neigh nd).
Proof.
  intros H1 H2. apply index_of_Some in H1, H2. destruct nd as [nm ng br ? ? ?]. cbn in *.
  pose proof (lookup_lt_Some _ _ _ H2) as Hlt2.
  pose proof (lookup_lt_Some _ _ _ H1) as Hlt1.
  rewrite length_app, (length_delete _ j2) by eauto.
  rewrite (length_delete _ j1) in * by eauto. cbn. lia.
Qed.

(** *** One round of the regrouping keeps the invariant *)

Lemma regroup_step (tp : Tree) (s0 : shape) (prev : option ptr) (t : Tree) (fuel : nat)
  (c : ptr) (p1 p2 : nat) (e1 e2 : ptr) (s1 s2 : shape)
  (krest : list (nat * ptr * shape)) (L0 : list (option ptr)) :
  regrouped tp s0 prev [] t (Sh c ((p1, e1, s1) :: (p2, e2, s2) :: krest)) ->
  3 < degree t c ->
  exists t',
    regroup_loop (S fuel) c ((L0 ++ [Some e2]) ++ [Some e1]) t
    = regroup_loop fuel c (L0 ++ [Some (length (edges t) + 2)]) t' /\
    regrouped tp s0 prev [] t'
      (Sh c (krest ++ [(0, length (edges t) + 2,
                        Sh (length (nodes t))
                           [(0, length (edges t), s1);
                            (0, length (edges t) + 1, s2)])])) /\
    degree t' c + 1 = degree t c.
Proof.
  intros Hg Hdeg. pose proof (gi_tidy _ _ _ _ _ _ Hg) as Ht.
  pose proof Ht as (Hh & Hnd & Hprev).
  set (kids := (p1, e1, s1) :: (p2, e2, s2) :: krest) in *.
  assert (Hk1 : (p1, e1, s1) ∈ kids) by (apply elem_of_cons; now left).
  assert (Hk2 : (p2, e2, s2) ∈ kids)
    by (apply elem_of_cons; right; apply elem_of_cons; now left).
  assert (Hkr : forall kd, kd ∈ krest -> kd ∈ kids)
    by (intros kd Hkd; do 2 (apply elem_of_cons; right); exact Hkd).
  pose proof (tidy_kid t prev c kids _ Ht Hk1) as Ht1.
  pose proof (tidy_kid t prev c kids _ Ht Hk2) as Ht2.
  destruct (hold_kid t prev c kids _ Hh Hk1) as [Hj1 Hh1].
  destruct (hold_kid t prev c kids _ Hh Hk2) as [Hj2 Hh2].
  destruct s1 as [o1 kk1], s2 as [o2 kk2].
  cbn [kid_sub kid_edge snd fst shape_root] in Ht1, Ht2, Hj1, Hj2, Hh1, Hh2.
  inversion Hh as [? ep ? ? ndc Hc Hlc Hadj Hup Hkids]; subst.
  inversion Hh1 as [? ep1 ? ? ndo1 Ho1 Hlo1 Hadj1 Hup1 Hkids1]; subst.
  inversion Hh2 as [? ep2 ? ? ndo2 Ho2 Hlo2 Hadj2 Hup2 Hkids2]; subst.
  destruct Hj1 as (ed1 & He1 & Hl1 & Hr1). destruct Hj2 as (ed2 & He2 & Hl2 & Hr2).
  (* the nodes at hand are distinct *)
  assert (Hreal : forall x, x ∈ shape_nodes (Sh c kids) -> x < length (nodes t)).
  { intros x Hx. apply lookup_lt_is_Some. apply (hold_nodes_real t _ prev Hh x Hx). }
  assert (Hin1 : o1 ∈ flat_map (fun k => shape_nodes (snd k)) kids).
  { apply elem_of_flat_map. exists (p1, e1, Sh o1 kk1). split; [exact Hk1|].
    apply (root_in_nodes (Sh o1 kk1)). }
  assert (Hin2 : o2 ∈ flat_map (fun k => shape_nodes (snd k)) kids).
  { apply elem_of_flat_map. exists (p2, e2, Sh o2 kk2). split; [exact Hk2|].
    apply (root_in_nodes (Sh o2 kk2)). }
  pose proof Hnd as Hnd'. cbn [shape_nodes] in Hnd'. apply NoDup_cons in Hnd' as [Hcn Hndk].
  assert (Hoc1 : o1 <> c) by (intros ->; now apply Hcn).
  assert (Hoc2 : o2 <> c) by (intros ->; now apply Hcn).
  assert (Ho12 : o1 <> o2).
  { intros ->. unfold kids in Hndk. cbn [flat_map snd shape_nodes] in Hndk.
    apply NoDup_app in Hndk as (_ & Hdis & _). apply (Hdis o2).
    - apply elem_of_cons. now left.
    - apply elem_of_app. left. apply elem_of_cons. now left. }
  (* where the neighbors stand in the lists *)
  assert (Hc1 : exists i1, index_of c (n_neigh ndo1) = Some i1).
  { apply index_of_elem. apply (neigh_in_adj ndo1 c ep1 Hlo1). rewrite Hadj1.
    apply elem_of_cons. now left. }
  assert (Hc2 : exists i2, index_of c (n_neigh ndo2) = Some i2).
  { apply index_of_elem. apply (neigh_in_adj ndo2 c ep2 Hlo2). rewrite Hadj2.
    apply elem_of_cons. now left. }
  destruct Hc1 as [i1 Hi1]. destruct Hc2 as [i2 Hi2].
  pose proof (tidy_adj_nodup t prev ep c kids Ht) as Hnda.
  assert (Hadj' : adj ndc ≡ₚ (o1, e1) :: ups prev ep ++ (o2, e2) :: map down krest).
  { rewrite Hadj. unfold kids. cbn [map]. symmetry. apply Permutation_middle. }
  assert (Hnda1 : NoDup ((adj ndc).*1)) by now rewrite Hadj.
  assert (Hj1 : exists j1, index_of o1 (n_neigh ndc) = Some j1).
  { apply index_of_elem. apply (neigh_in_adj ndc o1 e1 Hlc). rewrite Hadj'.
    apply elem_of_cons. now left. }
  destruct Hj1 as [j1 Hj1].
  assert (Hdel1 : delete j1 (adj ndc) ≡ₚ ups prev ep ++ (o2, e2) :: map down krest).
  { apply (perm_remove (adj ndc) _ o1 e1 j1 Hnda1 Hadj'). now rewrite (adj_fst ndc Hlc). }
  assert (Hdel1' : adj (detach ndc j1) ≡ₚ (o2, e2) :: ups prev ep ++ map down krest).
  { rewrite adj_detach, Hdel1. symmetry. apply Permutation_middle. }
  pose proof (detach_length ndc j1 Hlc) as Hlc1.
  assert (Hnda2 : NoDup ((adj (detach ndc j1)).*1)).
  { rewrite adj_detach, Hdel1. rewrite Hadj' in Hnda1. cbn [fmap list_fmap] in Hnda1.
    now apply NoDup_cons in Hnda1 as [_ Hnda1]. }
  assert (Hj2 : exists j2, index_of o2 (delete j1 (n_neigh ndc)) = Some j2).
  { apply index_of_elem. apply (neigh_in_adj (detach ndc j1) o2 e2 Hlc1). rewrite Hdel1'.
    apply elem_of_cons. now left. }
  destruct Hj2 as [j2 Hj2].
  assert (Hdel2 : delete j2 (delete j1 (adj ndc)) ≡ₚ ups prev ep ++ map down krest).
  { rewrite <- adj_detach.
    apply (perm_remove (adj (detach ndc j1)) _ o2 e2 j2 Hnda2 Hdel1').
    rewrite (adj_fst _ Hlc1). exact Hj2. }
  assert (Hdegc : degree t c = length (n_neigh ndc)) by (unfold degree; now rewrite Hc).
  destruct (regroup_iter t fuel c L0 e1 e2 o1 o2 ed1 ed2 ndc ndo1 ndo2 i1 i2 j1 j2)
    as (t' & Hrun & Hedges & Hroot & Htip & Hlen & Hsame & Ho1' & Ho2' & Hc' & HN');
    try assumption; [now rewrite <- Hdegc|].
  set (N := length (nodes t)) in *. set (M := length (edges t)) in *.
  set (E1 := new_edge N o1 (e_length ed1) (e_support ed1) (e_pvalue ed1)) in *.
  set (E2 := new_edge N o2 (e_length ed2) (e_support ed2) (e_pvalue ed2)) in *.
  set (E3 := new_edge c N 0%float NIL_SUPPORT NIL_PVALUE) in *.
  assert (Hkeep : forall e ed, edges t !! e = Some ed -> edges t' !! e = Some ed).
  { intros e ed Hed. rewrite Hedges. rewrite lookup_app_l; [exact Hed|].
    eapply lookup_lt_Some; eassumption. }
  assert (HM0 : edges t' !! M = Some E1).
  { rewrite Hedges. rewrite lookup_app_r by (unfold M; lia).
    replace (M - length (edges t)) with 0 by (unfold M; lia). reflexivity. }
  assert (HM1 : edges t' !! (M + 1) = Some E2).
  { rewrite Hedges. rewrite lookup_app_r by (unfold M; lia).
    replace (M + 1 - length (edges t)) with 1 by (unfold M; lia). reflexivity. }
  assert (HM2 : edges t' !! (M + 2) = Some E3).
  { rewrite Hedges. rewrite lookup_app_r by (unfold M; lia).
    replace (M + 2 - length (edges t)) with 2 by (unfold M; lia). reflexivity. }
  assert (Hjoin : forall e l r, joins t e l r -> joins t' e l r).
  { intros e l r (ed & Hed & Hl & Hr). exists ed. auto. }
  assert (Huntouched : forall x, x ∈ shape_nodes (Sh c kids) -> x <> o1 -> x <> o2 ->
                                 x <> c -> nodes t' !! x = nodes t !! x).
  { intros x Hx H1 H2 H3. apply Hsame. intros H.
    repeat (apply elem_of_cons in H as [H|H]; [congruence|]).
    apply list_elem_of_singleton in H. apply Hreal in Hx. unfold N in H. lia. }
  assert (Hsub1 : forall x, x ∈ shape_nodes (Sh o1 kk1) -> x ∈ shape_nodes (Sh c kids))
    by (intros x Hx; apply (kid_nodes_in c kids _ x Hk1 Hx)).
  assert (Hsub2 : forall x, x ∈ shape_nodes (Sh o2 kk2) -> x ∈ shape_nodes (Sh c kids))
    by (intros x Hx; apply (kid_nodes_in c kids _ x Hk2 Hx)).
  assert (Hdis12 : forall x, x ∈ shape_nodes (Sh o1 kk1) -> x ∉ shape_nodes (Sh o2 kk2)).
  { intros x Hx. unfold kids in Hndk. cbn [flat_map snd] in Hndk.
    apply NoDup_app in Hndk as (_ & Hdis & _). intros Hx2. apply (Hdis x Hx).
    apply elem_of_app. now left. }
  assert (Hdisr : forall kd x, kd ∈ krest -> x ∈ shape_nodes (kid_sub kd) ->
                               (x ∉ shape_nodes (Sh o1 kk1)) /\
                               (x ∉ shape_nodes (Sh o2 kk2))).
  { intros kd x Hkd Hx. unfold kids in Hndk. cbn [flat_map snd] in Hndk.
    apply NoDup_app in Hndk as (_ & Hdis1 & Hndk).
    apply NoDup_app in Hndk as (_ & Hdis2 & _).
    assert (Hxr : x ∈ flat_map (fun k => shape_nodes (snd k)) krest)
      by (apply elem_of_flat_map; exists kd; split; assumption).
    split; intros Hx'.
    - apply (Hdis1 x Hx'). apply elem_of_app. now right.
    - apply (Hdis2 x Hx' Hxr). }
  (* the subtrees under the new node *)
  assert (Hh1' : hold t' (Some N) (Sh o1 kk1)).
  { apply (hold_moved t t' c o1 N M kk1 ndo1 i1 Ht1 Ho1 Hi1 Ho1').
    - exists E1. auto.
    - exact Hkeep.
    - intros x Hx Hxo. apply Huntouched; [now apply Hsub1|exact Hxo| |].
      + intros ->. apply (Hdis12 o2 Hx). apply (root_in_nodes (Sh o2 kk2)).
      + intros ->. destruct Ht1 as (_ & _ & Hp1). now destruct (Hp1 c eq_refl). }
  assert (Hh2' : hold t' (Some N) (Sh o2 kk2)).
  { apply (hold_moved t t' c o2 N (M + 1) kk2 ndo2 i2 Ht2 Ho2 Hi2 Ho2').
    - exists E2. auto.
    - exact Hkeep.
    - intros x Hx Hxo. apply Huntouched; [now apply Hsub2| |exact Hxo|].
      + intros ->. apply (Hdis12 o1 (root_in_nodes (Sh o1 kk1)) Hx).
      + intros ->. destruct Ht2 as (_ & _ & Hp2). now destruct (Hp2 c eq_refl). }
  set (sN := Sh N [(0, M, Sh o1 kk1); (0, M + 1, Sh o2 kk2)]).
  assert (HhN : hold t' (Some c) sN).
  { apply (hold_intro t' (Some c) (M + 2) N _ _ HN').
    - reflexivity.
    - cbn. symmetry. apply (Permutation_cons_append [(o1, M); (o2, M + 1)] (c, M + 2)).
    - intros p Hp. injection Hp as <-. exists E3. auto.
    - repeat constructor; cbn [kid_sub kid_edge snd fst shape_root].
      + exists E1. auto.
      + exact Hh1'.
      + exists E2. auto.
      + exact Hh2'. }
  set (kids' := krest ++ [(0, M + 2, sN)]).
  assert (Hh' : hold t' prev (Sh c kids')).
  { apply (hold_intro t' prev ep c kids' _ Hc').
    - apply attach_length. apply detach_length. exact Hlc1.
    - rewrite adj_attach by (apply detach_length; exact Hlc1).
      rewrite !adj_detach, Hdel2. unfold kids'. rewrite map_app, app_assoc. reflexivity.
    - intros p Hp. apply Hjoin, Hup, Hp.
    - unfold kids'. apply Forall_app. split.
      + rewrite Forall_forall in *. intros kd Hkd.
        destruct (Hkids kd (Hkr kd Hkd)) as [Hjk Hk]. split; [now apply Hjoin|].
        apply (hold_frame t t' (kid_sub kd) Hkeep (Some c) Hk). intros x Hx.
        destruct (Hdisr kd x Hkd Hx) as [Hn1 Hn2].
        apply Huntouched.
        * apply (kid_nodes_in c kids kd x (Hkr kd Hkd) Hx).
        * intros ->. apply Hn1. apply (root_in_nodes (Sh o1 kk1)).
        * intros ->. apply Hn2. apply (root_in_nodes (Sh o2 kk2)).
        * intros ->. apply Hcn. apply elem_of_flat_map. exists kd. split; [auto|exact Hx].
      + repeat constructor; cbn [kid_sub kid_edge snd fst shape_root].
        * exists E3. auto.
        * exact HhN. }
  assert (Hnodes' : shape_nodes (Sh c kids') ≡ₚ N :: shape_nodes (Sh c kids)).
  { unfold kids', kids, sN. cbn [shape_nodes]. rewrite flat_map_app.
    cbn [flat_map snd shape_nodes]. rewrite !app_nil_r.
    rewrite (Permutation_app_comm (flat_map _ krest)). cbn [app].
    rewrite perm_swap. apply perm_skip. apply perm_skip.
    rewrite <- !app_assoc. reflexivity. }
  assert (Ho1in : o1 ∈ shape_nodes (Sh c kids))
    by apply (kid_nodes_in c kids _ o1 Hk1), (root_in_nodes (Sh o1 kk1)).
  assert (Ho2in : o2 ∈ shape_nodes (Sh c kids))
    by apply (kid_nodes_in c kids _ o2 Hk2), (root_in_nodes (Sh o2 kk2)).
  assert (Hcin : c ∈ shape_nodes (Sh c kids)) by apply (root_in_nodes (Sh c kids)).
  assert (HNfresh : N ∉ shape_nodes (Sh c kids)).
  { intros H. apply Hreal in H. unfold N in H. lia. }
  assert (Hd' : degree t' c + 1 = degree t c).
  { unfold degree. unfold ptr in *. rewrite Hc', Hc.
    apply (degree_regrouped ndc o1 o2 N (M + 2) j1 j2 Hj1 Hj2). }
  exists t'. split; [exact Hrun|]. split; [|exact Hd'].
  pose proof (gi_rooted _ _ _ _ _ _ Hg) as Hrooted. cbn [shape_root] in Hrooted.
  constructor.
  - (* tidy *)
    split; [exact Hh'|split].
    + rewrite Hnodes'. apply NoDup_cons. split; assumption.
    + intros p Hp. destruct (Hprev p Hp) as [Hpn Hps]. split.
      * rewrite Hnodes'. intros H. apply elem_of_cons in H as [->|H]; [|now apply Hpn].
        apply lookup_lt_is_Some in Hps. unfold N in Hps. lia.
      * rewrite Hsame; [exact Hps|]. intros H.
        assert (Hin : forall y, y ∈ shape_nodes (Sh c kids) -> p <> y)
          by (intros y Hy ->; now apply Hpn).
        apply elem_of_cons in H as [->|H]; [exact (Hin o1 Ho1in eq_refl)|].
        apply elem_of_cons in H as [->|H]; [exact (Hin o2 Ho2in eq_refl)|].
        apply elem_of_cons in H as [->|H]; [exact (Hin c Hcin eq_refl)|].
        apply list_elem_of_singleton in H. apply lookup_lt_is_Some in Hps.
        unfold N in H. lia.
  - apply (gi_real _ _ _ _ _ _ Hg).
  - exact Hrooted.
  - intros e ed Hed. apply Hkeep. apply (gi_edges _ _ _ _ _ _ Hg e ed Hed).
  - pose proof (gi_len _ _ _ _ _ _ Hg). lia.
  - rewrite Hroot. apply (gi_root _ _ _ _ _ _ Hg).
  - rewrite Htip. apply (gi_tipIndex _ _ _ _ _ _ Hg).
  - (* frame *)
    intros x Hx Hlt. rewrite <- (gi_frame _ _ _ _ _ _ Hg x Hx Hlt). apply Hsame.
    pose proof (gi_len _ _ _ _ _ _ Hg) as Hle.
    assert (Hin : forall y, y ∈ shape_nodes (Sh c kids) -> x <> y).
    { intros y Hy ->. destruct (gi_new _ _ _ _ _ _ Hg y Hy) as [H|H]; [now apply Hx|lia]. }
    intros H.
    apply elem_of_cons in H as [->|H]; [exact (Hin o1 Ho1in eq_refl)|].
    apply elem_of_cons in H as [->|H]; [exact (Hin o2 Ho2in eq_refl)|].
    apply elem_of_cons in H as [->|H]; [exact (Hin c Hcin eq_refl)|].
    apply list_elem_of_singleton in H. unfold N in H. lia.
  - (* names *)
    intros x nd Hx. destruct (gi_names _ _ _ _ _ _ Hg x nd Hx) as (nd1 & Hx1 & Hname).
    destruct (decide (x = o1)) as [->|H1].
    { eexists. split; [exact Ho1'|]. rewrite name_moved.
      assert (nd1 = ndo1) by (unfold ptr in *; congruence). now subst. }
    destruct (decide (x = o2)) as [->|H2].
    { eexists. split; [exact Ho2'|]. rewrite name_moved.
      assert (nd1 = ndo2) by (unfold ptr in *; congruence). now subst. }
    destruct (decide (x = c)) as [->|H3].
    { eexists. split; [exact Hc'|]. rewrite name_moved, name_detach.
      assert (nd1 = ndc) by (unfold ptr in *; congruence). now subst. }
    exists nd1. split; [|exact Hname]. rewrite Hsame; [exact Hx1|]. intros H.
    repeat (apply elem_of_cons in H as [H|H]; [congruence|]).
    apply list_elem_of_singleton in H. apply lookup_lt_Some in Hx1. unfold N in H. lia.
  - intros x Hx. rewrite Hnodes'. apply elem_of_cons. right.
    apply (gi_old _ _ _ _ _ _ Hg x Hx).
  - intros x Hx. rewrite Hnodes' in Hx. apply elem_of_cons in Hx as [->|Hx].
    + right. pose proof (gi_len _ _ _ _ _ _ Hg). unfold N. lia.
    + apply (gi_new _ _ _ _ _ _ Hg x Hx).
  - intros x Hx. inversion Hx.
  - (* degrees of the old nodes *)
    intros x Hx Hxc Hxp. rewrite <- (gi_deg_old _ _ _ _ _ _ Hg x Hx Hxc Hxp).
    rewrite <- Hrooted in Hxc.
    destruct (decide (x = o1)) as [->|H1].
    { unfold degree. unfold ptr in *. rewrite Ho1', Ho1. apply (degree_moved ndo1 c). exact Hi1. }
    destruct (decide (x = o2)) as [->|H2].
    { unfold degree. unfold ptr in *. rewrite Ho2', Ho2. apply (degree_moved ndo2 c). exact Hi2. }
    unfold degree. rewrite Huntouched; auto. apply (gi_old _ _ _ _ _ _ Hg x Hx).
  - (* degrees of the new nodes *)
    intros x Hx Hx0. rewrite Hnodes' in Hx. apply elem_of_cons in Hx as [->|Hx].
    { unfold degree. unfold ptr in *. rewrite HN'. reflexivity. }
    rewrite <- (gi_deg_new _ _ _ _ _ _ Hg x Hx Hx0).
    assert (Hxc : x <> c).
    { intros ->. apply Hx0. rewrite Hrooted. apply root_in_nodes. }
    destruct (decide (x = o1)) as [->|H1].
    { unfold degree. unfold ptr in *. rewrite Ho1', Ho1. apply (degree_moved ndo1 c). exact Hi1. }
    destruct (decide (x = o2)) as [->|H2].
    { unfold degree. unfold ptr in *. rewrite Ho2', Ho2. apply (degree_moved ndo2 c). exact Hi2. }
    unfold degree. rewrite Huntouched; auto.
  - (* the degree of the node being resolved *)
    left. rewrite <- Hrooted.
    split; [lia|].
    destruct (gi_deg_root _ _ _ _ _ _ Hg) as [[_ H]|H]; rewrite <- Hrooted in H; lia.
  - (* the edges that lead to old nodes *)
    intros e' sub' Hx Hroot0.
    assert (Hold : forall e, (e, sub') ∈ shape_subs (Sh c kids) ->
              exists e0 sub, (e0, sub) ∈ shape_subs s0 /\ shape_root sub = shape_root sub' /\
                             attrs t e = attrs tp e0)
      by (intros e He; apply (gi_attrs_old _ _ _ _ _ _ Hg e sub' He Hroot0)).
    assert (Hsame_e : forall e, (e, sub') ∈ shape_subs (Sh c kids) ->
                                attrs t' e = attrs t e).
    { intros e He. apply attrs_keep; [exact Hkeep|].
      apply (hold_edges_real t _ prev Hh e sub' He). }
    unfold kids', sN in Hx. cbn [shape_subs] in Hx. rewrite flat_map_app in Hx.
    cbn [flat_map snd fst shape_subs] in Hx. rewrite !app_nil_r in Hx.
    apply elem_of_app in Hx as [Hx|Hx].
    { assert (He : (e', sub') ∈ shape_subs (Sh c kids)).
      { unfold kids. cbn [shape_subs flat_map]. apply elem_of_app. right.
        apply elem_of_app. right. exact Hx. }
      destruct (Hold e' He) as (e0 & sub & H1 & H2 & H3). exists e0, sub.
      rewrite (Hsame_e e' He). auto. }
    apply elem_of_cons in Hx as [Heq|Hx].
    { injection Heq as -> ->. exfalso. cbn [shape_root] in Hroot0.
      apply (gi_real _ _ _ _ _ _ Hg) in Hroot0.
      pose proof (gi_len _ _ _ _ _ _ Hg). unfold N in Hroot0. lia. }
    apply elem_of_cons in Hx as [Heq|Hx].
    { injection Heq as -> ->.
      assert (He : (e1, Sh o1 kk1) ∈ shape_subs (Sh c kids)).
      { unfold kids. cbn [shape_subs flat_map snd fst]. apply elem_of_cons. now left. }
      destruct (Hold e1 He) as (e0 & sub & H1 & H2 & H3). exists e0, sub.
      split; [exact H1|split; [exact H2|]]. rewrite <- H3. unfold attrs, ptr in *.
      now rewrite HM0, He1. }
    apply elem_of_app in Hx as [Hx|Hx].
    { assert (He : (e', sub') ∈ shape_subs (Sh c kids)).
      { unfold kids. cbn [shape_subs flat_map snd fst]. apply elem_of_cons. right.
        apply elem_of_app. left. exact Hx. }
      destruct (Hold e' He) as (e0 & sub & H1 & H2 & H3). exists e0, sub.
      rewrite (Hsame_e e' He). auto. }
    apply elem_of_cons in Hx as [Heq|Hx].
    { injection Heq as -> ->.
      assert (He : (e2, Sh o2 kk2) ∈ shape_subs (Sh c kids)).
      { unfold kids. cbn [shape_subs flat_map snd fst]. apply elem_of_cons. right.
        apply elem_of_app. right. apply elem_of_cons. now left. }
      destruct (Hold e2 He) as (e0 & sub & H1 & H2 & H3). exists e0, sub.
      split; [exact H1|split; [exact H2|]]. rewrite <- H3. unfold attrs, ptr in *.
      now rewrite HM1, He2. }
    assert (He : (e', sub') ∈ shape_subs (Sh c kids)).
    { unfold kids. cbn [shape_subs flat_map snd fst]. apply elem_of_cons. right.
      apply elem_of_app. right. apply elem_of_cons. right.
      apply elem_of_app. left. exact Hx. }
    destruct (Hold e' He) as (e0 & sub & H1 & H2 & H3). exists e0, sub.
    rewrite (Hsame_e e' He). auto.
  - (* the edges that lead to new nodes *)
    intros e' sub' Hx Hroot0.
    assert (Hold : forall e, (e, sub') ∈ shape_subs (Sh c kids) -> attrs t e = unset)
      by (intros e He; apply (gi_attrs_new _ _ _ _ _ _ Hg e sub' He Hroot0)).
    assert (Hsame_e : forall e, (e, sub') ∈ shape_subs (Sh c kids) ->
                                attrs t' e = attrs t e).
    { intros e He. apply attrs_keep; [exact Hkeep|].
      apply (hold_edges_real t _ prev Hh e sub' He). }
    unfold kids', sN in Hx. cbn [shape_subs] in Hx. rewrite flat_map_app in Hx.
    cbn [flat_map snd fst shape_subs] in Hx. rewrite !app_nil_r in Hx.
    apply elem_of_app in Hx as [Hx|Hx].
    { assert (He : (e', sub') ∈ shape_subs (Sh c kids)).
      { unfold kids. cbn [shape_subs flat_map]. apply elem_of_app. right.
        apply elem_of_app. right. exact Hx. }
      rewrite (Hsame_e e' He). auto. }
    apply elem_of_cons in Hx as [Heq|Hx].
    { injection Heq as -> ->. unfold attrs, ptr in *. now rewrite HM2. }
    apply elem_of_cons in Hx as [Heq|Hx].
    { injection Heq as -> ->.
      assert (He : (e1, Sh o1 kk1) ∈ shape_subs (Sh c kids)).
      { unfold kids. cbn [shape_subs flat_map snd fst]. apply elem_of_cons. now left. }
      rewrite <- (Hold e1 He). unfold attrs, ptr in *. now rewrite HM0, He1. }
    apply elem_of_app in Hx as [Hx|Hx].
    { assert (He : (e', sub') ∈ shape_subs (Sh c kids)).
      { unfold kids. cbn [shape_subs flat_map snd fst]. apply elem_of_cons. right.
        apply elem_of_app. left. exact Hx. }
      rewrite (Hsame_e e' He). auto. }
    apply elem_of_cons in Hx as [Heq|Hx].
    { injection Heq as -> ->.
      assert (He : (e2, Sh o2 kk2) ∈ shape_subs (Sh c kids)).
      { unfold kids. cbn [shape_subs flat_map snd fst]. apply elem_of_cons. right.
        apply elem_of_app. right. apply elem_of_cons. now left. }
      rewrite <- (Hold e2 He). unfold attrs, ptr in *. now rewrite HM1, He2. }
    assert (He : (e', sub') ∈ shape_subs (Sh c kids)).
    { unfold kids. cbn [shape_subs flat_map snd fst]. apply elem_of_cons. right.
      apply elem_of_app. right. apply elem_of_cons. right.
      apply elem_of_app. left. exact Hx. }
    rewrite (Hsame_e e' He). auto.
Qed.

(** *** The loop [for len(current.Neigh()) > 3] *)

Lemma two_last {A} (l : list A) :
  2 <= length l -> exists l0 x2 x1, l = (l0 ++ [x2]) ++ [x1].
Proof.
  intros H. destruct l as [|x1 l _] using rev_ind; [cbn in H; lia|].
  destruct l as [|x2 l _] using rev_ind; [cbn in H; lia|]. now exists l, x2, x1.
Qed.

Lemma regroup_all (tp : Tree) (s0 : shape) (prev : option ptr) (c : ptr) :
  forall (fuel : nat) (t : Tree) (kids : list (nat * ptr * shape)) (L : list (option ptr)),
  regrouped tp s0 prev [] t (Sh c kids) ->
  L ≡ₚ map (fun k => Some (kid_edge k)) kids ->
  degree t c <= fuel + 3 ->
  exists t' kids',
    regroup_loop (S fuel) c L t = Ret (tt, t') /\
    regrouped tp s0 prev [] t' (Sh c kids') /\
    degree t' c <= 3.
Proof.
  induction fuel as [|fuel IH]; intros t kids L Hg HL Hfuel.
  - exists t, kids. split; [|split; [exact Hg|lia]].
    destruct (gi_tidy _ _ _ _ _ _ Hg) as (Hh & _).
    destruct (hold_node t prev _ Hh) as [ndc Hc]. cbn [shape_root] in Hc.
    cbn [regroup_loop]. rewrite (mbind_run _ _ t t ndc (get_node_run t c ndc Hc)).
    unfold degree in Hfuel. unfold ptr in *. rewrite Hc in Hfuel.
    assert (Hlt : Nat.ltb 3 (length (n_neigh ndc)) = false)
      by (apply Nat.ltb_ge; unfold ptr in *; lia).
    unfold ptr in *. now rewrite Hlt.
  - destruct (le_lt_dec (degree t c) 3) as [Hle|Hgt].
    + exists t, kids. split; [|split; [exact Hg|exact Hle]].
      destruct (gi_tidy _ _ _ _ _ _ Hg) as (Hh & _).
      destruct (hold_node t prev _ Hh) as [ndc Hc]. cbn [shape_root] in Hc.
      cbn [regroup_loop]. rewrite (mbind_run _ _ t t ndc (get_node_run t c ndc Hc)).
      unfold degree in Hle. unfold ptr in *. rewrite Hc in Hle.
      assert (Hlt : Nat.ltb 3 (length (n_neigh ndc)) = false)
      by (apply Nat.ltb_ge; unfold ptr in *; lia).
      unfold ptr in *. now rewrite Hlt.
    + destruct (gi_tidy _ _ _ _ _ _ Hg) as (Hh & _).
      pose proof (degree_hold t prev c kids Hh) as Hdeg.
      assert (Hlen : 2 <= length L).
      { rewrite HL, length_map. destruct prev; cbn [up_count] in Hdeg; lia. }
      destruct (two_last L Hlen) as (L0 & x2 & x1 & ->).
      assert (HL' : x1 :: x2 :: L0 ≡ₚ map (fun k => Some (kid_edge k)) kids).
      { rewrite <- HL. rewrite <- app_assoc. cbn [app].
        rewrite (Permutation_app_comm L0 [x2; x1]). cbn [app]. apply perm_swap. }
      apply Permutation_map_inv in HL' as (l3 & Heq & Hperm).
      destruct l3 as [|[[p1 e1] s1] [|[[p2 e2] s2] krest]]; try discriminate.
      cbn [map kid_edge fst snd] in Heq. injection Heq as -> -> ->.
      apply (regrouped_perm tp s0 prev [] t c _ _ Hperm) in Hg.
      destruct (regroup_step tp s0 prev t (S fuel) c p1 p2 e1 e2 s1 s2 krest
                  (map (fun k => Some (kid_edge k)) krest) Hg Hgt)
        as (t' & Hrun & Hg' & Hd').
      destruct (IH t' _ (map (fun k => Some (kid_edge k)) krest
                           ++ [Some (length (edges t) + 2)]) Hg')
        as (t'' & kids'' & Hrun' & Hg'' & Hd''); [|lia|].
      * rewrite map_app. reflexivity.
      * exists t'', kids''. split; [|split; assumption]. rewrite Hrun. exact Hrun'.
Qed.

(** *** The edges to regroup, in the order drawn *)

Definition wanted (previous : option ptr) (x : ptr * ptr) : bool :=
  negb (ptr_eqb (Some (fst x)) previous).

(** What the loop that fills [togroup] computes, on the neighbors paired
    with their edges. *)
Fixpoint fill (previous : option ptr) (perm : list nat) (pairs : list (ptr * ptr))
  (tg : list (option ptr)) (nb : nat) : list (option ptr) :=
  match pairs with
  | [] => tg
  | x :: pairs =>
    if wanted previous x
    then fill previous perm pairs (<[default 0 (perm !! nb) := Some (snd x)]> tg) (S nb)
    else fill previous perm pairs tg nb
  end.

Lemma fill_run (previous : option ptr) (br : list ptr) (perm : list nat) (t : Tree) :
  forall (rest : list ptr) (i : nat) (tg : list (option ptr)) (nb : nat),
  i + length rest <= length br ->
  nb + length (List.filter (wanted previous) (zip rest (drop i br))) <= length perm ->
  (forall p, p ∈ perm -> p < length tg) ->
  exists nb',
    mfoldi (fun (acc : list (option ptr) * nat) i n =>
              let togroup := fst acc in
              let nb := snd acc in
              if negb (ptr_eqb (Some n) previous) then
                let* e := mread (fun _ => of_option out_of_range (br !! i)) in
                let* p := mread (fun _ => of_option out_of_range (perm !! nb)) in
                if Nat.ltb p (length togroup)
                then mret (<[p := Some e]> togroup, S nb)
                else mpanic out_of_range
              else mret acc)
           i rest (tg, nb) t
    = Ret ((fill previous perm (zip rest (drop i br)) tg nb, nb'), t).
Proof.
  induction rest as [|n rest IH]; intros i tg nb Hbr Hperm Hlt.
  - exists nb. reflexivity.
  - cbn [length] in Hbr.
    destruct (lookup_lt_is_Some_2 br i ltac:(lia)) as [e He].
    rewrite (drop_S _ _ _ He) in *. cbn [zip zip_with List.filter fill] in *.
    unfold wanted at 1 in Hperm. unfold wanted at 1. cbn [fst snd] in *.
    cbn [mfoldi]. unfold mbind at 1. cbn [fst snd].
    destruct (negb (ptr_eqb (Some n) previous)) eqn:Hw.
    + cbn [length] in Hperm.
      destruct (lookup_lt_is_Some_2 perm nb ltac:(lia)) as [p Hp].
      unfold mbind at 1. unfold mread at 1. rewrite He. cbn [of_option obind].
      unfold mbind at 1. unfold mread at 1. rewrite Hp. cbn [of_option obind default].
      assert (Hpl : Nat.ltb p (length tg) = true).
      { apply Nat.ltb_lt. apply Hlt. eapply list_elem_of_lookup_2. exact Hp. }
      rewrite Hpl. unfold mret at 1.
      apply (IH (S i) (<[p := Some e]> tg) (S nb)); [lia|lia|].
      intros q Hq. rewrite length_insert. now apply Hlt.
    + unfold mret at 1. apply (IH (S i) tg nb); [lia|lia|exact Hlt].
Qed.

Lemma fill_spec (previous : option ptr) (perm : list nat) :
  NoDup perm ->
  forall (pairs : list (ptr * ptr)) (tg : list (option ptr)) (nb : nat),
  (forall p, p ∈ perm -> p < length tg) ->
  nb + length (List.filter (wanted previous) pairs) <= length perm ->
  length (fill previous perm pairs tg nb) = length tg /\
  (forall k x p, List.filter (wanted previous) pairs !! k = Some x ->
                 perm !! (nb + k) = Some p ->
                 fill previous perm pairs tg nb !! p = Some (Some (snd x))) /\
  (forall p, (forall k, nb <= k -> perm !! k <> Some p) ->
             fill previous perm pairs tg nb !! p = tg !! p).
Proof.
  intros Hnd. induction pairs as [|x pairs IH]; intros tg nb Hlt Hlen.
  - split; [reflexivity|]. split; [intros k x p H; inversion H|reflexivity].
  - cbn [fill List.filter] in *. destruct (wanted previous x) eqn:Hw.
    + cbn [length] in Hlen.
      destruct (lookup_lt_is_Some_2 perm nb ltac:(lia)) as [p0 Hp0].
      rewrite Hp0. change (default 0 (Some p0)) with p0.
      assert (Hp0l : p0 < length tg).
      { apply Hlt. eapply list_elem_of_lookup_2. exact Hp0. }
      destruct (IH (<[p0 := Some (snd x)]> tg) (S nb)) as (IH1 & IH2 & IH3).
      { intros q Hq. rewrite length_insert. now apply Hlt. }
      { lia. }
      split; [now rewrite IH1, length_insert|]. split.
      * intros k y p Hk Hp. destruct k as [|k].
        -- cbn in Hk. injection Hk as <-. rewrite Nat.add_0_r in Hp.
           assert (p = p0) by congruence. subst p. rewrite IH3.
           ++ now apply list_lookup_insert_eq.
           ++ intros k Hk Hpk. pose proof (NoDup_lookup _ _ _ _ Hnd Hp0 Hpk). lia.
        -- cbn in Hk. apply (IH2 k y p Hk). now rewrite Nat.add_succ_comm.
      * intros p Hp. rewrite IH3 by (intros k Hk; apply Hp; lia).
        apply list_lookup_insert_ne. intros ->. now apply (Hp nb).
    + apply (IH tg nb Hlt Hlen).
Qed.

Lemma filter_perm {A} (f : A -> bool) (l l' : list A) :
  l ≡ₚ l' -> List.filter f l ≡ₚ List.filter f l'.
Proof.
  induction 1 as [|x l l' _ IH|x y l|l1 l2 l3 _ IH1 _ IH2]; cbn.
  - reflexivity.
  - destruct (f x); [now apply perm_skip|exact IH].
  - destruct (f x), (f y); try reflexivity. apply perm_swap.
  - now transitivity (List.filter f l2).
Qed.

(** The edges come out in an order that depends on the permutation drawn,
    and all of them come out. *)
Lemma fill_perm (previous : option ptr) (perm : list nat) (pairs : list (ptr * ptr))
  (l : nat) :
  perm ≡ₚ seq 0 l -> length (List.filter (wanted previous) pairs) = l ->
  fill previous perm pairs (replicate l None) 0
  ≡ₚ map (fun x => Some (snd x)) (List.filter (wanted previous) pairs).
Proof.
  intros Hperm Hlen.
  assert (Hnd : NoDup perm) by (rewrite Hperm; apply NoDup_seq).
  assert (Hpl : length perm = l) by (rewrite Hperm; apply length_seq).
  destruct (fill_spec previous perm Hnd pairs (replicate l None) 0) as (H1 & H2 & _).
  { intros p Hp. rewrite length_replicate. rewrite Hperm in Hp.
    apply elem_of_seq in Hp. lia. }
  { lia. }
  set (R := fill previous perm pairs (replicate l None) 0) in *.
  rewrite length_replicate in H1.
  assert (HR : R = map (fun p => default None (R !! p)) (seq 0 l)).
  { apply list_eq. intros i. rewrite list_lookup_fmap.
    destruct (decide (i < l)) as [Hi|Hi].
    - rewrite lookup_seq_lt by exact Hi. cbn.
      destruct (lookup_lt_is_Some_2 R i ltac:(lia)) as [y Hy]. now rewrite Hy.
    - rewrite lookup_seq_ge by lia. cbn. apply lookup_ge_None_2. lia. }
  rewrite HR. rewrite <- Hperm.
  replace (map (fun p => default None (R !! p)) perm)
    with (map (fun x : ptr * ptr => Some (snd x)) (List.filter (wanted previous) pairs));
    [reflexivity|].
  apply list_eq. intros i. rewrite !list_lookup_fmap.
  destruct (decide (i < l)) as [Hi|Hi].
  - destruct (lookup_lt_is_Some_2 perm i ltac:(lia)) as [p Hp].
    destruct (lookup_lt_is_Some_2 (List.filter (wanted previous) pairs) i ltac:(lia))
      as [x Hx].
    rewrite Hp, Hx. cbn. now rewrite (H2 i x p Hx Hp).
  - rewrite !lookup_ge_None_2 by lia. reflexivity.
Qed.

(** *** A child is resolved: the invariant of the parent *)

Lemma sub_root_in (s : shape) :
  forall e sub, (e, sub) ∈ shape_subs s -> shape_root sub ∈ shape_nodes s.
Proof.
  induction s as [n kids IH] using shape_ind'. intros e sub Hx.
  cbn [shape_subs] in Hx. apply elem_of_flat_map in Hx as (kd & Hkd & Hx).
  apply (kid_nodes_in n kids kd _ Hkd).
  apply elem_of_cons in Hx as [Heq|Hx].
  - injection Heq as -> ->. apply root_in_nodes.
  - rewrite Forall_forall in IH. apply (IH kd Hkd e sub Hx).
Qed.

Lemma degree_same (t t' : Tree) (x : ptr) :
  nodes t' !! x = nodes t !! x -> degree t' x = degree t x.
Proof. intros H. unfold degree. unfold ptr in *. now rewrite H. Qed.

Lemma child_step (tp : Tree) (s0 : shape) (prev : option ptr) (pend pend' : list ptr)
  (t : Tree) (c : ptr) (p : nat) (e : ptr) (sk : shape)
  (others : list (nat * ptr * shape)) (t1 : Tree) (sk' : shape) :
  regrouped tp s0 prev pend t (Sh c ((p, e, sk) :: others)) ->
  (forall x, x ∈ pend <-> x ∈ pend' \/ x ∈ shape_nodes sk) ->
  (forall x, x ∈ pend' -> (x ∉ shape_nodes sk) /\ x < length (nodes tp)) ->
  resolved t sk (Some c) t1 sk' ->
  regrouped tp s0 prev pend' t1 (Sh c (others ++ [(p, e, sk')])).
Proof.
  intros Hg Hpend Hpend' [Hr Hrd].
  pose proof (gi_tidy _ _ _ _ _ _ Hg) as Ht. pose proof Ht as (Hh & Hnd & Hprev).
  pose proof (gi_tidy _ _ _ _ _ _ Hr) as (Hh1 & Hnd1 & _).
  inversion Hh as [? ep ? ? ndc Hc Hlc Hadj Hup Hkids]; subst.
  pose proof (gi_rooted _ _ _ _ _ _ Hg) as Hrooted. cbn [shape_root] in Hrooted.
  pose proof (gi_rooted _ _ _ _ _ _ Hr) as Hrooted1.
  pose proof (gi_len _ _ _ _ _ _ Hg) as Hlen. pose proof (gi_len _ _ _ _ _ _ Hr) as Hlen1.
  set (kids := (p, e, sk) :: others) in *.
  assert (Hk : (p, e, sk) ∈ kids) by (apply elem_of_cons; now left).
  assert (Hreal : forall x, x ∈ shape_nodes (Sh c kids) -> x < length (nodes t)).
  { intros x Hx. apply lookup_lt_is_Some. apply (hold_nodes_real t _ prev Hh x Hx). }
  assert (Hsk_cur : forall x, x ∈ shape_nodes sk -> x ∈ shape_nodes (Sh c kids))
    by (intros x Hx; apply (kid_nodes_in c kids _ x Hk Hx)).
  assert (Hsk0 : forall x, x ∈ shape_nodes sk -> x ∈ shape_nodes s0).
  { intros x Hx.
    assert (Hxp : x ∈ pend) by (apply Hpend; now right).
    pose proof (gi_pend _ _ _ _ _ _ Hg x Hxp) as Hsame.
    destruct (gi_new _ _ _ _ _ _ Hg x (Hsk_cur x Hx)) as [H|H]; [exact H|].
    exfalso. pose proof (Hreal x (Hsk_cur x Hx)) as Hlt.
    apply lookup_lt_is_Some in Hlt. unfold ptr in *. rewrite Hsame in Hlt.
    apply lookup_lt_is_Some in Hlt. lia. }
  pose proof Hnd as Hnd'. cbn [shape_nodes] in Hnd'. apply NoDup_cons in Hnd' as [Hcn Hndk].
  unfold kids in Hndk, Hcn. cbn [flat_map snd] in Hndk, Hcn.
  apply NoDup_app in Hndk as (Hndsk & Hdis & Hndo).
  assert (Hcsk : c ∉ shape_nodes sk) by (intros H; apply Hcn, elem_of_app; now left).
  assert (Hco : c ∉ flat_map (fun k => shape_nodes (snd k)) others)
    by (intros H; apply Hcn, elem_of_app; now right).
  assert (Hcur : forall x, x ∈ shape_nodes (Sh c kids) <->
                           x = c \/ x ∈ shape_nodes sk \/
                           x ∈ flat_map (fun k => shape_nodes (snd k)) others).
  { intros x. unfold kids. cbn [shape_nodes flat_map snd].
    rewrite elem_of_cons, elem_of_app. reflexivity. }
  assert (Hnew : forall x, x ∈ shape_nodes (Sh c (others ++ [(p, e, sk')])) <->
                           x = c \/ x ∈ shape_nodes sk' \/
                           x ∈ flat_map (fun k => shape_nodes (snd k)) others).
  { intros x. cbn [shape_nodes]. rewrite flat_map_app. cbn [flat_map snd].
    rewrite app_nil_r, elem_of_cons, elem_of_app. tauto. }
  assert (Hfr : forall x, x ∈ shape_nodes (Sh c kids) -> x ∉ shape_nodes sk ->
                          nodes t1 !! x = nodes t !! x).
  { intros x Hx Hxk. apply (gi_frame _ _ _ _ _ _ Hr x Hxk). now apply Hreal. }
  assert (Hkeep : forall e ed, edges t !! e = Some ed -> edges t1 !! e = Some ed)
    by apply (gi_edges _ _ _ _ _ _ Hr).
  assert (Hsk' : forall x, x ∈ shape_nodes sk' ->
                           x ∈ shape_nodes sk \/ length (nodes t) <= x)
    by apply (gi_new _ _ _ _ _ _ Hr).
  assert (Hoth : forall x, x ∈ flat_map (fun k => shape_nodes (snd k)) others ->
                           (x ∉ shape_nodes sk) /\ (x ∉ shape_nodes sk') /\
                           x ∈ shape_nodes (Sh c kids)).
  { intros x Hx.
    assert (Hxc : x ∈ shape_nodes (Sh c kids)) by (apply Hcur; auto).
    assert (Hxk : x ∉ shape_nodes sk) by (intros H; now apply (Hdis x H)).
    split; [exact Hxk|split; [|exact Hxc]]. intros H.
    destruct (Hsk' x H) as [H'|H']; [now apply Hxk|]. apply Hreal in Hxc. lia. }
  assert (Hjoin : forall e l r, joins t e l r -> joins t1 e l r).
  { intros e' l r (ed & Hed & Hl & Hr'). exists ed. auto. }
  constructor.
  - (* tidy *)
    split; [|split].
    + apply (hold_intro t1 prev ep c _ ndc).
      * rewrite Hfr; [exact Hc| |exact Hcsk]. apply Hcur. now left.
      * exact Hlc.
      * rewrite Hadj. apply Permutation_app_head. unfold kids.
        rewrite map_app. cbn [map]. rewrite <- Permutation_cons_append.
        unfold down. cbn [kid_sub kid_edge snd fst]. now rewrite Hrooted1.
      * intros q Hq. apply Hjoin, Hup, Hq.
      * apply Forall_app. rewrite Forall_forall in Hkids. split.
        -- apply Forall_forall. intros kd Hkd.
           assert (Hkd' : kd ∈ kids) by (apply elem_of_cons; now right).
           destruct (Hkids kd Hkd') as [Hjk Hhk]. split; [now apply Hjoin|].
           apply (hold_frame t t1 (kid_sub kd) Hkeep (Some c) Hhk). intros x Hx.
           assert (Hxo : x ∈ flat_map (fun k => shape_nodes (snd k)) others)
             by (apply elem_of_flat_map; exists kd; split; assumption).
           destruct (Hoth x Hxo) as (H1 & _ & H3). now apply Hfr.
        -- repeat constructor; cbn [kid_sub kid_edge snd fst].
           ++ rewrite Hrooted1. apply Hjoin. apply (Hkids _ Hk).
           ++ exact Hh1.
    + cbn [shape_nodes]. rewrite flat_map_app. cbn [flat_map snd]. rewrite app_nil_r.
      apply NoDup_cons. split.
      * intros H. apply elem_of_app in H as [H|H]; [now apply Hco|].
        destruct (Hsk' c H) as [H'|H']; [now apply Hcsk|].
        assert (c < length (nodes t)) by (apply Hreal, Hcur; now left). lia.
      * apply NoDup_app. split; [exact Hndo|split; [|exact Hnd1]].
        intros x Hx. now destruct (Hoth x Hx) as (_ & H2 & _).
    + intros q Hq. destruct (Hprev q Hq) as [Hqn Hqs]. split.
      * intros H. apply Hnew in H. apply Hqn. apply Hcur.
        destruct H as [H|[H|H]]; [now left| |now right; right].
        destruct (Hsk' q H) as [H'|H']; [now right; left|].
        apply lookup_lt_is_Some in Hqs. lia.
      * apply lookup_lt_is_Some. apply lookup_lt_is_Some in Hqs. lia.
  - apply (gi_real _ _ _ _ _ _ Hg).
  - exact Hrooted.
  - intros e' ed Hed. apply Hkeep. apply (gi_edges _ _ _ _ _ _ Hg e' ed Hed).
  - lia.
  - rewrite (gi_root _ _ _ _ _ _ Hr). apply (gi_root _ _ _ _ _ _ Hg).
  - rewrite (gi_tipIndex _ _ _ _ _ _ Hr). apply (gi_tipIndex _ _ _ _ _ _ Hg).
  - (* frame *)
    intros x Hx Hlt. rewrite <- (gi_frame _ _ _ _ _ _ Hg x Hx Hlt).
    apply (gi_frame _ _ _ _ _ _ Hr x); [|lia]. intros H. now apply Hx, Hsk0.
  - (* names *)
    intros x nd Hx. destruct (gi_names _ _ _ _ _ _ Hg x nd Hx) as (nd1 & Hx1 & Hn1).
    destruct (gi_names _ _ _ _ _ _ Hr x nd1 Hx1) as (nd2 & Hx2 & Hn2).
    exists nd2. split; [exact Hx2|congruence].
  - intros x Hx. apply Hnew. apply (gi_old _ _ _ _ _ _ Hg) in Hx. apply Hcur in Hx.
    destruct Hx as [H|[H|H]]; [now left| |now right; right].
    right. left. apply (gi_old _ _ _ _ _ _ Hr x H).
  - intros x Hx. apply Hnew in Hx. destruct Hx as [->|[H|H]].
    + apply (gi_new _ _ _ _ _ _ Hg). apply Hcur. now left.
    + destruct (Hsk' x H) as [H'|H']; [left; now apply Hsk0|right; lia].
    + apply (gi_new _ _ _ _ _ _ Hg). apply Hcur. now right; right.
  - (* the nodes not yet reached *)
    intros x Hx. destruct (Hpend' x Hx) as [Hxk Hxl].
    rewrite <- (gi_pend _ _ _ _ _ _ Hg x); [|apply Hpend; now left].
    apply (gi_frame _ _ _ _ _ _ Hr x Hxk). lia.
  - (* degrees of the old nodes *)
    intros x Hx Hxc Hxp. rewrite <- Hrooted in Hxc.
    destruct (decide (x ∈ shape_nodes sk)) as [Hin|Hout].
    + assert (Hd : degree t x = degree tp x).
      { apply degree_same. apply (gi_pend _ _ _ _ _ _ Hg x). apply Hpend. now right. }
      rewrite <- Hd. destruct (decide (x = shape_root sk)) as [->|Hne]; [exact Hrd|].
      apply (gi_deg_old _ _ _ _ _ _ Hr x Hin Hne). intros H. inversion H.
    + rewrite <- (gi_deg_old _ _ _ _ _ _ Hg x Hx).
      * apply degree_same. apply (gi_frame _ _ _ _ _ _ Hr x Hout).
        pose proof (gi_real _ _ _ _ _ _ Hg x Hx). lia.
      * now rewrite <- Hrooted.
      * intros H. apply Hpend in H as [H|H]; [now apply Hxp|now apply Hout].
  - (* degrees of the new nodes *)
    intros x Hx Hx0. apply Hnew in Hx. destruct Hx as [->|[H|H]].
    + exfalso. apply Hx0. rewrite Hrooted. apply root_in_nodes.
    + apply (gi_deg_new _ _ _ _ _ _ Hr x H). intros H'. now apply Hx0, Hsk0.
    + destruct (Hoth x H) as (H1 & _ & H3).
      rewrite <- (gi_deg_new _ _ _ _ _ _ Hg x H3 Hx0). apply degree_same. now apply Hfr.
  - (* the degree of the parent *)
    rewrite <- Hrooted.
    assert (Hd : degree t1 c = degree t c).
    { apply degree_same. apply Hfr; [apply Hcur; now left|exact Hcsk]. }
    rewrite Hd. rewrite Hrooted. apply (gi_deg_root _ _ _ _ _ _ Hg).
  - (* the edges that lead to old nodes *)
    intros e' sub' Hx Hroot0.
    assert (Hcure : forall e0 sub0, (e0, sub0) ∈ shape_subs (Sh c kids) ->
               shape_root sub0 = shape_root sub' ->
               exists e00 sub00, (e00, sub00) ∈ shape_subs s0 /\
                 shape_root sub00 = shape_root sub' /\ attrs t1 e0 = attrs tp e00).
    { intros e0 sub0 He0 Hroot.
      destruct (gi_attrs_old _ _ _ _ _ _ Hg e0 sub0 He0) as (e00 & sub00 & H1 & H2 & H3).
      { now rewrite Hroot. }
      exists e00, sub00. split; [exact H1|split; [congruence|]]. rewrite <- H3.
      apply attrs_keep; [exact Hkeep|]. apply (hold_edges_real t _ prev Hh e0 sub0 He0). }
    cbn [shape_subs] in Hx. rewrite flat_map_app in Hx. cbn [flat_map snd fst] in Hx.
    rewrite app_nil_r in Hx. apply elem_of_app in Hx as [Hx|Hx].
    { apply (Hcure e' sub'); [|reflexivity]. unfold kids. cbn [shape_subs flat_map].
      apply elem_of_cons. right. apply elem_of_app. now right. }
    apply elem_of_cons in Hx as [Heq|Hx].
    { injection Heq as -> ->. apply (Hcure e sk); [|now rewrite Hrooted1].
      unfold kids. cbn [shape_subs flat_map snd fst]. apply elem_of_cons. now left. }
    assert (Hrk : shape_root sub' ∈ shape_nodes sk).
    { destruct (Hsk' _ (sub_root_in sk' e' sub' Hx)) as [H|H]; [exact H|].
      apply (gi_real _ _ _ _ _ _ Hg) in Hroot0. lia. }
    destruct (gi_attrs_old _ _ _ _ _ _ Hr e' sub' Hx Hrk) as (e0 & sub0 & H1 & H2 & H3).
    assert (He0 : (e0, sub0) ∈ shape_subs (Sh c kids)).
    { unfold kids. cbn [shape_subs flat_map snd fst]. apply elem_of_cons. right.
      apply elem_of_app. now left. }
    destruct (gi_attrs_old _ _ _ _ _ _ Hg e0 sub0 He0) as (e00 & sub00 & H4 & H5 & H6).
    { now rewrite H2. }
    exists e00, sub00. split; [exact H4|split; congruence].
  - (* the edges that lead to new nodes *)
    intros e' sub' Hx Hroot0.
    assert (Hcure : forall e0, (e0, sub') ∈ shape_subs (Sh c kids) -> attrs t1 e0 = unset).
    { intros e0 He0. rewrite <- (gi_attrs_new _ _ _ _ _ _ Hg e0 sub' He0 Hroot0).
      apply attrs_keep; [exact Hkeep|]. apply (hold_edges_real t _ prev Hh e0 sub' He0). }
    cbn [shape_subs] in Hx. rewrite flat_map_app in Hx. cbn [flat_map snd fst] in Hx.
    rewrite app_nil_r in Hx. apply elem_of_app in Hx as [Hx|Hx].
    { apply Hcure. unfold kids. cbn [shape_subs flat_map].
      apply elem_of_cons. right. apply elem_of_app. now right. }
    apply elem_of_cons in Hx as [Heq|Hx].
    { injection Heq as -> ->. exfalso. apply Hroot0. rewrite Hrooted1.
      apply Hsk0, root_in_nodes. }
    apply (gi_attrs_new _ _ _ _ _ _ Hr e' sub' Hx). intros H. now apply Hroot0, Hsk0.
Qed.

(** *** [resolveRecur] *)

Lemma regrouped_refl (tp : Tree) (s0 : shape) (prev : option ptr) :
  tidy tp prev s0 -> regrouped tp s0 prev (shape_nodes s0) tp s0.
Proof.
  intros Ht. pose proof Ht as (Hh & _). constructor; auto.
  - intros x Hx. apply lookup_lt_is_Some. apply (hold_nodes_real tp s0 prev Hh x Hx).
  - intros x nd Hx. eauto.
  - intros x Hx _ Hxp. now destruct Hxp.
  - intros x Hx Hx0. now destruct Hx0.
  - intros e' sub' Hx _. exists e', sub'. auto.
  - intros e' sub' Hx Hroot. exfalso. apply Hroot. apply (sub_root_in s0 e' sub' Hx).
Qed.

Lemma regrouped_done (tp : Tree) (s0 : shape) (prev : option ptr) (t : Tree) (s : shape) :
  regrouped tp s0 prev [shape_root s0] t s -> regrouped tp s0 prev [] t s.
Proof.
  intros H. destruct H. constructor; try assumption.
  - intros x Hx. inversion Hx.
  - intros x Hx Hxc _. apply gi_deg_old0; [assumption..|].
    intros H. apply list_elem_of_singleton in H. now apply Hxc.
Qed.

Lemma mfold_filter {A B} (f : A -> bool) (g : B -> A -> M B) (l : list A) (b : B)
  (t : Tree) :
  mfold (fun b x => if f x then g b x else mret b) l b t = mfold g (List.filter f l) b t.
Proof.
  revert b t. induction l as [|x l IH]; intros b t; [reflexivity|].
  cbn [mfold List.filter]. destruct (f x).
  - cbn [mfold]. unfold mbind. destruct (g b x t) as [[b' t']| |]; [apply IH|reflexivity..].
  - unfold mbind at 1. unfold mret at 1. apply IH.
Qed.

Lemma filter_map_fst (previous : option ptr) (l : list (ptr * ptr)) :
  List.filter (fun n => negb (ptr_eqb (Some n) previous)) (l.*1)
  = (List.filter (wanted previous) l).*1.
Proof.
  induction l as [|x l IH]; [reflexivity|]. cbn [fmap list_fmap List.filter].
  unfold wanted at 1. destruct (negb (ptr_eqb (Some x.1) previous));
    cbn [fmap list_fmap]; [f_equal|]; exact IH.
Qed.

Lemma filter_all {A} (f : A -> bool) (l : list A) :
  (forall x, x ∈ l -> f x = true) -> List.filter f l = l.
Proof.
  induction l as [|x l IH]; intros H; [reflexivity|]. cbn.
  rewrite (H x) by (apply elem_of_cons; now left). f_equal. apply IH.
  intros y Hy. apply H. apply elem_of_cons. now right.
Qed.

(** The neighbors gone through by the loops are the children. *)
Lemma wanted_kids (t : Tree) (prev : option ptr) (ep c : ptr)
  (kids : list (nat * ptr * shape)) (l : list (ptr * ptr)) :
  tidy t prev (Sh c kids) -> l ≡ₚ ups prev ep ++ map down kids ->
  List.filter (wanted prev) l ≡ₚ map down kids.
Proof.
  intros (_ & _ & Hprev) Hl. rewrite (filter_perm _ _ _ Hl), List.filter_app.
  replace (List.filter (wanted prev) (ups prev ep)) with (@nil (ptr * ptr)).
  - cbn [app]. rewrite filter_all; [reflexivity|]. intros x Hx.
    apply list_elem_of_fmap in Hx as (kd & -> & Hkd). unfold wanted, down. cbn [fst].
    destruct prev as [p|]; [|reflexivity]. cbn. apply negb_true_iff, Nat.eqb_neq.
    intros Heq. destruct (Hprev p eq_refl) as [Hn _]. apply Hn. rewrite <- Heq.
    apply (kid_nodes_in c kids kd); [exact Hkd|apply root_in_nodes].
  - destruct prev as [p|]; [|reflexivity]. cbn. unfold wanted. cbn.
    now rewrite Nat.eqb_refl.
Qed.

Lemma regrouped_pend (tp : Tree) (s0 : shape) (prev : option ptr) (pend pend' : list ptr)
  (t : Tree) (s : shape) :
  (forall x, x ∈ pend' <-> x ∈ pend) ->
  regrouped tp s0 prev pend t s -> regrouped tp s0 prev pend' t s.
Proof.
  intros Hp H. destruct H. constructor; try assumption.
  - intros x Hx. apply gi_pend0. now apply Hp.
  - intros x Hx Hxc Hxp. apply gi_deg_old0; [assumption..|]. intros H. now apply Hxp, Hp.
Qed.

Section ResolveRecur.

Variable rand_Perm : nat -> nat -> list nat.
Hypothesis rand_Perm_ok : forall k l, rand_Perm k l ≡ₚ seq 0 l.

Lemma children_loop (tp : Tree) (s0 : shape) (prev : option ptr) (c : ptr) (fuel : nat) :
  forall (todo others : list (nat * ptr * shape)) (t : Tree) (k : nat),
  Forall (fun kd => forall tp' k',
            tidy tp' (Some c) (kid_sub kd) ->
            exists k'' t' s',
              resolveRecur rand_Perm fuel (shape_root (kid_sub kd)) (Some c) k' tp'
              = Ret (k'', t') /\
              resolved tp' (kid_sub kd) (Some c) t' s') todo ->
  regrouped tp s0 prev (c :: flat_map (fun kd => shape_nodes (snd kd)) todo) t
    (Sh c (todo ++ others)) ->
  exists k' t' kids',
    mfold (fun k n => resolveRecur rand_Perm fuel n (Some c) k)
      (map (fun kd => shape_root (kid_sub kd)) todo) k t = Ret (k', t') /\
    regrouped tp s0 prev [c] t' (Sh c kids').
Proof.
  induction todo as [|[[p e] sk] todo IH]; intros others t k Hall Hg.
  - exists k, t, others. split; [reflexivity|exact Hg].
  - apply Forall_cons in Hall as [Hkd Hall]. cbn [kid_sub snd] in Hkd.
    pose proof (gi_tidy _ _ _ _ _ _ Hg) as Ht. pose proof Ht as (Hh & Hnd & _).
    assert (Hk : (p, e, sk) ∈ (p, e, sk) :: todo ++ others) by (apply elem_of_cons; now left).
    pose proof (tidy_kid t prev c _ _ Ht Hk) as Htk. cbn [kid_sub snd] in Htk.
    destruct (Hkd t k Htk) as (k1 & t1 & sk' & Hrun & Hres).
    pose proof (gi_rooted _ _ _ _ _ _ Hg) as Hrooted. cbn [shape_root] in Hrooted.
    cbn [app shape_nodes flat_map snd] in Hnd.
    apply NoDup_cons in Hnd as [Hcn Hndk]. apply NoDup_app in Hndk as (_ & Hdis & _).
    assert (Hg1 : regrouped tp s0 prev
                    (c :: flat_map (fun kd => shape_nodes (snd kd)) todo) t1
                    (Sh c ((todo ++ others) ++ [(p, e, sk')]))).
    { apply (child_step tp s0 prev _ _ t c p e sk (todo ++ others) t1 sk' Hg); [| |exact Hres].
      - intros x. cbn [flat_map snd]. rewrite !elem_of_cons, elem_of_app. tauto.
      - intros x Hx. split.
        + apply elem_of_cons in Hx as [->|Hx].
          * intros H. apply Hcn. apply elem_of_app. now left.
          * intros H. apply (Hdis x H). rewrite flat_map_app. apply elem_of_app. now left.
        + assert (Hxp : x ∈ c :: flat_map (fun kd => shape_nodes (snd kd))
                                 ((p, e, sk) :: todo)).
          { cbn [flat_map snd]. apply elem_of_cons in Hx as [->|Hx];
              [apply elem_of_cons; now left|].
            apply elem_of_cons. right. apply elem_of_app. now right. }
          pose proof (gi_pend _ _ _ _ _ _ Hg x Hxp) as Hsame.
          assert (Hxs : is_Some (nodes t !! x)).
          { apply (hold_nodes_real t _ prev Hh x). cbn [app shape_nodes flat_map snd].
            apply elem_of_cons in Hx as [->|Hx]; [apply elem_of_cons; now left|].
            apply elem_of_cons. right. apply elem_of_app. right.
            rewrite flat_map_app. apply elem_of_app. now left. }
          unfold ptr in *. rewrite Hsame in Hxs. now apply lookup_lt_is_Some in Hxs. }
    rewrite <- app_assoc in Hg1.
    destruct (IH (others ++ [(p, e, sk')]) t1 k1 Hall Hg1) as (k' & t' & kids' & Hrun' & Hg').
    exists k', t', kids'. split; [|exact Hg'].
    cbn [map mfold kid_sub snd]. rewrite (mbind_run _ _ t t1 k1 Hrun). exact Hrun'.
Qed.

Lemma resolveRecur_ok (s0 : shape) :
  forall (fuel : nat) (tp : Tree) (prev : option ptr) (k : nat),
  tidy tp prev s0 -> depth s0 <= fuel ->
  exists k' t' s',
    resolveRecur rand_Perm fuel (shape_root s0) prev k tp = Ret (k', t') /\
    resolved tp s0 prev t' s'.
Proof.
  induction s0 as [c kids IH] using shape_ind'. intros fuel tp prev k Ht Hfuel.
  destruct fuel as [|fuel]; [cbn in Hfuel; lia|].
  pose proof Ht as (Hh & Hnd & Hprev).
  inversion Hh as [? ep ? ? ndc Hc Hlc Hadj Hup Hkids]; subst.
  pose proof (wanted_kids tp prev ep c kids (adj ndc) Ht Hadj) as Hw.
  apply Permutation_map_inv in Hw as (kids1 & Hw & Hperm).
  (* the children *)
  assert (Hloop : exists k1 t1 kids2,
    mfold (fun k n => if negb (ptr_eqb (Some n) prev)
                      then resolveRecur rand_Perm fuel n (Some c) k else mret k)
      (n_neigh ndc) k tp = Ret (k1, t1) /\
    regrouped tp (Sh c kids) prev [c] t1 (Sh c kids2)).
  { rewrite (mfold_filter (fun n => negb (ptr_eqb (Some n) prev))
               (fun k n => resolveRecur rand_Perm fuel n (Some c) k)).
    rewrite <- (adj_fst ndc Hlc), filter_map_fst, Hw.
    replace ((map down kids1).*1) with (map (fun kd => shape_root (kid_sub kd)) kids1)
      by (clear; induction kids1 as [|kd l IHl]; [reflexivity|cbn; now f_equal]).
    apply (children_loop tp (Sh c kids) prev c fuel kids1 [] tp k).
    - rewrite <- Hperm. rewrite Forall_forall in *. intros kd Hkd tp' k' Htk.
      apply (IH kd Hkd fuel tp' (Some c) k' Htk).
      pose proof (depth_kid c kids kd Hkd). unfold kid_sub. lia.
    - rewrite app_nil_r. apply (regrouped_perm _ _ _ _ _ _ kids kids1 Hperm).
      apply (regrouped_pend tp (Sh c kids) prev (shape_nodes (Sh c kids))).
      + intros x. cbn [shape_nodes]. rewrite !elem_of_cons.
        now rewrite (Permutation_flat_map _ Hperm).
      + now apply regrouped_refl. }
  destruct Hloop as (k1 & t1 & kids2 & Hloop & Hg1).
  assert (Hc1 : nodes t1 !! c = Some ndc).
  { rewrite (gi_pend _ _ _ _ _ _ Hg1 c); [exact Hc|]. apply elem_of_cons. now left. }
  apply (regrouped_done tp (Sh c kids) prev t1) in Hg1.
  pose proof (gi_tidy _ _ _ _ _ _ Hg1) as Ht1. pose proof Ht1 as (Hh1 & _ & _).
  assert (Hd1 : degree t1 c = length (n_neigh ndc)).
  { unfold degree. unfold ptr in *. now rewrite Hc1. }
  assert (Hd0 : degree tp c = length (n_neigh ndc)).
  { unfold degree. unfold ptr in *. now rewrite Hc. }
  cbn [resolveRecur shape_root].
  rewrite (mbind_run _ _ tp tp ndc (get_node_run tp c ndc Hc)).
  rewrite (mbind_run _ _ tp t1 k1 Hloop).
  rewrite (mbind_run _ _ t1 t1 ndc (get_node_run t1 c ndc Hc1)).
  destruct (Nat.ltb 3 (length (n_neigh ndc))) eqn:Hdeg.
  - apply Nat.ltb_lt in Hdeg.
    set (l := match prev with
              | Some _ => length (n_neigh ndc) - 1
              | None => length (n_neigh ndc)
              end).
    inversion Hh1 as [? ep1 ? ? ndc1 Hc1' Hlc1 Hadj1 Hup1 Hkids1]; subst.
    assert (ndc1 = ndc) by (unfold ptr in *; congruence). subst ndc1.
    pose proof (wanted_kids t1 prev ep1 c kids2 (adj ndc) Ht1 Hadj1) as Hw1.
    pose proof (degree_hold t1 prev c kids2 Hh1) as Hdk.
    assert (Hl : length (List.filter (wanted prev) (adj ndc)) = l).
    { rewrite Hw1, length_map. unfold l. rewrite Hd1 in Hdk.
      destruct prev; cbn [up_count] in Hdk; lia. }
    assert (Hpl : length (rand_Perm k1 l) = l) by (rewrite rand_Perm_ok; apply length_seq).
    destruct (fill_run prev (n_br ndc) (rand_Perm k1 l) t1 (n_neigh ndc) 0
                (replicate l None) 0) as [nb' Hfill].
    { lia. }
    { rewrite drop_0. change (zip (n_neigh ndc) (n_br ndc)) with (adj ndc). lia. }
    { intros q Hq. rewrite length_replicate. rewrite rand_Perm_ok in Hq.
      apply elem_of_seq in Hq. lia. }
    rewrite drop_0 in Hfill. change (zip (n_neigh ndc) (n_br ndc)) with (adj ndc) in Hfill.
    rewrite (mbind_run _ _ t1 t1 _ Hfill). cbn [fst].
    pose proof (fill_perm prev (rand_Perm k1 l) (adj ndc) l (rand_Perm_ok k1 l) Hl) as HR.
    set (R := fill prev (rand_Perm k1 l) (adj ndc) (replicate l None) 0) in *.
    assert (HRk : R ≡ₚ map (fun k => Some (kid_edge k)) kids2).
    { rewrite HR, Hw1. rewrite map_map. reflexivity. }
    replace (regroup_loop (length (n_neigh ndc)))
      with (regroup_loop (S (length (n_neigh ndc) - 1))) by (f_equal; lia).
    destruct (regroup_all tp (Sh c kids) prev c (length (n_neigh ndc) - 1) t1 kids2 R
                Hg1 HRk) as (t' & kids' & Hrun & Hg' & Hd'); [lia|].
    rewrite (mbind_run _ _ t1 t' tt Hrun). exists (S k1), t', (Sh c kids').
    split; [reflexivity|]. split; [exact Hg'|]. cbn [shape_root].
    destruct (gi_deg_root _ _ _ _ _ _ Hg') as [[H1 H2]|H]; cbn [shape_root] in *; lia.
  - apply Nat.ltb_ge in Hdeg. exists k1, t1, (Sh c kids2). split; [reflexivity|].
    split; [exact Hg1|]. cbn [shape_root]. rewrite Hd1, Hd0. lia.
Qed.

End ResolveRecur.

(** *** From the positions to the neighbors in any order *)

Lemma filter_split {A} (f : A -> bool) (l : list A) :
  l ≡ₚ List.filter (fun x => negb (f x)) l ++ List.filter f l.
Proof.
  induction l as [|a l IH]; cbn; [reflexivity|]. destruct (f a); cbn.
  - rewrite <- Permutation_middle. now apply perm_skip.
  - now apply perm_skip.
Qed.

Lemma wanted_positions (prev : option ptr) (brfull : list ptr) :
  forall (neigh br : list ptr) (i : nat),
  drop i brfull = br -> length br = length neigh ->
  List.filter (wanted prev) (zip neigh br)
  = map (fun x : nat * ptr => (snd x, default 0 (brfull !! fst x)))
      (List.filter (fun x => negb (ptr_eqb (Some (snd x)) prev))
         (imap (fun j c => (i + j, c)) neigh)).
Proof.
  induction neigh as [|c neigh IH]; intros br i Hdrop Hlen; [reflexivity|].
  destruct br as [|e br]; [discriminate|].
  assert (He : brfull !! (i + 0) = Some e) by (now rewrite <- lookup_drop, Hdrop).
  assert (Hdrop' : drop (S i) brfull = br).
  { replace (S i) with (i + 1) by lia. now rewrite <- drop_drop, Hdrop. }
  cbn [zip zip_with List.filter imap]. unfold wanted at 1. cbn [fst snd].
  rewrite (imap_ext _ (fun j c => (S i + j, c))) by (intros; cbn; f_equal; lia).
  specialize (IH br (S i) Hdrop' ltac:(now injection Hlen)).
  destruct (negb (ptr_eqb (Some c) prev)).
  - rewrite map_cons. cbn [fst snd]. unfold ptr in *. rewrite He.
    change (default 0 (Some e)) with e. f_equal. exact IH.
  - exact IH.
Qed.

Lemma rep_hold (t : Tree) (s : shape) : forall prev, rep t prev s -> hold t prev s.
Proof.
  induction s as [n kids IH] using shape_ind'. intros prev Hrep.
  inversion Hrep as [? ? ? nd Hnd Hlen Hpos Hcount Hup Hkids]; subst.
  assert (Hw : List.filter (wanted prev) (adj nd) = map down kids).
  { unfold adj. rewrite (wanted_positions prev (n_br nd) (n_neigh nd) (n_br nd) 0 eq_refl Hlen).
    change (List.filter _ (imap _ (n_neigh nd))) with (kid_positions (n_neigh nd) prev).
    rewrite Hpos, map_map. apply map_ext_in. intros kd Hin. apply list_elem_of_In in Hin.
    rewrite Forall_forall in Hkids. destruct (Hkids kd Hin) as (Hbr & _).
    unfold down, kid_pos, ptr in *. cbn [fst snd]. rewrite Hbr. reflexivity. }
  set (up := List.filter (fun x => negb (wanted prev x)) (adj nd)).
  assert (Hsplit : adj nd ≡ₚ up ++ map down kids) by (rewrite <- Hw; apply filter_split).
  assert (Hlup : length up = up_count prev).
  { apply Permutation_length in Hsplit.
    rewrite length_app, length_map, (adj_length nd Hlen), Hcount in Hsplit.
    destruct prev; cbn [up_count]; lia. }
  assert (Hep : exists ep, up = ups prev ep).
  { destruct prev as [p|]; cbn [up_count] in Hlup.
    - destruct up as [|[x ep] [|? ?]] eqn:Heq; try discriminate. exists ep. cbn [ups].
      assert (Hin : (x, ep) ∈ up) by (rewrite Heq; apply elem_of_cons; now left).
      unfold up in Hin. apply list_elem_of_In, filter_In in Hin as [_ Hin].
      unfold wanted in Hin. cbn in Hin. apply negb_true_iff, negb_false_iff in Hin.
      apply Nat.eqb_eq in Hin. now subst.
    - exists 0. destruct up; [reflexivity|discriminate]. }
  destruct Hep as [ep Hep]. rewrite Hep in Hsplit.
  apply (hold_intro t prev ep n kids nd Hnd Hlen Hsplit).
  - intros p ->. assert (Hin : (p, ep) ∈ adj nd).
    { rewrite Hsplit. apply elem_of_cons. now left. }
    apply list_elem_of_lookup in Hin as [k Hk]. unfold adj in Hk.
    apply lookup_zip_with_Some in Hk as (c & e & Heq & Hc & He). injection Heq as <- <-.
    destruct (Hup k p ep Hc He eq_refl) as (ed & Hed & Hl & Hr). exists ed. auto.
  - rewrite Forall_forall in *. intros kd Hkd. destruct (Hkids kd Hkd) as (_ & Hj & Hk).
    split; [exact Hj|]. apply (IH kd Hkd (Some n) Hk).
Qed.

Lemma wf_tidy (t : Tree) (s : shape) : wf t s -> tidy t None s.
Proof.
  intros Hwf. split; [|split].
  - apply rep_hold, Hwf.
  - apply Hwf.
  - intros p Hp. discriminate.
Qed.

(** *** [Resolve] *)

(** The nodes of a subtree are its root and the nodes the edges lead to. *)
Lemma nodes_as_subs (s : shape) :
  shape_nodes s = shape_root s :: map (fun x => shape_root (snd x)) (shape_subs s).
Proof.
  induction s as [n kids IH] using shape_ind'. cbn [shape_nodes shape_subs shape_root].
  f_equal. induction kids as [|kd kids IHk]; [reflexivity|].
  apply Forall_cons in IH as [Hkd IH]. cbn [flat_map]. rewrite map_app. cbn [map snd].
  rewrite (IHk IH), Hkd. reflexivity.
Qed.

Lemma node_has_edge (s : shape) (x : ptr) :
  x ∈ shape_nodes s -> x <> shape_root s ->
  exists e sub, (e, sub) ∈ shape_subs s /\ shape_root sub = x.
Proof.
  rewrite nodes_as_subs. intros Hx Hne. apply elem_of_cons in Hx as [Hx|Hx]; [easy|].
  apply list_elem_of_fmap in Hx as ([e sub] & -> & Hin). now exists e, sub.
Qed.

Lemma edge_of_node (s : shape) (e1 e2 : ptr) (sub1 sub2 : shape) :
  NoDup (shape_nodes s) -> (e1, sub1) ∈ shape_subs s -> (e2, sub2) ∈ shape_subs s ->
  shape_root sub1 = shape_root sub2 -> e1 = e2 /\ sub1 = sub2.
Proof.
  rewrite nodes_as_subs. intros Hnd H1 H2 Heq. apply NoDup_cons in Hnd as [_ Hnd].
  pose proof (bits_facts.nodup_map_inj (fun x : ptr * shape => shape_root (snd x)) (shape_subs s)
                (e1, sub1) (e2, sub2) Hnd H1 H2 Heq) as H.
  now injection H.
Qed.

Lemma edge_not_to_root (s : shape) (e : ptr) (sub : shape) :
  NoDup (shape_nodes s) -> (e, sub) ∈ shape_subs s -> shape_root sub <> shape_root s.
Proof.
  rewrite nodes_as_subs. intros Hnd Hin Heq. apply NoDup_cons in Hnd as [Hn _].
  apply Hn. rewrite <- Heq. apply list_elem_of_fmap. now exists (e, sub).
Qed.

(** [(a:1,b:2,c:3,d:4,(e:5,f:6,g:7,h:8)0.5:9);]: the root and a node below it
    have five neighbors. *)
Definition bush : Tree :=
  examples.tree_of
    [examples.Nw "a" 1%float NIL_SUPPORT []; examples.Nw "b" 2%float NIL_SUPPORT [];
     examples.Nw "c" 3%float NIL_SUPPORT []; examples.Nw "d" 4%float NIL_SUPPORT [];
     examples.Nw "" 9%float 0.5%float
       [examples.Nw "e" 5%float NIL_SUPPORT []; examples.Nw "f" 6%float NIL_SUPPORT [];
        examples.Nw "g" 7%float NIL_SUPPORT []; examples.Nw "h" 8%float NIL_SUPPORT []]].

(** C7. [Resolve] on a well-formed tree, whatever permutations the generator
    draws, returns: the tree it leaves has the same root and is a tree again,
    with the nodes of the former tree and new nodes.  A node of the former
    tree keeps its name and its degree when the degree is at most 3, and has
    degree exactly 3 when it had more (5, say); a new node has degree 3.  So
    the tips (the nodes with one neighbor) are the same nodes, under the same
    names.  The edge that leads to a node of the former tree has the length,
    the support and the p-value of the edge that led to it before, and every
    edge of the former tree is carried in this way; an edge that leads to a
    new node has length 0, and support and p-value unset. *)
Theorem Resolve_resolves (rand_Perm : nat -> nat -> list nat) (t : Tree) (s : shape) :
  (forall k l, rand_Perm k l ≡ₚ seq 0 l) ->
  wf t s ->
  exists k t' s',
    Resolve rand_Perm t = Ret (k, t') /\
    root t' = root t /\ shape_root s' = shape_root s /\ tidy t' None s' /\
    (forall x, x ∈ shape_nodes s ->
       x ∈ shape_nodes s' /\ degree t' x = Nat.min (degree t x) 3 /\
       node_name t' x = node_name t x) /\
    (forall x, x ∈ shape_nodes s' -> x ∉ shape_nodes s -> degree t' x = 3) /\
    (forall x, x ∈ shape_nodes s' /\ degree t' x = 1 <->
               x ∈ shape_nodes s /\ degree t x = 1) /\
    (forall e sub, (e, sub) ∈ shape_subs s ->
       exists e' sub', (e', sub') ∈ shape_subs s' /\ shape_root sub' = shape_root sub /\
                       attrs t' e' = attrs t e) /\
    (forall e' sub', (e', sub') ∈ shape_subs s' -> shape_root sub' ∈ shape_nodes s ->
       exists e sub, (e, sub) ∈ shape_subs s /\ shape_root sub = shape_root sub' /\
                     attrs t' e' = attrs t e) /\
    (forall e' sub', (e', sub') ∈ shape_subs s' -> shape_root sub' ∉ shape_nodes s ->
       attrs t' e' = unset).
Proof.
  intros Hrand Hwf. pose proof (wf_tidy t s Hwf) as Ht. pose proof Ht as (Hh & Hnd & _).
  destruct (resolveRecur_ok rand_Perm Hrand s (budget t) t None 0 Ht)
    as (k & t' & s' & Hrun & [Hg Hd]).
  { pose proof (bits_facts.wf_depth t s Hwf). unfold budget. lia. }
  pose proof (gi_tidy _ _ _ _ _ _ Hg) as Ht'. pose proof Ht' as (_ & Hnd' & _).
  pose proof (gi_rooted _ _ _ _ _ _ Hg) as Hrooted.
  assert (Hdeg : forall x, x ∈ shape_nodes s -> degree t' x = Nat.min (degree t x) 3).
  { intros x Hx. destruct (decide (x = shape_root s)) as [->|Hne]; [exact Hd|].
    apply (gi_deg_old _ _ _ _ _ _ Hg x Hx Hne). intros H. inversion H. }
  exists k, t', s'. split; [|split; [|split; [|split; [|split; [|split; [|split; [|split; [|split]]]]]]]].
  - unfold Resolve. unfold mbind at 1. unfold mread at 1. cbn [obind].
    unfold mbind at 1. unfold mread at 1. unfold Root. rewrite (wf_root _ _ Hwf).
    cbn [of_option obind]. exact Hrun.
  - apply (gi_root _ _ _ _ _ _ Hg).
  - exact Hrooted.
  - exact Ht'.
  - intros x Hx. split; [apply (gi_old _ _ _ _ _ _ Hg x Hx)|]. split; [now apply Hdeg|].
    destruct (hold_nodes_real t s None Hh x Hx) as [nd Hx0].
    destruct (gi_names _ _ _ _ _ _ Hg x nd Hx0) as (nd' & Hx1 & Hname).
    unfold node_name. unfold ptr in *. now rewrite Hx0, Hx1.
  - apply (gi_deg_new _ _ _ _ _ _ Hg).
  - intros x. split.
    + intros [Hx Hdx]. destruct (decide (x ∈ shape_nodes s)) as [Hin|Hout].
      * split; [exact Hin|]. rewrite (Hdeg x Hin) in Hdx. lia.
      * rewrite (gi_deg_new _ _ _ _ _ _ Hg x Hx Hout) in Hdx. discriminate.
    + intros [Hx Hdx]. split; [apply (gi_old _ _ _ _ _ _ Hg x Hx)|].
      rewrite (Hdeg x Hx), Hdx. reflexivity.
  - intros e sub Hin.
    pose proof (sub_root_in s e sub Hin) as Hroot.
    pose proof (edge_not_to_root s e sub Hnd Hin) as Hne.
    destruct (node_has_edge s' (shape_root sub)) as (e' & sub' & Hin' & Hroot').
    { apply (gi_old _ _ _ _ _ _ Hg _ Hroot). }
    { now rewrite Hrooted. }
    destruct (gi_attrs_old _ _ _ _ _ _ Hg e' sub' Hin') as (e0 & sub0 & H1 & H2 & H3).
    { now rewrite Hroot'. }
    destruct (edge_of_node s e0 e sub0 sub Hnd H1 Hin) as [-> ->]; [congruence|].
    exists e', sub'. auto.
  - apply (gi_attrs_old _ _ _ _ _ _ Hg).
  - apply (gi_attrs_new _ _ _ _ _ _ Hg).
Qed.

Lemma Resolve_resolves_witness :
  (forall k l : nat, rev (seq 0 l) ≡ₚ seq 0 l) /\
  wf bush (shape_at_root bush) /\
  exists k t' s',
    Resolve (fun _ l => rev (seq 0 l)) bush = Ret (k, t') /\
    root t' = root bush /\ shape_root s' = shape_root (shape_at_root bush) /\
    tidy t' None s' /\
    (forall x, x ∈ shape_nodes (shape_at_root bush) ->
       x ∈ shape_nodes s' /\ degree t' x = Nat.min (degree bush x) 3 /\
       node_name t' x = node_name bush x) /\
    (forall x, x ∈ shape_nodes s' -> x ∉ shape_nodes (shape_at_root bush) ->
               degree t' x = 3) /\
    (forall x, x ∈ shape_nodes s' /\ degree t' x = 1 <->
               x ∈ shape_nodes (shape_at_root bush) /\ degree bush x = 1) /\
    (forall e sub, (e, sub) ∈ shape_subs (shape_at_root bush) ->
       exists e' sub', (e', sub') ∈ shape_subs s' /\ shape_root sub' = shape_root sub /\
                       attrs t' e' = attrs bush e) /\
    (forall e' sub', (e', sub') ∈ shape_subs s' ->
       shape_root sub' ∈ shape_nodes (shape_at_root bush) ->
       exists e sub, (e, sub) ∈ shape_subs (shape_at_root bush) /\
                     shape_root sub = shape_root sub' /\ attrs t' e' = attrs bush e) /\
    (forall e' sub', (e', sub') ∈ shape_subs s' ->
       shape_root sub' ∉ shape_nodes (shape_at_root bush) -> attrs t' e' = unset).
Proof.
  assert (Hperm : forall k l : nat, rev (seq 0 l) ≡ₚ seq 0 l)
    by (intros k l; symmetry; apply Permutation_rev).
  assert (Hwf : wf bush (shape_at_root bush)) by (apply wfb_sound; vm_compute; reflexivity).
  split; [exact Hperm|]. split; [exact Hwf|].
  exact (Resolve_resolves (fun _ l => rev (seq 0 l)) bush (shape_at_root bush) Hperm Hwf).
Defined.

End resolve_facts.

(* ===================================================================== *)
(** ** The traversals of a well-formed tree                               *)
(* ===================================================================== *)

Module traverse_facts.
Import tree shapes loops booster booster_facts.

(** A loop whose body leaves the accumulator alone on the elements that
    [keep] rejects is a loop over the others. *)
Lemma ofold_filter {A B} (F G : B -> A -> outcome B) (keep : A -> bool) (l : list A)
  (b : B) :
  (forall b x, x ∈ l -> F b x = if keep x then G b x else Ret b) ->
  ofold F l b = ofold G (List.filter keep l) b.
Proof.
  revert b. induction l as [|x l IH]; intros b H; [reflexivity|].
  cbn [ofold List.filter]. rewrite (H b x) by (apply elem_of_cons; now left).
  assert (H' : forall b x, x ∈ l -> F b x = if keep x then G b x else Ret b)
    by (intros b' y Hy; apply H, elem_of_cons; now right).
  destruct (keep x).
  - cbn [ofold]. destruct (G b x); cbn [obind]; [now apply IH|reflexivity..].
  - cbn [obind]. now apply IH.
Qed.

(** A loop that appends something for each element. *)
Lemma ofold_append {K B} (G : list B -> K -> outcome (list B)) (h : K -> list B)
  (l : list K) (acc : list B) :
  (forall kd acc, kd ∈ l -> G acc kd = Ret (acc ++ h kd)) ->
  ofold G l acc = Ret (acc ++ flat_map h l).
Proof.
  revert acc. induction l as [|kd l IH]; intros acc H.
  - cbn. now rewrite app_nil_r.
  - cbn [ofold flat_map]. rewrite (H kd acc) by (apply elem_of_cons; now left).
    cbn [obind]. rewrite IH by (intros kd' acc' Hkd'; apply H, elem_of_cons; now right).
    now rewrite app_assoc.
Qed.

(** The neighbors other than [prev], in the order of the list. *)
Lemma positions_snd (keep : ptr -> bool) (l : list ptr) (o : nat) :
  List.filter keep l
  = map snd (List.filter (fun x : nat * ptr => keep (snd x)) (imap (fun i c => (o + i, c)) l)).
Proof.
  revert o. induction l as [|c l IH]; intros o; [reflexivity|].
  cbn [imap List.filter snd].
  rewrite (imap_ext _ (fun i c => (S o + i, c))) by (intros; cbn; f_equal; lia).
  destruct (keep c); cbn [map snd]; [f_equal|]; apply IH.
Qed.

Lemma rep_neighbors (t : Tree) (prev : option ptr) (n : ptr)
  (kids : list (nat * ptr * shape)) (nd : Node) :
  rep t prev (Sh n kids) -> nodes t !! n = Some nd ->
  List.filter (fun nb => negb (ptr_eqb (Some nb) prev)) (n_neigh nd)
  = map (fun k => shape_root (kid_sub k)) kids.
Proof.
  intros Hrep Hnd. inversion Hrep as [? ? ? nd' Hnode Hbr Hpos Hlen Hpar Hkids]; subst.
  unfold ptr in *. rewrite Hnd in Hnode. injection Hnode as <-.
  rewrite (positions_snd _ (n_neigh nd) 0).
  change (List.filter _ (imap _ (n_neigh nd))) with (kid_positions (n_neigh nd) prev).
  unfold ptr in *. rewrite Hpos, map_map. reflexivity.
Qed.

Lemma rep_degree (t : Tree) (prev : option ptr) (n : ptr)
  (kids : list (nat * ptr * shape)) (nd : Node) :
  rep t prev (Sh n kids) -> nodes t !! n = Some nd ->
  length (n_neigh nd) = length kids + match prev with Some _ => 1 | None => 0 end.
Proof.
  intros Hrep Hnd. inversion Hrep as [? ? ? nd' Hnode Hbr Hpos Hlen Hpar Hkids]; subst.
  unfold ptr in *. rewrite Hnd in Hnode. injection Hnode as <-. exact Hlen.
Qed.

(** The subtree of a child hangs below its parent. *)
Lemma hangs_child (t : Tree) (prev : option ptr) (n : ptr)
  (kids : list (nat * ptr * shape)) (kd : nat * ptr * shape) :
  rep t prev (Sh n kids) -> NoDup (shape_nodes (Sh n kids)) -> kd ∈ kids ->
  bits.hangs t n (kid_sub kd) /\
  exists ed, edges t !! kid_edge kd = Some ed /\ e_left ed = Some n /\
             e_right ed = Some (shape_root (kid_sub kd)).
Proof.
  intros Hrep Hnd Hkd. inversion Hrep as [? ? ? nd' Hnode Hbr Hpos Hlen Hpar Hkids]; subst.
  rewrite Forall_forall in Hkids. destruct (Hkids kd Hkd) as (_ & Hj & Hsub).
  split; [|exact Hj]. cbn [shape_nodes] in Hnd. apply NoDup_cons in Hnd as [Hn Hnd].
  split; [exact Hsub|split].
  - intros Hin. apply Hn. apply elem_of_flat_map. exists kd. split; assumption.
  - apply list_elem_of_split in Hkd as (l1 & l2 & ->).
    rewrite flat_map_app in Hnd. cbn [flat_map] in Hnd.
    apply NoDup_app in Hnd as (_ & _ & Hnd). now apply NoDup_app in Hnd as (Hnd & _ & _).
Qed.

Lemma depth_child (n : ptr) (kids : list (nat * ptr * shape)) (kd : nat * ptr * shape)
  (fuel : nat) :
  kd ∈ kids -> depth (Sh n kids) <= S fuel -> depth (kid_sub kd) <= fuel.
Proof. intros Hkd H. pose proof (depth_kid n kids kd Hkd). unfold kid_sub. lia. Qed.

(** *** [Edges] *)

Lemma edgesRecur_ok (t : Tree) (s : shape) :
  forall (fuel : nat) (p e : ptr) (ed : Edge) (acc : list ptr),
  bits.hangs t p s -> edges t !! e = Some ed -> e_right ed = Some (shape_root s) ->
  depth s <= fuel ->
  edgesRecur fuel t e acc = Ret (acc ++ shape_edges s).
Proof.
  induction s as [n kids IH] using shape_ind'. intros fuel p e ed acc Hh He Hr Hfuel.
  destruct fuel as [|fuel]; [cbn in Hfuel; lia|]. destruct Hh as (Hrep & Hp & Hnd).
  assert (Hpn : p <> n) by (intros ->; apply Hp, (resolve_facts.root_in_nodes (Sh n kids))).
  inversion Hrep as [? ? ? nd Hnode Hbr Hpos Hlen Hpar Hkids]; subst.
  cbn [edgesRecur]. unfold edge_at. rewrite He. cbn [of_option obind]. rewrite Hr.
  cbn [shape_root node_of]. unfold node_at. rewrite Hnode. cbn [of_option obind].
  destruct (Nat.ltb 1 (length (n_neigh nd))) eqn:Hdeg.
  - rewrite (ofold_filter _ (fun acc child => edgesRecur fuel t child (acc ++ [child]))
               (bits_facts.leaves_from t n)).
    + rewrite (bits_facts.br_kids t p n kids nd Hrep Hpn Hnode), ofold_map.
      apply (ofold_append _ (fun kd => kid_edge kd :: shape_edges (kid_sub kd))).
      intros kd acc' Hkd.
      destruct (hangs_child t (Some p) n kids kd Hrep Hnd Hkd) as (Hhk & edk & Hek & _ & Hrk).
      rewrite Forall_forall in IH.
      rewrite (IH kd Hkd fuel n (kid_edge kd) edk (acc' ++ [kid_edge kd]) Hhk Hek Hrk
                 (depth_child n kids kd fuel Hkd Hfuel)).
      now rewrite <- app_assoc.
    + intros b x Hx. destruct (bits_facts.br_real t (Some p) n kids nd x Hrep Hnode Hx)
        as [c Hc].
      unfold edge_at, bits_facts.leaves_from. unfold ptr in *. rewrite Hc.
      reflexivity.
  - apply Nat.ltb_ge in Hdeg. destruct kids as [|kd kids]; [now rewrite app_nil_r|].
    cbn [length] in Hlen. unfold ptr in *. lia.
Qed.

Lemma Edges_ok (t : Tree) (s : shape) :
  wf t s -> Edges t = Ret (shape_edges s) /\ NoDup (shape_edges s).
Proof.
  intros Hwf. split; [|apply Hwf]. destruct s as [r kids].
  pose proof (wf_rep _ _ Hwf) as Hrep. pose proof (wf_nodes _ _ Hwf) as Hnd.
  inversion Hrep as [? ? ? nd Hnode Hbr Hpos Hlen Hpar Hkids]; subst.
  unfold Edges, Edges_fuel, Root. rewrite (wf_root _ _ Hwf). cbn [shape_root node_of].
  unfold node_at. rewrite Hnode. cbn [of_option obind].
  rewrite (bits_facts.root_br t r kids nd Hrep Hnode), ofold_map.
  apply (ofold_append _ (fun kd => kid_edge kd :: shape_edges (kid_sub kd)) kids []).
  intros kd acc Hkd.
  destruct (hangs_child t None r kids kd Hrep Hnd Hkd) as (Hhk & edk & Hek & _ & Hrk).
  rewrite (edgesRecur_ok t (kid_sub kd) (budget t) r (kid_edge kd) edk (acc ++ [kid_edge kd])
             Hhk Hek Hrk).
  - now rewrite <- app_assoc.
  - pose proof (bits_facts.wf_depth t _ Hwf). pose proof (depth_kid r kids kd Hkd).
    unfold budget, kid_sub. lia.
Qed.

(** *** [Nodes] and [Tips] *)

Lemma nodesRecur_ok (t : Tree) (s : shape) :
  forall (fuel : nat) (prev : option ptr) (acc : list ptr),
  rep t prev s -> depth s <= fuel ->
  nodesRecur fuel t acc (Some (shape_root s)) prev = Ret (acc ++ shape_nodes s).
Proof.
  induction s as [n kids IH] using shape_ind'. intros fuel prev acc Hrep Hfuel.
  destruct fuel as [|fuel]; [cbn in Hfuel; lia|].
  inversion Hrep as [? ? ? nd Hnode Hbr Hpos Hlen Hpar Hkids]; subst.
  cbn [nodesRecur shape_root of_option obind]. unfold node_at. rewrite Hnode.
  cbn [of_option obind].
  rewrite (ofold_filter _ (fun acc nb => nodesRecur fuel t acc (Some nb) (Some n))
             (fun nb => negb (ptr_eqb (Some nb) prev))) by reflexivity.
  rewrite (rep_neighbors t prev n kids nd Hrep Hnode), ofold_map.
  rewrite (ofold_append _ (fun kd => shape_nodes (kid_sub kd))).
  - cbn [shape_nodes]. now rewrite <- app_assoc.
  - intros kd acc' Hkd. rewrite Forall_forall in IH, Hkids.
    destruct (Hkids kd Hkd) as (_ & _ & Hsub).
    apply (IH kd Hkd fuel (Some n) acc' Hsub (depth_child n kids kd fuel Hkd Hfuel)).
Qed.

Lemma Nodes_ok (t : Tree) (s : shape) :
  wf t s -> Nodes t = Ret (shape_nodes s) /\ NoDup (shape_nodes s).
Proof.
  intros Hwf. split; [|apply Hwf].
  pose proof (nodesRecur_ok t s (budget t) None [] (wf_rep _ _ Hwf)) as H.
  unfold Nodes, budget in *. cbn [nodesRecur] in *. unfold Root.
  rewrite (wf_root _ _ Hwf). apply H. pose proof (bits_facts.wf_depth t s Hwf). lia.
Qed.

(** The node has exactly one neighbor. *)
Definition tipb (t : Tree) (x : ptr) : bool :=
  match nodes t !! x with Some nd => Node_Tip nd | None => false end.

Lemma tipsRecur_ok (t : Tree) (s : shape) :
  forall (fuel : nat) (prev : option ptr) (acc : list ptr),
  rep t prev s -> depth s <= fuel ->
  tipsRecur fuel t acc (Some (shape_root s)) prev
  = Ret (acc ++ List.filter (tipb t) (shape_nodes s)).
Proof.
  induction s as [n kids IH] using shape_ind'. intros fuel prev acc Hrep Hfuel.
  destruct fuel as [|fuel]; [cbn in Hfuel; lia|].
  inversion Hrep as [? ? ? nd Hnode Hbr Hpos Hlen Hpar Hkids]; subst.
  cbn [tipsRecur shape_root node_of of_option obind]. unfold node_at. rewrite Hnode.
  cbn [of_option obind].
  rewrite (ofold_filter _ (fun acc nb => tipsRecur fuel t acc (Some nb) (Some n))
             (fun nb => negb (ptr_eqb (Some nb) prev))) by reflexivity.
  rewrite (rep_neighbors t prev n kids nd Hrep Hnode), ofold_map.
  rewrite (ofold_append _ (fun kd => List.filter (tipb t) (shape_nodes (kid_sub kd)))).
  - cbn [shape_nodes List.filter]. unfold tipb at 2. unfold ptr in *. rewrite Hnode.
    assert (Hflat : forall l : list (nat * ptr * shape),
              flat_map (fun kd => List.filter (tipb t) (shape_nodes (kid_sub kd))) l
              = List.filter (tipb t) (flat_map (fun k => shape_nodes (snd k)) l)).
    { induction l as [|kd l IHl]; [reflexivity|]. cbn [flat_map].
      now rewrite List.filter_app, IHl. }
    rewrite Hflat. destruct (Node_Tip nd); [now rewrite <- app_assoc|reflexivity].
  - intros kd acc' Hkd. rewrite Forall_forall in IH, Hkids.
    destruct (Hkids kd Hkd) as (_ & _ & Hsub).
    apply (IH kd Hkd fuel (Some n) acc' Hsub (depth_child n kids kd fuel Hkd Hfuel)).
Qed.

Lemma Tips_ok (t : Tree) (s : shape) :
  wf t s ->
  exists ns, Nodes t = Ret ns /\ Tips t = Ret (List.filter (tipb t) ns) /\
    forall x, x ∈ List.filter (tipb t) ns <-> x ∈ ns /\ resolve.degree t x = 1.
Proof.
  intros Hwf. exists (shape_nodes s). split; [apply (Nodes_ok t s Hwf)|split].
  - pose proof (tipsRecur_ok t s (budget t) None [] (wf_rep _ _ Hwf)) as H.
    unfold Tips, budget in *. cbn [tipsRecur] in *. unfold Root.
    rewrite (wf_root _ _ Hwf). apply H. pose proof (bits_facts.wf_depth t s Hwf). lia.
  - intros x. rewrite list_elem_of_In, filter_In, <- list_elem_of_In.
    unfold tipb, resolve.degree, Node_Tip.
    destruct (nodes t !! x) as [nd|] eqn:Hx.
    + rewrite Nat.eqb_eq. reflexivity.
    + split; intros [_ H]; discriminate.
Qed.

(** *** [AllTipNames] *)

Lemma allTipNamesRecur_ok (t : Tree) (s : shape) :
  forall (fuel : nat) (p : ptr) (names : list string),
  rep t (Some p) s -> depth s <= fuel ->
  allTipNamesRecur fuel t names (Some (shape_root s)) (Some p)
  = Ret (names ++ tip_names t s).
Proof.
  induction s as [n kids IH] using shape_ind'. intros fuel p names Hrep Hfuel.
  destruct fuel as [|fuel]; [cbn in Hfuel; lia|].
  inversion Hrep as [? ? ? nd Hnode Hbr Hpos Hlen Hpar Hkids]; subst.
  cbn [allTipNamesRecur shape_root node_of]. unfold node_at. rewrite Hnode.
  cbn [of_option obind].
  destruct (Nat.eqb (length (n_neigh nd)) 1) eqn:Hdeg.
  - apply Nat.eqb_eq in Hdeg. destruct kids as [|kd kids]; [|cbn [length] in Hlen; lia].
    cbn [tip_names]. unfold node_name. unfold ptr in *. now rewrite Hnode.
  - apply Nat.eqb_neq in Hdeg. destruct kids as [|kd0 kids0] eqn:Hk; [cbn in Hlen; lia|].
    rewrite <- Hk in *.
    rewrite (ofold_filter _ (fun names child =>
                               allTipNamesRecur fuel t names (Some child) (Some n))
               (fun nb => negb (ptr_eqb (Some nb) (Some p)))) by reflexivity.
    rewrite (rep_neighbors t (Some p) n kids nd Hrep Hnode), ofold_map.
    rewrite (ofold_append _ (fun kd => tip_names t (kid_sub kd))).
    + rewrite Hk. reflexivity.
    + intros kd acc' Hkd. rewrite Forall_forall in IH, Hkids.
      destruct (Hkids kd Hkd) as (_ & _ & Hsub).
      apply (IH kd Hkd fuel n acc' Hsub (depth_child n kids kd fuel Hkd Hfuel)).
Qed.

(** Below the root, a node is a tip exactly when it has no child. *)
Lemma tip_names_filter (t : Tree) (s : shape) :
  forall p, rep t (Some p) s ->
  tip_names t s = map (node_name t) (List.filter (tipb t) (shape_nodes s)).
Proof.
  induction s as [n kids IH] using shape_ind'. intros p Hrep.
  inversion Hrep as [? ? ? nd Hnode Hbr Hpos Hlen Hpar Hkids]; subst.
  cbn [shape_nodes List.filter]. unfold tipb at 1. unfold ptr in *. rewrite Hnode.
  unfold Node_Tip.
  assert (Hflat : forall l : list (nat * ptr * shape),
            Forall (fun k => forall p, rep t (Some p) (snd k) ->
                      tip_names t (snd k)
                      = map (node_name t) (List.filter (tipb t) (shape_nodes (snd k)))) l ->
            Forall (fun k => rep t (Some n) (kid_sub k)) l ->
            flat_map (fun k => tip_names t (snd k)) l
            = map (node_name t)
                (List.filter (tipb t) (flat_map (fun k => shape_nodes (snd k)) l))).
  { induction l as [|kd l IHl]; intros H1 H2; [reflexivity|].
    apply Forall_cons in H1 as [H1 H1']. apply Forall_cons in H2 as [H2 H2'].
    cbn [flat_map]. rewrite List.filter_app, map_app, (H1 n H2), (IHl H1' H2').
    reflexivity. }
  destruct kids as [|kd kids]; cbn [length] in Hlen.
  - destruct (Nat.eqb (length (n_neigh nd)) 1) eqn:Hdeg;
      [reflexivity|apply Nat.eqb_neq in Hdeg; unfold ptr in *; lia].
  - destruct (Nat.eqb (length (n_neigh nd)) 1) eqn:Hdeg;
      [apply Nat.eqb_eq in Hdeg; unfold ptr in *; lia|].
    cbn [tip_names].
    apply Hflat; [exact IH|]. apply Forall_forall. intros k Hk.
    rewrite Forall_forall in Hkids. now destruct (Hkids k Hk) as (_ & _ & H).
Qed.

(** [AllTipNames] of a tree whose root has two neighbors or more lists the
    names of the nodes that [Tips] lists, in the same order. *)
Lemma AllTipNames_ok (t : Tree) (s : shape) :
  wf t s -> 2 <= length (shape_kids s) ->
  exists tips, Tips t = Ret tips /\ AllTipNames t = Ret (map (node_name t) tips).
Proof.
  intros Hwf Hk. destruct (Tips_ok t s Hwf) as (ns & Hns & Htips & _).
  destruct (Nodes_ok t s Hwf) as [Hns' _]. rewrite Hns' in Hns. injection Hns as <-.
  exists (List.filter (tipb t) (shape_nodes s)). split; [exact Htips|].
  destruct s as [r kids]. cbn [shape_kids] in Hk.
  pose proof (wf_rep _ _ Hwf) as Hrep.
  inversion Hrep as [? ? ? nd Hnode Hbr Hpos Hlen Hpar Hkids]; subst.
  unfold AllTipNames. unfold budget. cbn [allTipNamesRecur]. unfold Root.
  rewrite (wf_root _ _ Hwf). cbn [shape_root node_of]. unfold node_at. rewrite Hnode.
  cbn [of_option obind].
  assert (Hdeg : Nat.eqb (length (n_neigh nd)) 1 = false) by (apply Nat.eqb_neq; lia).
  rewrite Hdeg.
  rewrite (ofold_filter _ (fun names child =>
                             allTipNamesRecur (length (nodes t)) t names (Some child) (Some r))
             (fun nb => negb (ptr_eqb (Some nb) None))) by reflexivity.
  rewrite (rep_neighbors t None r kids nd Hrep Hnode), ofold_map.
  rewrite (ofold_append _ (fun kd => tip_names t (kid_sub kd))).
  - cbn [app shape_nodes List.filter]. unfold tipb at 1. unfold ptr in *. rewrite Hnode.
    unfold Node_Tip. unfold ptr in *. rewrite Hdeg. f_equal.
    rewrite Forall_forall in Hkids. clear - Hkids.
    assert (Hall : forall k, k ∈ kids -> rep t (Some r) (kid_sub k))
      by (intros k Hk; now destruct (Hkids k Hk) as (_ & _ & H)).
    clear Hkids. induction kids as [|kd kids IH]; [reflexivity|].
    cbn [flat_map]. rewrite List.filter_app, map_app.
    rewrite <- IH by (intros k Hk; apply Hall, elem_of_cons; now right).
    f_equal. apply (tip_names_filter t (kid_sub kd) r).
    apply Hall, elem_of_cons. now left.
  - intros kd acc' Hkd. rewrite Forall_forall in Hkids.
    destruct (Hkids kd Hkd) as (_ & _ & Hsub).
    apply (allTipNamesRecur_ok t (kid_sub kd) (length (nodes t)) r acc' Hsub).
    pose proof (bits_facts.wf_depth t _ Hwf). pose proof (depth_kid r kids kd Hkd).
    unfold kid_sub. lia.
Qed.

(** On a tree whose root has one neighbor, [AllTipNames] stops at the root:
    it returns the name of the root alone, whatever hangs below. *)
Lemma AllTipNames_single (t : Tree) (s : shape) :
  wf t s -> length (shape_kids s) = 1 ->
  AllTipNames t = Ret [node_name t (shape_root s)].
Proof.
  intros Hwf Hk. destruct s as [r kids]. cbn [shape_kids] in Hk.
  pose proof (wf_rep _ _ Hwf) as Hrep.
  inversion Hrep as [? ? ? nd Hnode Hbr Hpos Hlen Hpar Hkids]; subst.
  unfold AllTipNames. unfold budget. cbn [allTipNamesRecur]. unfold Root.
  rewrite (wf_root _ _ Hwf). cbn [shape_root node_of]. unfold node_at. rewrite Hnode.
  cbn [of_option obind].
  assert (Hdeg : Nat.eqb (length (n_neigh nd)) 1 = true) by (apply Nat.eqb_eq; lia).
  rewrite Hdeg. unfold node_name. unfold ptr in *. now rewrite Hnode.
Qed.

(** *** [TipEdges] and [InternalEdges] *)

Lemma kid_right_tip (t : Tree) (prev : option ptr) (n : ptr)
  (kids : list (nat * ptr * shape)) (kd : nat * ptr * shape) :
  rep t prev (Sh n kids) -> kd ∈ kids ->
  exists edk, edges t !! kid_edge kd = Some edk /\
    Edge_Right_Tip t edk = Ret (right_tip t (kid_edge kd)).
Proof.
  intros Hrep Hkd. inversion Hrep as [? ? ? nd' Hnode Hbr Hpos Hlen Hpar Hkids]; subst.
  rewrite Forall_forall in Hkids. destruct (Hkids kd Hkd) as (_ & (edk & Hek & _ & Hrk) & Hsub).
  exists edk. split; [exact Hek|].
  inversion Hsub as [? ? ? ndk Hnk _ _ _ _ _]; subst.
  cbn [shape_root] in Hrk.
  unfold Edge_Right_Tip, right_tip, support.right_node, edge_at, node_of, node_at.
  unfold ptr in *. rewrite Hek. cbn [of_option obind]. rewrite !Hrk, Hnk. reflexivity.
Qed.

Lemma tipEdgesRecur_ok (t : Tree) (s : shape) :
  forall (fuel : nat) (p e : ptr) (ed : Edge) (acc : list ptr),
  bits.hangs t p s -> edges t !! e = Some ed -> e_right ed = Some (shape_root s) ->
  depth s <= fuel ->
  tipEdgesRecur fuel t e acc = Ret (acc ++ List.filter (right_tip t) (shape_edges s)).
Proof.
  induction s as [n kids IH] using shape_ind'. intros fuel p e ed acc Hh He Hr Hfuel.
  destruct fuel as [|fuel]; [cbn in Hfuel; lia|]. destruct Hh as (Hrep & Hp & Hnd).
  assert (Hpn : p <> n) by (intros ->; apply Hp, (resolve_facts.root_in_nodes (Sh n kids))).
  inversion Hrep as [? ? ? nd Hnode Hbr Hpos Hlen Hpar Hkids]; subst.
  cbn [tipEdgesRecur]. unfold edge_at. rewrite He. cbn [of_option obind]. rewrite Hr.
  cbn [shape_root node_of]. unfold node_at. rewrite Hnode. cbn [of_option obind].
  destruct (Nat.ltb 1 (length (n_neigh nd))) eqn:Hdeg.
  - rewrite (ofold_filter _
               (fun acc child =>
                  let! c := of_option nil_deref (edges t !! child) in
                  let! tip := Edge_Right_Tip t c in
                  tipEdgesRecur fuel t child (if tip then acc ++ [child] else acc))
               (bits_facts.leaves_from t n)).
    + rewrite (bits_facts.br_kids t p n kids nd Hrep Hpn Hnode), ofold_map.
      rewrite (ofold_append _ (fun kd => List.filter (right_tip t)
                                            (kid_edge kd :: shape_edges (kid_sub kd)))).
      * f_equal. f_equal. cbn [shape_edges]. clear.
        induction kids as [|kd kids IHk]; [reflexivity|].
        cbn [flat_map]. rewrite List.filter_app. now rewrite IHk.
      * intros kd acc' Hkd.
        destruct (hangs_child t (Some p) n kids kd Hrep Hnd Hkd)
          as (Hhk & edk & Hek & _ & Hrk).
        destruct (kid_right_tip t (Some p) n kids kd Hrep Hkd) as (edk' & Hek' & Htip).
        assert (edk' = edk) by (unfold ptr in *; congruence). subst edk'.
        unfold ptr in *. rewrite Hek. cbn [of_option obind]. rewrite Htip. cbn [obind].
        rewrite Forall_forall in IH.
        rewrite (IH kd Hkd fuel n (kid_edge kd) edk _ Hhk Hek Hrk
                   (depth_child n kids kd fuel Hkd Hfuel)).
        cbn [List.filter]. destruct (right_tip t (kid_edge kd)); [|reflexivity].
        now rewrite <- app_assoc.
    + intros b x Hx. destruct (bits_facts.br_real t (Some p) n kids nd x Hrep Hnode Hx)
        as [c Hc].
      unfold edge_at, bits_facts.leaves_from. unfold ptr in *. rewrite Hc.
      reflexivity.
  - apply Nat.ltb_ge in Hdeg. destruct kids as [|kd kids]; [now rewrite app_nil_r|].
    cbn [length] in Hlen. unfold ptr in *. lia.
Qed.

(** [TipEdges] lists the edges of [Edges] that lead to a tip, in the same
    order. *)
Lemma TipEdges_ok (t : Tree) (s : shape) :
  wf t s ->
  exists es, Edges t = Ret es /\ TipEdges t = Ret (List.filter (right_tip t) es).
Proof.
  intros Hwf. exists (shape_edges s). split; [apply (Edges_ok t s Hwf)|].
  destruct s as [r kids].
  pose proof (wf_rep _ _ Hwf) as Hrep. pose proof (wf_nodes _ _ Hwf) as Hnd.
  inversion Hrep as [? ? ? nd Hnode Hbr Hpos Hlen Hpar Hkids]; subst.
  unfold TipEdges, Root. rewrite (wf_root _ _ Hwf). cbn [shape_root node_of].
  unfold node_at. rewrite Hnode. cbn [of_option obind].
  rewrite (bits_facts.root_br t r kids nd Hrep Hnode), ofold_map.
  rewrite (ofold_append _ (fun kd => List.filter (right_tip t)
                                        (kid_edge kd :: shape_edges (kid_sub kd)))).
  - f_equal. cbn [app shape_edges]. clear.
    induction kids as [|kd kids IHk]; [reflexivity|].
    cbn [flat_map]. rewrite List.filter_app. now rewrite IHk.
  - intros kd acc Hkd.
    destruct (hangs_child t None r kids kd Hrep Hnd Hkd) as (Hhk & edk & Hek & _ & Hrk).
    destruct (kid_right_tip t None r kids kd Hrep Hkd) as (edk' & Hek' & Htip).
    assert (edk' = edk) by (unfold ptr in *; congruence). subst edk'.
    unfold edge_at. unfold ptr in *. rewrite Hek. cbn [of_option obind]. rewrite Htip.
    cbn [obind].
    rewrite (tipEdgesRecur_ok t (kid_sub kd) (budget t) r (kid_edge kd) edk _ Hhk Hek Hrk).
    + cbn [List.filter]. destruct (right_tip t (kid_edge kd)); [|reflexivity].
      now rewrite <- app_assoc.
    + pose proof (bits_facts.wf_depth t _ Hwf). pose proof (depth_kid r kids kd Hkd).
      unfold budget, kid_sub. lia.
Qed.

(** What [InternalEdges] lists below an edge that does not lead to a tip:
    the edges to the children that are not tips, each followed by all the
    edges below it. *)
Definition below_internal (t : Tree) (s : shape) : list ptr :=
  flat_map (fun k => if right_tip t (kid_edge k) then []
                     else kid_edge k :: shape_edges (kid_sub k))
    (shape_kids s).

Definition internal_listed (t : Tree) (s : shape) : list ptr :=
  flat_map (fun k => if right_tip t (kid_edge k) then []
                     else kid_edge k :: below_internal t (kid_sub k))
    (shape_kids s).

Lemma internalEdgesRecur_ok (t : Tree) (n : ptr) (kids : list (nat * ptr * shape))
  (fuel : nat) (p e : ptr) (ed : Edge) (acc : list ptr) :
  bits.hangs t p (Sh n kids) -> edges t !! e = Some ed -> e_right ed = Some n ->
  depth (Sh n kids) <= S fuel ->
  internalEdgesRecur fuel t e acc = Ret (acc ++ below_internal t (Sh n kids)).
Proof.
  intros Hh He Hr Hfuel. destruct Hh as (Hrep & Hp & Hnd).
  assert (Hpn : p <> n) by (intros ->; apply Hp, (resolve_facts.root_in_nodes (Sh n kids))).
  inversion Hrep as [? ? ? nd Hnode Hbr Hpos Hlen Hpar Hkids]; subst.
  unfold internalEdgesRecur. unfold edge_at. rewrite He. cbn [of_option obind]. rewrite Hr.
  cbn [shape_root node_of]. unfold node_at. rewrite Hnode. cbn [of_option obind].
  destruct (Nat.ltb 1 (length (n_neigh nd))) eqn:Hdeg.
  - rewrite (ofold_filter _
               (fun acc child =>
                  let! c := of_option nil_deref (edges t !! child) in
                  let! tip := Edge_Right_Tip t c in
                  if negb tip then edgesRecur fuel t child (acc ++ [child]) else Ret acc)
               (bits_facts.leaves_from t n)).
    + rewrite (bits_facts.br_kids t p n kids nd Hrep Hpn Hnode), ofold_map.
      apply (ofold_append _ (fun k => if right_tip t (kid_edge k) then []
                                      else kid_edge k :: shape_edges (kid_sub k))).
      intros kd acc' Hkd.
      destruct (hangs_child t (Some p) n kids kd Hrep Hnd Hkd)
        as (Hhk & edk & Hek & _ & Hrk).
      destruct (kid_right_tip t (Some p) n kids kd Hrep Hkd) as (edk' & Hek' & Htip).
      assert (edk' = edk) by (unfold ptr in *; congruence). subst edk'.
      unfold ptr in *. rewrite Hek. cbn [of_option obind]. rewrite Htip. cbn [obind].
      destruct (right_tip t (kid_edge kd)); cbn [negb]; [now rewrite app_nil_r|].
      rewrite (edgesRecur_ok t (kid_sub kd) fuel n (kid_edge kd) edk _ Hhk Hek Hrk
                 (depth_child n kids kd fuel Hkd Hfuel)).
      now rewrite <- app_assoc.
    + intros b x Hx. destruct (bits_facts.br_real t (Some p) n kids nd x Hrep Hnode Hx)
        as [c Hc].
      unfold edge_at, bits_facts.leaves_from. unfold ptr in *. rewrite Hc.
      reflexivity.
  - apply Nat.ltb_ge in Hdeg. destruct kids as [|kd kids]; [now rewrite app_nil_r|].
    cbn [length] in Hlen. unfold ptr in *. lia.
Qed.

(** [InternalEdges] filters the tip edges out on the two first levels only:
    below an edge of the second level that does not lead to a tip, it lists
    every edge, the tip edges too. *)
Lemma InternalEdges_ok (t : Tree) (s : shape) :
  wf t s ->
  InternalEdges t = Ret (internal_listed t s) /\
  forall k1 k2 e,
    k1 ∈ shape_kids s -> right_tip t (kid_edge k1) = false ->
    k2 ∈ shape_kids (kid_sub k1) -> right_tip t (kid_edge k2) = false ->
    e ∈ shape_edges (kid_sub k2) -> e ∈ internal_listed t s.
Proof.
  intros Hwf. split.
  - destruct s as [r kids].
    pose proof (wf_rep _ _ Hwf) as Hrep. pose proof (wf_nodes _ _ Hwf) as Hnd.
    inversion Hrep as [? ? ? nd Hnode Hbr Hpos Hlen Hpar Hkids]; subst.
    unfold InternalEdges, Root. rewrite (wf_root _ _ Hwf). cbn [shape_root node_of].
    unfold node_at. rewrite Hnode. cbn [of_option obind].
    rewrite (bits_facts.root_br t r kids nd Hrep Hnode), ofold_map.
    apply (ofold_append _ (fun k => if right_tip t (kid_edge k) then []
                                    else kid_edge k :: below_internal t (kid_sub k)) kids []).
    intros kd acc Hkd.
    destruct (hangs_child t None r kids kd Hrep Hnd Hkd) as (Hhk & edk & Hek & _ & Hrk).
    destruct (kid_right_tip t None r kids kd Hrep Hkd) as (edk' & Hek' & Htip).
    assert (edk' = edk) by (unfold ptr in *; congruence). subst edk'.
    unfold edge_at. unfold ptr in *. rewrite Hek. cbn [of_option obind]. rewrite Htip.
    cbn [obind].
    destruct (right_tip t (kid_edge kd)); cbn [negb]; [now rewrite app_nil_r|].
    destruct (kid_sub kd) as [n kk] eqn:Hsub. cbn [shape_root] in Hrk.
    rewrite (internalEdgesRecur_ok t n kk (budget t) r (kid_edge kd) edk _ Hhk Hek Hrk).
    + now rewrite <- app_assoc.
    + pose proof (bits_facts.wf_depth t _ Hwf). pose proof (depth_kid r kids kd Hkd).
      unfold kid_sub in Hsub. rewrite Hsub in *. unfold budget. lia.
  - intros k1 k2 e Hk1 Ht1 Hk2 Ht2 He. unfold internal_listed.
    apply elem_of_flat_map. exists k1. split; [exact Hk1|]. rewrite Ht1.
    apply elem_of_cons. right. unfold below_internal.
    apply elem_of_flat_map. exists k2. split; [exact Hk2|]. rewrite Ht2.
    apply elem_of_cons. now right.
Qed.

(** *** The traversals on a well-formed tree *)

(** [Edges] lists every edge of the tree once, parent edge before the edges
    below it, in the order of the neighbors. *)
Theorem Edges_lists (t : Tree) (s : shape) :
  wf t s -> Edges t = Ret (shape_edges s) /\ NoDup (shape_edges s).
Proof. exact (Edges_ok t s). Qed.

Lemma Edges_lists_witness :
  Edges examples.caterpillar = Ret (shape_edges (shape_at_root examples.caterpillar)) /\
  NoDup (shape_edges (shape_at_root examples.caterpillar)).
Proof. apply Edges_lists. apply wfb_sound; vm_compute; reflexivity. Defined.

(** [Nodes] lists every node of the tree once, a node before the nodes
    below it. *)
Theorem Nodes_lists (t : Tree) (s : shape) :
  wf t s -> Nodes t = Ret (shape_nodes s) /\ NoDup (shape_nodes s).
Proof. exact (Nodes_ok t s). Qed.

Lemma Nodes_lists_witness :
  Nodes examples.caterpillar = Ret (shape_nodes (shape_at_root examples.caterpillar)) /\
  NoDup (shape_nodes (shape_at_root examples.caterpillar)).
Proof. apply Nodes_lists. apply wfb_sound; vm_compute; reflexivity. Defined.

(** [Tips] lists the nodes of [Nodes] that have exactly one neighbor, in
    the same order. *)
Theorem Tips_of_Nodes (t : Tree) (s : shape) :
  wf t s ->
  exists ns, Nodes t = Ret ns /\ Tips t = Ret (List.filter (tipb t) ns) /\
    forall x, x ∈ List.filter (tipb t) ns <-> x ∈ ns /\ resolve.degree t x = 1.
Proof. exact (Tips_ok t s). Qed.

Lemma Tips_of_Nodes_witness :
  exists ns, Nodes examples.caterpillar = Ret ns /\
    Tips examples.caterpillar = Ret (List.filter (tipb examples.caterpillar) ns) /\
    forall x, x ∈ List.filter (tipb examples.caterpillar) ns <->
              x ∈ ns /\ resolve.degree examples.caterpillar x = 1.
Proof.
  apply (Tips_of_Nodes examples.caterpillar (shape_at_root examples.caterpillar)).
  apply wfb_sound; vm_compute; reflexivity.
Defined.

(** [AllTipNames] of a tree whose root has two neighbors or more lists the
    names of the nodes that [Tips] lists, in the same order. *)
Theorem AllTipNames_of_Tips (t : Tree) (s : shape) :
  wf t s -> 2 <= length (shape_kids s) ->
  exists tips, Tips t = Ret tips /\ AllTipNames t = Ret (map (node_name t) tips).
Proof. exact (AllTipNames_ok t s). Qed.

Lemma AllTipNames_of_Tips_witness :
  exists tips, Tips examples.caterpillar = Ret tips /\
               AllTipNames examples.caterpillar
               = Ret (map (node_name examples.caterpillar) tips).
Proof.
  apply (AllTipNames_of_Tips examples.caterpillar (shape_at_root examples.caterpillar));
    [apply wfb_sound; vm_compute; reflexivity|vm_compute; lia].
Defined.

(** [((a,b));]: a root with a single neighbor. *)
Definition stalk : Tree :=
  examples.tree_of [examples.clade [examples.tip "a"; examples.tip "b"]].

(** On a tree whose root has one neighbor, [AllTipNames] stops at the root:
    it returns the name of the root alone, whatever hangs below. *)
Theorem AllTipNames_single_root (t : Tree) (s : shape) :
  wf t s -> length (shape_kids s) = 1 ->
  AllTipNames t = Ret [node_name t (shape_root s)].
Proof. exact (AllTipNames_single t s). Qed.

Lemma AllTipNames_single_root_witness :
  AllTipNames stalk = Ret [node_name stalk (shape_root (shape_at_root stalk))].
Proof.
  apply AllTipNames_single_root;
    [apply wfb_sound; vm_compute; reflexivity|vm_compute; reflexivity].
Defined.

(** [TipEdges] lists the edges of [Edges] whose right node is a tip, in the
    same order. *)
Theorem TipEdges_of_Edges (t : Tree) (s : shape) :
  wf t s ->
  exists es, Edges t = Ret es /\ TipEdges t = Ret (List.filter (right_tip t) es).
Proof. exact (TipEdges_ok t s). Qed.

Lemma TipEdges_of_Edges_witness :
  exists es, Edges examples.caterpillar = Ret es /\
             TipEdges examples.caterpillar
             = Ret (List.filter (right_tip examples.caterpillar) es).
Proof.
  apply (TipEdges_of_Edges examples.caterpillar (shape_at_root examples.caterpillar)).
  apply wfb_sound; vm_compute; reflexivity.
Defined.

(** [InternalEdges] lists the internal edges at the root and the internal
    edges just below them, and then every edge further down, the edges to
    the tips included. *)
Theorem InternalEdges_lists (t : Tree) (s : shape) :
  wf t s ->
  InternalEdges t = Ret (internal_listed t s) /\
  forall k1 k2 e,
    k1 ∈ shape_kids s -> right_tip t (kid_edge k1) = false ->
    k2 ∈ shape_kids (kid_sub k1) -> right_tip t (kid_edge k2) = false ->
    e ∈ shape_edges (kid_sub k2) -> e ∈ internal_listed t s.
Proof. exact (InternalEdges_ok t s). Qed.

Lemma InternalEdges_lists_witness :
  InternalEdges examples.caterpillar
  = Ret (internal_listed examples.caterpillar (shape_at_root examples.caterpillar)) /\
  forall k1 k2 e,
    k1 ∈ shape_kids (shape_at_root examples.caterpillar) ->
    right_tip examples.caterpillar (kid_edge k1) = false ->
    k2 ∈ shape_kids (kid_sub k1) -> right_tip examples.caterpillar (kid_edge k2) = false ->
    e ∈ shape_edges (kid_sub k2) ->
    e ∈ internal_listed examples.caterpillar (shape_at_root examples.caterpillar).
Proof. apply InternalEdges_lists. apply wfb_sound; vm_compute; reflexivity. Defined.

End traverse_facts.

(* ===================================================================== *)
(** ** Package tree: the other functions that edit or query the tree      *)
(* ===================================================================== *)

Module edits.
Import tree.

(** [ExistsTip]: whether the name is in the tip index; an error when the
    index is empty. *)
Definition ExistsTip (t : Tree) (name : string) : bool * option error :=
  if Nat.eqb (size (tipIndex t)) 0 then
    (false, Some (errorsNew "No tips in the index, tip name index is not initialized"))
  else (has_key (tipIndex t) name, None).

(* --------------------------------------------------------------------- *)
(** *** Rerooting                                                         *)
(* --------------------------------------------------------------------- *)

(** [ReorderEdges]: the edges on the side of [n] opposite to [prev] are
    turned so that their left node is the one nearer to [n]; the edges that
    are turned are appended to [reversed] when it is not nil.  The error
    returned is always nil. *)
Fixpoint ReorderEdges (fuel : nat) (n : ptr) (prev : option ptr)
  (reversed : option (list ptr)) : M (option error * option (list ptr)) :=
  match fuel with
  | O => mnofuel
  | S fuel =>
    let* nd := get_node n in
    let* reversed :=
      mfold (fun reversed next =>
               let* e := get_edge next in
               if (negb (ptr_eqb (e_right e) prev) && negb (ptr_eqb (e_left e) prev))%bool
               then
                 let* reversed :=
                   (if ptr_eqb (e_right e) (Some n) then
                      upd_edge next (fun ed => with_ends ed (e_right ed) (e_left ed));;
                      mret (option_map (fun l => l ++ [next]) reversed)
                    else mret reversed) in
                 let* e' := get_edge next in
                 let* r := mread (fun _ => of_option nil_deref (e_right e')) in
                 let* res := ReorderEdges fuel r (Some n) reversed in
                 mret (snd res)
               else mret reversed)
            (n_br nd) reversed in
    mret (None, reversed)
  end.

(** [Reroot]: the node must be one of [Nodes]. *)
Definition Reroot (n : ptr) : M (option error) :=
  let* ns := mread Nodes in
  let intree := existsb (fun n2 => Nat.eqb n2 n) ns in
  if negb intree then err "The node is not part of the tree"
  else
    mwrite (fun t => set_root t (Some n));;
    let* t := mread Ret in
    let* res := ReorderEdges (budget t) n None None in
    mret (fst res).

(** [RerootFirst]: reroots on the first node of [Nodes] that has three
    neighbors. *)
Definition RerootFirst : M (option error) :=
  let* ns := mread Nodes in
  let* found :=
    mfold (fun (found : option ptr) n =>
             match found with
             | Some _ => mret found
             | None =>
               let* nd := get_node n in
               if Nat.eqb (length (n_neigh nd)) 3 then mret (Some n) else mret None
             end)
          ns None in
  match found with
  | Some n => Reroot n
  | None => err "No nodes with 3 neighors have been found for rerooting"
  end.

(* --------------------------------------------------------------------- *)
(** *** Clearing the values of the branches                               *)
(* --------------------------------------------------------------------- *)

Definition ClearSupports : M unit :=
  let* es := mread Edges in
  mfold (fun _ e => upd_edge e (fun x => with_support x NIL_SUPPORT);;
                    upd_edge e (fun x => with_pvalue x NIL_PVALUE)) es tt.

Definition ClearPvalues : M unit :=
  let* es := mread Edges in
  mfold (fun _ e => upd_edge e (fun x => with_pvalue x NIL_PVALUE)) es tt.

Definition ClearLengths : M unit :=
  let* es := mread Edges in
  mfold (fun _ e => upd_edge e (fun x => with_length x NIL_LENGTH)) es tt.

End edits.

(* ===================================================================== *)
(** ** The tip index and the bitsets                                      *)
(* ===================================================================== *)

Module index_facts.
Import tree shapes loops booster booster_facts bits edits.

(** *** Trees with the same graph *)

(** [t'] has the nodes and the edges of [t], with the same neighbors and
    the same ends: names, lengths, supports, bitsets and the like may
    differ. *)
Definition same_graph (t t' : Tree) : Prop :=
  (forall x nd, nodes t !! x = Some nd ->
     exists nd', nodes t' !! x = Some nd' /\ n_neigh nd' = n_neigh nd /\ n_br nd' = n_br nd) /\
  (forall e ed, edges t !! e = Some ed ->
     exists ed', edges t' !! e = Some ed' /\ e_left ed' = e_left ed /\ e_right ed' = e_right ed).

Lemma same_graph_refl (t : Tree) : same_graph t t.
Proof. split; eauto. Qed.

Lemma same_graph_trans (t1 t2 t3 : Tree) :
  same_graph t1 t2 -> same_graph t2 t3 -> same_graph t1 t3.
Proof.
  intros [Hn1 He1] [Hn2 He2]. split.
  - intros x nd H. destruct (Hn1 x nd H) as (nd2 & H2 & Ha & Hb).
    destruct (Hn2 x nd2 H2) as (nd3 & H3 & Hc & Hd). exists nd3. repeat split; congruence.
  - intros e ed H. destruct (He1 e ed H) as (ed2 & H2 & Ha & Hb).
    destruct (He2 e ed2 H2) as (ed3 & H3 & Hc & Hd). exists ed3. repeat split; congruence.
Qed.

Lemma rep_frame (t t' : Tree) (s : shape) :
  same_graph t t' -> forall prev, rep t prev s -> rep t' prev s.
Proof.
  intros [Hn He]. induction s as [n kids IH] using shape_ind'. intros prev Hrep.
  inversion Hrep as [? ? ? nd Hnode Hbr Hpos Hlen Hpar Hkids]; subst.
  destruct (Hn n nd Hnode) as (nd' & Hnode' & Hneigh & Hbr').
  apply (rep_intro t' prev n kids nd' Hnode'); rewrite ?Hneigh, ?Hbr'; try assumption.
  - intros k c e Hc Hed Hprev. destruct (Hpar k c e Hc Hed Hprev) as (ed & Hed' & Hl & Hr).
    destruct (He e ed Hed') as (ed' & H' & Hl' & Hr'). exists ed'.
    split; [exact H'|split]; [now rewrite Hl'|now rewrite Hr'].
  - rewrite Forall_forall in *. intros k Hk.
    destruct (Hkids k Hk) as (Hbk & (ed & Hed & Hl & Hr) & Hsub).
    split; [exact Hbk|split].
    + destruct (He _ ed Hed) as (ed' & H' & Hl' & Hr'). exists ed'.
      split; [exact H'|split]; [now rewrite Hl'|now rewrite Hr'].
    + now apply IH.
Qed.

Lemma wf_frame (t t' : Tree) (s : shape) :
  same_graph t t' -> root t' = root t -> wf t s -> wf t' s.
Proof.
  intros Hg Hr [H1 H2 H3 H4]. constructor; try assumption; [congruence|].
  now apply (rep_frame t t').
Qed.

(** *** The order of [sort.Strings] *)

Lemma ascii_compare_lt (a b : ascii) :
  Ascii.compare a b = Lt <-> (N_of_ascii a < N_of_ascii b)%N.
Proof. unfold Ascii.compare. now rewrite N.compare_lt_iff. Qed.

Lemma compare_lt_trans (s1 : string) :
  forall s2 s3, String.compare s1 s2 = Lt -> String.compare s2 s3 = Lt ->
  String.compare s1 s3 = Lt.
Proof.
  induction s1 as [|c1 s1 IH]; intros [|c2 s2] [|c3 s3]; cbn; try congruence.
  destruct (Ascii.compare c1 c2) eqn:H12; try discriminate.
  - apply Ascii.compare_eq_iff in H12. subst c2.
    destruct (Ascii.compare c1 c3); try congruence. apply IH.
  - destruct (Ascii.compare c2 c3) eqn:H23; try discriminate.
    + apply Ascii.compare_eq_iff in H23. subst c3. now rewrite H12.
    + intros _ _. apply ascii_compare_lt in H12, H23.
      assert (H13 : Ascii.compare c1 c3 = Lt) by (apply ascii_compare_lt; eapply N.lt_trans; eassumption).
      now rewrite H13.
Qed.

Lemma compare_refl (s : string) : String.compare s s = Eq.
Proof.
  induction s as [|c s IH]; [reflexivity|]. cbn.
  unfold Ascii.compare. now rewrite N.compare_refl.
Qed.

Lemma leb_trans (s1 s2 s3 : string) :
  String.leb s1 s2 = true -> String.leb s2 s3 = true -> String.leb s1 s3 = true.
Proof.
  unfold String.leb. intros H12 H23.
  destruct (String.compare s1 s2) eqn:E12; try discriminate.
  - apply String.compare_eq_iff in E12. now subst s2.
  - destruct (String.compare s2 s3) eqn:E23; try discriminate.
    + apply String.compare_eq_iff in E23. subst s3. now rewrite E12.
    + now rewrite (compare_lt_trans s1 s2 s3 E12 E23).
Qed.

Definition le_string (x y : string) : Prop := String.leb x y = true.

Lemma insert_sorted_perm (x : string) (l : list string) : insert_sorted x l ≡ₚ x :: l.
Proof.
  induction l as [|y l IH]; [reflexivity|]. cbn [insert_sorted].
  destruct (String.leb x y); [reflexivity|]. rewrite IH. apply perm_swap.
Qed.

Lemma insert_sorted_sorted (x : string) (l : list string) :
  StronglySorted le_string l -> StronglySorted le_string (insert_sorted x l).
Proof.
  induction l as [|y l IH]; intros Hs.
  - cbn. constructor; [constructor|constructor].
  - cbn [insert_sorted]. destruct (String.leb x y) eqn:Hxy.
    + constructor; [exact Hs|]. constructor; [exact Hxy|].
      inversion Hs as [|? ? _ Hall]; subst. rewrite Forall_forall in Hall.
      apply Forall_forall. intros z Hz. exact (leb_trans x y z Hxy (Hall z Hz)).
    + inversion Hs as [|? ? Hs' Hall]; subst. constructor; [now apply IH|].
      apply Forall_forall. intros z Hz.
      rewrite insert_sorted_perm in Hz. apply elem_of_cons in Hz as [->|Hz].
      * unfold le_string. destruct (String.leb_total x y) as [H|H]; congruence.
      * rewrite Forall_forall in Hall. now apply Hall.
Qed.

Lemma sort_Strings_perm (l : list string) : sort_Strings l ≡ₚ l.
Proof.
  induction l as [|x l IH]; [reflexivity|]. unfold sort_Strings in *. cbn [fold_right].
  rewrite insert_sorted_perm. now rewrite IH.
Qed.

Lemma sort_Strings_sorted (l : list string) : StronglySorted le_string (sort_Strings l).
Proof.
  induction l as [|x l IH]; [constructor|]. unfold sort_Strings in *. cbn [fold_right].
  now apply insert_sorted_sorted.
Qed.

(** *** [index_names]: the map built by the loop of [UpdateTipIndex] *)

Lemma index_names_snoc (l : list string) (x : string) :
  index_names (l ++ [x]) = <[x := length l]> (index_names l).
Proof.
  unfold index_names. rewrite imap_app, fold_left_app. cbn. now rewrite Nat.add_0_r.
Qed.

Lemma index_names_lookup (names : list string) (y : string) (i : nat) :
  index_names names !! y = Some i <->
  names !! i = Some y /\ forall j, i < j -> names !! j <> Some y.
Proof.
  revert i. induction names as [|x l IH] using rev_ind; intros i.
  - unfold index_names. cbn. rewrite lookup_empty. split; [discriminate|].
    intros [H _]. discriminate.
  - rewrite index_names_snoc. destruct (decide (x = y)) as [->|Hxy].
    + rewrite lookup_insert_eq. split.
      * intros [= <-]. split.
        -- rewrite lookup_app_r by lia. now rewrite Nat.sub_diag.
        -- intros j Hj. rewrite lookup_ge_None_2; [discriminate|].
           rewrite length_app. cbn. lia.
      * intros [Hi Hlast]. f_equal.
        destruct (decide (i = length l)) as [->|Hne]; [reflexivity|].
        exfalso. apply lookup_lt_Some in Hi as Hlt. rewrite length_app in Hlt. cbn in Hlt.
        apply (Hlast (length l)); [lia|].
        rewrite lookup_app_r by lia. now rewrite Nat.sub_diag.
    + rewrite lookup_insert_ne by exact Hxy. rewrite IH. split.
      * intros [Hi Hlast]. apply lookup_lt_Some in Hi as Hlt. split.
        -- now rewrite lookup_app_l.
        -- intros j Hj. destruct (decide (j < length l)) as [Hjl|Hjl].
           ++ rewrite lookup_app_l by exact Hjl. now apply Hlast.
           ++ destruct (decide (j = length l)) as [->|Hne].
              ** rewrite lookup_app_r by lia. rewrite Nat.sub_diag. cbn. congruence.
              ** rewrite lookup_ge_None_2; [discriminate|]. rewrite length_app. cbn. lia.
      * intros [Hi Hlast].
        assert (Hlt : i < length l).
        { apply lookup_lt_Some in Hi as Hlt. rewrite length_app in Hlt. cbn in Hlt.
          destruct (decide (i = length l)) as [->|Hne]; [|lia].
          rewrite lookup_app_r in Hi by lia. rewrite Nat.sub_diag in Hi. cbn in Hi.
          congruence. }
        split.
        -- now rewrite lookup_app_l in Hi.
        -- intros j Hj Hl. apply (Hlast j Hj).
           apply lookup_lt_Some in Hl as Hjl. now rewrite lookup_app_l.
Qed.

Lemma index_names_dom (names : list string) (y : string) :
  is_Some (index_names names !! y) <-> y ∈ names.
Proof.
  induction names as [|x l IH] using rev_ind.
  - unfold index_names. cbn. rewrite lookup_empty. split; [intros [? H]; discriminate|].
    intros H. inversion H.
  - rewrite index_names_snoc, elem_of_app, list_elem_of_singleton.
    destruct (decide (x = y)) as [->|Hxy].
    + rewrite lookup_insert_eq. split; [now right|eauto].
    + rewrite lookup_insert_ne by exact Hxy. rewrite IH. split; [now left|].
      intros [H|H]; [exact H|congruence].
Qed.


(** *** [SortedTips], [UpdateTipIndex], [TipIndex] and [ExistsTip] *)

Lemma leaf_names_tips (t : Tree) (s : shape) :
  wf t s -> 2 <= length (shape_kids s) ->
  AllTipNames t = Ret (leaf_names t s).
Proof.
  intros Hwf Hk.
  destruct (traverse_facts.AllTipNames_ok t s Hwf Hk) as (tips & Htips & ->).
  destruct (traverse_facts.Tips_ok t s Hwf) as (ns & Hns & Htips' & _).
  destruct (traverse_facts.Nodes_ok t s Hwf) as [Hns' _].
  rewrite Hns' in Hns. injection Hns as <-. rewrite Htips' in Htips. injection Htips as <-.
  f_equal. destruct s as [r kids]. cbn [shape_kids] in Hk.
  pose proof (wf_rep _ _ Hwf) as Hrep.
  inversion Hrep as [? ? ? nd Hnode Hbr Hpos Hlen Hpar Hkids]; subst.
  assert (Hdeg : Nat.eqb (length (n_neigh nd)) 1 = false) by (apply Nat.eqb_neq; lia).
  cbn [shape_nodes List.filter]. unfold traverse_facts.tipb at 1. unfold ptr in *.
  rewrite Hnode. unfold Node_Tip.
  unfold ptr in *. rewrite Hdeg. unfold leaf_names. cbn [shape_kids].
  rewrite Forall_forall in Hkids.
  assert (Hall : forall k, k ∈ kids -> rep t (Some r) (kid_sub k))
    by (intros k Hkk; now destruct (Hkids k Hkk) as (_ & _ & H)).
  clear - Hall. induction kids as [|kd kids IH]; [reflexivity|].
  cbn [flat_map]. rewrite List.filter_app, map_app.
  rewrite IH by (intros k Hkk; apply Hall, elem_of_cons; now right).
  f_equal. symmetry. apply (traverse_facts.tip_names_filter t (kid_sub kd) r).
  apply Hall, elem_of_cons. now left.
Qed.

Lemma UpdateTipIndex_ok (t : Tree) (s : shape) :
  wf t s -> 2 <= length (shape_kids s) ->
  UpdateTipIndex t
  = Ret (tt, set_tipIndex t (index_names (sort_Strings (leaf_names t s)))).
Proof.
  intros Hwf Hk. unfold UpdateTipIndex, mbind, mread, SortedTips.
  rewrite (leaf_names_tips t s Hwf Hk). reflexivity.
Qed.


Lemma index_names_size (l : list string) : NoDup l -> size (index_names l) = length l.
Proof.
  induction l as [|x l IH] using rev_ind; intros Hnd; [reflexivity|].
  rewrite index_names_snoc. apply NoDup_app in Hnd as (Hl & Hx & _).
  rewrite map_size_insert_None.
  - rewrite IH by exact Hl. rewrite length_app. cbn. lia.
  - apply eq_None_not_Some. rewrite index_names_dom. intros H. apply (Hx x H).
    now apply list_elem_of_singleton.
Qed.

Lemma index_names_nonempty (l : list string) : l <> [] -> size (index_names l) <> 0.
Proof.
  induction l as [|x l _] using rev_ind; [intros H; now destruct H|]. intros _.
  rewrite index_names_snoc. intros H. apply map_size_empty_iff in H.
  apply (f_equal (fun m => m !! x)) in H. rewrite lookup_insert_eq, lookup_empty in H.
  discriminate.
Qed.

Lemma leaf_names_nonempty (t : Tree) (s : shape) :
  shape_kids s <> [] -> leaf_names t s <> [].
Proof.
  destruct s as [r [|k kids]]; [intros H; now destruct H|]. intros _. unfold leaf_names.
  cbn [shape_kids flat_map]. pose proof (tip_names_nonempty t (snd k)).
  destruct (tip_names t (snd k)); [contradiction|discriminate].
Qed.

Lemma NoDup_lookup_last {A} (l : list A) (i j : nat) (x : A) :
  NoDup l -> l !! i = Some x -> i < j -> l !! j <> Some x.
Proof.
  intros Hnd Hi Hij Hj. pose proof (NoDup_lookup l i j x Hnd Hi Hj). lia.
Qed.


Lemma same_graph_tipIndex (t : Tree) (m : gmap string nat) :
  same_graph t (set_tipIndex t m).
Proof. split; eauto. Qed.

Lemma leaf_names_frame (t t' : Tree) (s : shape) :
  nodes t' = nodes t -> leaf_names t' s = leaf_names t s.
Proof.
  intros Hn. unfold leaf_names.
  assert (H : forall s, tip_names t' s = tip_names t s).
  { clear s. induction s as [n kids IH] using shape_ind'. cbn [tip_names].
    unfold node_name. rewrite Hn. destruct kids as [|k kids]; [reflexivity|].
    remember (k :: kids) as l eqn:Hl. clear Hl. induction l as [|x l IHl]; [reflexivity|].
    apply Forall_cons in IH as [Hx Hall]. cbn [flat_map]. now rewrite Hx, IHl. }
  induction (shape_kids s) as [|x l IHl]; [reflexivity|].
  cbn [flat_map]. now rewrite H, IHl.
Qed.

(** [SortedTips] returns the names of the tips in ascending order. *)
Theorem SortedTips_sorted (t : Tree) (s : shape) :
  wf t s -> 2 <= length (shape_kids s) ->
  exists l, SortedTips t = Ret l /\ l ≡ₚ leaf_names t s /\ StronglySorted le_string l.
Proof.
  intros Hwf Hk. exists (sort_Strings (leaf_names t s)). split; [|split].
  - unfold SortedTips. now rewrite (leaf_names_tips t s Hwf Hk).
  - apply sort_Strings_perm.
  - apply sort_Strings_sorted.
Qed.

(** After [UpdateTipIndex], [TipIndex] of a tip name is its last position in
    the sorted list of the tip names, [TipIndex] of another name is an
    error, and [ExistsTip] tells the two apart. *)
Theorem UpdateTipIndex_positions (t : Tree) (s : shape) :
  wf t s -> 2 <= length (shape_kids s) ->
  exists t' sorted,
    UpdateTipIndex t = Ret (tt, t') /\ SortedTips t = Ret sorted /\
    nodes t' = nodes t /\ edges t' = edges t /\ root t' = root t /\
    (forall y i, TipIndex t' y = inl i <->
                 sorted !! i = Some y /\ forall j, i < j -> sorted !! j <> Some y) /\
    (forall y, y ∉ leaf_names t s ->
       TipIndex t' y = inr (errorsNew ("No tip named " ++ y ++ " in the index"))) /\
    (forall y, ExistsTip t' y = (bool_decide (y ∈ leaf_names t s), None)).
Proof.
  intros Hwf Hk. exists (set_tipIndex t (index_names (sort_Strings (leaf_names t s)))),
    (sort_Strings (leaf_names t s)).
  assert (Hne : size (index_names (sort_Strings (leaf_names t s))) <> 0).
  { apply index_names_nonempty. intros H. apply (leaf_names_nonempty t s).
    - destruct (shape_kids s); [cbn in Hk; lia|discriminate].
    - apply Permutation_nil_r. rewrite <- H. symmetry. apply sort_Strings_perm. }
  apply Nat.eqb_neq in Hne.
  split; [now apply UpdateTipIndex_ok|]. split.
  { unfold SortedTips. now rewrite (leaf_names_tips t s Hwf Hk). }
  do 3 (split; [reflexivity|]). split; [|split].
  - intros y i. unfold TipIndex. cbn [tipIndex set_tipIndex]. rewrite Hne.
    rewrite <- index_names_lookup.
    destruct (index_names (sort_Strings (leaf_names t s)) !! y); split; congruence.
  - intros y Hy. unfold TipIndex. cbn [tipIndex set_tipIndex]. rewrite Hne.
    destruct (index_names (sort_Strings (leaf_names t s)) !! y) as [i|] eqn:H;
      [|reflexivity].
    exfalso. apply Hy. rewrite <- (sort_Strings_perm (leaf_names t s)).
    apply index_names_dom. now exists i.
  - intros y. unfold ExistsTip. cbn [tipIndex set_tipIndex]. rewrite Hne. f_equal.
    unfold has_key.
    destruct (index_names (sort_Strings (leaf_names t s)) !! y) as [i|] eqn:H.
    + symmetry. apply bool_decide_eq_true. rewrite <- (sort_Strings_perm (leaf_names t s)).
      apply index_names_dom. now exists i.
    + symmetry. apply bool_decide_eq_false. intros Hy.
      rewrite <- (sort_Strings_perm (leaf_names t s)) in Hy.
      apply index_names_dom in Hy as [i Hi]. congruence.
Qed.

Lemma index_names_ok (t : Tree) (s : shape) :
  NoDup (leaf_names t s) ->
  tipIndex t = index_names (sort_Strings (leaf_names t s)) ->
  tip_index_ok t s (length (leaf_names t s)).
Proof.
  intros Hnd Hm.
  assert (Hnd' : NoDup (sort_Strings (leaf_names t s)))
    by now rewrite sort_Strings_perm.
  assert (Hlen : length (sort_Strings (leaf_names t s)) = length (leaf_names t s))
    by now rewrite sort_Strings_perm.
  constructor.
  - exact Hnd.
  - intros y Hy. rewrite <- (sort_Strings_perm (leaf_names t s)) in Hy.
    apply index_names_dom in Hy as [i Hi]. exists i. rewrite Hm. split; [exact Hi|].
    apply index_names_lookup in Hi as [Hi _]. apply lookup_lt_Some in Hi. lia.
  - intros y1 y2 H1 H2 Heq. rewrite Hm in Heq.
    rewrite <- (sort_Strings_perm (leaf_names t s)) in H1.
    apply index_names_dom in H1 as [i Hi]. rewrite Hi in Heq. symmetry in Heq.
    apply index_names_lookup in Hi as [Hi _]. apply index_names_lookup in Heq as [Heq _].
    congruence.
  - intros i Hi. rewrite <- Hlen in Hi.
    destruct (lookup_lt_is_Some_2 _ i Hi) as [y Hy]. exists y. split.
    + rewrite <- (sort_Strings_perm (leaf_names t s)).
      apply list_elem_of_lookup. now exists i.
    + rewrite Hm. apply index_names_lookup. split; [exact Hy|].
      intros j Hj. now apply (NoDup_lookup_last _ i j y Hnd' Hy).
Qed.

Lemma UpdateTipIndex_numbered (t : Tree) (s : shape) :
  wf t s -> 2 <= length (shape_kids s) -> NoDup (leaf_names t s) ->
  exists t',
    UpdateTipIndex t = Ret (tt, t') /\ wf t' s /\
    size (tipIndex t') = length (leaf_names t s) /\
    tip_index_ok t' s (length (leaf_names t s)).
Proof.
  intros Hwf Hk Hnd. exists (set_tipIndex t (index_names (sort_Strings (leaf_names t s)))).
  split; [now apply UpdateTipIndex_ok|]. split; [|split].
  - apply (wf_frame t); [apply same_graph_tipIndex|reflexivity|exact Hwf].
  - cbn [tipIndex set_tipIndex]. rewrite index_names_size by now rewrite sort_Strings_perm.
    now rewrite sort_Strings_perm.
  - set (t' := set_tipIndex t (index_names (sort_Strings (leaf_names t s)))).
    assert (Hl : leaf_names t' s = leaf_names t s) by now apply leaf_names_frame.
    rewrite <- Hl. apply index_names_ok; rewrite Hl; [exact Hnd|reflexivity].
Qed.

(** When the tips have distinct names, [UpdateTipIndex] numbers them from 0
    to the number of tips minus one, one number each. *)
Theorem UpdateTipIndex_numbers (t : Tree) (s : shape) :
  wf t s -> 2 <= length (shape_kids s) -> NoDup (leaf_names t s) ->
  exists t',
    UpdateTipIndex t = Ret (tt, t') /\ wf t' s /\
    size (tipIndex t') = length (leaf_names t s) /\
    tip_index_ok t' s (length (leaf_names t s)).
Proof. exact (UpdateTipIndex_numbered t s). Qed.


(** *** [CompareTipIndexes] *)

Lemma has_keys (m1 m2 : gmap string nat) :
  forallb (has_key m2) (map fst (map_to_list m1)) = true <->
  forall y, is_Some (m1 !! y) -> is_Some (m2 !! y).
Proof.
  rewrite forallb_forall. split.
  - intros H y [i Hy]. specialize (H y). unfold has_key in H.
    destruct (m2 !! y) as [j|]; [now exists j|]. exfalso.
    assert (Hin : In y (map fst (map_to_list m1))).
    { apply in_map_iff. exists (y, i). split; [reflexivity|].
      apply list_elem_of_In, elem_of_map_to_list. exact Hy. }
    specialize (H Hin). discriminate.
  - intros H y Hin. apply in_map_iff in Hin as ([y' i] & <- & Hin).
    apply list_elem_of_In, elem_of_map_to_list in Hin. cbn [fst].
    destruct (H y' (ex_intro _ i Hin)) as [j Hj]. unfold has_key. now rewrite Hj.
Qed.

Lemma same_keys_size (m1 m2 : gmap string nat) :
  (forall y, is_Some (m1 !! y) <-> is_Some (m2 !! y)) -> size m1 = size m2.
Proof.
  intros H. rewrite <- !(size_dom (D := gset string)). f_equal.
  apply set_eq. intros y. rewrite !elem_of_dom. apply H.
Qed.

(** [CompareTipIndexes] returns nil exactly when the index of the first
    tree is not empty and the two indexes hold the same names. *)
Theorem CompareTipIndexes_same_names (t t2 : Tree) :
  CompareTipIndexes t t2 = None <->
  size (tipIndex t) <> 0 /\
  forall y, is_Some (tipIndex t !! y) <-> is_Some (tipIndex t2 !! y).
Proof.
  unfold CompareTipIndexes. split.
  - intros H.
    destruct (Nat.eqb (size (tipIndex t)) 0) eqn:H1; [discriminate|].
    destruct (Nat.eqb (size (tipIndex t2)) 0) eqn:H2; [discriminate|].
    destruct (Nat.eqb (size (tipIndex t)) (size (tipIndex t2))) eqn:H3; [|discriminate].
    cbn [orb negb] in H.
    destruct (forallb (has_key (tipIndex t2)) (map fst (map_to_list (tipIndex t)))) eqn:H4;
      [|discriminate].
    destruct (forallb (has_key (tipIndex t)) (map fst (map_to_list (tipIndex t2)))) eqn:H5;
      [|discriminate].
    apply Nat.eqb_neq in H1. split; [exact H1|]. intros y. split.
    + now apply has_keys.
    + now apply has_keys.
  - intros [H1 H2]. pose proof (same_keys_size _ _ H2) as Hs.
    assert (E1 : Nat.eqb (size (tipIndex t)) 0 = false) by now apply Nat.eqb_neq.
    assert (E2 : Nat.eqb (size (tipIndex t2)) 0 = false) by (apply Nat.eqb_neq; lia).
    assert (E3 : Nat.eqb (size (tipIndex t)) (size (tipIndex t2)) = true)
      by now apply Nat.eqb_eq.
    rewrite E1, E2, E3. cbn [orb negb].
    assert (E4 : forallb (has_key (tipIndex t2)) (map fst (map_to_list (tipIndex t))) = true)
      by (apply has_keys; intros y; apply H2).
    assert (E5 : forallb (has_key (tipIndex t)) (map fst (map_to_list (tipIndex t2))) = true)
      by (apply has_keys; intros y; apply H2).
    now rewrite E4, E5.
Qed.

(** *** [ClearBitSets] *)

Lemma mfoldi_skip (F : nat -> ptr -> M unit) (keep : ptr -> bool)
  (l : list ptr) (i0 : nat) (t : Tree) :
  mfoldi (fun _ k c => if keep c then F k c else mret tt) i0 l tt t
  = mfold (fun _ x => F (fst x) (snd x))
      (List.filter (fun x => keep (snd x)) (imap (fun i c => (i0 + i, c)) l)) tt t.
Proof.
  revert i0 t. induction l as [|c l IH]; intros i0 t; [reflexivity|].
  cbn [mfoldi imap List.filter snd]. rewrite Nat.add_0_r.
  rewrite (imap_ext _ (fun i c0 => (S i0 + i, c0))) by (intros; cbn; f_equal; lia).
  destruct (keep c).
  - cbn [mfold fst snd]. unfold mbind. destruct (F i0 c t) as [[[] t']| |];
      [apply IH|reflexivity..].
  - unfold mbind at 1. unfold mret at 1. apply IH.
Qed.

Lemma mfold_map {A B C} (g : B -> C -> M B) (f : A -> C) (l : list A) (b : B) (t : Tree) :
  mfold g (map f l) b t = mfold (fun b x => g b (f x)) l b t.
Proof.
  revert b t. induction l as [|x l IH]; intros b t; [reflexivity|].
  cbn [map mfold]. unfold mbind. destruct (g b (f x) t) as [[b' t']| |];
    [apply IH|reflexivity..].
Qed.

(** The bitsets after the edges of [l] got a bitset of [n] zeros. *)
Definition cleared (n : nat) (l : list ptr) (bs : bitmap) : bitmap :=
  fun e => if decide (e ∈ l) then Some (replicate n false) else bs e.

Lemma cleared_step (n : nat) (e0 : ptr) (l1 l2 : list ptr) (bs : bitmap) (e : ptr) :
  cleared n l2 (cleared n l1 (upd bs e0 (Some (bitset_New n)))) e
  = cleared n ((e0 :: l1) ++ l2) bs e.
Proof.
  unfold cleared, upd, bitset_New.
  destruct (decide (e ∈ (e0 :: l1) ++ l2)) as [Hin|Hout].
  - destruct (decide (e ∈ l2)); [reflexivity|].
    destruct (decide (e ∈ l1)); [reflexivity|].
    destruct (decide (e = e0)); [reflexivity|]. exfalso.
    apply elem_of_app in Hin as [Hin|Hin]; [|contradiction].
    apply elem_of_cons in Hin as [Hin|Hin]; contradiction.
  - destruct (decide (e ∈ l2)) as [H|_];
      [exfalso; apply Hout, elem_of_app; now right|].
    destruct (decide (e ∈ l1)) as [H|_];
      [exfalso; apply Hout, elem_of_app; left; apply elem_of_cons; now right|].
    destruct (decide (e = e0)) as [H|_]; [|reflexivity].
    exfalso; apply Hout, elem_of_app; left; apply elem_of_cons; now left.
Qed.

Lemma clearBitSetsRecur_ok (t0 : Tree) (ntip : nat) (s : shape) :
  forall (fuel : nat) (prev : option ptr) (bs : bitmap),
  rep t0 prev s -> depth s <= fuel ->
  clearBitSetsRecur fuel (Some (shape_root s)) prev ntip (with_bits t0 bs)
  = Ret (tt, with_bits t0 (cleared ntip (shape_edges s) bs)).
Proof.
  induction s as [n kids IH] using shape_ind'. intros fuel prev bs Hrep Hfuel.
  destruct fuel as [|fuel]; [cbn in Hfuel; lia|].
  inversion Hrep as [? ? ? nd Hnode Hbr Hpos Hlen Hpar Hkids]; subst.
  cbn [clearBitSetsRecur shape_root]. unfold mbind at 1. unfold mread at 1. cbn [obind].
  unfold get_node_of. unfold mbind at 1. unfold mread at 1. unfold node_of.
  cbn [of_option obind]. unfold node_at.
  change (nodes (with_bits t0 bs)) with (nodes t0). rewrite Hnode. cbn [of_option obind].
  rewrite (mfoldi_skip
             (fun i child =>
                let* e := mread (fun _ => of_option out_of_range (n_br nd !! i)) in
                upd_edge e (fun ed => with_bitset ed (Some (bitset_New ntip)));;
                clearBitSetsRecur fuel (Some child) (Some n) ntip)
             (fun child => negb (ptr_eqb (Some child) prev))).
  change (List.filter _ (imap _ (n_neigh nd))) with (kid_positions (n_neigh nd) prev).
  rewrite Hpos, mfold_map. cbn [fst snd].
  assert (Hloop : forall (todo done : list (nat * ptr * shape)) (bsk : bitmap),
            kids = done ++ todo ->
            mfold (fun (_ : unit) (x : nat * ptr * shape) =>
                     let* e := mread (fun _ => of_option out_of_range
                                                 (n_br nd !! kid_pos x)) in
                     upd_edge e (fun ed => with_bitset ed (Some (bitset_New ntip)));;
                     clearBitSetsRecur fuel (Some (shape_root (kid_sub x))) (Some n) ntip)
                  todo tt (with_bits t0 bsk)
            = Ret (tt, with_bits t0
                         (cleared ntip
                            (flat_map (fun k => snd (fst k) :: shape_edges (snd k)) todo)
                            bsk))).
  { induction todo as [|kd todo IHt]; intros done bsk Hsplit.
    - reflexivity.
    - assert (Hkd : kd ∈ kids) by (rewrite Hsplit; apply elem_of_app; right; apply elem_of_cons; now left).
      rewrite Forall_forall in Hkids, IH.
      destruct (Hkids kd Hkd) as (Hbk & (ed & Hed & Hl & Hr) & Hsub).
      cbn [mfold]. unfold mbind at 1. unfold mbind at 1. unfold mread at 1.
      rewrite Hbk. cbn [of_option obind]. unfold mbind at 1.
      rewrite (bits_facts.upd_edge_bits t0 bsk (kid_edge kd) ed _ Hed).
      rewrite (IH kd Hkd fuel (Some n) _ Hsub)
        by (pose proof (depth_kid n kids kd Hkd); unfold kid_sub; lia).
      rewrite (IHt (done ++ [kd])) by (rewrite Hsplit, <- app_assoc; reflexivity).
      do 2 f_equal. apply bits_facts.with_bits_ext. intros e _.
      cbn [flat_map]. apply cleared_step. }
  apply (Hloop kids [] bs). reflexivity.
Qed.


Lemma ClearBitSets_ok (t : Tree) (s : shape) :
  wf t s -> size (tipIndex t) <> 0 ->
  ClearBitSets t
  = Ret (None, with_bits t (cleared (size (tipIndex t)) (shape_edges s) (bits_of t))).
Proof.
  intros Hwf Hn. unfold ClearBitSets. unfold mbind at 1. unfold mread at 1. cbn [obind].
  apply Nat.eqb_neq in Hn. rewrite Hn. unfold mbind. unfold budget.
  cbn [clearBitSetsRecur]. unfold mbind at 1. unfold mread at 1. cbn [obind]. unfold Root.
  rewrite (wf_root _ _ Hwf).
  pose proof (clearBitSetsRecur_ok t (size (tipIndex t)) s (S (length (nodes t))) None
                (bits_of t) (wf_rep _ _ Hwf)) as H.
  rewrite bits_facts.with_bits_self in H. cbn [clearBitSetsRecur] in H.
  unfold mbind at 1 in H. unfold mread at 1 in H. cbn [obind] in H.
  rewrite H by (pose proof (bits_facts.wf_depth t s Hwf); lia). reflexivity.
Qed.

(** [ClearBitSets] returns an error and leaves the tree as it is when the
    tip index is empty; otherwise it gives every edge of the tree a bitset
    of as many zeros as the index has names, and changes nothing else. *)
Theorem ClearBitSets_zeroes (t : Tree) (s : shape) :
  wf t s ->
  (size (tipIndex t) = 0 ->
   ClearBitSets t
   = Ret (Some (errorsNew "No tips in the index, tip name index is not initialized"), t)) /\
  (size (tipIndex t) <> 0 ->
   exists t',
     ClearBitSets t = Ret (None, t') /\
     nodes t' = nodes t /\ root t' = root t /\ tipIndex t' = tipIndex t /\
     length (edges t') = length (edges t) /\
     (forall e ed, edges t !! e = Some ed ->
        edges t' !! e
        = Some (with_bitset ed (if decide (e ∈ shape_edges s)
                                then Some (replicate (size (tipIndex t)) false)
                                else e_bitset ed))) /\
     bitsets_allocated t' s (size (tipIndex t))).
Proof.
  intros Hwf. split.
  - intros H0. unfold ClearBitSets. unfold mbind at 1. unfold mread at 1. cbn [obind].
    now rewrite H0.
  - intros Hn. eexists. split; [apply (ClearBitSets_ok t s Hwf Hn)|].
    do 3 (split; [reflexivity|]). split; [|split].
    + unfold with_bits. cbn [edges set_edges]. apply length_imap.
    + intros e ed Hed. rewrite bits_facts.with_bits_edge. unfold ptr in *. rewrite Hed.
      cbn [fmap option_fmap option_map]. unfold cleared, bits_of. unfold ptr in *.
      now rewrite Hed.
    + intros e He. unfold alloc. exists (replicate (size (tipIndex t)) false).
      split; [|apply length_replicate].
      destruct (edge_has_sub s e He) as (se & Hse).
      destruct (subs_below t s None (wf_rep _ _ Hwf) e se Hse) as ((ed & Hed & _) & _).
      rewrite bits_facts.bits_of_with_bits by (now exists ed).
      unfold cleared. now rewrite decide_True.
Qed.

(** *** The three steps that rebuild the index and the bitsets *)

Lemma same_graph_bits (t : Tree) (bs : bitmap) : same_graph t (with_bits t bs).
Proof.
  split; [eauto|]. intros e ed Hed. exists (with_bitset ed (bs e)).
  rewrite bits_facts.with_bits_edge. unfold ptr in *. rewrite Hed. now split.
Qed.

Lemma names_below (t : Tree) (s : shape) (e : ptr) (s' : shape) (y : string) :
  (e, s') ∈ shape_subs s -> y ∈ tip_names t s' -> y ∈ leaf_names t s.
Proof.
  destruct s as [r kids]. intros Hin Hy.
  apply elem_of_subs_kids in Hin as (kd & Hkd & Hin).
  destruct (names_split t (kid_sub kd) (kid_edge kd) e s' Hin) as (l1 & l2 & Hsplit).
  unfold leaf_names. apply elem_of_flat_map. exists kd. split; [exact Hkd|].
  unfold kid_sub in Hsplit. rewrite Hsplit. apply elem_of_app. right.
  apply elem_of_app. now left.
Qed.

(** On a tree whose tips have distinct names, [UpdateTipIndex], then
    [ClearBitSets], then [UpdateBitSet] return nil and leave a tree with
    the same graph, whose index numbers the tips and where the bit [i] of
    an edge is set exactly when the tip numbered [i] is below the edge. *)
Theorem index_and_bitsets (t : Tree) (s : shape) :
  wf t s -> 2 <= length (shape_kids s) -> NoDup (leaf_names t s) ->
  exists t',
    (UpdateTipIndex;; ClearBitSets;; UpdateBitSet) t = Ret (None, t') /\
    wf t' s /\ nodes t' = nodes t /\ root t' = root t /\
    tip_index_ok t' s (length (leaf_names t s)) /\
    forall e s', (e, s') ∈ shape_subs s ->
      forall i, bit t' e i = true <->
                exists y, y ∈ tip_names t' s' /\ tipIndex t' !! y = Some i.
Proof.
  intros Hwf Hk Hnd.
  destruct (UpdateTipIndex_numbered t s Hwf Hk Hnd) as (t1 & Hrun1 & Hwf1 & Hsize & Hidx).
  pose proof (UpdateTipIndex_ok t s Hwf Hk) as Hrun1'. rewrite Hrun1 in Hrun1'.
  injection Hrun1' as Ht1.
  assert (Hn1 : nodes t1 = nodes t) by now rewrite Ht1.
  assert (Hr1 : root t1 = root t) by now rewrite Ht1.
  set (n := length (leaf_names t s)) in *.
  assert (Hne : size (tipIndex t1) <> 0).
  { rewrite Hsize. unfold n. intros H. apply length_zero_iff_nil in H.
    apply (leaf_names_nonempty t s); [|exact H].
    destruct (shape_kids s); [cbn in Hk; lia|discriminate]. }
  pose proof (ClearBitSets_ok t1 s Hwf1 Hne) as Hrun2. rewrite Hsize in Hrun2.
  assert (Hal : forall x, x ∈ shape_edges s ->
                  alloc n (cleared n (shape_edges s) (bits_of t1)) x).
  { intros x Hx. exists (replicate n false). split; [|apply length_replicate].
    unfold cleared. now rewrite decide_True. }
  assert (Hnames : forall y, y ∈ leaf_names t1 s -> is_Some (tipIndex t1 !! y)).
  { intros y Hy. destruct (ti_index _ _ _ Hidx y Hy) as (i & Hi & _). now exists i. }
  destruct (bits_facts.update_ok t1 s n _ Hwf1 Hal Hnames) as (bs' & Hrun3 & _ & Hsubs).
  exists (with_bits t1 bs'). split; [|split; [|split; [|split; [|split]]]].
  - unfold mbind. rewrite Hrun1, Hrun2. exact Hrun3.
  - apply (wf_frame t1); [apply same_graph_bits|reflexivity|exact Hwf1].
  - exact Hn1.
  - exact Hr1.
  - destruct Hidx as [H1 H2 H3 H4].
    assert (Hl : leaf_names (with_bits t1 bs') s = leaf_names t1 s)
      by now apply leaf_names_frame.
    constructor; rewrite ?Hl; assumption.
  - intros e s' Hin i.
    assert (Hreal : is_Some (edges t1 !! e)).
    { destruct (subs_below t1 s None (wf_rep _ _ Hwf1) e s' Hin) as ((ed & Hed & _) & _).
      now exists ed. }
    unfold bit. rewrite (bits_facts.bits_of_with_bits t1 bs' e Hreal), (Hsubs e s' Hin).
    rewrite bits_facts.marked_bit.
    assert (Hsame : forall s0, tip_names (with_bits t1 bs') s0 = tip_names t1 s0).
    { induction s0 as [n0 kids0 IH0] using shape_ind'. cbn [tip_names].
      destruct kids0 as [|k kids0]; [reflexivity|].
      remember (k :: kids0) as l eqn:El. clear El.
      induction l as [|x l IHl]; [reflexivity|].
      apply Forall_cons in IH0 as [Hx Hall]. cbn [flat_map]. now rewrite Hx, IHl. }
    rewrite Hsame. change (tipIndex (with_bits t1 bs')) with (tipIndex t1).
    unfold ords, ord. split.
    + intros [Hi Hlt]. apply list_elem_of_fmap in Hi as (y & -> & Hy). exists y.
      split; [exact Hy|].
      destruct (ti_index _ _ _ Hidx y (names_below t1 s e s' y Hin Hy)) as (j & Hj & _).
      now rewrite Hj.
    + intros (y & Hy & Hi). split.
      * apply list_elem_of_fmap. exists y. split; [now rewrite Hi|exact Hy].
      * destruct (ti_index _ _ _ Hidx y (names_below t1 s e s' y Hin Hy)) as (j & Hj & Hlt).
        congruence.
Qed.

(** *** Instances on [(((a,b),t2)0.75:1.0,c,d);] *)

Lemma SortedTips_sorted_witness :
  exists l, SortedTips examples.caterpillar = Ret l /\
            l ≡ₚ leaf_names examples.caterpillar (shape_at_root examples.caterpillar) /\
            StronglySorted le_string l.
Proof.
  apply SortedTips_sorted; [apply wfb_sound; vm_compute; reflexivity|vm_compute; lia].
Defined.

Lemma UpdateTipIndex_positions_witness :
  exists t' sorted,
    UpdateTipIndex examples.caterpillar = Ret (tt, t') /\
    SortedTips examples.caterpillar = Ret sorted /\
    nodes t' = nodes examples.caterpillar /\ edges t' = edges examples.caterpillar /\
    root t' = root examples.caterpillar /\
    (forall y i, TipIndex t' y = inl i <->
                 sorted !! i = Some y /\ forall j, i < j -> sorted !! j <> Some y) /\
    (forall y, y ∉ leaf_names examples.caterpillar (shape_at_root examples.caterpillar) ->
       TipIndex t' y = inr (errorsNew ("No tip named " ++ y ++ " in the index"))) /\
    (forall y, ExistsTip t' y
               = (bool_decide (y ∈ leaf_names examples.caterpillar
                                     (shape_at_root examples.caterpillar)), None)).
Proof.
  apply UpdateTipIndex_positions; [apply wfb_sound; vm_compute; reflexivity|vm_compute; lia].
Defined.

Lemma UpdateTipIndex_numbers_witness :
  exists t',
    UpdateTipIndex examples.caterpillar = Ret (tt, t') /\
    wf t' (shape_at_root examples.caterpillar) /\
    size (tipIndex t')
    = length (leaf_names examples.caterpillar (shape_at_root examples.caterpillar)) /\
    tip_index_ok t' (shape_at_root examples.caterpillar)
      (length (leaf_names examples.caterpillar (shape_at_root examples.caterpillar))).
Proof.
  apply UpdateTipIndex_numbers;
    [apply wfb_sound; vm_compute; reflexivity|vm_compute; lia|].
  apply (bool_decide_unpack _). vm_compute. exact I.
Defined.

Lemma ClearBitSets_zeroes_witness :
  ClearBitSets examples.caterpillar
  = Ret (Some (errorsNew "No tips in the index, tip name index is not initialized"),
         examples.caterpillar) /\
  exists t',
    ClearBitSets bits_facts.prepared = Ret (None, t') /\
    bitsets_allocated t' (shape_at_root bits_facts.prepared) 5.
Proof.
  split.
  - apply (ClearBitSets_zeroes examples.caterpillar (shape_at_root examples.caterpillar));
      [apply wfb_sound; vm_compute; reflexivity|vm_compute; reflexivity].
  - destruct (ClearBitSets_zeroes bits_facts.prepared (shape_at_root bits_facts.prepared))
      as [_ H]; [apply wfb_sound; vm_compute; reflexivity|].
    destruct H as (t' & Hrun & _ & _ & _ & _ & _ & Hal); [vm_compute; lia|].
    exists t'. split; [exact Hrun|exact Hal].
Defined.

Lemma index_and_bitsets_witness :
  exists t',
    (UpdateTipIndex;; ClearBitSets;; UpdateBitSet) examples.caterpillar = Ret (None, t') /\
    wf t' (shape_at_root examples.caterpillar) /\
    nodes t' = nodes examples.caterpillar /\ root t' = root examples.caterpillar /\
    tip_index_ok t' (shape_at_root examples.caterpillar)
      (length (leaf_names examples.caterpillar (shape_at_root examples.caterpillar))) /\
    forall e s', (e, s') ∈ shape_subs (shape_at_root examples.caterpillar) ->
      forall i, bit t' e i = true <->
                exists y, y ∈ tip_names t' s' /\ tipIndex t' !! y = Some i.
Proof.
  apply index_and_bitsets;
    [apply wfb_sound; vm_compute; reflexivity|vm_compute; lia|].
  apply (bool_decide_unpack _). vm_compute. exact I.
Defined.

End index_facts.

(* ===================================================================== *)
(** ** Clearing the values of the branches; the taxa to move            *)
(* ===================================================================== *)

Module clear_facts.
Import tree shapes loops booster booster_facts bits edits index_facts.

(** The tree whose edges of the list [l] went through [f]. *)
Definition on_edges (f : Edge -> Edge) (l : list ptr) (t : Tree) : Tree :=
  set_edges t (imap (fun e ed => if decide (e ∈ l) then f ed else ed) (edges t)).

Lemma on_edges_lookup (f : Edge -> Edge) (l : list ptr) (t : Tree) (e : ptr) :
  edges (on_edges f l t) !! e
  = (fun ed => if decide (e ∈ l) then f ed else ed) <$> (edges t !! e).
Proof. unfold on_edges. cbn [edges set_edges]. apply list_lookup_imap. Qed.

Lemma on_edges_step (f : Edge -> Edge) (x : ptr) (l : list ptr) (t : Tree) (ed : Edge) :
  x ∉ l -> edges t !! x = Some ed ->
  on_edges f l (put_edge t x (f ed)) = on_edges f (x :: l) t.
Proof.
  intros Hx Hed. unfold on_edges, put_edge, set_edges. cbn [nodes edges root tipIndex].
  f_equal. apply list_eq. intros i. rewrite !list_lookup_imap.
  destruct (decide (i = x)) as [->|Hne].
  - rewrite list_lookup_insert_eq by (eapply lookup_lt_Some; eassumption).
    unfold ptr in *. rewrite Hed. cbn [fmap option_fmap option_map].
    rewrite decide_False by exact Hx.
    rewrite decide_True by (apply elem_of_cons; now left). reflexivity.
  - rewrite list_lookup_insert_ne by auto.
    destruct (edges t !! i) as [ed'|]; [|reflexivity]. cbn [fmap option_fmap option_map].
    f_equal. destruct (decide (i ∈ l)) as [Hi|Hi].
    + rewrite decide_True by (apply elem_of_cons; now right). reflexivity.
    + rewrite decide_False; [reflexivity|]. intros H.
      apply elem_of_cons in H as [H|H]; contradiction.
Qed.

(** A loop that puts each edge of a list through [f]. *)
Lemma mfold_edges (body : ptr -> M unit) (f : Edge -> Edge) (l : list ptr) :
  (forall e ed t1, edges t1 !! e = Some ed -> body e t1 = Ret (tt, put_edge t1 e (f ed))) ->
  NoDup l -> forall t,
  (forall e, e ∈ l -> is_Some (edges t !! e)) ->
  mfold (fun _ e => body e) l tt t = Ret (tt, on_edges f l t).
Proof.
  intros Hbody. induction l as [|x l IH]; intros Hnd t Hreal.
  - cbn [mfold]. unfold mret. do 2 f_equal. destruct t as [ns es r ti].
    unfold on_edges, set_edges. cbn [nodes edges root tipIndex]. f_equal.
    apply list_eq. intros i. rewrite list_lookup_imap.
    destruct (es !! i); reflexivity.
  - apply NoDup_cons in Hnd as [Hx Hnd].
    destruct (Hreal x) as [ed Hed]; [apply elem_of_cons; now left|].
    cbn [mfold]. unfold mbind. rewrite (Hbody x ed t Hed).
    rewrite IH; [|exact Hnd|].
    + now rewrite (on_edges_step f x l t ed Hx Hed).
    + intros e He. unfold put_edge. cbn [edges set_edges].
      destruct (Hreal e) as [ed' Hed']; [apply elem_of_cons; now right|].
      apply lookup_lt_is_Some. rewrite length_insert. eapply lookup_lt_Some; eassumption.
Qed.

Lemma upd_edge_put (e : ptr) (f : Edge -> Edge) (t : Tree) (ed : Edge) :
  edges t !! e = Some ed -> upd_edge e f t = Ret (tt, put_edge t e (f ed)).
Proof.
  intros H. unfold upd_edge, mbind, get_edge, mread, edge_at. rewrite H. reflexivity.
Qed.

Lemma put_edge_lookup (t : Tree) (e : ptr) (ed ed' : Edge) :
  edges t !! e = Some ed -> edges (put_edge t e ed') !! e = Some ed'.
Proof.
  intros H. unfold put_edge. cbn [edges set_edges]. apply list_lookup_insert_eq.
  eapply lookup_lt_Some; eassumption.
Qed.

Lemma put_put_edge (t : Tree) (e : ptr) (ed1 ed2 : Edge) :
  put_edge (put_edge t e ed1) e ed2 = put_edge t e ed2.
Proof.
  unfold put_edge, set_edges. cbn [nodes edges root tipIndex].
  now rewrite list_insert_insert_eq.
Qed.

Lemma tree_edges_real (t : Tree) (s : shape) (e : ptr) :
  wf t s -> e ∈ shape_edges s -> is_Some (edges t !! e).
Proof.
  intros Hwf He. destruct (edge_has_sub s e He) as (se & Hse).
  destruct (subs_below t s None (wf_rep _ _ Hwf) e se Hse) as ((ed & Hed & _) & _).
  now exists ed.
Qed.

(** What the loops over [Edges] that set a value on each edge leave. *)
Lemma set_all_edges (body : ptr -> M unit) (f : Edge -> Edge) (t : Tree) (s : shape) :
  (forall e ed t1, edges t1 !! e = Some ed -> body e t1 = Ret (tt, put_edge t1 e (f ed))) ->
  (forall ed, e_left (f ed) = e_left ed /\ e_right (f ed) = e_right ed) ->
  wf t s ->
  exists t',
    (let* es := mread Edges in mfold (fun _ e => body e) es tt) t = Ret (tt, t') /\
    wf t' s /\ nodes t' = nodes t /\ root t' = root t /\ tipIndex t' = tipIndex t /\
    forall e ed, edges t !! e = Some ed ->
      edges t' !! e = Some (if decide (e ∈ shape_edges s) then f ed else ed).
Proof.
  intros Hbody Hends Hwf. destruct (traverse_facts.Edges_ok t s Hwf) as [Hes Hnd].
  exists (on_edges f (shape_edges s) t). split; [|split; [|split; [|split; [|split]]]];
    try reflexivity.
  - unfold mbind, mread. rewrite Hes. cbn [obind].
    apply (mfold_edges body f (shape_edges s) Hbody Hnd t).
    intros e He. now apply (tree_edges_real t s).
  - apply (wf_frame t); [|reflexivity|exact Hwf]. split; [eauto|].
    intros e ed Hed. rewrite on_edges_lookup. unfold ptr in *. rewrite Hed.
    cbn [fmap option_fmap option_map]. eexists. split; [reflexivity|].
    match goal with |- context [decide ?P] => destruct (decide P) end;
      [apply Hends|split; reflexivity].
  - intros e ed Hed. rewrite on_edges_lookup. unfold ptr in *. now rewrite Hed.
Qed.

(** [ClearLengths] sets the length of every edge of the tree to
    [NIL_LENGTH], and changes nothing else. *)
Theorem ClearLengths_clears (t : Tree) (s : shape) :
  wf t s ->
  exists t',
    ClearLengths t = Ret (tt, t') /\
    wf t' s /\ nodes t' = nodes t /\ root t' = root t /\ tipIndex t' = tipIndex t /\
    forall e ed, edges t !! e = Some ed ->
      edges t' !! e
      = Some (if decide (e ∈ shape_edges s) then with_length ed NIL_LENGTH else ed).
Proof.
  intros Hwf.
  apply (set_all_edges (fun e => upd_edge e (fun x => with_length x NIL_LENGTH))
           (fun x => with_length x NIL_LENGTH) t s); [| |exact Hwf].
  - intros e ed t1 Hed. exact (upd_edge_put e (fun x => with_length x NIL_LENGTH) t1 ed Hed).
  - intros ed. now split.
Qed.

(** [ClearPvalues] sets the p-value of every edge of the tree to
    [NIL_PVALUE], and changes nothing else. *)
Theorem ClearPvalues_clears (t : Tree) (s : shape) :
  wf t s ->
  exists t',
    ClearPvalues t = Ret (tt, t') /\
    wf t' s /\ nodes t' = nodes t /\ root t' = root t /\ tipIndex t' = tipIndex t /\
    forall e ed, edges t !! e = Some ed ->
      edges t' !! e
      = Some (if decide (e ∈ shape_edges s) then with_pvalue ed NIL_PVALUE else ed).
Proof.
  intros Hwf.
  apply (set_all_edges (fun e => upd_edge e (fun x => with_pvalue x NIL_PVALUE))
           (fun x => with_pvalue x NIL_PVALUE) t s); [| |exact Hwf].
  - intros e ed t1 Hed. exact (upd_edge_put e (fun x => with_pvalue x NIL_PVALUE) t1 ed Hed).
  - intros ed. now split.
Qed.

(** [ClearSupports] sets the support of every edge of the tree to
    [NIL_SUPPORT] and its p-value to [NIL_PVALUE]; the lengths, the ids,
    the bitsets and the nodes are as before. *)
Theorem ClearSupports_clears (t : Tree) (s : shape) :
  wf t s ->
  exists t',
    ClearSupports t = Ret (tt, t') /\
    wf t' s /\ nodes t' = nodes t /\ root t' = root t /\ tipIndex t' = tipIndex t /\
    forall e ed, edges t !! e = Some ed ->
      edges t' !! e
      = Some (if decide (e ∈ shape_edges s)
              then with_pvalue (with_support ed NIL_SUPPORT) NIL_PVALUE else ed).
Proof.
  intros Hwf.
  apply (set_all_edges (fun e => upd_edge e (fun x => with_support x NIL_SUPPORT);;
                                 upd_edge e (fun x => with_pvalue x NIL_PVALUE))
           (fun x => with_pvalue (with_support x NIL_SUPPORT) NIL_PVALUE) t s);
    [| |exact Hwf].
  - intros e ed t1 Hed. unfold mbind. rewrite (upd_edge_put e _ t1 ed Hed).
    rewrite (upd_edge_put e _ _ (with_support ed NIL_SUPPORT))
      by (now apply (put_edge_lookup t1 e ed)).
    now rewrite put_put_edge.
  - intros ed. now split.
Qed.

(** *** Instances on [(((a,b),t2)0.75:1.0,c,d);] *)

Lemma ClearLengths_clears_witness :
  exists t',
    ClearLengths examples.caterpillar = Ret (tt, t') /\
    wf t' (shape_at_root examples.caterpillar) /\
    nodes t' = nodes examples.caterpillar /\ root t' = root examples.caterpillar /\
    tipIndex t' = tipIndex examples.caterpillar /\
    forall e ed, edges examples.caterpillar !! e = Some ed ->
      edges t' !! e
      = Some (if decide (e ∈ shape_edges (shape_at_root examples.caterpillar))
              then with_length ed NIL_LENGTH else ed).
Proof. apply ClearLengths_clears. apply wfb_sound; vm_compute; reflexivity. Defined.

Lemma ClearPvalues_clears_witness :
  exists t',
    ClearPvalues examples.caterpillar = Ret (tt, t') /\
    wf t' (shape_at_root examples.caterpillar) /\
    nodes t' = nodes examples.caterpillar /\ root t' = root examples.caterpillar /\
    tipIndex t' = tipIndex examples.caterpillar /\
    forall e ed, edges examples.caterpillar !! e = Some ed ->
      edges t' !! e
      = Some (if decide (e ∈ shape_edges (shape_at_root examples.caterpillar))
              then with_pvalue ed NIL_PVALUE else ed).
Proof. apply ClearPvalues_clears. apply wfb_sound; vm_compute; reflexivity. Defined.

Lemma ClearSupports_clears_witness :
  exists t',
    ClearSupports examples.caterpillar = Ret (tt, t') /\
    wf t' (shape_at_root examples.caterpillar) /\
    nodes t' = nodes examples.caterpillar /\ root t' = root examples.caterpillar /\
    tipIndex t' = tipIndex examples.caterpillar /\
    forall e ed, edges examples.caterpillar !! e = Some ed ->
      edges t' !! e
      = Some (if decide (e ∈ shape_edges (shape_at_root examples.caterpillar))
              then with_pvalue (with_support ed NIL_SUPPORT) NIL_PVALUE else ed).
Proof. apply ClearSupports_clears. apply wfb_sound; vm_compute; reflexivity. Defined.

End clear_facts.

Module moved_facts.
Import tree support.

Lemma filter_split_length {A} (f : A -> bool) (l : list A) :
  length (List.filter f l) + length (List.filter (fun x => negb (f x)) l) = length l.
Proof.
  induction l as [|x l IH]; [reflexivity|]. cbn [List.filter].
  destruct (f x); cbn [negb length]; lia.
Qed.

Lemma filter_seq_sorted (f : nat -> bool) (a n : nat) :
  StronglySorted lt (List.filter f (seq a n)).
Proof.
  revert a. induction n as [|n IH]; intros a; [constructor|]. cbn [seq List.filter].
  destruct (f a); [|apply IH]. constructor; [apply IH|].
  apply Forall_forall. intros x Hx. apply list_elem_of_In, filter_In in Hx as [Hx _].
  apply in_seq in Hx. lia.
Qed.

(** The list that [speciesToMove] returns has [dist] taxa, at most half of
    the taxa of the reference bitset, in ascending order: they are all the
    taxa on which the two bitsets differ, or all those on which they
    agree. *)
Theorem speciesToMove_smaller_side (e be : Edge) (dist : Z) (l : list nat) :
  speciesToMove e be dist = Ret (inl l) ->
  exists eb bb,
    e_bitset e = Some eb /\ e_bitset be = Some bb /\
    Z.of_nat (length l) = dist /\ 2 * length l <= length eb /\
    StronglySorted lt l /\
    ((forall i, i ∈ l <-> i < length eb /\ bitset_Test i eb <> bitset_Test i bb) \/
     (forall i, i ∈ l <-> i < length eb /\ bitset_Test i eb = bitset_Test i bb)).
Proof.
  unfold speciesToMove. destruct (e_bitset e) as [eb|]; [|discriminate].
  destruct (e_bitset be) as [bb|]; [|discriminate]. cbn [of_option obind]. cbv zeta.
  set (differs := fun i => negb (Bool.eqb (bitset_Test i eb) (bitset_Test i bb))).
  pose proof (filter_split_length differs (seq 0 (length eb))) as Hsplit.
  rewrite length_seq in Hsplit.
  assert (Hd : forall i, differs i = true <-> bitset_Test i eb <> bitset_Test i bb).
  { intros i. unfold differs. rewrite negb_true_iff.
    destruct (bitset_Test i eb), (bitset_Test i bb); cbn; split; congruence. }
  assert (He : forall i, negb (differs i) = true <-> bitset_Test i eb = bitset_Test i bb).
  { intros i. unfold differs. rewrite negb_involutive. apply Bool.eqb_true_iff. }
  subst differs. cbv beta in *.
  intros H. exists eb, bb. split; [reflexivity|]. split; [reflexivity|].
  destruct (Nat.ltb _ _) eqn:Hlt.
  - apply Nat.ltb_lt in Hlt.
    destruct (Z.eqb _ dist) eqn:Hdist; cbn [negb] in H; [|discriminate].
    injection H as <-. apply Z.eqb_eq in Hdist.
    split; [exact Hdist|]. split; [lia|]. split; [apply filter_seq_sorted|]. left.
    intros i. rewrite list_elem_of_In, filter_In, in_seq, Hd. intuition lia.
  - apply Nat.ltb_ge in Hlt.
    destruct (Z.eqb _ dist) eqn:Hdist; cbn [negb] in H; [|discriminate].
    injection H as <-. apply Z.eqb_eq in Hdist.
    split; [exact Hdist|]. split; [lia|]. split; [apply filter_seq_sorted|]. right.
    intros i. rewrite list_elem_of_In, filter_In, in_seq, He. intuition lia.
Qed.

(** Two bitsets over five taxa that differ on the taxon 1. *)
Definition edge_with (b : list bool) : Edge :=
  mkEdge None None NIL_LENGTH NIL_SUPPORT NIL_PVALUE NIL_ID (Some b).

Lemma speciesToMove_smaller_side_witness :
  speciesToMove (edge_with [true; false; false; false; true])
                (edge_with [true; true; false; false; true]) 1 = Ret (inl [1]) /\
  exists eb bb,
    e_bitset (edge_with [true; false; false; false; true]) = Some eb /\
    e_bitset (edge_with [true; true; false; false; true]) = Some bb /\
    Z.of_nat (length [1]) = 1%Z /\ 2 * length [1] <= length eb /\
    StronglySorted lt [1] /\
    ((forall i, i ∈ [1] <-> i < length eb /\ bitset_Test i eb <> bitset_Test i bb) \/
     (forall i, i ∈ [1] <-> i < length eb /\ bitset_Test i eb = bitset_Test i bb)).
Proof.
  split; [vm_compute; reflexivity|].
  apply (speciesToMove_smaller_side _ _ 1 [1]). vm_compute. reflexivity.
Defined.

End moved_facts.

(* ===================================================================== *)
(** ** [Resolve] when there is nothing to resolve                        *)
(* ===================================================================== *)

Module resolve_again.
Import tree shapes loops booster booster_facts resolve resolve_facts.

Lemma mfold_same {A B} (f : B -> A -> M B) (l : list A) (b : B) (t : Tree) :
  (forall x, x ∈ l -> f b x t = Ret (b, t)) -> mfold f l b t = Ret (b, t).
Proof.
  induction l as [|x l IH]; intros H; [reflexivity|]. cbn [mfold]. unfold mbind.
  rewrite (H x) by (apply elem_of_cons; now left).
  apply IH. intros y Hy. apply H, elem_of_cons. now right.
Qed.

Section Small.

Variable rand_Perm : nat -> nat -> list nat.

(** Nothing to resolve below a node: [resolveRecur] leaves the tree as it
    is and draws no permutation. *)
Lemma resolveRecur_small (s : shape) :
  forall (fuel : nat) (prev : option ptr) (k : nat) (t : Tree),
  hold t prev s -> (forall x, x ∈ shape_nodes s -> degree t x <= 3) ->
  depth s <= fuel ->
  resolveRecur rand_Perm fuel (shape_root s) prev k t = Ret (k, t).
Proof.
  induction s as [n kids IH] using shape_ind'. intros fuel prev k t Hh Hdeg Hfuel.
  destruct fuel as [|fuel]; [cbn in Hfuel; lia|].
  inversion Hh as [? ep ? ? nd Hnd Hlen Hadj Hup Hkids]; subst.
  cbn [resolveRecur shape_root]. unfold mbind at 1. unfold get_node at 1.
  unfold mread at 1. unfold node_at. rewrite Hnd. cbn [of_option obind].
  unfold mbind at 1. rewrite mfold_same.
  - unfold mbind at 1. unfold get_node at 1. unfold mread at 1. unfold node_at.
    rewrite Hnd. cbn [of_option obind].
    pose proof (Hdeg n (root_in_nodes (Sh n kids))) as Hn. unfold degree in Hn.
    unfold ptr in *. rewrite Hnd in Hn.
    match goal with |- context [Nat.ltb 3 ?x] => destruct (Nat.ltb 3 x) eqn:H3 end;
      [|reflexivity].
    apply Nat.ltb_lt in H3. lia.
  - intros x Hx. destruct (ptr_eqb (Some x) prev) eqn:Hxp; [reflexivity|]. cbn [negb].
    rewrite <- (adj_fst nd Hlen) in Hx. apply list_elem_of_fmap in Hx as ([x' e] & -> & Hx).
    cbn [fst] in *. rewrite Hadj in Hx. apply elem_of_app in Hx as [Hx|Hx].
    + exfalso. destruct prev as [p|]; cbn [ups] in Hx; [|inversion Hx].
      apply list_elem_of_singleton in Hx. injection Hx as -> _.
      cbn [ptr_eqb] in Hxp. now rewrite Nat.eqb_refl in Hxp.
    + apply list_elem_of_fmap in Hx as (kd & Hkd & Hin). injection Hkd as -> _.
      rewrite Forall_forall in IH, Hkids. destruct (Hkids kd Hin) as [_ Hsub].
      apply (IH kd Hin fuel (Some n) k t Hsub).
      * intros y Hy. apply Hdeg. now apply (kid_nodes_in n kids kd).
      * pose proof (depth_kid n kids kd Hin). unfold kid_sub. lia.
Qed.

End Small.

Lemma tidy_depth (t : Tree) (s : shape) (prev : option ptr) :
  hold t prev s -> NoDup (shape_nodes s) -> depth s <= length (nodes t).
Proof.
  intros Hh Hnd. etransitivity; [apply bits_facts.depth_le_nodes|].
  transitivity (length (seq 0 (length (nodes t)))); [|now rewrite length_seq].
  apply submseteq_length, NoDup_submseteq; [exact Hnd|].
  intros x Hx. apply elem_of_seq. split; [lia|].
  destruct (hold_nodes_real t s prev Hh x Hx) as [nd Hx']. cbn.
  eapply lookup_lt_Some; eassumption.
Qed.

(** [Resolve] leaves a tree without a node of more than three neighbors as
    it is, and draws no permutation. *)
Theorem Resolve_nothing_to_do (rand_Perm : nat -> nat -> list nat) (t : Tree) (s : shape) :
  wf t s -> (forall x, x ∈ shape_nodes s -> degree t x <= 3) ->
  Resolve rand_Perm t = Ret (0, t).
Proof.
  intros Hwf Hdeg. unfold Resolve. unfold mbind at 1. unfold mread at 1. cbn [obind].
  unfold mbind at 1. unfold mread at 1. unfold Root. rewrite (wf_root _ _ Hwf).
  cbn [of_option obind].
  apply (resolveRecur_small rand_Perm s (budget t) None 0 t); [|exact Hdeg|].
  - apply rep_hold, Hwf.
  - pose proof (bits_facts.wf_depth t s Hwf). unfold budget. lia.
Qed.

(** After [Resolve], [Resolve] again changes nothing, whatever the
    generator. *)
Theorem Resolve_twice (rand_Perm : nat -> nat -> list nat) (t : Tree) (s : shape) :
  (forall k l, rand_Perm k l ≡ₚ seq 0 l) -> wf t s ->
  exists k t',
    Resolve rand_Perm t = Ret (k, t') /\
    forall rand_Perm', Resolve rand_Perm' t' = Ret (0, t').
Proof.
  intros Hrand Hwf. pose proof (wf_tidy t s Hwf) as Ht.
  destruct (resolveRecur_ok rand_Perm Hrand s (budget t) t None 0 Ht)
    as (k & t' & s' & Hrun & [Hg Hd]).
  { pose proof (bits_facts.wf_depth t s Hwf). unfold budget. lia. }
  pose proof (gi_tidy _ _ _ _ _ _ Hg) as (Hh' & Hnd' & _).
  exists k, t'. split.
  - unfold Resolve. unfold mbind at 1. unfold mread at 1. cbn [obind].
    unfold mbind at 1. unfold mread at 1. unfold Root. rewrite (wf_root _ _ Hwf).
    cbn [of_option obind]. exact Hrun.
  - intros rand'. unfold Resolve. unfold mbind at 1. unfold mread at 1. cbn [obind].
    unfold mbind at 1. unfold mread at 1. unfold Root.
    rewrite (gi_root _ _ _ _ _ _ Hg), (wf_root _ _ Hwf). cbn [of_option obind].
    rewrite <- (gi_rooted _ _ _ _ _ _ Hg).
    apply (resolveRecur_small rand' s' (budget t') None 0 t' Hh').
    + intros x Hx. destruct (decide (x ∈ shape_nodes s)) as [Hin|Hout].
      * destruct (decide (x = shape_root s)) as [->|Hne]; [rewrite Hd; lia|].
        rewrite (gi_deg_old _ _ _ _ _ _ Hg x Hin Hne); [lia|]. intros H. inversion H.
      * rewrite (gi_deg_new _ _ _ _ _ _ Hg x Hx Hout). lia.
    + pose proof (tidy_depth t' s' None Hh' Hnd'). unfold budget. lia.
Qed.

Lemma forallb_elem {A} (f : A -> bool) (l : list A) (x : A) :
  forallb f l = true -> x ∈ l -> f x = true.
Proof. rewrite forallb_forall. intros H Hx. now apply H, list_elem_of_In. Qed.

Lemma Resolve_nothing_to_do_witness :
  Resolve (fun _ l => seq 0 l) examples.caterpillar = Ret (0, examples.caterpillar).
Proof.
  apply (Resolve_nothing_to_do _ examples.caterpillar (shape_at_root examples.caterpillar)).
  - apply wfb_sound; vm_compute; reflexivity.
  - intros x Hx. apply Nat.leb_le.
    apply (forallb_elem (fun x => Nat.leb (degree examples.caterpillar x) 3)
             (shape_nodes (shape_at_root examples.caterpillar)) x); [|exact Hx].
    vm_compute. reflexivity.
Defined.

Lemma Resolve_twice_witness :
  exists k t',
    Resolve (fun _ l => rev (seq 0 l)) bush = Ret (k, t') /\
    forall rand_Perm', Resolve rand_Perm' t' = Ret (0, t').
Proof.
  apply (Resolve_twice _ bush (shape_at_root bush)).
  - intros k l. symmetry. apply Permutation_rev.
  - apply wfb_sound; vm_compute; reflexivity.
Defined.

End resolve_again.

(* ===================================================================== *)
(** ** [RemoveTips] when no tip is chosen                                *)
(* ===================================================================== *)

Module prune_facts.
Import tree shapes loops booster booster_facts.

Lemma mfold_unchanged {A B} (f : B -> A -> M B) (l : list A) (b : B) (t : Tree) :
  (forall x, x ∈ l -> f b x t = Ret (b, t)) -> mfold f l b t = Ret (b, t).
Proof.
  induction l as [|x l IH]; intros H; [reflexivity|]. cbn [mfold]. unfold mbind.
  rewrite (H x) by (apply elem_of_cons; now left).
  apply IH. intros y Hy. apply H, elem_of_cons. now right.
Qed.

(** The names that [RemoveTips] takes off the tree. *)
Definition chosen (revert : bool) (names : list string) (y : string) : bool :=
  let ok := bool_decide (y ∈ names) in
  ((negb revert && ok) || (revert && negb ok))%bool.

(** [RemoveTips] returns nil and leaves the tree as it is when no tip has a
    name to remove: none of the names given, or with [revert] when all the
    tips are named in the list. *)
Theorem RemoveTips_none_chosen (revert : bool) (names : list string) (t : Tree)
  (s : shape) :
  wf t s ->
  (forall x, x ∈ shape_nodes s -> resolve.degree t x = 1 ->
             chosen revert names (node_name t x) = false) ->
  RemoveTips revert names t = Ret (None, t).
Proof.
  intros Hwf Hnone. destruct (traverse_facts.Tips_ok t s Hwf) as (ns & Hns & Htips & Hin).
  destruct (traverse_facts.Nodes_ok t s Hwf) as [Hns' _]. rewrite Hns' in Hns.
  injection Hns as <-.
  unfold RemoveTips. unfold mbind at 1. unfold mread at 1. rewrite Htips. cbn [obind].
  apply mfold_unchanged. intros x Hx. apply Hin in Hx as [Hx Hdeg].
  specialize (Hnone x Hx Hdeg). unfold resolve.degree in Hdeg. unfold node_name in Hnone.
  unfold mbind, get_node, mread, node_at.
  destruct (nodes t !! x) as [nd|]; [|discriminate]. cbn [of_option obind].
  rewrite Hdeg. cbn [Nat.eqb negb]. unfold chosen in Hnone. cbv zeta in Hnone.
  now rewrite Hnone.
Qed.

Lemma RemoveTips_none_chosen_witness :
  RemoveTips false ["x"; "y"] examples.caterpillar = Ret (None, examples.caterpillar) /\
  RemoveTips true ["a"; "b"; "c"; "d"; "t2"] examples.caterpillar
  = Ret (None, examples.caterpillar).
Proof.
  assert (Hwf : wf examples.caterpillar (shape_at_root examples.caterpillar))
    by (apply wfb_sound; vm_compute; reflexivity).
  split.
  - apply (RemoveTips_none_chosen false _ _ _ Hwf). intros x Hx _.
    apply (resolve_again.forallb_elem
             (fun x => negb (chosen false ["x"; "y"] (node_name examples.caterpillar x)))
             (shape_nodes (shape_at_root examples.caterpillar)) x) in Hx;
      [now apply negb_true_iff in Hx|vm_compute; reflexivity].
  - apply (RemoveTips_none_chosen true _ _ _ Hwf). intros x Hx Hd.
    apply (resolve_again.forallb_elem
             (fun x => implb (Nat.eqb (resolve.degree examples.caterpillar x) 1)
                         (negb (chosen true ["a"; "b"; "c"; "d"; "t2"]
                                  (node_name examples.caterpillar x))))
             (shape_nodes (shape_at_root examples.caterpillar)) x) in Hx;
      [|vm_compute; reflexivity].
    rewrite Hd in Hx. cbn [Nat.eqb implb] in Hx. now apply negb_true_iff in Hx.
Defined.

End prune_facts.

(* ===================================================================== *)
(** ** Rerooting                                                          *)
(* ===================================================================== *)

Module reroot.
Import tree shapes booster resolve.

(** The edge [e] has the nodes [a] and [b] for ends, in one direction or
    the other. *)
Definition touches (t : Tree) (e : ptr) (a b : ptr) : Prop :=
  exists ed, edges t !! e = Some ed /\
    ((e_left ed = Some a /\ e_right ed = Some b) \/
     (e_left ed = Some b /\ e_right ed = Some a)).

(** [held t J up s]: the node at the root of [s] has for neighbors the
    roots of the children of [s], each behind the edge recorded in [s], and
    the node of [up] behind the edge of [up], in any order; the edge to a
    child is related to its two ends by [J]; the same holds below, each
    child seeing its parent behind the edge that the parent sees it
    behind.  With [touches] for [J] the orientation of the edges is left
    open: this is the graph that [ReorderEdges] walks through. *)
Inductive held (t : Tree) (J : ptr -> ptr -> ptr -> Prop)
  : option (ptr * ptr) -> shape -> Prop :=
| held_intro (up : option (ptr * ptr)) (n : ptr) (kids : list (nat * ptr * shape))
    (nd : Node) :
    nodes t !! n = Some nd ->
    length (n_br nd) = length (n_neigh nd) ->
    adj nd ≡ₚ option_list up ++ map down kids ->
    Forall (fun k => J (kid_edge k) n (shape_root (kid_sub k)) /\
                     held t J (Some (n, kid_edge k)) (kid_sub k)) kids ->
    held t J up (Sh n kids).

(** The edges listed at the nodes of the tree are edges of the tree. *)
Definition closed (t : Tree) (s : shape) : Prop :=
  forall x nd e, x ∈ shape_nodes s -> nodes t !! x = Some nd -> e ∈ n_br nd ->
                 e ∈ shape_edges s.

Definition closedb (t : Tree) (s : shape) : bool :=
  forallb (fun x => match nodes t !! x with
                    | Some nd => forallb (fun e => bool_decide (e ∈ shape_edges s)) (n_br nd)
                    | None => true
                    end) (shape_nodes s).

(** An edge with its two ends exchanged. *)
Definition turned (ed : Edge) : Edge := with_ends ed (e_right ed) (e_left ed).

(** [t'] is [t] where some edges of [l] have been turned. *)
Record turns (t : Tree) (l : list ptr) (t' : Tree) : Prop := {
  tu_nodes : nodes t' = nodes t;
  tu_root : root t' = root t;
  tu_tipIndex : tipIndex t' = tipIndex t;
  tu_length : length (edges t') = length (edges t);
  tu_frame : forall e, e ∉ l -> edges t' !! e = edges t !! e;
  tu_edges : forall e ed, edges t !! e = Some ed ->
    edges t' !! e = Some ed \/ edges t' !! e = Some (turned ed)
}.

(** The entries of the lists of a node: the one of its parent, or the one
    of a child. *)
Definition ent : Type := (ptr * ptr) + (nat * ptr * shape).
Definition ent_adj (x : ent) : ptr * ptr :=
  match x with inl a => a | inr k => down k end.
Definition ent_edges (x : ent) : list ptr :=
  match x with inl _ => [] | inr k => kid_edge k :: shape_edges (kid_sub k) end.
Definition ents (up : option (ptr * ptr)) (kids : list (nat * ptr * shape)) : list ent :=
  option_list (inl <$> up) ++ map inr kids.

(** The edges of a shape, each with the node it leaves and the node it
    leads to. *)
Fixpoint arcs (s : shape) : list (ptr * ptr * ptr) :=
  match s with
  | Sh n kids =>
    flat_map (fun k => (n, snd (fst k), shape_root (snd k)) :: arcs (snd k)) kids
  end.

End reroot.

Module reroot_facts.
Import tree shapes loops booster booster_facts resolve resolve_facts edits reroot index_facts.

Lemma closedb_sound (t : Tree) (s : shape) : closedb t s = true -> closed t s.
Proof.
  unfold closedb, closed. rewrite forallb_forall. intros H x nd e Hx Hnd He.
  specialize (H x (proj1 (list_elem_of_In _ _) Hx)). unfold ptr in *. rewrite Hnd in H.
  rewrite forallb_forall in H. specialize (H e (proj1 (list_elem_of_In _ _) He)).
  now apply bool_decide_eq_true in H.
Qed.

Lemma touches_sym (t : Tree) (e a b : ptr) : touches t e a b -> touches t e b a.
Proof. intros (ed & H & [Hx|Hx]); exists ed; split; auto. Qed.

Lemma joins_touches (t : Tree) (e a b : ptr) : joins t e a b -> touches t e a b.
Proof. intros (ed & H & Hl & Hr). exists ed. split; auto. Qed.

Lemma held_kid (t : Tree) J (up : option (ptr * ptr)) (n : ptr)
  (kids : list (nat * ptr * shape)) (kd : nat * ptr * shape) :
  held t J up (Sh n kids) -> kd ∈ kids ->
  J (kid_edge kd) n (shape_root (kid_sub kd)) /\
  held t J (Some (n, kid_edge kd)) (kid_sub kd).
Proof.
  intros H Hkd. inversion H as [? ? ? nd Hnd Hlen Hadj Hkids]; subst.
  rewrite Forall_forall in Hkids. apply (Hkids kd Hkd).
Qed.

(** What [held] looks at: the nodes of the shape, and the edges through
    [J]. *)
Lemma held_frame (t t' : Tree) (J J' : ptr -> ptr -> ptr -> Prop) (s : shape) :
  forall up, held t J up s ->
  (forall x, x ∈ shape_nodes s -> nodes t' !! x = nodes t !! x) ->
  (forall e a b, e ∈ shape_edges s -> J e a b -> J' e a b) ->
  held t' J' up s.
Proof.
  induction s as [n kids IH] using shape_ind'. intros up H Hn HJ.
  inversion H as [? ? ? nd Hnd Hlen Hadj Hkids]; subst.
  apply (held_intro t' J' up n kids nd); try assumption.
  - rewrite Hn by apply (root_in_nodes (Sh n kids)). exact Hnd.
  - rewrite Forall_forall in *. intros k Hk. destruct (Hkids k Hk) as [Hj Hsub]. split.
    + apply HJ; [|exact Hj]. cbn [shape_edges]. apply elem_of_flat_map. exists k.
      split; [exact Hk|]. apply elem_of_cons. now left.
    + apply (IH k Hk _ Hsub).
      * intros x Hx. apply Hn. now apply (kid_nodes_in n kids k).
      * intros e a b He. apply HJ. cbn [shape_edges]. apply elem_of_flat_map. exists k.
        split; [exact Hk|]. apply elem_of_cons. now right.
Qed.

Lemma held_perm (t : Tree) J (up : option (ptr * ptr)) (n : ptr)
  (kids kids' : list (nat * ptr * shape)) :
  kids ≡ₚ kids' -> held t J up (Sh n kids) -> held t J up (Sh n kids').
Proof.
  intros Hp H. inversion H as [? ? ? nd Hnd Hlen Hadj Hkids]; subst.
  apply (held_intro t J up n kids' nd); try assumption.
  - now rewrite <- Hp.
  - now rewrite <- Hp.
Qed.

Lemma held_nodes_real (t : Tree) J (s : shape) :
  forall up, held t J up s -> forall x, x ∈ shape_nodes s -> is_Some (nodes t !! x).
Proof.
  induction s as [n kids IH] using shape_ind'. intros up H x Hx.
  inversion H as [? ? ? nd Hnd Hlen Hadj Hkids]; subst.
  cbn [shape_nodes] in Hx. apply elem_of_cons in Hx as [->|Hx]; [now exists nd|].
  apply elem_of_flat_map in Hx as (kd & Hkd & Hx).
  rewrite Forall_forall in IH, Hkids. destruct (Hkids kd Hkd) as [_ Hsub].
  apply (IH kd Hkd _ Hsub x Hx).
Qed.


Lemma adj_snd (nd : Node) :
  length (n_br nd) = length (n_neigh nd) -> (adj nd).*2 = n_br nd.
Proof. intros H. unfold adj. apply snd_zip. lia. Qed.

Lemma kid_sub_in (n : ptr) (kids : list (nat * ptr * shape)) (k : nat * ptr * shape) :
  k ∈ kids -> (kid_edge k, kid_sub k) ∈ shape_subs (Sh n kids).
Proof.
  intros Hk. cbn [shape_subs]. apply elem_of_flat_map. exists k. split; [exact Hk|].
  apply elem_of_cons. now left.
Qed.

Lemma kid_subs_in (n : ptr) (kids : list (nat * ptr * shape)) (k : nat * ptr * shape)
  (x : ptr * shape) :
  k ∈ kids -> x ∈ shape_subs (kid_sub k) -> x ∈ shape_subs (Sh n kids).
Proof.
  intros Hk Hx. cbn [shape_subs]. apply elem_of_flat_map. exists k. split; [exact Hk|].
  apply elem_of_cons. now right.
Qed.

(** In a well-formed tree whose nodes list edges of the tree only, a child
    sees its parent behind the edge that the parent sees it behind. *)
Lemma hold_held (t : Tree) (s0 : shape) :
  wf t s0 -> closed t s0 ->
  forall s up, hold t (fst <$> up) s ->
  (forall x, x ∈ shape_nodes s -> x ∈ shape_nodes s0) ->
  (forall x, x ∈ shape_subs s -> x ∈ shape_subs s0) ->
  (forall p e, up = Some (p, e) -> (e, s) ∈ shape_subs s0) ->
  held t (joins t) up s.
Proof.
  intros Hwf Hcl. induction s as [n kids IH] using shape_ind'. intros up Hh Hnodes Hsubs Hup.
  inversion Hh as [prev ep ? ? nd Hnd Hlen Hadj Hjoin Hkids]; subst.
  apply (held_intro t (joins t) up n kids nd Hnd Hlen).
  - destruct up as [[p e]|]; [|exact Hadj]. cbn [fmap option_fmap option_map fst ups] in *.
    cbn [option_list]. specialize (Hup p e eq_refl).
    destruct (Hjoin p eq_refl) as (ed & Hed & Hl & Hr).
    assert (Hin : ep ∈ n_br nd).
    { rewrite <- (adj_snd nd Hlen). apply list_elem_of_fmap. exists (p, ep).
      split; [reflexivity|]. rewrite Hadj. apply elem_of_cons. now left. }
    pose proof (Hcl n nd ep (Hnodes n (root_in_nodes (Sh n kids))) Hnd Hin) as Hep.
    destruct (edge_has_sub s0 ep Hep) as (sub' & Hsub').
    destruct (subs_below t s0 None (wf_rep _ _ Hwf) ep sub' Hsub') as ((ed' & Hed' & Hr') & _).
    unfold ptr in *. rewrite Hed in Hed'. injection Hed' as <-.
    assert (Hroot : shape_root sub' = shape_root (Sh n kids))
      by (cbn [shape_root]; congruence).
    destruct (edge_of_node s0 ep e sub' (Sh n kids) (wf_nodes _ _ Hwf) Hsub' Hup Hroot)
      as [-> _].
    exact Hadj.
  - rewrite Forall_forall in *. intros k Hk. destruct (Hkids k Hk) as [Hj Hsub].
    split; [exact Hj|]. apply (IH k Hk (Some (n, kid_edge k))).
    + exact Hsub.
    + intros x Hx. apply Hnodes. now apply (kid_nodes_in n kids k).
    + intros x Hx. apply Hsubs. now apply (kid_subs_in n kids k).
    + intros p e [= <- <-]. apply Hsubs. now apply kid_sub_in.
Qed.

Lemma wf_held (t : Tree) (s : shape) :
  wf t s -> closed t s -> held t (joins t) None s.
Proof.
  intros Hwf Hcl. apply (hold_held t s Hwf Hcl s None); auto.
  - apply rep_hold, Hwf.
  - intros p e H. discriminate.
Qed.

(** Back to [hold]. *)
Lemma held_hold (t : Tree) (s : shape) :
  forall up, held t (joins t) up s ->
  (forall p e, up = Some (p, e) -> joins t e p (shape_root s)) ->
  hold t (fst <$> up) s.
Proof.
  induction s as [n kids IH] using shape_ind'. intros up H Hup.
  inversion H as [? ? ? nd Hnd Hlen Hadj Hkids]; subst.
  apply (hold_intro t (fst <$> up) (default 0 (snd <$> up)) n kids nd Hnd Hlen).
  - destruct up as [[p e]|]; exact Hadj.
  - intros p Hp. destruct up as [[p' e]|]; [|discriminate]. injection Hp as ->.
    apply (Hup p e eq_refl).
  - rewrite Forall_forall in *. intros k Hk. destruct (Hkids k Hk) as [Hj Hsub].
    split; [exact Hj|]. apply (IH k Hk (Some (n, kid_edge k)) Hsub).
    intros p e [= <- <-]. exact Hj.
Qed.


(** *** The same graph hung from another of its nodes *)

Lemma perm_rehang_nodes {A} (a : A) (X U L1 L2 : list A) :
  X ++ (a :: U ++ L1 ++ L2) ++ [] ≡ₚ (a :: L1 ++ X ++ L2) ++ U.
Proof.
  rewrite app_nil_r. rewrite <- Permutation_middle. cbn [app]. apply perm_skip.
  rewrite (Permutation_app_comm (L1 ++ X ++ L2) U).
  rewrite (Permutation_app_comm X (U ++ L1 ++ L2)). rewrite <- !app_assoc.
  apply Permutation_app_head.
  apply Permutation_app_head. apply Permutation_app_comm.
Qed.

Lemma perm_rehang_edges {A} (a : A) (X U L1 L2 : list A) :
  X ++ (a :: U ++ L1 ++ L2) ++ [] ≡ₚ (L1 ++ (a :: X) ++ L2) ++ U.
Proof.
  rewrite app_nil_r. rewrite <- Permutation_middle.
  rewrite (Permutation_app_comm (L1 ++ (a :: X) ++ L2) U).
  rewrite (Permutation_app_comm L1 ((a :: X) ++ L2)). cbn [app].
  rewrite <- Permutation_middle. apply perm_skip.
  rewrite (Permutation_app_comm X (U ++ L1 ++ L2)). rewrite <- !app_assoc.
  apply Permutation_app_head.
  rewrite (Permutation_app_comm L1). rewrite <- !app_assoc.
  apply Permutation_app_swap_app.
Qed.

Lemma perm_pull {A} (U L1 L2 : list A) (a : A) :
  U ++ L1 ++ a :: L2 ≡ₚ a :: U ++ L1 ++ L2.
Proof. rewrite !app_assoc. symmetry. apply Permutation_middle. Qed.

Lemma rehang (t : Tree) (s : shape) :
  forall upk : option (nat * ptr * shape),
  held t (touches t) (down <$> upk) s ->
  (forall k, upk = Some k ->
     touches t (kid_edge k) (shape_root s) (shape_root (kid_sub k)) /\
     held t (touches t) (Some (shape_root s, kid_edge k)) (kid_sub k)) ->
  forall x, x ∈ shape_nodes s ->
  exists s',
    held t (touches t) None s' /\ shape_root s' = x /\
    shape_nodes s' ≡ₚ shape_nodes s ++ flat_map (fun k => shape_nodes (snd k)) (option_list upk) /\
    shape_edges s'
    ≡ₚ shape_edges s
       ++ flat_map (fun k => snd (fst k) :: shape_edges (snd k)) (option_list upk).
Proof.
  induction s as [n kids IH] using shape_ind'. intros upk H Hup x Hx.
  inversion H as [? ? ? nd Hnd Hlen Hadj Hkids]; subst. cbn [shape_root] in Hup.
  assert (Hupk : Forall (fun k => touches t (kid_edge k) n (shape_root (kid_sub k)) /\
                                  held t (touches t) (Some (n, kid_edge k)) (kid_sub k))
                   (option_list upk)).
  { destruct upk as [k|]; [|constructor]. cbn [option_list].
    constructor; [apply (Hup k eq_refl)|constructor]. }
  assert (Hadj' : adj nd ≡ₚ map down (option_list upk ++ kids)).
  { rewrite Hadj, map_app. apply Permutation_app_tail. now destruct upk. }
  cbn [shape_nodes] in Hx. apply elem_of_cons in Hx as [->|Hx].
  - exists (Sh n (option_list upk ++ kids)). split; [|split; [reflexivity|split]].
    + apply (held_intro t (touches t) None n _ nd Hnd Hlen); [exact Hadj'|].
      apply Forall_app. split; assumption.
    + cbn [shape_nodes]. rewrite flat_map_app. cbn [app]. apply perm_skip.
      apply Permutation_app_comm.
    + cbn [shape_edges]. rewrite flat_map_app. apply Permutation_app_comm.
  - apply elem_of_flat_map in Hx as (k & Hk & Hx).
    apply list_elem_of_split in Hk as (l1 & l2 & ->).
    rewrite Forall_forall in IH.
    assert (Hkin : k ∈ l1 ++ k :: l2) by (apply elem_of_app; right; apply elem_of_cons; now left).
    pose proof Hkids as Hkids'. rewrite Forall_forall in Hkids'.
    destruct (Hkids' k Hkin) as [Htk Hsub].
    apply Forall_app in Hkids as [Hk1 Hk2]. apply Forall_cons in Hk2 as [_ Hk2].
    set (rest := option_list upk ++ l1 ++ l2).
    destruct (IH k Hkin (Some (0, kid_edge k, Sh n rest))) with (x := x)
      as (s' & Hs' & Hroot & Hnodes & Hedges).
    + exact Hsub.
    + intros k0 [= <-]. cbn [kid_edge kid_sub fst snd shape_root]. split.
      * now apply touches_sym.
      * apply (held_intro t (touches t) _ n rest nd Hnd Hlen).
        -- rewrite Hadj'. unfold rest. rewrite !map_app. cbn [map].
           apply (perm_pull (map down (option_list upk)) (map down l1) (map down l2)
                    (down k)).
        -- unfold rest. apply Forall_app. split; [assumption|].
           apply Forall_app. split; assumption.
    + exact Hx.
    + exists s'. split; [exact Hs'|]. split; [exact Hroot|]. split.
      * rewrite Hnodes. simpl (option_list (Some _)).
        cbn [flat_map snd shape_nodes]. unfold rest.
        rewrite !flat_map_app. cbn [flat_map]. apply perm_rehang_nodes.
      * rewrite Hedges. simpl (option_list (Some _)).
        cbn [flat_map snd fst shape_edges]. unfold rest.
        rewrite !flat_map_app. cbn [flat_map]. apply perm_rehang_edges.
Qed.


(** *** Turning edges *)

Lemma turned_turned (ed : Edge) : turned (turned ed) = ed.
Proof. now destruct ed. Qed.

Lemma turns_refl (t : Tree) (l : list ptr) : turns t l t.
Proof. constructor; auto. Qed.

Lemma turns_incl (t t' : Tree) (l l' : list ptr) :
  (forall e, e ∈ l -> e ∈ l') -> turns t l t' -> turns t l' t'.
Proof. intros Hin [H1 H2 H3 H4 H5 H6]. constructor; auto. Qed.

Lemma turns_trans (t1 t2 t3 : Tree) (l1 l2 : list ptr) :
  turns t1 l1 t2 -> turns t2 l2 t3 -> turns t1 (l1 ++ l2) t3.
Proof.
  intros [A1 A2 A3 A4 A5 A6] [B1 B2 B3 B4 B5 B6]. constructor; try congruence.
  - intros e He. rewrite B5, A5; [reflexivity| |]; intros H; apply He, elem_of_app; auto.
  - intros e ed Hed. destruct (A6 e ed Hed) as [H|H]; destruct (B6 e _ H) as [H'|H'];
      rewrite ?turned_turned in H'; auto.
Qed.

Lemma turns_one (t : Tree) (e : ptr) (ed : Edge) :
  edges t !! e = Some ed -> turns t [e] (put_edge t e (turned ed)).
Proof.
  intros Hed. unfold put_edge. constructor; cbn [nodes edges root tipIndex set_edges];
    try reflexivity.
  - apply length_insert.
  - intros x Hx. apply list_lookup_insert_ne. intros ->. apply Hx, elem_of_cons. now left.
  - intros x edx Hx. destruct (decide (x = e)) as [->|Hne].
    + right. unfold ptr in *. rewrite Hed in Hx. injection Hx as <-.
      apply list_lookup_insert_eq. eapply lookup_lt_Some; eassumption.
    + left. rewrite list_lookup_insert_ne by auto. exact Hx.
Qed.

Lemma turns_touches (t t' : Tree) (l : list ptr) (e a b : ptr) :
  turns t l t' -> touches t e a b -> touches t' e a b.
Proof.
  intros Ht (ed & Hed & Hends). destruct (tu_edges _ _ _ Ht e ed Hed) as [H|H].
  - exists ed. auto.
  - exists (turned ed). split; [exact H|]. cbn. tauto.
Qed.

Lemma turns_joins (t t' : Tree) (l : list ptr) (e a b : ptr) :
  turns t l t' -> e ∉ l -> joins t e a b -> joins t' e a b.
Proof.
  intros Ht He (ed & Hed & Hends). exists ed. split; [|exact Hends].
  now rewrite (tu_frame _ _ _ Ht e He).
Qed.

Lemma ents_adj (up : option (ptr * ptr)) (kids : list (nat * ptr * shape)) :
  map ent_adj (ents up kids) = option_list up ++ map down kids.
Proof.
  unfold ents. rewrite map_app, map_map. f_equal. now destruct up.
Qed.

Lemma ents_edges (up : option (ptr * ptr)) (n : ptr) (kids : list (nat * ptr * shape)) :
  flat_map ent_edges (ents up kids) = shape_edges (Sh n kids).
Proof.
  unfold ents. rewrite flat_map_app. cbn [shape_edges].
  replace (flat_map ent_edges (option_list (inl <$> up))) with (@nil ptr)
    by now destruct up.
  cbn [app]. induction kids as [|k kids IH]; [reflexivity|].
  cbn [map flat_map]. now rewrite IH.
Qed.

Lemma ents_in (up : option (ptr * ptr)) (kids : list (nat * ptr * shape)) (x : ent) :
  x ∈ ents up kids ->
  match x with inl a => up = Some a | inr k => k ∈ kids end.
Proof.
  unfold ents. intros H. apply elem_of_app in H as [H|H].
  - destruct up as [a|]; cbn in H; [|inversion H].
    apply list_elem_of_singleton in H. now subst x.
  - apply list_elem_of_fmap in H as (k & -> & Hk). exact Hk.
Qed.

Lemma ent_edges_in (l : list ent) (k : nat * ptr * shape) (e : ptr) :
  inr k ∈ l -> e ∈ kid_edge k :: shape_edges (kid_sub k) -> e ∈ flat_map ent_edges l.
Proof. intros Hk He. apply elem_of_flat_map. exists (inr k). split; assumption. Qed.


Lemma ptr_eqb_ne (a b : option ptr) : a <> b -> ptr_eqb a b = false.
Proof.
  intros H. destruct (ptr_eqb a b) eqn:E; [|reflexivity]. apply ptr_eqb_eq in E. contradiction.
Qed.

Lemma ptr_eqb_same (a : option ptr) : ptr_eqb a a = true.
Proof. now apply ptr_eqb_eq. Qed.

(** What the loop of [ReorderEdges] has done once it has been through the
    entries [done] of the node [n]. *)
Definition oriented (t : Tree) (n : ptr) (done : list ent) (t1 : Tree) : Prop :=
  turns t (flat_map ent_edges done) t1 /\
  forall k, inr k ∈ done ->
    joins t1 (kid_edge k) n (shape_root (kid_sub k)) /\
    held t1 (joins t1) (Some (n, kid_edge k)) (kid_sub k).

(** [ReorderEdges] on a subtree whose edges are oriented in any way: every
    edge of the subtree ends oriented from the parent to the child, and
    nothing else changes. *)
Lemma ReorderEdges_ok (s : shape) :
  forall (fuel : nat) (up : option (ptr * ptr)) (t : Tree) (rev : option (list ptr)),
  held t (touches t) up s ->
  NoDup (shape_nodes s) -> NoDup (shape_edges s) ->
  (forall p e, up = Some (p, e) ->
     (p ∉ shape_nodes s) /\ (e ∉ shape_edges s) /\ touches t e p (shape_root s)) ->
  depth s <= fuel ->
  exists t' rev',
    ReorderEdges fuel (shape_root s) (fst <$> up) rev t = Ret ((None, rev'), t') /\
    held t' (joins t') up s /\ turns t (shape_edges s) t'.
Proof.
  induction s as [n kids IH] using shape_ind'.
  intros fuel up t rev Hh Hndn Hnde Hup Hfuel.
  destruct fuel as [|fuel]; [cbn in Hfuel; lia|].
  inversion Hh as [? ? ? nd Hnd Hlen Hadj Hkids]; subst.
  rewrite <- ents_adj in Hadj.
  destruct (Permutation_map_inv _ _ Hadj) as (ents' & Hadj' & Hperm).
  assert (Hedges : flat_map ent_edges ents' ≡ₚ shape_edges (Sh n kids)).
  { rewrite <- (ents_edges up n kids). now apply Permutation_flat_map. }
  assert (Hin' : forall x, x ∈ ents' ->
                   match x with inl a => up = Some a | inr k => k ∈ kids end).
  { intros x Hx. apply ents_in. now rewrite Hperm. }
  cbn [ReorderEdges shape_root]. unfold mbind at 1. unfold get_node at 1.
  unfold mread at 1. unfold node_at. rewrite Hnd. cbn [of_option obind].
  rewrite <- (adj_snd nd Hlen), Hadj'.
  match goal with |- context [mfold ?f _ _] => set (body := f) end.
  assert (Hstep : forall x done todo t1 rev1,
            ents' = done ++ x :: todo -> oriented t n done t1 ->
            exists t2 rev2,
              body rev1 (snd (ent_adj x)) t1 = Ret (rev2, t2) /\
              oriented t n (done ++ [x]) t2).
  { intros x done todo t1 rev1 Hsplit [Ht1 Hdone].
    assert (Hnd' : NoDup (flat_map ent_edges done ++ ent_edges x
                          ++ flat_map ent_edges todo)).
    { rewrite <- Hedges, Hsplit, flat_map_app in Hnde. exact Hnde. }
    apply NoDup_app in Hnd' as (_ & Hdisj & Hnd').
    apply NoDup_app in Hnd' as (Hndx & _ & _).
    assert (Hxin : x ∈ ents')
      by (rewrite Hsplit; apply elem_of_app; right; apply elem_of_cons; now left).
    assert (Hdone_in : forall e, e ∈ flat_map ent_edges done -> e ∈ shape_edges (Sh n kids)).
    { intros e He. rewrite <- Hedges, Hsplit, flat_map_app. apply elem_of_app. now left. }
    destruct x as [[p e]|k].
    - (* the entry of the parent *)
      pose proof (Hin' _ Hxin) as Hupe. cbn in Hupe.
      destruct (Hup p e Hupe) as (Hp & He & (ed & Hed & Hends)). cbn [shape_root] in Hends.
      assert (Hpn : p <> n) by (intros ->; apply Hp, (root_in_nodes (Sh n kids))).
      exists t1, rev1. split.
      + unfold body. cbn [ent_adj snd]. unfold mbind at 1. unfold get_edge at 1.
        unfold mread at 1. unfold edge_at.
        rewrite (tu_frame _ _ _ Ht1 e) by (intros H; apply He, Hdone_in, H).
        unfold ptr in *. rewrite Hed. cbn [of_option obind]. subst up. cbn [fmap option_fmap option_map fst].
        destruct Hends as [[Hl Hr]|[Hl Hr]]; rewrite Hl, Hr.
        * rewrite (ptr_eqb_ne (Some n) (Some p)) by congruence.
          rewrite ptr_eqb_same. reflexivity.
        * rewrite ptr_eqb_same. reflexivity.
      + split.
        * rewrite flat_map_app. cbn [flat_map ent_edges app]. now rewrite !app_nil_r.
        * intros k Hk. apply elem_of_app in Hk as [Hk|Hk]; [now apply Hdone|].
          apply list_elem_of_singleton in Hk. discriminate.
    - (* the entry of a child *)
      pose proof (Hin' _ Hxin) as Hk. cbn in Hk. cbn [ent_edges] in Hndx, Hdisj.
      rewrite Forall_forall in Hkids, IH.
      destruct (Hkids k Hk) as [(ed & Hed & Hends) Hsub].
      set (e := kid_edge k) in *. set (sub := kid_sub k) in *. set (c := shape_root sub) in *.
      apply NoDup_cons in Hndx as [He_sub Hnd_sub].
      assert (He_done : e ∉ flat_map ent_edges done).
      { intros H. apply (Hdisj e H). apply elem_of_cons. now left. }
      assert (Hc : c ∈ shape_nodes sub) by apply root_in_nodes.
      cbn [shape_nodes] in Hndn. apply NoDup_cons in Hndn as [Hn_kids Hnd_kids].
      assert (Hn_sub : n ∉ shape_nodes sub).
      { intros H. apply Hn_kids, elem_of_flat_map. exists k. split; assumption. }
      assert (Hcn : c <> n) by (intros Heq; apply Hn_sub; now rewrite <- Heq).
      assert (Hnd_nodes_sub : NoDup (shape_nodes sub)).
      { apply list_elem_of_split in Hk as (l1 & l2 & ->).
        rewrite flat_map_app in Hnd_kids. cbn [flat_map] in Hnd_kids.
        apply NoDup_app in Hnd_kids as (_ & _ & H). now apply NoDup_app in H as (H & _ & _). }
      assert (Hprev_n : fst <$> up <> Some n).
      { destruct up as [[p ep]|]; [|discriminate]. cbn. intros [= ->].
        destruct (Hup n ep eq_refl) as (H & _). apply H, (root_in_nodes (Sh n kids)). }
      assert (Hprev_c : fst <$> up <> Some c).
      { destruct up as [[p ep]|]; [|discriminate]. cbn. intros [= ->].
        destruct (Hup c ep eq_refl) as (H & _). apply H.
        apply (kid_nodes_in n kids k c Hk Hc). }
      assert (Hed1 : edges t1 !! e = Some ed)
        by (rewrite (tu_frame _ _ _ Ht1 e He_done); exact Hed).
      (* the edge is turned when it points to [n] *)
      assert (Hturn : exists t2 rev2,
                (let* e0 := get_edge e in
                 let* reversed :=
                   (if ptr_eqb (e_right e0) (Some n)
                    then upd_edge e (fun ed => with_ends ed (e_right ed) (e_left ed));;
                         mret (option_map (fun l => l ++ [e]) rev1)
                    else mret rev1) in
                 mret (e0, reversed)) t1 = Ret ((ed, rev2), t2) /\
                turns t1 [e] t2 /\ joins t2 e n c).
      { unfold mbind at 1. unfold get_edge at 1. unfold mread at 1. unfold edge_at.
        unfold ptr in *. rewrite Hed1. cbn [of_option obind].
        destruct Hends as [[Hl Hr]|[Hl Hr]].
        - exists t1, rev1. rewrite Hr. rewrite (ptr_eqb_ne (Some c) (Some n)) by congruence.
          split; [reflexivity|]. split; [apply turns_refl|]. exists ed. auto.
        - exists (put_edge t1 e (turned ed)), (option_map (fun l => l ++ [e]) rev1).
          rewrite Hr, ptr_eqb_same. split; [|split].
          + unfold mbind. unfold upd_edge, mbind, get_edge, mread, edge_at.
            unfold ptr in *. rewrite Hed1. reflexivity.
          + now apply turns_one.
          + exists (turned ed). split; [|cbn; auto].
            unfold put_edge. cbn [edges set_edges]. apply list_lookup_insert_eq.
            eapply lookup_lt_Some; eassumption. }
      destruct Hturn as (t2 & rev2 & Hrun2 & Ht2 & Hj2).
      assert (Ht02 : turns t (flat_map ent_edges done ++ [e]) t2)
        by (eapply turns_trans; eassumption).
      destruct (IH k Hk fuel (Some (n, e)) t2 rev2) as (t3 & rev3 & Hrun3 & Hh3 & Ht3).
      { apply (held_frame t t2 (touches t) (touches t2) sub _ Hsub).
        - intros y _. now rewrite (tu_nodes _ _ _ Ht02).
        - intros e' a b _. apply (turns_touches _ _ _ _ _ _ Ht02). }
      { exact Hnd_nodes_sub. }
      { exact Hnd_sub. }
      { intros p e' [= <- <-]. split; [exact Hn_sub|]. split; [exact He_sub|].
        now apply joins_touches. }
      { pose proof (depth_kid n kids k Hk). unfold sub, kid_sub. lia. }
      exists t3, rev3. split.
      + unfold body. cbn [ent_adj down snd]. fold e.
        destruct Hj2 as (ed2 & Hed2 & Hl2 & Hr2).
        (* the two reads of the edge, before and after the exchange *)
        unfold mbind at 1. unfold get_edge at 1. unfold mread at 1. unfold edge_at.
        unfold ptr in *. rewrite Hed1. cbn [of_option obind].
        match goal with |- (if ?c then _ else _) _ = _ => assert (Hc1 : c = true) end.
        { assert (Hpc : ptr_eqb (Some c) (fst <$> up) = false)
            by (apply ptr_eqb_ne; intros H; apply Hprev_c; symmetry; exact H).
          assert (Hpn : ptr_eqb (Some n) (fst <$> up) = false)
            by (apply ptr_eqb_ne; intros H; apply Hprev_n; symmetry; exact H).
          unfold ptr in *.
          destruct Hends as [[Hl Hr]|[Hl Hr]]; rewrite Hl, Hr, Hpc, Hpn; reflexivity. }
        rewrite Hc1.
        unfold mbind at 1 in Hrun2. unfold get_edge at 1 in Hrun2.
        unfold mread at 1 in Hrun2. unfold edge_at in Hrun2. unfold ptr in *.
        rewrite Hed1 in Hrun2. cbn [of_option obind] in Hrun2.
        unfold mbind at 1. unfold mbind at 1 in Hrun2.
        destruct ((if ptr_eqb (e_right ed) (Some n)
                   then upd_edge e (fun ed0 => with_ends ed0 (e_right ed0) (e_left ed0));;
                        mret (option_map (fun l => l ++ [e]) rev1)
                   else mret rev1) t1) as [[r2 t2']| |] eqn:Hif; try discriminate.
        unfold mret in Hrun2. injection Hrun2 as -> ->.
        unfold mbind at 1. unfold get_edge at 1. unfold mread at 1. unfold edge_at.
        unfold ptr in *. rewrite Hed2. cbn [of_option obind].
        unfold mbind at 1. unfold mread at 1. rewrite Hr2. cbn [of_option obind].
        unfold mbind at 1. cbn [fmap option_fmap option_map fst] in Hrun3.
        change (shape_root (snd k)) with c in Hrun3. rewrite Hrun3. reflexivity.
      + split.
        * rewrite flat_map_app. cbn [flat_map ent_edges]. rewrite app_nil_r. fold e sub.
          apply (turns_incl _ _ ((flat_map ent_edges done ++ [e]) ++ shape_edges sub)).
          { intros y Hy. rewrite <- app_assoc in Hy. exact Hy. }
          eapply turns_trans; eassumption.
        * intros k0 Hk0. apply elem_of_app in Hk0 as [Hk0|Hk0].
          -- destruct (Hdone k0 Hk0) as [Hj0 Hh0].
             assert (Ht13 : turns t1 ([e] ++ shape_edges sub) t3)
               by (eapply turns_trans; eassumption).
             assert (Hfar : forall y, y ∈ kid_edge k0 :: shape_edges (kid_sub k0) ->
                                      y ∉ [e] ++ shape_edges sub).
             { intros y Hy Hy'. apply (Hdisj y); [|apply elem_of_app; left; exact Hy'].
               now apply (ent_edges_in done k0 y). }
             split.
             ++ apply (turns_joins _ _ _ _ _ _ Ht13); [|exact Hj0].
                apply Hfar, elem_of_cons. now left.
             ++ apply (held_frame t1 t3 (joins t1) (joins t3) _ _ Hh0).
                ** intros y _. now rewrite (tu_nodes _ _ _ Ht13).
                ** intros y a b Hy. apply (turns_joins _ _ _ _ _ _ Ht13).
                   apply Hfar, elem_of_cons. now right.
          -- apply list_elem_of_singleton in Hk0. injection Hk0 as ->. fold e sub c. split.
             ++ apply (turns_joins _ _ _ _ _ _ Ht3 He_sub Hj2).
             ++ exact Hh3. }
  assert (Hloop : forall todo done t1 rev1,
            ents' = done ++ todo -> oriented t n done t1 ->
            exists t' rev',
              mfold body ((map ent_adj todo).*2) rev1 t1 = Ret (rev', t') /\
              oriented t n ents' t').
  { induction todo as [|x todo IHt]; intros done t1 rev1 Hsplit Hinv.
    - rewrite app_nil_r in Hsplit. subst done. exists t1, rev1. split; [reflexivity|exact Hinv].
    - destruct (Hstep x done todo t1 rev1 Hsplit Hinv) as (t2 & rev2 & Hrun & Hinv2).
      destruct (IHt (done ++ [x]) t2 rev2) as (t' & rev' & Hrun' & Hinv').
      { rewrite Hsplit, <- app_assoc. reflexivity. }
      { exact Hinv2. }
      exists t', rev'. split; [|exact Hinv'].
      cbn [map fmap list_fmap mfold]. unfold mbind at 1. rewrite Hrun. exact Hrun'. }
  destruct (Hloop ents' [] t rev eq_refl) as (t' & rev' & Hrun & [Ht' Hall]).
  { split; [apply turns_refl|]. intros k Hk. inversion Hk. }
  exists t', rev'. split; [|split].
  - unfold mbind. rewrite Hrun. reflexivity.
  - apply (held_intro t' (joins t') up n kids nd).
    + rewrite (tu_nodes _ _ _ Ht'). exact Hnd.
    + exact Hlen.
    + rewrite Hadj', <- ents_adj. now apply Permutation_map.
    + apply Forall_forall. intros k Hk. apply Hall. rewrite <- Hperm. unfold ents.
      apply elem_of_app. right. apply list_elem_of_fmap. now exists k.
  - apply (turns_incl _ _ _ _ (fun e He => proj1 (elem_of_Permutation_proper _ _ _ Hedges) He) Ht').
Qed.


(** *** From the neighbors in any order back to the positions *)

Lemma kid_positions_lt (neigh : list ptr) (prev : option ptr) (x : nat * ptr) :
  x ∈ kid_positions neigh prev -> fst x < length neigh.
Proof.
  unfold kid_positions. intros H. apply list_elem_of_In, filter_In in H as [H _].
  apply list_elem_of_In, elem_of_lookup_imap in H as (i & c & -> & Hc).
  cbn. eapply lookup_lt_Some; eassumption.
Qed.

(** A subtree described with its neighbors in any order can be described
    with the positions of the neighbors. *)
Lemma tidy_rep (t : Tree) (s : shape) :
  forall prev, tidy t prev s ->
  exists s', rep t prev s' /\ shape_root s' = shape_root s /\
             shape_nodes s' ≡ₚ shape_nodes s /\ shape_edges s' ≡ₚ shape_edges s.
Proof.
  induction s as [n kids IH] using shape_ind'. intros prev Ht.
  pose proof Ht as (Hh & Hndn & Hprev).
  inversion Hh as [? ep ? ? nd Hnd Hlen Hadj Hup Hkids]; subst.
  set (g := fun x : nat * ptr => (snd x, default 0 (n_br nd !! fst x))).
  pose proof (wanted_positions prev (n_br nd) (n_neigh nd) (n_br nd) 0 eq_refl Hlen) as Hw.
  change (List.filter _ (imap _ (n_neigh nd))) with (kid_positions (n_neigh nd) prev) in Hw.
  fold (adj nd) in Hw. fold g in Hw.
  pose proof (wanted_kids t prev ep n kids (adj nd) Ht Hadj) as Hwk. rewrite Hw in Hwk.
  destruct (Permutation_map_inv _ _ Hwk) as (kids2 & Hmap & Hperm).
  assert (Hbuild : forall (kp : list (nat * ptr)) (ks : list (nat * ptr * shape)),
            map g kp = map down ks ->
            (forall x, x ∈ kp -> fst x < length (n_br nd)) ->
            (forall k, k ∈ ks -> k ∈ kids) ->
            exists ks',
              map (fun k => (kid_pos k, shape_root (kid_sub k))) ks' = kp /\
              Forall (fun k =>
                        n_br nd !! kid_pos k = Some (kid_edge k) /\
                        (exists ed, edges t !! kid_edge k = Some ed /\
                                    e_left ed = Some n /\
                                    e_right ed = Some (shape_root (kid_sub k))) /\
                        rep t (Some n) (kid_sub k)) ks' /\
              flat_map (fun k => shape_nodes (snd k)) ks'
              ≡ₚ flat_map (fun k => shape_nodes (snd k)) ks /\
              flat_map (fun k => snd (fst k) :: shape_edges (snd k)) ks'
              ≡ₚ flat_map (fun k => snd (fst k) :: shape_edges (snd k)) ks).
  { induction kp as [|[i c] kp IHkp]; intros [|k ks] Hg Hlt Hin; try discriminate.
    - exists []. repeat split; constructor.
    - cbn [map] in Hg. injection Hg as Hc He Hg.
      destruct (IHkp ks Hg) as (ks' & Hpos & Hall & Hn & He').
      { intros x Hx. apply Hlt, elem_of_cons. now right. }
      { intros x Hx. apply Hin, elem_of_cons. now right. }
      assert (Hk : k ∈ kids) by (apply Hin, elem_of_cons; now left).
      rewrite Forall_forall in IH, Hkids. destruct (Hkids k Hk) as [Hj Hsub].
      destruct (IH k Hk (Some n) (tidy_kid t prev n kids k Ht Hk))
        as (sub' & Hrep & Hroot & Hnodes & Hedges).
      destruct (lookup_lt_is_Some_2 (n_br nd) i) as [e Hie].
      { apply (Hlt (i, c)), elem_of_cons. now left. }
      unfold ptr in *. rewrite Hie in He. change (default 0 (Some e)) with e in He.
      exists ((i, kid_edge k, sub') :: ks'). split; [|split; [|split]].
      + cbn [map kid_pos kid_sub fst snd]. rewrite Hpos. f_equal. f_equal.
        rewrite Hroot. symmetry. exact Hc.
      + constructor; [|exact Hall]. cbn [kid_pos kid_edge kid_sub fst snd]. split; [|split].
        * rewrite Hie. f_equal. exact He.
        * destruct Hj as (ed & Hed & Hl & Hr). exists ed. rewrite Hroot. auto.
        * exact Hrep.
      + cbn [flat_map snd]. now rewrite Hnodes, Hn.
      + cbn [flat_map snd fst]. unfold kid_edge. now rewrite Hedges, He'. }
  destruct (Hbuild (kid_positions (n_neigh nd) prev) kids2 Hmap) as (kids' & Hpos & Hall & Hn & He).
  { intros x Hx. rewrite Hlen. now apply (kid_positions_lt _ prev). }
  { intros k Hk. now rewrite Hperm. }
  exists (Sh n kids'). split; [|split; [reflexivity|split]].
  - apply (rep_intro t prev n kids' nd Hnd Hlen); [now rewrite Hpos| | |exact Hall].
    + assert (Hl1 : length kids' = length kids).
      { transitivity (length (kid_positions (n_neigh nd) prev));
          [rewrite <- Hpos; symmetry; apply length_map|].
        transitivity (length (map g (kid_positions (n_neigh nd) prev)));
          [symmetry; apply length_map|].
        rewrite Hmap, length_map. symmetry. now apply Permutation_length. }
      rewrite Hl1. rewrite <- (adj_length nd Hlen). rewrite (Permutation_length Hadj).
      rewrite length_app, length_map. destruct prev; cbn; lia.
    + intros k c e Hc He' Hcp.
      assert (Hin : (c, e) ∈ adj nd).
      { unfold adj. apply list_elem_of_lookup. exists k.
        apply lookup_zip_with_Some. exists c, e. auto. }
      rewrite Hadj in Hin. apply elem_of_app in Hin as [Hin|Hin].
      * destruct prev as [p|]; cbn [ups] in Hin; [|inversion Hin].
        apply list_elem_of_singleton in Hin. injection Hin as -> ->.
        destruct (Hup p eq_refl) as (ed & Hed & Hl & Hr). exists ed. auto.
      * exfalso. apply list_elem_of_fmap in Hin as (kd & Hkd & Hin). injection Hkd as Hc' _.
        destruct (Hprev c) as [Hout _]; [now symmetry|]. apply Hout. rewrite Hc'.
        apply (kid_nodes_in n kids kd _ Hin), root_in_nodes.
  - cbn [shape_nodes]. apply perm_skip. rewrite Hn. apply Permutation_flat_map.
    now symmetry.
  - cbn [shape_edges]. rewrite He. apply Permutation_flat_map. now symmetry.
Qed.


(** *** [Reroot] *)

Lemma nodes_le (t : Tree) J (s : shape) (up : option (ptr * ptr)) :
  held t J up s -> NoDup (shape_nodes s) -> depth s <= length (nodes t).
Proof.
  intros Hh Hnd. etransitivity; [apply bits_facts.depth_le_nodes|].
  transitivity (length (seq 0 (length (nodes t)))); [|now rewrite length_seq].
  apply submseteq_length, NoDup_submseteq; [exact Hnd|].
  intros x Hx. apply elem_of_seq. split; [lia|].
  destruct (held_nodes_real t J s up Hh x Hx) as [nd Hx']. cbn.
  eapply lookup_lt_Some; eassumption.
Qed.

Lemma existsb_elem (n : ptr) (l : list ptr) :
  existsb (fun n2 => Nat.eqb n2 n) l = bool_decide (n ∈ l).
Proof.
  induction l as [|x l IH]; [reflexivity|]. cbn [existsb]. rewrite IH.
  destruct (Nat.eqb x n) eqn:E.
  - apply Nat.eqb_eq in E. subst x. symmetry. apply bool_decide_eq_true.
    apply elem_of_cons. now left.
  - apply Nat.eqb_neq in E. cbn [orb]. apply bool_decide_ext.
    rewrite elem_of_cons. split; [auto|]. intros [H|H]; [congruence|exact H].
Qed.

(** The run of [Reroot] on a node of the tree. *)
Lemma Reroot_run (t : Tree) (s : shape) (n : ptr) :
  wf t s -> closed t s -> n ∈ shape_nodes s ->
  exists t' s1,
    Reroot n t = Ret (None, t') /\
    held t' (joins t') None s1 /\ shape_root s1 = n /\
    shape_nodes s1 ≡ₚ shape_nodes s /\ shape_edges s1 ≡ₚ shape_edges s /\
    turns (set_root t (Some n)) (shape_edges s) t'.
Proof.
  intros Hwf Hcl Hn. destruct (traverse_facts.Nodes_ok t s Hwf) as [Hnodes _].
  pose proof (wf_held t s Hwf Hcl) as Hj.
  assert (Ht : held t (touches t) None s).
  { apply (held_frame t t (joins t) (touches t) s None Hj); [reflexivity|].
    intros e a b _. apply joins_touches. }
  destruct (rehang t s None Ht) with (x := n) as (s1 & Hs1 & Hroot & Hpn & Hpe).
  { intros k Hk. discriminate. }
  { exact Hn. }
  cbn [option_list flat_map] in Hpn, Hpe. rewrite app_nil_r in Hpn, Hpe.
  set (t0 := set_root t (Some n)).
  assert (Hs0 : held t0 (touches t0) None s1).
  { apply (held_frame t t0 (touches t) (touches t0) s1 None Hs1); [reflexivity|].
    intros e a b _ H. exact H. }
  destruct (ReorderEdges_ok s1 (budget t0) None t0 None Hs0) as (t' & rev' & Hrun & Hh' & Ht').
  { rewrite Hpn. apply Hwf. }
  { rewrite Hpe. apply Hwf. }
  { intros p e H. discriminate. }
  { pose proof (nodes_le t0 _ s1 None Hs0) as H. unfold budget.
    assert (NoDup (shape_nodes s1)) by (rewrite Hpn; apply Hwf). specialize (H H0). lia. }
  exists t', s1. split; [|split; [exact Hh'|split; [exact Hroot|split; [exact Hpn|split; [exact Hpe|]]]]].
  - unfold Reroot. unfold mbind at 1. unfold mread at 1. rewrite Hnodes. cbn [obind].
    rewrite existsb_elem. rewrite (bool_decide_eq_true_2 _ Hn). cbn [negb].
    unfold mbind at 1. unfold mwrite at 1. unfold mbind at 1. unfold mread at 1.
    cbn [obind]. fold t0. unfold mbind. rewrite Hroot in Hrun.
    cbn [fmap option_fmap option_map] in Hrun. rewrite Hrun. reflexivity.
  - apply (turns_incl _ _ (shape_edges s1)); [|exact Ht'].
    intros e He. now rewrite <- Hpe.
Qed.

Lemma Reroot_wf (t : Tree) (s : shape) (n : ptr) :
  wf t s -> closed t s -> n ∈ shape_nodes s ->
  exists t' s',
    Reroot n t = Ret (None, t') /\
    wf t' s' /\ closed t' s' /\ shape_root s' = n /\
    shape_nodes s' ≡ₚ shape_nodes s /\ shape_edges s' ≡ₚ shape_edges s /\
    turns (set_root t (Some n)) (shape_edges s) t'.
Proof.
  intros Hwf Hcl Hn.
  destruct (Reroot_run t s n Hwf Hcl Hn) as (t' & s1 & Hrun & Hh & Hroot & Hpn & Hpe & Ht).
  assert (Htidy : tidy t' None s1).
  { split; [|split].
    - apply (held_hold t' s1 None Hh). intros p e H. discriminate.
    - rewrite Hpn. apply Hwf.
    - intros p H. discriminate. }
  destruct (tidy_rep t' s1 None Htidy) as (s' & Hrep & Hroot' & Hpn' & Hpe').
  exists t', s'. split; [exact Hrun|]. split; [|split; [|split; [|split; [|split]]]].
  - constructor.
    + rewrite (tu_root _ _ _ Ht). cbn. now rewrite Hroot', Hroot.
    + exact Hrep.
    + rewrite Hpn', Hpn. apply Hwf.
    + rewrite Hpe', Hpe. apply Hwf.
  - intros x nd e Hx Hnd He. rewrite Hpe', Hpe. rewrite Hpn', Hpn in Hx.
    rewrite (tu_nodes _ _ _ Ht) in Hnd. apply (Hcl x nd e Hx Hnd He).
  - now rewrite Hroot'.
  - now rewrite Hpn'.
  - now rewrite Hpe'.
  - exact Ht.
Qed.


(** *** Rerooting and back *)

Lemma arcs_kid (n : ptr) (kids : list (nat * ptr * shape)) (k : nat * ptr * shape)
  (x : ptr * ptr * ptr) :
  k ∈ kids -> x ∈ (n, kid_edge k, shape_root (kid_sub k)) :: arcs (kid_sub k) ->
  x ∈ arcs (Sh n kids).
Proof.
  intros Hk Hx. cbn [arcs]. apply elem_of_flat_map. exists k. split; assumption.
Qed.

(** The edges of a graph hung from a node leave this node in one way only. *)
Lemma held_arcs_unique (t : Tree) J1 J2 (s1 : shape) :
  forall s2 up, held t J1 up s1 -> held t J2 up s2 -> shape_root s1 = shape_root s2 ->
  forall x, x ∈ arcs s1 -> x ∈ arcs s2.
Proof.
  induction s1 as [n kids1 IH] using shape_ind'. intros [n2 kids2] up H1 H2 Hroot x Hx.
  cbn [shape_root] in Hroot. subst n2.
  inversion H1 as [? ? ? nd1 Hnd1 _ Hadj1 Hkids1]; subst.
  inversion H2 as [? ? ? nd2 Hnd2 _ Hadj2 Hkids2]; subst.
  unfold ptr in *. rewrite Hnd1 in Hnd2. injection Hnd2 as <-.
  rewrite Hadj1 in Hadj2. apply Permutation_app_inv_l in Hadj2.
  cbn [arcs] in Hx. apply elem_of_flat_map in Hx as (k1 & Hk1 & Hx).
  assert (Hd : down k1 ∈ map down kids2).
  { rewrite <- Hadj2. apply list_elem_of_fmap. now exists k1. }
  apply list_elem_of_fmap in Hd as (k2 & Hd & Hk2). injection Hd as Hc He.
  apply (arcs_kid n kids2 k2 x Hk2). rewrite <- Hc, <- He.
  apply elem_of_cons in Hx as [Hx|Hx]; [apply elem_of_cons; now left|].
  apply elem_of_cons. right. rewrite Forall_forall in IH, Hkids1, Hkids2.
  destruct (Hkids1 k1 Hk1) as [_ Hs1]. destruct (Hkids2 k2 Hk2) as [_ Hs2].
  rewrite <- He in Hs2.
  apply (IH k1 Hk1 (kid_sub k2) (Some (n, kid_edge k1)) Hs1 Hs2 Hc x Hx).
Qed.

Lemma held_arcs (t : Tree) (s : shape) :
  forall up, held t (joins t) up s ->
  forall a e b, (a, e, b) ∈ arcs s -> joins t e a b.
Proof.
  induction s as [n kids IH] using shape_ind'. intros up H a e b Hx.
  inversion H as [? ? ? nd Hnd _ Hadj Hkids]; subst.
  cbn [arcs] in Hx. apply elem_of_flat_map in Hx as (k & Hk & Hx).
  rewrite Forall_forall in IH, Hkids. destruct (Hkids k Hk) as [Hj Hsub].
  apply elem_of_cons in Hx as [Hx|Hx].
  - injection Hx as -> -> ->. exact Hj.
  - apply (IH k Hk _ Hsub a e b Hx).
Qed.

Lemma arcs_edges (s : shape) (e : ptr) :
  e ∈ shape_edges s -> exists a b, (a, e, b) ∈ arcs s.
Proof.
  induction s as [n kids IH] using shape_ind'. intros He.
  cbn [shape_edges] in He. apply elem_of_flat_map in He as (k & Hk & He).
  rewrite Forall_forall in IH. apply elem_of_cons in He as [->|He].
  - exists n, (shape_root (kid_sub k)). apply (arcs_kid n kids k _ Hk).
    apply elem_of_cons. now left.
  - destruct (IH k Hk He) as (a & b & Hab). exists a, b.
    apply (arcs_kid n kids k _ Hk). apply elem_of_cons. now right.
Qed.

Lemma Reroot_there_and_back (t : Tree) (s : shape) (n : ptr) :
  wf t s -> closed t s -> n ∈ shape_nodes s ->
  exists t', Reroot n t = Ret (None, t') /\ Reroot (shape_root s) t' = Ret (None, t).
Proof.
  intros Hwf Hcl Hn.
  destruct (Reroot_wf t s n Hwf Hcl Hn)
    as (t1 & s1 & Hrun1 & Hwf1 & Hcl1 & Hroot1 & Hpn1 & Hpe1 & Ht1).
  assert (Hr : shape_root s ∈ shape_nodes s1) by (rewrite Hpn1; apply root_in_nodes).
  destruct (Reroot_run t1 s1 (shape_root s) Hwf1 Hcl1 Hr)
    as (t2 & s2 & Hrun2 & Hh2 & Hroot2 & Hpn2 & Hpe2 & Ht2).
  exists t1. split; [exact Hrun1|]. rewrite Hrun2. do 2 f_equal.
  (* what the two runs have turned *)
  assert (Ht12 : turns (set_root t (Some (shape_root s))) (shape_edges s ++ shape_edges s) t2).
  { apply (turns_trans _ (set_root t1 (Some (shape_root s)))).
    - destruct Ht1 as [A1 A2 A3 A4 A5 A6]. constructor; auto.
    - apply (turns_incl _ _ (shape_edges s1)); [intros e He; now rewrite <- Hpe1|].
      exact Ht2. }
  assert (Hj : held t (joins t) None s) by now apply wf_held.
  assert (Hu2 : held t2 (touches t2) None s).
  { apply (held_frame t t2 (joins t) (touches t2) s None Hj).
    - intros x _. now rewrite (tu_nodes _ _ _ Ht12).
    - intros e a b _ H. apply (turns_touches _ _ _ _ _ _ Ht12).
      apply joins_touches. exact H. }
  destruct t as [ns es r ti], t2 as [ns2 es2 r2 ti2].
  pose proof (tu_nodes _ _ _ Ht12) as E1. pose proof (tu_tipIndex _ _ _ Ht12) as E3.
  pose proof (tu_root _ _ _ Ht2) as E2. pose proof (wf_root _ _ Hwf) as E2'.
  cbn [nodes root tipIndex set_root] in E1, E2, E3, E2'. subst ns2 ti2 r2 r.
  f_equal. apply list_eq. intros e.
  pose proof (tu_length _ _ _ Ht12) as Hlen. cbn [edges set_root] in Hlen.
  destruct (es !! e) as [ed|] eqn:Hed.
  - destruct (decide (e ∈ shape_edges s)) as [Hin|Hout].
    + destruct (arcs_edges s e Hin) as (a & b & Hab).
      pose proof (held_arcs _ s None Hj a e b Hab) as (ed0 & Hed0 & Hl0 & Hr0).
      cbn [edges] in Hed0. unfold ptr in *. rewrite Hed in Hed0. injection Hed0 as <-.
      assert (Hab2 : (a, e, b) ∈ arcs s2).
      { apply (held_arcs_unique _ _ _ s s2 None Hu2 Hh2); [now rewrite Hroot2|exact Hab]. }
      pose proof (held_arcs _ s2 None Hh2 a e b Hab2) as (ed2 & Hed2 & Hl2 & Hr2).
      cbn [edges] in Hed2. unfold ptr in *. rewrite Hed2. f_equal.
      destruct (tu_edges _ _ _ Ht12 e ed Hed) as [H|H]; cbn [edges] in H;
        unfold ptr in *; rewrite Hed2 in H; injection H as ->; [reflexivity|].
      cbn in Hl2, Hr2. destruct ed as [l0 r0 ? ? ? ? ?]. cbn in *.
      unfold turned, with_ends. cbn. congruence.
    + pose proof (tu_frame _ _ _ Ht12 e) as H. cbn [edges set_root] in H.
      etransitivity; [apply H|exact Hed].
      intros Hx. apply elem_of_app in Hx as [Hx|Hx]; contradiction.
  - apply lookup_ge_None. apply lookup_ge_None in Hed. unfold ptr in *. lia.
Qed.

Lemma Reroot_outside (t : Tree) (s : shape) (n : ptr) :
  wf t s -> n ∉ shape_nodes s ->
  Reroot n t = Ret (Some (errorsNew "The node is not part of the tree"), t).
Proof.
  intros Hwf Hn. destruct (traverse_facts.Nodes_ok t s Hwf) as [Hnodes _].
  unfold Reroot. unfold mbind at 1. unfold mread at 1. rewrite Hnodes. cbn [obind].
  rewrite existsb_elem. now rewrite (bool_decide_eq_false_2 _ Hn).
Qed.


(** *** [RerootFirst] *)

Definition three (t : Tree) (x : ptr) : bool := Nat.eqb (degree t x) 3.

Lemma first_three (t : Tree) (l : list ptr) (found : option ptr) :
  (forall x, x ∈ l -> is_Some (nodes t !! x)) ->
  mfold (fun (found : option ptr) n =>
           match found with
           | Some _ => mret found
           | None =>
             let* nd := get_node n in
             if Nat.eqb (length (n_neigh nd)) 3 then mret (Some n) else mret None
           end) l found t
  = Ret (match found with Some _ => found | None => List.find (three t) l end, t).
Proof.
  revert found. induction l as [|x l IH]; intros found Hreal.
  - cbn. now destruct found.
  - assert (Hreal' : forall y, y ∈ l -> is_Some (nodes t !! y))
      by (intros y Hy; apply Hreal, elem_of_cons; now right).
    cbn [mfold List.find]. unfold mbind at 1. destruct found as [f|].
    + unfold mret at 1. now rewrite IH.
    + destruct (Hreal x) as [nd Hnd]; [apply elem_of_cons; now left|].
      assert (E : three t x = Nat.eqb (length (n_neigh nd)) 3)
        by (unfold three, degree; unfold ptr in *; now rewrite Hnd).
      unfold mbind at 1. unfold get_node, mread, node_at. rewrite Hnd. cbn [of_option obind].
      rewrite E. destruct (Nat.eqb (length (n_neigh nd)) 3); unfold mret at 1;
        now rewrite IH.
Qed.

(** [RerootFirst] reroots on the first node of [Nodes] that has three
    neighbors, and returns an error, the tree left as it is, when no node
    has three neighbors. *)
Theorem RerootFirst_chooses (t : Tree) (s : shape) :
  wf t s ->
  RerootFirst t
  = match List.find (three t) (shape_nodes s) with
    | Some n => Reroot n t
    | None =>
      Ret (Some (errorsNew "No nodes with 3 neighors have been found for rerooting"), t)
    end.
Proof.
  intros Hwf. destruct (traverse_facts.Nodes_ok t s Hwf) as [Hnodes _].
  unfold RerootFirst. unfold mbind at 1. unfold mread at 1. rewrite Hnodes. cbn [obind].
  unfold mbind at 1. rewrite first_three.
  - now destruct (List.find (three t) (shape_nodes s)).
  - intros x Hx. apply (bits_facts.rep_nodes_real t s None (wf_rep _ _ Hwf) x) in Hx.
    now apply lookup_lt_is_Some.
Qed.

(** *** The properties of [Reroot] *)

(** [Reroot] on a node of a well-formed tree returns nil and leaves a
    well-formed tree rooted at the node, with the same nodes and the same
    edges; the nodes are untouched, and the edges are as before but for
    the two ends of some edges of the tree, exchanged. *)
Theorem Reroot_reroots (t : Tree) (s : shape) (n : ptr) :
  wf t s -> closed t s -> n ∈ shape_nodes s ->
  exists t' s',
    Reroot n t = Ret (None, t') /\
    wf t' s' /\ closed t' s' /\ shape_root s' = n /\
    shape_nodes s' ≡ₚ shape_nodes s /\ shape_edges s' ≡ₚ shape_edges s /\
    turns (set_root t (Some n)) (shape_edges s) t'.
Proof. exact (Reroot_wf t s n). Qed.

(** Rerooting on a node and then on the former root gives the tree back,
    as it was. *)
Theorem Reroot_round_trip (t : Tree) (s : shape) (n : ptr) :
  wf t s -> closed t s -> n ∈ shape_nodes s ->
  exists t', Reroot n t = Ret (None, t') /\ Reroot (shape_root s) t' = Ret (None, t).
Proof. exact (Reroot_there_and_back t s n). Qed.

(** [Reroot] on a node that is not in the tree returns an error and leaves
    the tree as it is. *)
Theorem Reroot_not_in_tree (t : Tree) (s : shape) (n : ptr) :
  wf t s -> n ∉ shape_nodes s ->
  Reroot n t = Ret (Some (errorsNew "The node is not part of the tree"), t).
Proof. exact (Reroot_outside t s n). Qed.


(** *** Instances on [(((a,b),t2)0.75:1.0,c,d);], rerooted on the node
    above [a] and [b] *)

Lemma Reroot_reroots_witness :
  exists t' s',
    Reroot 2 examples.caterpillar = Ret (None, t') /\
    wf t' s' /\ closed t' s' /\ shape_root s' = 2 /\
    shape_nodes s' ≡ₚ shape_nodes (shape_at_root examples.caterpillar) /\
    shape_edges s' ≡ₚ shape_edges (shape_at_root examples.caterpillar) /\
    turns (set_root examples.caterpillar (Some 2))
      (shape_edges (shape_at_root examples.caterpillar)) t'.
Proof.
  apply Reroot_reroots.
  - apply wfb_sound; vm_compute; reflexivity.
  - apply closedb_sound; vm_compute; reflexivity.
  - apply (bool_decide_unpack _). vm_compute. exact I.
Defined.

Lemma Reroot_round_trip_witness :
  exists t',
    Reroot 2 examples.caterpillar = Ret (None, t') /\
    Reroot (shape_root (shape_at_root examples.caterpillar)) t'
    = Ret (None, examples.caterpillar).
Proof.
  apply Reroot_round_trip.
  - apply wfb_sound; vm_compute; reflexivity.
  - apply closedb_sound; vm_compute; reflexivity.
  - apply (bool_decide_unpack _). vm_compute. exact I.
Defined.

Lemma Reroot_not_in_tree_witness :
  Reroot 8 examples.caterpillar
  = Ret (Some (errorsNew "The node is not part of the tree"), examples.caterpillar).
Proof.
  apply (Reroot_not_in_tree _ (shape_at_root examples.caterpillar)).
  - apply wfb_sound; vm_compute; reflexivity.
  - apply (bool_decide_unpack _). vm_compute. exact I.
Defined.

Lemma RerootFirst_chooses_witness :
  RerootFirst traverse_facts.stalk
  = match List.find (three traverse_facts.stalk)
            (shape_nodes (shape_at_root traverse_facts.stalk)) with
    | Some n => Reroot n traverse_facts.stalk
    | None =>
      Ret (Some (errorsNew "No nodes with 3 neighors have been found for rerooting"),
           traverse_facts.stalk)
    end.
Proof. apply RerootFirst_chooses. apply wfb_sound; vm_compute; reflexivity. Defined.

End reroot_facts.
